(** * Maneuver scheduling: schedule evaluator, neighborhoods, local search, ILS

    A shallow embedding of the optimisation core of the maneuver scheduling
    solver (problem/problem.cpp, util/common.cpp, util/local_search.cpp,
    neighborhood/*.cpp, algorithm/heuristic/greedy.cpp, neh.cpp and ils.cpp,
    and the report of main.cpp), and the properties of it that are stated by
    the specification, followed by further properties of the code.

    Conventions of the embedding.
    - A C++ [double] that holds a time is a value of [double] below: a
      rational number or +infinity.  Arithmetic on finite values is exact:
      neither the rounding of a sum or of a difference nor the overflow of
      a sum beyond [DBL_MAX] is modelled.  The theorems that depend on a
      sum being finite, or below [DBL_MAX], therefore take the hypothesis
      [within_double_range] and bound every time they speak of by
      [total_work], which leaves a factor of two between these times and
      [DBL_MAX].  The IEEE behaviour of +infinity that the program depends on (inf - inf
      is NaN, and every comparison with NaN is false) is written out in
      [common.compare].
    - [std::vector]s indexed by switch or team are total functions from
      [nat]; an index outside the vector, undefined behaviour in the
      source, reads the function's value there.
    - [std::set<int>] is a list without duplicates, iterated in order.
    - Loops whose trip count is not a priori bounded take fuel. *)

From Stdlib Require Import List Bool Arith ZArith QArith Qabs Lia Lqa Permutation Sorted.
Import ListNotations.

Set Implicit Arguments.
Close Scope Q_scope.
Open Scope nat_scope.

(* ================================================================== *)
(** * Numbers *)

(** The values a time variable takes: finite, or
    [std::numeric_limits<double>::infinity()]. *)
Inductive double : Type :=
| Fin (q : Q)
| PInf.

Definition infinity : double := PInf.

(** [std::numeric_limits<double>::max()], that is (2 - 2^-52) * 2^1023. *)
Definition DBL_MAX : Q := inject_Z (2 ^ 1024 - 2 ^ 971)%Z.

Definition Qltb (a b : Q) : bool := negb (Qle_bool b a).

(** [a + b] on doubles. *)
Definition dadd (a b : double) : double :=
  match a, b with
  | Fin x, Fin y => Fin (x + y)%Q
  | _, _ => PInf
  end.

(** [a < b] on doubles. *)
Definition dlt (a b : double) : bool :=
  match a, b with
  | Fin x, Fin y => Qltb x y
  | Fin _, PInf => true
  | PInf, _ => false
  end.

(** [std::max(a, b)], that is [(a < b) ? b : a]. *)
Definition dmax (a b : double) : double := if dlt a b then b else a.

(** [value != infinity]. *)
Definition is_finite (a : double) : bool :=
  match a with Fin _ => true | PInf => false end.

(** Equality and order of doubles as propositions (finite values are
    compared as rationals). *)
Definition deq (a b : double) : Prop :=
  match a, b with
  | Fin x, Fin y => (x == y)%Q
  | PInf, PInf => True
  | _, _ => False
  end.

Definition dle (a b : double) : Prop :=
  match a, b with
  | Fin x, Fin y => (x <= y)%Q
  | _, PInf => True
  | PInf, Fin _ => False
  end.

(** Vectors indexed by switch or team: assignment [v[k] = x]. *)
Definition upd {A : Type} (v : nat -> A) (k : nat) (x : A) : nat -> A :=
  fun i => if Nat.eqb i k then x else v i.

(* ================================================================== *)
(** * util/common: the epsilon-tolerant comparator *)

Module common.

Definition THRESHOLD : Q := (1 # 100000)%Q.

(** [std::abs(first - second)]; [None] is NaN, the value of
    [inf - inf]. *)
Definition abs_diff (first second : double) : option double :=
  match first, second with
  | Fin a, Fin b => Some (Fin (Qabs (a - b)%Q))
  | Fin _, PInf => Some PInf
  | PInf, Fin _ => Some PInf
  | PInf, PInf => None
  end.

(** [d < THRESHOLD]; false on NaN. *)
Definition below_threshold (d : option double) : bool :=
  match d with
  | Some x => dlt x (Fin THRESHOLD)
  | None => false
  end.

Definition compare (first second : double) : Z :=
  if below_threshold (abs_diff first second) then 0%Z
  else if dlt first second then (-1)%Z else 1%Z.

Definition equal (first second : double) : bool := (compare first second =? 0)%Z.
Definition greater (first second : double) : bool := (compare first second =? 1)%Z.
Definition less (first second : double) : bool := (compare first second =? -1)%Z.
Definition greater_or_equal (first second : double) : bool :=
  negb (compare first second =? -1)%Z.
Definition less_or_equal (first second : double) : bool :=
  negb (compare first second =? 1)%Z.

(** The tuple comparator at [std::tuple<double, double>]:
    lexicographic, moving to the next component on a 0. *)
Definition compare2 (first second : double * double) : Z :=
  let result := compare (fst first) (fst second) in
  if (result =? 0)%Z then
    let result' := compare (snd first) (snd second) in
    if (result' =? 0)%Z then 0%Z else result'
  else result.

Definition less2 (first second : double * double) : bool :=
  (compare2 first second =? -1)%Z.

End common.

(* ================================================================== *)
(** * problem/problem: instance, forward simulator, feasibility *)

Inductive Technology : Type := UNKNOWN | MANUAL | REMOTE.

Definition Technology_eqb (a b : Technology) : bool :=
  match a, b with
  | UNKNOWN, UNKNOWN | MANUAL, MANUAL | REMOTE, REMOTE => true
  | _, _ => false
  end.

(** A schedule: lane [l] is the sequence of switch ids of team [l]. *)
Definition Schedule : Type := list (list nat).

(** [schedule[l]]. *)
Definition lane (schedule : Schedule) (l : nat) : list nat := nth l schedule [].

Definition create_empty_schedule (m : nat) : Schedule := repeat [] (m + 1).

Module Problem.

Record t : Type := mk {
  n : nat;
  m : nat;
  technology : nat -> Technology;
  p : nat -> Q;
  s : nat -> nat -> nat -> Q;
  predecessors : nat -> list nat;
  successors : nat -> list nat
}.

(** State of the forward simulator. *)
Record sim : Type := mk_sim {
  st_t : nat -> double;
  index : nat -> nat;
  location : nat -> nat;
  pendings : nat -> Z;
  count : nat;
  feasibility : bool
}.

Section Simulator.
Variable problem : t.
Variable schedule : Schedule.

(** [pendings[schedule[l][idx]] = predecessors[...].size()] for every
    scheduled operation. *)
Definition init_pendings : nat -> Z :=
  fold_left
    (fun pd l =>
       fold_left
         (fun pd' j => upd pd' j (Z.of_nat (length (predecessors problem j))))
         (lane schedule l) pd)
    (seq 0 (m problem + 1)) (fun _ => 0%Z).

Definition init : sim :=
  {| st_t := upd (fun _ => infinity) 0 (Fin 0);
     index := fun _ => 0;
     location := fun _ => 0;
     pendings := init_pendings;
     count := 0;
     feasibility := true |}.

(** "Wait predecessor maneuvers": [t[j] = max(t[j], t[k] + p[k])]. *)
Definition wait_predecessors (j : nat) (tv : nat -> double) : nat -> double :=
  fold_left
    (fun tv' k => upd tv' j (dmax (tv' j) (dadd (tv' k) (Fin (p problem k)))))
    (predecessors problem j) tv.

(** "Update the pending counters": [--pendings[k]]. *)
Definition release_successors (j : nat) (pd : nat -> Z) : nat -> Z :=
  fold_left (fun pd' k => upd pd' k (pd' k - 1)%Z) (successors problem j) pd.

(** Body of the loop over lanes, for lane [l]. *)
Definition visit_lane (st : sim) (l : nat) : sim :=
  if index st l <? length (lane schedule l) then
    let j := nth (index st l) (lane schedule l) 0 in
    if (pendings st j =? 0)%Z then
      let i := location st l in
      let t0 :=
        if negb (l =? 0) then
          upd (st_t st) j
            (dadd (dadd (st_t st i) (Fin (p problem i))) (Fin (s problem i j l)))
        else upd (st_t st) j (Fin 0) in
      {| st_t := wait_predecessors j t0;
         index := upd (index st) l (index st l + 1);
         location := upd (location st) l j;
         pendings := release_successors j (pendings st);
         count := count st + 1;
         feasibility := true |}
    else st
  else st.

(** One round: body of the while loop. *)
Definition round (st : sim) : sim :=
  fold_left visit_lane (seq 0 (m problem + 1))
    {| st_t := st_t st; index := index st; location := location st;
       pendings := pendings st; count := count st; feasibility := false |}.

(** [while (count < n && feasibility)]. *)
Fixpoint rounds (fuel : nat) (st : sim) : sim :=
  match fuel with
  | O => st
  | S fuel' =>
      if (count st <? n problem) && feasibility st
      then rounds fuel' (round st)
      else st
  end.

(** Every round that does not end the loop releases an operation, so
    [n + 1] rounds are enough (lemma [rounds_exit]). *)
Definition final : sim := rounds (n problem + 1) init.

Definition start_time : nat -> double := st_t final.

Definition makespan : double :=
  fold_left
    (fun mk i => dmax mk (dadd (start_time i) (Fin (p problem i))))
    (seq 1 (n problem)) (Fin 0).

(** [++assignment[i]] over lanes 0..m; [None] is the early
    [return false] on an id outside 1..n. *)
Definition count_assignments : option (nat -> nat) :=
  fold_left
    (fun acc l =>
       fold_left
         (fun acc' i =>
            match acc' with
            | None => None
            | Some a =>
                if (i <? 1) || (n problem <? i) then None
                else Some (upd a i (a i + 1))
            end)
         (lane schedule l) acc)
    (seq 0 (m problem + 1)) (Some (fun _ => 0)).

(** The result of [is_feasible]; the message written through [msg] is
    not modelled. *)
Definition is_feasible : bool :=
  if negb (length schedule =? m problem + 1) then false
  else
    match count_assignments with
    | None => false
    | Some assignment =>
        if negb (forallb (fun i => assignment i =? 1) (seq 1 (n problem)))
        then false
        else if negb (forallb
                        (fun i => Technology_eqb (technology problem i) REMOTE)
                        (lane schedule 0))
        then false
        else if negb (forallb
               (fun l => forallb
                  (fun i => Technology_eqb (technology problem i) MANUAL)
                  (lane schedule l))
               (seq 1 (m problem)))
        then false
        else
          let tv := start_time in
          forallb
            (fun j => forallb
               (fun i => negb (common.less (tv j) (tv i)))
               (predecessors problem j))
            (seq 1 (n problem))
    end.

End Simulator.

End Problem.

(** [common::evaluate]: (makespan, sum of completions).  The flag
    [feasible] is computed by the source and never read. *)
Definition evaluate (problem : Problem.t) (schedule : Schedule) : double * double :=
  let tv := Problem.start_time problem schedule in
  let feasible :=
    forallb (fun i => is_finite (tv i)) (seq 0 (Problem.n problem + 1)) in
  let '(makespan, sum_completions) :=
    fold_left
      (fun acc l =>
         if negb (length (lane schedule l) =? 0) then
           let i := nth (length (lane schedule l) - 1) (lane schedule l) 0 in
           (dmax (fst acc) (dadd (tv i) (Fin (Problem.p problem i))),
            dadd (snd acc) (dadd (tv i) (Fin (Problem.p problem i))))
         else acc)
      (seq 1 (Problem.m problem)) (Fin 0, Fin 0) in
  let makespan :=
    fold_left
      (fun mk i => dmax mk (dadd (tv i) (Fin (Problem.p problem i))))
      (lane schedule 0) makespan in
  (makespan, sum_completions).

(* ================================================================== *)
(** * Vector operations used by the moves *)

(** [v.erase(v.begin() + idx)]. *)
Definition erase (v : list nat) (idx : nat) : list nat :=
  firstn idx v ++ skipn (S idx) v.

(** [v.insert(v.begin() + idx, x)]. *)
Definition insert_at (v : list nat) (idx : nat) (x : nat) : list nat :=
  firstn idx v ++ x :: skipn idx v.

(** [v[idx] = x]. *)
Fixpoint assign {A : Type} (v : list A) (idx : nat) (x : A) : list A :=
  match v, idx with
  | [], _ => []
  | _ :: v', O => x :: v'
  | y :: v', S idx' => y :: assign v' idx' x
  end.

(** [schedule[l] = v]. *)
Definition set_lane (schedule : Schedule) (l : nat) (v : list nat) : Schedule :=
  assign schedule l v.

(** A solution with its evaluation:
    [std::tuple<Schedule, std::tuple<double, double>>]. *)
Definition entry : Type := (Schedule * (double * double))%type.

(* ================================================================== *)
(** * neighborhood/: the move families and their [best] *)

(** The interface [Neighborhood].  ([any] is used by none of the drivers
    and is left out of the record; the four [any] methods are embedded
    apart, below.) *)
Record Neighborhood : Type := {
  best : Problem.t -> entry -> entry
}.

(** The part all [best] methods share: every neighbor is evaluated in
    enumeration order and replaces the best one so far when it compares
    less. *)
Definition scan (problem : Problem.t) (neighbors : list Schedule) (e : entry) : entry :=
  fold_left
    (fun (b : entry) neighbor_schedule =>
       let neighbor_eval := evaluate problem neighbor_schedule in
       if common.less2 neighbor_eval (snd b)
       then (neighbor_schedule, neighbor_eval)
       else b)
    neighbors e.

Module Shift.

Definition neighbors (problem : Problem.t) (start_schedule : Schedule) : list Schedule :=
  flat_map (fun l =>
    let size := length (lane start_schedule l) in
    flat_map (fun idx_origin =>
      flat_map (fun idx_target =>
        if negb (idx_target =? idx_origin) then
          let i := nth idx_origin (lane start_schedule l) 0 in
          [set_lane start_schedule l
             (insert_at (erase (lane start_schedule l) idx_origin) idx_target i)]
        else [])
        (seq 0 size))
      (seq 0 size))
    (seq 0 (Problem.m problem + 1)).

Definition best (problem : Problem.t) (e : entry) : entry :=
  scan problem (neighbors problem (fst e)) e.

Definition neighborhood : Neighborhood := Build_Neighborhood best.

End Shift.

Module Exchange.

Definition neighbors (problem : Problem.t) (start_schedule : Schedule) : list Schedule :=
  flat_map (fun l =>
    let size := length (lane start_schedule l) in
    if 2 <=? size then
      flat_map (fun idx1 =>
        flat_map (fun idx2 =>
          let i_1 := nth idx1 (lane start_schedule l) 0 in
          let i_2 := nth idx2 (lane start_schedule l) 0 in
          [set_lane start_schedule l
             (assign (assign (lane start_schedule l) idx1 i_2) idx2 i_1)])
          (seq (idx1 + 1) (size - (idx1 + 1))))
        (seq 0 (size - 1))
    else [])
    (seq 0 (Problem.m problem + 1)).

Definition best (problem : Problem.t) (e : entry) : entry :=
  scan problem (neighbors problem (fst e)) e.

Definition neighborhood : Neighborhood := Build_Neighborhood best.

End Exchange.

Module Reassignment.

Definition neighbors (problem : Problem.t) (start_schedule : Schedule) : list Schedule :=
  flat_map (fun l_origin =>
    flat_map (fun idx_origin =>
      flat_map (fun l_target =>
        if negb (l_target =? l_origin) then
          flat_map (fun idx_target =>
            let i := nth idx_origin (lane start_schedule l_origin) 0 in
            let erased :=
              set_lane start_schedule l_origin
                (erase (lane start_schedule l_origin) idx_origin) in
            [set_lane erased l_target (insert_at (lane erased l_target) idx_target i)])
            (seq 0 (length (lane start_schedule l_target) + 1))
        else [])
        (seq 1 (Problem.m problem)))
      (seq 0 (length (lane start_schedule l_origin))))
    (seq 1 (Problem.m problem)).

Definition best (problem : Problem.t) (e : entry) : entry :=
  scan problem (neighbors problem (fst e)) e.

Definition neighborhood : Neighborhood := Build_Neighborhood best.

End Reassignment.

Module DirectSwap.

Definition neighbors (problem : Problem.t) (start_schedule : Schedule) : list Schedule :=
  flat_map (fun l1 =>
    if 0 <? length (lane start_schedule l1) then
      flat_map (fun l2 =>
        if 0 <? length (lane start_schedule l2) then
          flat_map (fun idx1 =>
            flat_map (fun idx2 =>
              let i_1 := nth idx1 (lane start_schedule l1) 0 in
              let i_2 := nth idx2 (lane start_schedule l2) 0 in
              let first :=
                set_lane start_schedule l1 (assign (lane start_schedule l1) idx1 i_2) in
              [set_lane first l2 (assign (lane first l2) idx2 i_1)])
              (seq 0 (length (lane start_schedule l2))))
            (seq 0 (length (lane start_schedule l1)))
        else [])
        (seq (l1 + 1) (Problem.m problem - l1))
    else [])
    (seq 1 (Problem.m problem)).

Definition best (problem : Problem.t) (e : entry) : entry :=
  scan problem (neighbors problem (fst e)) e.

Definition neighborhood : Neighborhood := Build_Neighborhood best.

End DirectSwap.

Module Swap.

(** Modelled from the spec: neighborhood/swap.h and swap.cpp, which
    [ILS::solve] includes and instantiates, are not among the sources.
    The spec reserves the slot for a variant of DirectSwap that "may be
    implemented identically"; it is. *)
Definition best (problem : Problem.t) (e : entry) : entry :=
  DirectSwap.best problem e.

Definition neighborhood : Neighborhood := Build_Neighborhood best.

End Swap.

(* ================================================================== *)
(** * The random number generator *)

(** [std::mt19937] seen from outside: the sequence of its outputs and how
    many have been drawn. *)
Record mt19937 : Type := {
  outputs : nat -> nat;
  position : nat
}.

(** [generator()]. *)
Definition draw (generator : mt19937) : nat * mt19937 :=
  (outputs generator (position generator),
   {| outputs := outputs generator; position := position generator + 1 |}).

(* ================================================================== *)
(** * util/local_search *)

Module local_search.

(** [standard]: the search over one neighborhood.  [None] when the fuel
    runs out before a trial fails to improve. *)
Fixpoint standard (fuel : nat) (problem : Problem.t) (e : entry)
         (neighborhood : Neighborhood) : option entry :=
  match fuel with
  | O => None
  | S fuel' =>
      let trial := best neighborhood problem e in
      if common.less2 (snd trial) (snd e)
      then standard fuel' problem trial neighborhood
      else Some e
  end.

(** [vnd]: [k] is the rest of the list from the iterator on.  [None]
    when the fuel runs out before [k] reaches the end of the list. *)
Fixpoint vnd_loop (fuel : nat) (problem : Problem.t)
         (neighborhoods k : list Neighborhood) (incumbent : entry) : option entry :=
  match k with
  | [] => Some incumbent
  | neighborhood :: k' =>
      match fuel with
      | O => None
      | S fuel' =>
          let trial := best neighborhood problem incumbent in
          if common.less2 (snd trial) (snd incumbent)
          then vnd_loop fuel' problem neighborhoods neighborhoods trial
          else vnd_loop fuel' problem neighborhoods k' incumbent
      end
  end.

Definition vnd (fuel : nat) (problem : Problem.t) (e : entry)
           (neighborhoods : list Neighborhood) : option entry :=
  vnd_loop fuel problem neighborhoods neighborhoods e.

(** [available_neighborhoods.erase(begin() + idx)]. *)
Definition remove_at {A : Type} (v : list A) (idx : nat) : list A :=
  firstn idx v ++ skipn (S idx) v.

Fixpoint rvnd_loop (fuel : nat) (problem : Problem.t)
         (neighborhoods available_neighborhoods : list Neighborhood)
         (incumbent : entry) (generator : mt19937) : option (entry * mt19937) :=
  match available_neighborhoods with
  | [] => Some (incumbent, generator)
  | default :: _ =>
      match fuel with
      | O => None
      | S fuel' =>
          let (r, generator') := draw generator in
          let idx := r mod length available_neighborhoods in
          let neighborhood := nth idx available_neighborhoods default in
          let available' := remove_at available_neighborhoods idx in
          let trial := best neighborhood problem incumbent in
          if common.less2 (snd trial) (snd incumbent)
          then rvnd_loop fuel' problem neighborhoods neighborhoods trial generator'
          else rvnd_loop fuel' problem neighborhoods available' incumbent generator'
      end
  end.

Definition rvnd (fuel : nat) (problem : Problem.t) (e : entry)
           (neighborhoods : list Neighborhood) (generator : mt19937)
  : option (entry * mt19937) :=
  rvnd_loop fuel problem neighborhoods neighborhoods e generator.

End local_search.

(* ================================================================== *)
(** * algorithm/heuristic/greedy *)

Definition qmax (a b : Q) : Q := if Qltb a b then b else a.

Module Greedy.

(** The local variables of [Greedy::solve].  Greedy's own start times
    and makespan are sums and maxima of finite values: they are kept as
    rationals (exact sums, see the conventions). *)
Record state : Type := mk_state {
  schedule : Schedule;
  makespan : Q;
  S_manual : list nat;
  S_remote : list nat;
  t : nat -> Q;
  gamma : nat -> Z;
  phi : nat -> nat
}.

Section Solve.
Variable problem : Problem.t.

Definition has_technology (x : Technology) (i : nat) : bool :=
  Technology_eqb (Problem.technology problem i) x.

(** State after the initialisation loop over [i = 1..n]. *)
Definition init : state :=
  {| schedule := create_empty_schedule (Problem.m problem);
     makespan := 0%Q;
     S_manual := filter (has_technology MANUAL) (seq 1 (Problem.n problem));
     S_remote := filter (has_technology REMOTE) (seq 1 (Problem.n problem));
     t := fun _ => 0%Q;
     gamma := fun i =>
                if (1 <=? i) && (i <=? Problem.n problem)
                then Z.of_nat (length (Problem.predecessors problem i))
                else 0%Z;
     phi := fun _ => 0 |}.

(** [t[j] = max(t[j], t[i] + p[i])] over the predecessors of [j]. *)
Definition wait_predecessors (j : nat) (tv : nat -> Q) : nat -> Q :=
  fold_left
    (fun tv' i => upd tv' j (qmax (tv' j) (tv' i + Problem.p problem i)%Q))
    (Problem.predecessors problem j) tv.

(** [--gamma[i]] over the successors of [j]. *)
Definition release_successors (j : nat) (g : nat -> Z) : nat -> Z :=
  fold_left (fun g' i => upd g' i (g' i - 1)%Z) (Problem.successors problem j) g.

(** The branch [gamma[*j] == 0] of the loop over [S_remote]. *)
Definition schedule_remote (st : state) (j : nat) : state :=
  {| schedule := set_lane (schedule st) 0 (lane (schedule st) 0 ++ [j]);
     makespan := makespan st;
     S_manual := S_manual st;
     S_remote := remove Nat.eq_dec j (S_remote st);
     t := wait_predecessors j (upd (t st) j 0%Q);
     gamma := release_successors j (gamma st);
     phi := phi st |}.

(** One pass of the iterator over [S_remote]; the flag is [stop]. *)
Definition drain_pass (st : state) : state * bool :=
  fold_left
    (fun (acc : state * bool) j =>
       if (gamma (fst acc) j =? 0)%Z
       then (schedule_remote (fst acc) j, false)
       else acc)
    (S_remote st) (st, true).

(** [while (!stop)]. *)
Fixpoint drain (fuel : nat) (st : state) : option state :=
  match fuel with
  | O => None
  | S fuel' =>
      let (st', stop) := drain_pass st in
      if stop then Some st' else drain fuel' st'
  end.

(** The search for the pair (switch, team) of least criterion.  [None]
    is the state in which [criterion] still holds
    [numeric_limits<double>::max()] and [j], [l] are not initialised: a
    trial leaves it only by a criterion strictly below [DBL_MAX]. *)
Definition choose (st : state) : option (Q * nat * nat) :=
  fold_left
    (fun acc j_trial =>
       if (gamma st j_trial =? 0)%Z then
         fold_left
           (fun acc' l_trial =>
              let criterion_trial :=
                (t st (phi st l_trial) + Problem.p problem (phi st l_trial)
                 + Problem.s problem (phi st l_trial) j_trial l_trial)%Q in
              let criterion :=
                match acc' with
                | None => DBL_MAX
                | Some (criterion, _, _) => criterion
                end in
              if Qltb criterion_trial criterion
              then Some (criterion_trial, j_trial, l_trial)
              else acc')
           (seq 1 (Problem.m problem)) acc
       else acc)
    (S_manual st) None.

Definition schedule_manual (st : state) (j l : nat) : state :=
  let tv :=
    wait_predecessors j
      (upd (t st) j
         (t st (phi st l) + Problem.p problem (phi st l)
          + Problem.s problem (phi st l) j l)%Q) in
  {| schedule := set_lane (schedule st) l (lane (schedule st) l ++ [j]);
     makespan := qmax (makespan st) (tv j + Problem.p problem j)%Q;
     S_manual := remove Nat.eq_dec j (S_manual st);
     S_remote := S_remote st;
     t := tv;
     gamma := release_successors j (gamma st);
     phi := upd (phi st) l j |}.

(** [while (S_manual.size() + S_remote.size() > 0)].  [None]: the
    loop does not end, or it reads [j] and [l] uninitialised. *)
Fixpoint loop (fuel : nat) (st : state) : option state :=
  if length (S_manual st) + length (S_remote st) =? 0 then Some st
  else
    match fuel with
    | O => None
    | S fuel' =>
        match drain (length (S_remote st) + 1) st with
        | None => None
        | Some st1 =>
            if 0 <? length (S_manual st1) then
              match choose st1 with
              | None => None
              | Some (_, j, l) => loop fuel' (schedule_manual st1 j l)
              end
            else loop fuel' st1
        end
    end.

(** Every pass through the loop body that changes nothing repeats for
    ever, and one that changes something schedules an operation:
    [n] passes are enough whenever the loop ends. *)
Definition run : option state := loop (Problem.n problem) init.

Definition solve : option (Schedule * Q) :=
  match run with
  | Some st => Some (schedule st, makespan st)
  | None => None
  end.

End Solve.

End Greedy.

(* ================================================================== *)
(** * algorithm/heuristic/ils *)

Module ILS.

Record options : Type := {
  iterations_limit : nat;
  time_limit : double;
  perturbation_passes_limit : nat;
  randomized_vnd : bool;
  (** The generator after [generator.seed(seed)]. *)
  seeded : mt19937;
  (** [timer.count<seconds>()] as read by the loop test before
      iteration [k + 1]. *)
  elapsed : nat -> Q
}.

Definition neighborhoods : list Neighborhood :=
  [Shift.neighborhood; Exchange.neighborhood; Reassignment.neighborhood;
   DirectSwap.neighborhood; Swap.neighborhood].

Section Driver.
(** [std::shuffle(first, last, generator)]: the standard library's. *)
Variable shuffle : list nat -> mt19937 -> list nat * mt19937.
Variable problem : Problem.t.

(** "Try to perform the movement": the loop over the shuffled
    insertion positions.  [Some]: the move was committed ([success]);
    [None]: every position was undone, and the schedule is the one
    given. *)
Fixpoint try_insert (sched : Schedule) (l_target operation : nat)
         (indexes : list nat) : option entry * Schedule :=
  match indexes with
  | [] => (None, sched)
  | idx_target :: indexes' =>
      let inserted :=
        set_lane sched l_target (insert_at (lane sched l_target) idx_target operation) in
      let current_evaluation := evaluate problem inserted in
      if is_finite (fst current_evaluation)
      then (Some (inserted, current_evaluation), inserted)
      else
        let undone :=
          set_lane inserted l_target (erase (lane inserted l_target) idx_target) in
        try_insert undone l_target operation indexes'
  end.

(** Body of the loop over the chain, at position [idx]. *)
Definition eject (chain : list nat) (acc : entry * mt19937) (idx : nat)
  : entry * mt19937 :=
  let '((sched, evaluation), generator) := acc in
  let l_origin := nth idx chain 0 in
  let l_target := nth ((idx + 1) mod length chain) chain 0 in
  if negb (length (lane sched l_origin) =? 0) then
    let (r, generator1) := draw generator in
    let idx_origin := r mod length (lane sched l_origin) in
    let operation := nth idx_origin (lane sched l_origin) 0 in
    let erased := set_lane sched l_origin (erase (lane sched l_origin) idx_origin) in
    let (indexes, generator2) :=
      shuffle (seq 0 (length (lane erased l_target) + 1)) generator1 in
    match try_insert erased l_target operation indexes with
    | (Some moved, _) => (moved, generator2)
    | (None, sched') =>
        ((set_lane sched' l_origin (insert_at (lane sched' l_origin) idx_origin operation),
          evaluation), generator2)
    end
  else acc.

Definition perturb (e : entry) (generator : mt19937) : entry * mt19937 :=
  let (chain, generator1) := shuffle (seq 1 (Problem.m problem)) generator in
  fold_left (eject chain) (seq 0 (length chain)) (e, generator1).

(** The local search call: [rvnd] or [vnd]. *)
Definition local_search_call (opt : options) (ls_fuel : nat) (e : entry)
           (generator : mt19937) : option (entry * mt19937) :=
  if randomized_vnd opt
  then local_search.rvnd ls_fuel problem e neighborhoods generator
  else
    match local_search.vnd ls_fuel problem e neighborhoods with
    | Some r => Some (r, generator)
    | None => None
    end.

(** The variables the main loop updates. *)
Record loop_state : Type := {
  incumbent : entry;
  iteration : nat;
  perturbation_passes : nat;
  iteration_last_improvement : nat;
  generator : mt19937
}.

(** "Perturbation phase": one call on the incumbent and
    [perturbation_passes - 1] on its result. *)
Definition perturbation_phase (st : loop_state) : entry * mt19937 :=
  fold_left
    (fun (acc : entry * mt19937) _ => perturb (fst acc) (snd acc))
    (seq 1 (perturbation_passes st - 1))
    (perturb (incumbent st) (generator st)).

(** What one iteration computes: the perturbed solution, the trial
    and the state it leaves. *)
Record iteration_result : Type := {
  perturbed : entry;
  trial : entry;
  next : loop_state
}.

(** Body of the main loop. *)
Definition iteration_body (opt : options) (ls_fuel : nat) (start : entry)
           (st : loop_state) : option iteration_result :=
  let iteration' := iteration st + 1 in
  let (perturbed_entry, generator1) := perturbation_phase st in
  match local_search_call opt ls_fuel start generator1 with
  | None => None
  | Some (trial_entry, generator2) =>
      Some
        {| perturbed := perturbed_entry;
           trial := trial_entry;
           next :=
             if common.less2 (snd trial_entry) (snd (incumbent st)) then
               {| incumbent := trial_entry;
                  iteration := iteration';
                  perturbation_passes := 1;
                  iteration_last_improvement := iteration';
                  generator := generator2 |}
             else
               {| incumbent := incumbent st;
                  iteration := iteration';
                  perturbation_passes := perturbation_passes st + 1;
                  iteration_last_improvement := iteration_last_improvement st;
                  generator := generator2 |} |}
  end.

(** The loop test. *)
Definition continue (opt : options) (st : loop_state) : bool :=
  (iteration st <? iterations_limit opt)
  && dlt (Fin (elapsed opt (iteration st))) (time_limit opt)
  && (perturbation_passes st <=? perturbation_passes_limit opt).

(** The main loop; [remaining] bounds the iterations left and is
    started at [iterations_limit]. *)
Fixpoint main_loop (remaining : nat) (opt : options) (ls_fuel : nat)
         (start : entry) (st : loop_state) : option loop_state :=
  if continue opt st then
    match remaining with
    | O => Some st
    | S remaining' =>
        match iteration_body opt ls_fuel start st with
        | None => None
        | Some r => main_loop remaining' opt ls_fuel start (next r)
        end
    end
  else Some st.

(** State at the loop's entry: the greedy start and its local
    optimum. *)
Definition prepare (opt : options) (ls_fuel : nat)
  : option (entry * loop_state) :=
  match Greedy.solve problem with
  | None => None
  | Some (start_schedule, start_makespan) =>
      let start := (start_schedule, evaluate problem start_schedule) in
      match local_search_call opt ls_fuel start (seeded opt) with
      | None => None
      | Some (first_incumbent, generator1) =>
          Some (start,
                {| incumbent := first_incumbent;
                   iteration := 0;
                   perturbation_passes := 1;
                   iteration_last_improvement := 0;
                   generator := generator1 |})
      end
  end.

Definition solve (opt : options) (ls_fuel : nat) : option (Schedule * double) :=
  match prepare opt ls_fuel with
  | None => None
  | Some (start, st0) =>
      match main_loop (iterations_limit opt) opt ls_fuel start st0 with
      | None => None
      | Some st => Some (fst (incumbent st), fst (snd (incumbent st)))
      end
  end.

End Driver.

End ILS.


(* ================================================================== *)
(** * problem/problem: the constructor *)

(** The loops of the constructor that build the precedence graph.  The
    file is seen as the numbers it holds: [rows] lists, for the switches
    1..n in turn, the predecessor ids read for the switch. *)
Module Loader.

(** [std::set<int>::insert]: the set is kept ascending, without
    duplicates. *)
Fixpoint insert (x : nat) (v : list nat) : list nat :=
  match v with
  | [] => [x]
  | y :: v' =>
      if x <? y then x :: v
      else if x =? y then v
      else y :: insert x v'
  end.

(** The vectors [predecessors] and [successors]. *)
Record edges : Type := mk_edges {
  predecessors : nat -> list nat;
  successors : nat -> list nat
}.

(** [predecessors[j].insert(i); successors[i].insert(j);].  [None]:
    [i] is outside the vector [successors]. *)
Definition read_predecessor (n j : nat) (acc : option edges) (i : nat) : option edges :=
  match acc with
  | None => None
  | Some r =>
      if n <? i then None
      else Some {| predecessors := upd (predecessors r) j (insert i (predecessors r j));
                   successors := upd (successors r) i (insert j (successors r i)) |}
  end.

(** "Read precedence constraints". *)
Definition read_precedence (n : nat) (rows : list (list nat)) : option edges :=
  fold_left
    (fun acc (row : nat * list nat) =>
       fold_left (read_predecessor n (fst row)) (snd row) acc)
    (combine (seq 1 n) rows)
    (Some {| predecessors := fun _ => []; successors := fun _ => [] |}).

(** [if (!processed[k]) pending.insert(k);]. *)
Definition add_pending (processed : nat -> bool) (pending : list nat) (k : nat)
  : list nat :=
  if processed k then pending else insert k pending.

(** "Compute the precedence graph of j": the loop [while
    (!pending.empty())]; [column] is [precedence[.][j]].  [None] when
    the fuel runs out. *)
Fixpoint closure (fuel : nat) (preds : nat -> list nat) (pending : list nat)
         (processed column : nat -> bool) : option (nat -> bool) :=
  match pending with
  | [] => Some column
  | i :: pending' =>
      match fuel with
      | O => None
      | S fuel' =>
          let column' := upd column i true in
          let processed' := upd processed i true in
          closure fuel' preds
            (fold_left (add_pending processed') (preds i) pending')
            processed' column'
      end
  end.

(** The column [j] of the precedence matrix: [pending] starts as the
    set of the predecessors of [j], [processed] all false.  Every pass
    of the loop marks a switch 0..n not marked before, so [n + 1]
    passes are enough (theorem [precedence_matrix_is_ancestry]). *)
Definition precedence (n : nat) (preds : nat -> list nat) (j : nat)
  : option (nat -> bool) :=
  closure (n + 1) preds
    (fold_left (fun pending i => insert i pending) (preds j) [])
    (fun _ => false) (fun _ => false).

End Loader.

(* ================================================================== *)
(** * neighborhood/: the random neighbor [any] *)

(** [x = f(generator()); while (!ok(x)) x = f(generator());].  [None]
    when the fuel runs out. *)
Fixpoint draw_until (fuel : nat) (f : nat -> nat) (ok : nat -> bool)
         (generator : mt19937) : option (nat * mt19937) :=
  match fuel with
  | O => None
  | S fuel' =>
      let (r, generator') := draw generator in
      if ok (f r) then Some (f r, generator')
      else draw_until fuel' f ok generator'
  end.

(** The end of the loop body of every [any]: the neighbor is returned
    with its evaluation unless it is infeasible and feasibility is
    required. *)
Definition accept (problem : Problem.t) (feasible_only : bool)
           (neighbor_schedule : Schedule) : option entry :=
  let neighbor_eval := evaluate problem neighbor_schedule in
  let success := is_finite (fst neighbor_eval) in
  if negb feasible_only || success
  then Some (neighbor_schedule, neighbor_eval)
  else None.

(** [Shift::any].  One fuel bounds the trips of each of its loops. *)
Fixpoint Shift_any (fuel : nat) (problem : Problem.t) (e : entry)
         (generator : mt19937) (feasible_only : bool) : option (entry * mt19937) :=
  match fuel with
  | O => None
  | S fuel' =>
      match draw_until fuel (fun r => r mod (Problem.m problem + 1))
              (fun l => 2 <=? length (lane (fst e) l)) generator with
      | None => None
      | Some (l, generator1) =>
          let size := length (lane (fst e) l) in
          let (r, generator2) := draw generator1 in
          let idx_origin := r mod size in
          match draw_until fuel (fun r' => r' mod size)
                  (fun idx => negb (idx =? idx_origin)) generator2 with
          | None => None
          | Some (idx_target, generator3) =>
              let i := nth idx_origin (lane (fst e) l) 0 in
              let neighbor_schedule :=
                set_lane (fst e) l
                  (insert_at (erase (lane (fst e) l) idx_origin) idx_target i) in
              match accept problem feasible_only neighbor_schedule with
              | Some r => Some (r, generator3)
              | None => Shift_any fuel' problem e generator3 feasible_only
              end
          end
      end
  end.

(** [Exchange::any]. *)
Fixpoint Exchange_any (fuel : nat) (problem : Problem.t) (e : entry)
         (generator : mt19937) (feasible_only : bool) : option (entry * mt19937) :=
  match fuel with
  | O => None
  | S fuel' =>
      match draw_until fuel (fun r => r mod (Problem.m problem + 1))
              (fun l => 2 <=? length (lane (fst e) l)) generator with
      | None => None
      | Some (l, generator1) =>
          let size := length (lane (fst e) l) in
          let (r, generator2) := draw generator1 in
          let idx1 := r mod size in
          match draw_until fuel (fun r' => r' mod size)
                  (fun idx => negb (idx =? idx1)) generator2 with
          | None => None
          | Some (idx2, generator3) =>
              let i_1 := nth idx1 (lane (fst e) l) 0 in
              let i_2 := nth idx2 (lane (fst e) l) 0 in
              let neighbor_schedule :=
                set_lane (fst e) l
                  (assign (assign (lane (fst e) l) idx1 i_2) idx2 i_1) in
              match accept problem feasible_only neighbor_schedule with
              | Some r => Some (r, generator3)
              | None => Exchange_any fuel' problem e generator3 feasible_only
              end
          end
      end
  end.

(** [Reassignment::any].  [None] also stands for the division by
    [problem.m] when there is no team. *)
Fixpoint Reassignment_any (fuel : nat) (problem : Problem.t) (e : entry)
         (generator : mt19937) (feasible_only : bool) : option (entry * mt19937) :=
  match fuel with
  | O => None
  | S fuel' =>
      if Problem.m problem =? 0 then None
      else
        match draw_until fuel (fun r => 1 + r mod Problem.m problem)
                (fun l => 1 <=? length (lane (fst e) l)) generator with
        | None => None
        | Some (l_origin, generator1) =>
            match draw_until fuel (fun r => 1 + r mod Problem.m problem)
                    (fun l => negb (l =? l_origin)) generator1 with
            | None => None
            | Some (l_target, generator2) =>
                let (r, generator3) := draw generator2 in
                let idx_origin := r mod length (lane (fst e) l_origin) in
                let (idx_target, generator4) :=
                  if 0 <? length (lane (fst e) l_target)
                  then (fst (draw generator3) mod length (lane (fst e) l_target),
                        snd (draw generator3))
                  else (0, generator3) in
                let i := nth idx_origin (lane (fst e) l_origin) 0 in
                let erased :=
                  set_lane (fst e) l_origin
                    (erase (lane (fst e) l_origin) idx_origin) in
                let neighbor_schedule :=
                  set_lane erased l_target
                    (insert_at (lane erased l_target) idx_target i) in
                match accept problem feasible_only neighbor_schedule with
                | Some r' => Some (r', generator4)
                | None => Reassignment_any fuel' problem e generator4 feasible_only
                end
            end
        end
  end.

(** [DirectSwap::any]. *)
Fixpoint DirectSwap_any (fuel : nat) (problem : Problem.t) (e : entry)
         (generator : mt19937) (feasible_only : bool) : option (entry * mt19937) :=
  match fuel with
  | O => None
  | S fuel' =>
      if Problem.m problem =? 0 then None
      else
        match draw_until fuel (fun r => 1 + r mod Problem.m problem)
                (fun l => 1 <=? length (lane (fst e) l)) generator with
        | None => None
        | Some (l1, generator1) =>
            match draw_until fuel (fun r => 1 + r mod Problem.m problem)
                    (fun l => negb ((l =? l1) || (length (lane (fst e) l) <? 1)))
                    generator1 with
            | None => None
            | Some (l2, generator2) =>
                let (r1, generator3) := draw generator2 in
                let idx1 := r1 mod length (lane (fst e) l1) in
                let (r2, generator4) := draw generator3 in
                let idx2 := r2 mod length (lane (fst e) l2) in
                let i_1 := nth idx1 (lane (fst e) l1) 0 in
                let i_2 := nth idx2 (lane (fst e) l2) 0 in
                let first :=
                  set_lane (fst e) l1 (assign (lane (fst e) l1) idx1 i_2) in
                let neighbor_schedule :=
                  set_lane first l2 (assign (lane first l2) idx2 i_1) in
                match accept problem feasible_only neighbor_schedule with
                | Some r' => Some (r', generator4)
                | None => DirectSwap_any fuel' problem e generator4 feasible_only
                end
            end
        end
  end.

(* ================================================================== *)
(** * algorithm/heuristic/neh *)

Module NEH.

(** The local variables of [NEH::solve]. *)
Record state : Type := mk_state {
  schedule : Schedule;
  S_manual : list nat;
  S_remote : list nat;
  gamma : nat -> Z
}.

Section Solve.
Variable problem : Problem.t.

(** State after the initialisation loop over [i = 1..n]. *)
Definition init : state :=
  {| schedule := create_empty_schedule (Problem.m problem);
     S_manual := filter (Greedy.has_technology problem MANUAL) (seq 1 (Problem.n problem));
     S_remote := filter (Greedy.has_technology problem REMOTE) (seq 1 (Problem.n problem));
     gamma := fun i =>
                if (1 <=? i) && (i <=? Problem.n problem)
                then Z.of_nat (length (Problem.predecessors problem i))
                else 0%Z |}.

(** [--gamma[i]] over the successors of [j]. *)
Definition release_successors (j : nat) (g : nat -> Z) : nat -> Z :=
  fold_left (fun g' i => upd g' i (g' i - 1)%Z) (Problem.successors problem j) g.

(** The branch [gamma[*j] == 0] of the loop over [S_remote]. *)
Definition schedule_remote (st : state) (j : nat) : state :=
  {| schedule := set_lane (schedule st) 0 (lane (schedule st) 0 ++ [j]);
     S_manual := S_manual st;
     S_remote := remove Nat.eq_dec j (S_remote st);
     gamma := release_successors j (gamma st) |}.

(** One pass of the iterator over [S_remote]; the flag is [stop]. *)
Definition drain_pass (st : state) : state * bool :=
  fold_left
    (fun (acc : state * bool) j =>
       if (gamma (fst acc) j =? 0)%Z
       then (schedule_remote (fst acc) j, false)
       else acc)
    (S_remote st) (st, true).

(** [while (!stop)]. *)
Fixpoint drain (fuel : nat) (st : state) : option state :=
  match fuel with
  | O => None
  | S fuel' =>
      let (st', stop) := drain_pass st in
      if stop then Some st' else drain fuel' st'
  end.

(** The schedule with [j_trial] inserted at [idx_trial] of lane
    [l_trial]; the source inserts, evaluates and erases again. *)
Definition trial (st : state) (j_trial l_trial idx_trial : nat) : Schedule :=
  set_lane (schedule st) l_trial
    (insert_at (lane (schedule st) l_trial) idx_trial j_trial).

(** [trial_objective]: the greatest completion time over the operations
    of all lanes. *)
Definition objective (sched : Schedule) : double :=
  let tv := Problem.start_time problem sched in
  fold_left
    (fun acc aux_j => dmax acc (dadd (tv aux_j) (Fin (Problem.p problem aux_j))))
    (concat sched) (Fin 0).

(** The search for the insertion of least objective: [best_objective]
    and, once some trial compared less, [best_j], [best_l],
    [best_idx]. *)
Definition choose (st : state) : double * option (nat * nat * nat) :=
  fold_left
    (fun acc j_trial =>
       if (gamma st j_trial =? 0)%Z then
         fold_left
           (fun acc' l_trial =>
              fold_left
                (fun (acc'' : double * option (nat * nat * nat)) idx_trial =>
                   let trial_objective :=
                     objective (trial st j_trial l_trial idx_trial) in
                   if common.less trial_objective (fst acc'')
                   then (trial_objective, Some (j_trial, l_trial, idx_trial))
                   else acc'')
                (seq 0 (length (lane (schedule st) l_trial) + 1)) acc')
           (seq 1 (Problem.m problem)) acc
       else acc)
    (S_manual st) (infinity, None).

Definition schedule_manual (st : state) (best_j best_l best_idx : nat) : state :=
  {| schedule := trial st best_j best_l best_idx;
     S_manual := remove Nat.eq_dec best_j (S_manual st);
     S_remote := S_remote st;
     gamma := release_successors best_j (gamma st) |}.

(** [while (S_manual.size() + S_remote.size() > 0)].  [None]: the
    fuel runs out, or the loop reads [best_j], [best_l], [best_idx]
    uninitialised. *)
Fixpoint loop (fuel : nat) (st : state) : option state :=
  if length (S_manual st) + length (S_remote st) =? 0 then Some st
  else
    match fuel with
    | O => None
    | S fuel' =>
        match drain (length (S_remote st) + 1) st with
        | None => None
        | Some st1 =>
            if 0 <? length (S_manual st1) then
              match snd (choose st1) with
              | None => None
              | Some (best_j, best_l, best_idx) =>
                  loop fuel' (schedule_manual st1 best_j best_l best_idx)
              end
            else loop fuel' st1
        end
    end.

Definition solve (fuel : nat) : option (Schedule * double) :=
  match loop fuel init with
  | Some st => Some (schedule st, Problem.makespan problem (schedule st))
  | None => None
  end.

End Solve.

End NEH.

(* ================================================================== *)
(** * main: what is reported of the schedule an algorithm returns *)

Module Main.




End Main.
(* ================================================================== *)
(** * Instances used by the examples *)

Module Examples.

(** A generator whose k-th output is k, and a [shuffle] that leaves the
    range as it is: one of the permutations [std::shuffle] may
    produce. *)
Definition counting : mt19937 := {| outputs := fun k => k; position := 0 |}.

Definition keep_order (v : list nat) (generator : mt19937) : list nat * mt19937 :=
  (v, generator).

(** Scenario S3: two manual switches, two teams, edge 1 -> 2. *)
Definition serial : Problem.t :=
  {| Problem.n := 2; Problem.m := 2;
     Problem.technology := fun _ => MANUAL;
     Problem.p := fun i => match i with 1 => 3%Q | 2 => 4%Q | _ => 0%Q end;
     Problem.s := fun _ _ _ => 1%Q;
     Problem.predecessors := fun j => match j with 2 => [1] | _ => [] end;
     Problem.successors := fun i => match i with 1 => [2] | _ => [] end |}.

(** Two remote switches, one team, edge 1 -> 2. *)
Definition remote_pair : Problem.t :=
  {| Problem.n := 2; Problem.m := 1;
     Problem.technology := fun _ => REMOTE;
     Problem.p := fun i => match i with 0 => 0%Q | _ => 1%Q end;
     Problem.s := fun _ _ _ => 0%Q;
     Problem.predecessors := fun j => match j with 2 => [1] | _ => [] end;
     Problem.successors := fun i => match i with 1 => [2] | _ => [] end |}.

(** One remote switch of unit time, one team. *)
Definition remote_only : Problem.t :=
  {| Problem.n := 1; Problem.m := 1;
     Problem.technology := fun _ => REMOTE;
     Problem.p := fun i => match i with 0 => 0%Q | _ => 1%Q end;
     Problem.s := fun _ _ _ => 0%Q;
     Problem.predecessors := fun _ => [];
     Problem.successors := fun _ => [] |}.

(** One manual switch and no team. *)
Definition unstaffed : Problem.t :=
  {| Problem.n := 1; Problem.m := 0;
     Problem.technology := fun _ => MANUAL;
     Problem.p := fun i => match i with 0 => 0%Q | _ => 1%Q end;
     Problem.s := fun _ _ _ => 0%Q;
     Problem.predecessors := fun _ => [];
     Problem.successors := fun _ => [] |}.

(** One manual switch and one team, whose depot is as far from the
    switch as a [double] can tell. *)
Definition far : Problem.t :=
  {| Problem.n := 1; Problem.m := 1;
     Problem.technology := fun _ => MANUAL;
     Problem.p := fun i => match i with 0 => 0%Q | _ => 1%Q end;
     Problem.s := fun i _ _ => match i with 0 => DBL_MAX | _ => 0%Q end;
     Problem.predecessors := fun _ => [];
     Problem.successors := fun _ => [] |}.

(** Two manual switches and one team: the travel from switch 1 to
    switch 2 takes back the time that switch 1 took. *)
Definition shortcut : Problem.t :=
  {| Problem.n := 2; Problem.m := 1;
     Problem.technology := fun _ => MANUAL;
     Problem.p := fun i => match i with 1 => 10%Q | 2 => 1%Q | _ => 0%Q end;
     Problem.s := fun i j _ => match i, j with 1, 2 => (-10)%Q | _, _ => 0%Q end;
     Problem.predecessors := fun _ => [];
     Problem.successors := fun _ => [] |}.

(** Two independent manual switches of unit time, two teams, no
    travel. *)
Definition twins : Problem.t :=
  {| Problem.n := 2; Problem.m := 2;
     Problem.technology := fun _ => MANUAL;
     Problem.p := fun i => match i with 0 => 0%Q | _ => 1%Q end;
     Problem.s := fun _ _ _ => 0%Q;
     Problem.predecessors := fun _ => [];
     Problem.successors := fun _ => [] |}.

Definition twins_options : ILS.options :=
  {| ILS.iterations_limit := 3;
     ILS.time_limit := infinity;
     ILS.perturbation_passes_limit := 5;
     ILS.randomized_vnd := false;
     ILS.seeded := counting;
     ILS.elapsed := fun _ => 0%Q |}.

(** Three manual switches on one team and a remote switch 4 that waits
    for switch 1; travel times differ by fractions of the threshold. *)
Definition detour : Problem.t :=
  {| Problem.n := 4; Problem.m := 1;
     Problem.technology := fun i => match i with 4 => REMOTE | _ => MANUAL end;
     Problem.p := fun i => match i with 4 => 100%Q | _ => 0%Q end;
     Problem.s := fun i j _ =>
       match i, j with
       | 1, 2 => 10%Q
       | 2, 3 => 10%Q
       | 1, 3 => 15%Q
       | 3, 2 => 50%Q
       | 0, 2 => (9 # 1000000)%Q
       | 0, 3 => (18 # 1000000)%Q
       | _, _ => 0%Q
       end;
     Problem.predecessors := fun j => match j with 4 => [1] | _ => [] end;
     Problem.successors := fun i => match i with 1 => [4] | _ => [] end |}.

(** Greedy's solution of [detour], with its evaluation (100, 20). *)
Definition detour_entry : entry :=
  ([[4]; [1; 2; 3]], evaluate detour [[4]; [1; 2; 3]]).

Definition serial_start : entry :=
  ([[]; [1]; [2]], evaluate serial [[]; [1]; [2]]).

(** Both switches of [serial] on team 1, evaluated (9, 9): moving switch
    1 to team 2 improves on it. *)
Definition serial_single : entry :=
  ([[]; [1; 2]; []], evaluate serial [[]; [1; 2]; []]).

(** The entries that [vnd] goes through from [detour_entry], over and
    over. *)
Definition detour_second : entry := best Exchange.neighborhood detour detour_entry.
Definition detour_third : entry := best Exchange.neighborhood detour detour_second.

(** A generator that always returns 0. *)
Definition zeros (position : nat) : mt19937 :=
  {| outputs := fun _ => 0; position := position |}.

End Examples.

(* ================================================================== *)
(** * Predicates of the specification *)

Unset Implicit Arguments.

(** No neighborhood of the list improves on [e]. *)
Definition local_optimum (problem : Problem.t) (neighborhoods : list Neighborhood)
           (e : entry) : Prop :=
  Forall (fun N => common.less2 (snd (best N problem e)) (snd e) = false) neighborhoods.


(** The contract of [best] in the words of the specification: the entry
    unchanged when no neighbor is strictly less than it, otherwise a
    neighbor of least evaluation that is strictly less than the entry. *)
Definition best_as_specified (problem : Problem.t) (neighbors : list Schedule)
           (e r : entry) : Prop :=
  ((forall nb, In nb neighbors ->
               common.less2 (evaluate problem nb) (snd e) = false)
   /\ r = e)
  \/
  (In (fst r) neighbors
   /\ snd r = evaluate problem (fst r)
   /\ (forall nb, In nb neighbors ->
                  common.less2 (evaluate problem nb) (snd r) = false)
   /\ common.less2 (snd r) (snd e) = true).

(** What the scan in enumeration order guarantees: the entry unchanged
    when no neighbor is strictly less than it; otherwise a neighbor, with
    its own evaluation, that was strictly less than the best of the
    neighbors before it and that no later neighbor is strictly less
    than. *)
Definition best_as_scanned (problem : Problem.t) (neighbors : list Schedule)
           (e r : entry) : Prop :=
  ((forall nb, In nb neighbors ->
               common.less2 (evaluate problem nb) (snd e) = false)
   -> r = e)
  /\
  ((exists nb, In nb neighbors
               /\ common.less2 (evaluate problem nb) (snd e) = true)
   -> exists pre post,
      neighbors = pre ++ fst r :: post
      /\ snd r = evaluate problem (fst r)
      /\ common.less2 (snd r) (snd (scan problem pre e)) = true
      /\ forall nb, In nb post ->
                    common.less2 (evaluate problem nb) (snd r) = false).

(** [schedule] with [operation] inserted into lane [l_target] at
    position [idx_target]. *)
Definition inserted (schedule : Schedule) (l_target operation idx_target : nat) : Schedule :=
  set_lane schedule l_target (insert_at (lane schedule l_target) idx_target operation).

(** The insertion "yields a feasible schedule": finite makespan. *)
Definition insertion_feasible (problem : Problem.t) (schedule : Schedule)
           (l_target operation idx_target : nat) : bool :=
  is_finite (fst (evaluate problem (inserted schedule l_target operation idx_target))).

(** Outcome [r] of ejecting the operation at [idx_origin] of lane
    [l_origin] of the solution [(schedule, evaluation)] towards lane
    [l_target], the insertion positions being tried in the order of
    [indexes]: the operation is committed at the first feasible position
    tried, or everything is as before. *)
Definition ejection_outcome (problem : Problem.t) (schedule : Schedule)
           (evaluation : double * double) (l_origin l_target idx_origin : nat)
           (indexes : list nat) (r : entry) : Prop :=
  let operation := nth idx_origin (lane schedule l_origin) 0 in
  let erased :=
    set_lane schedule l_origin (erase (lane schedule l_origin) idx_origin) in
  (exists pre idx_target post,
      indexes = pre ++ idx_target :: post
      /\ (forall k, In k pre ->
                    insertion_feasible problem erased l_target operation k = false)
      /\ insertion_feasible problem erased l_target operation idx_target = true
      /\ r = (inserted erased l_target operation idx_target,
              evaluate problem (inserted erased l_target operation idx_target)))
  \/
  ((forall k, In k indexes ->
              insertion_feasible problem erased l_target operation k = false)
   /\ r = (schedule, evaluation)).

(** The lanes of the chain position [idx]: [chain[idx]] and
    [chain[(idx + 1) % chain.size()]]. *)
Definition origin_of (chain : list nat) (idx : nat) : nat := nth idx chain 0.
Definition target_of (chain : list nat) (idx : nat) : nat :=
  nth ((idx + 1) mod length chain) chain 0.

(** What the loader establishes for every instance: [predecessors] and
    [successors] are sets, and each lists the edges of the other. *)
Record well_formed (problem : Problem.t) : Prop := {
  wf_predecessors : forall j, NoDup (Problem.predecessors problem j);
  wf_successors : forall i, NoDup (Problem.successors problem i);
  wf_edges : forall i j,
      In i (Problem.predecessors problem j) <-> In j (Problem.successors problem i)
}.

(** The operations on lanes 0..m of a schedule. *)
Definition scheduled_operations (problem : Problem.t) (schedule : Schedule) : list nat :=
  concat (map (lane schedule) (seq 0 (Problem.m problem + 1))).

(** Each operation is on at most one lane, at one position, and is a
    switch id of the instance. *)
Definition well_scheduled (problem : Problem.t) (schedule : Schedule) : Prop :=
  NoDup (scheduled_operations problem schedule)
  /\ forall x, In x (scheduled_operations problem schedule) ->
               1 <= x <= Problem.n problem.

(** The operations the simulator has released: those before [index[l]]
    on some lane [l]. *)
Definition released (problem : Problem.t) (schedule : Schedule) (st : Problem.sim)
           (j : nat) : bool :=
  existsb
    (fun l => existsb (Nat.eqb j) (firstn (Problem.index st l) (lane schedule l)))
    (seq 0 (Problem.m problem + 1)).

(** Number of the operations of [preds] that are not [done]. *)
Definition pending_count (done : nat -> bool) (preds : list nat) : Z :=
  Z.of_nat (length (filter (fun i => negb (done i)) preds)).

(** The operation before position [k] of lane [l]; the depot 0 at the
    head. *)
Definition previous (schedule : Schedule) (l k : nat) : nat :=
  match k with
  | O => 0
  | S k' => nth k' (lane schedule l) 0
  end.

(** Completion time [t[i] + p[i]]. *)
Definition completion (problem : Problem.t) (tv : nat -> double) (i : nat) : double :=
  dadd (tv i) (Fin (Problem.p problem i)).

(** The invariant of the forward simulator. *)
Record sim_inv (problem : Problem.t) (schedule : Schedule) (st : Problem.sim) : Prop := {
  inv_index : forall l, l <= Problem.m problem ->
      Problem.index st l <= length (lane schedule l);
  inv_pendings : forall j, In j (scheduled_operations problem schedule) ->
      Problem.pendings st j
      = pending_count (released problem schedule st) (Problem.predecessors problem j);
  inv_depot : Problem.st_t st 0 = Fin 0;
  inv_unreleased : forall j, 1 <= j -> released problem schedule st j = false ->
      Problem.st_t st j = infinity;
  inv_released : forall j, released problem schedule st j = true ->
      is_finite (Problem.st_t st j) = true
      /\ forall i, In i (Problem.predecessors problem j) ->
           released problem schedule st i = true
           /\ dle (completion problem (Problem.st_t st) i) (Problem.st_t st j);
  inv_lane : forall l k, 1 <= l <= Problem.m problem -> k < Problem.index st l ->
      dle (dadd (completion problem (Problem.st_t st) (previous schedule l k))
             (Fin (Problem.s problem (previous schedule l k)
                     (nth k (lane schedule l) 0) l)))
          (Problem.st_t st (nth k (lane schedule l) 0));
  inv_location : forall l, l <= Problem.m problem ->
      Problem.location st l = previous schedule l (Problem.index st l)
}.

(** The test of the simulator's loop. *)
Definition simulating (problem : Problem.t) (st : Problem.sim) : bool :=
  (Problem.count st <? Problem.n problem) && Problem.feasibility st.


(** The conditions [is_feasible] tests, one by one. *)
Record feasibility_checks (problem : Problem.t) (schedule : Schedule) : Prop := {
  chk_lanes : length schedule = Problem.m problem + 1;
  chk_ids : forall x, In x (scheduled_operations problem schedule) ->
                      1 <= x <= Problem.n problem;
  chk_once : forall i, 1 <= i <= Problem.n problem ->
                       count_occ Nat.eq_dec (scheduled_operations problem schedule) i = 1;
  chk_remote : forall i, In i (lane schedule 0) -> Problem.technology problem i = REMOTE;
  chk_manual : forall l i, 1 <= l <= Problem.m problem -> In i (lane schedule l) ->
                           Problem.technology problem i = MANUAL;
  chk_precedence : forall j i, 1 <= j <= Problem.n problem ->
      In i (Problem.predecessors problem j) ->
      common.less (Problem.start_time problem schedule j)
                  (Problem.start_time problem schedule i) = false
}.


(** The completion times [evaluate] takes the maximum of. *)
Definition evaluated_completions (problem : Problem.t) (schedule : Schedule) : list double :=
  flat_map
    (fun l =>
       if negb (length (lane schedule l) =? 0)
       then [completion problem (Problem.start_time problem schedule)
               (nth (length (lane schedule l) - 1) (lane schedule l) 0)]
       else [])
    (seq 1 (Problem.m problem))
  ++ map (completion problem (Problem.start_time problem schedule)) (lane schedule 0).


(** What holds of Greedy's variables throughout, as far as its scalar
    makespan goes: the operations on the manual lanes are manual and no
    longer in [S_manual], and [makespan] is the greatest of 0 and their
    completion times [t[j] + p[j]]. *)
Record makespan_inv (problem : Problem.t) (st : Greedy.state) : Prop := {
  mk_lanes : length (Greedy.schedule st) = Problem.m problem + 1;
  mk_manual : forall j, In j (Greedy.S_manual st) ->
      Problem.technology problem j = MANUAL;
  mk_remote : forall j, In j (Greedy.S_remote st) ->
      Problem.technology problem j = REMOTE;
  mk_scheduled : forall l j, 1 <= l -> In j (lane (Greedy.schedule st) l) ->
      Problem.technology problem j = MANUAL /\ ~ In j (Greedy.S_manual st);
  mk_upper : forall l j, 1 <= l -> In j (lane (Greedy.schedule st) l) ->
      (Greedy.t st j + Problem.p problem j <= Greedy.makespan st)%Q;
  mk_attained :
      Greedy.makespan st = 0%Q
      \/ exists l j, 1 <= l /\ In j (lane (Greedy.schedule st) l)
                     /\ Greedy.makespan st = (Greedy.t st j + Problem.p problem j)%Q
}.

(** A value of the chooser's accumulator: nothing chosen yet, or a ready
    switch of [S_manual] with a team. *)
Definition chosen_ok (problem : Problem.t) (st : Greedy.state)
           (acc : option (Q * nat * nat)) : Prop :=
  match acc with
  | None => True
  | Some (_, j, l) =>
      In j (Greedy.S_manual st) /\ 1 <= l <= Problem.m problem
      /\ Greedy.gamma st j = 0%Z
  end.

(** Switches Greedy has not scheduled yet, and those it has. *)
Definition unscheduled (st : Greedy.state) (i : nat) : bool :=
  existsb (Nat.eqb i) (Greedy.S_manual st ++ Greedy.S_remote st).

Definition scheduled (st : Greedy.state) (i : nat) : bool := negb (unscheduled st i).

(** The invariant of Greedy's main loop: the lanes and the two sets
    partition the switches 1..n, each switch is routed by its technology,
    and [gamma] counts the predecessors not scheduled yet. *)
Record greedy_inv (problem : Problem.t) (st : Greedy.state) : Prop := {
  gi_lanes : length (Greedy.schedule st) = Problem.m problem + 1;
  gi_partition :
    Permutation (concat (Greedy.schedule st) ++ Greedy.S_manual st ++ Greedy.S_remote st)
                (seq 1 (Problem.n problem));
  gi_manual : forall j, In j (Greedy.S_manual st) ->
      Problem.technology problem j = MANUAL;
  gi_remote : forall j, In j (Greedy.S_remote st) ->
      Problem.technology problem j = REMOTE;
  gi_lane0 : forall j, In j (lane (Greedy.schedule st) 0) ->
      Problem.technology problem j = REMOTE;
  gi_lanes_manual : forall l j, 1 <= l -> In j (lane (Greedy.schedule st) l) ->
      Problem.technology problem j = MANUAL;
  gi_gamma : forall j, 1 <= j <= Problem.n problem ->
      Greedy.gamma st j = pending_count (scheduled st) (Problem.predecessors problem j)
}.

(** A feasible instance: the loader's invariants, predecessors among the
    switches 1..n, an acyclic precedence graph (a rank that every edge
    increases), and every switch Manual or Remote. *)
Record feasible_instance (problem : Problem.t) : Prop := {
  fi_well_formed : well_formed problem;
  fi_range : forall j i, 1 <= j <= Problem.n problem ->
      In i (Problem.predecessors problem j) -> 1 <= i <= Problem.n problem;
  fi_acyclic : exists rank : nat -> nat,
      forall j i, 1 <= j <= Problem.n problem ->
                  In i (Problem.predecessors problem j) -> rank i < rank j;
  fi_technology : forall i, 1 <= i <= Problem.n problem ->
      Problem.technology problem i = MANUAL \/ Problem.technology problem i = REMOTE
}.

(** Greedy ends, with every switch scheduled, on a schedule that
    [is_feasible] accepts. *)
Definition greedy_succeeds (problem : Problem.t) : Prop :=
  exists schedule makespan,
    Greedy.solve problem = Some (schedule, makespan)
    /\ (forall i, 1 <= i <= Problem.n problem ->
                  In i (scheduled_operations problem schedule))
    /\ Problem.is_feasible problem schedule = true.

(** An entry that carries the evaluation of its own schedule. *)
Definition evaluated (problem : Problem.t) (e : entry) : Prop :=
  snd e = evaluate problem (fst e).

(** The makespan of the entry is not +infinity. *)
Definition finite_entry (e : entry) : bool := is_finite (fst (snd e)).

(** Routing by technology: the switches on lane 0 are remote, those on
    the other lanes manual. *)
Definition routed (problem : Problem.t) (schedule : Schedule) : Prop :=
  (forall i, In i (lane schedule 0) -> Problem.technology problem i = REMOTE)
  /\ (forall l i, 1 <= l -> In i (lane schedule l) ->
                  Problem.technology problem i = MANUAL).

(** The lanes 0..m hold the switches 1..n, once each, routed by
    technology. *)
Definition partitioned (problem : Problem.t) (schedule : Schedule) : Prop :=
  length schedule = Problem.m problem + 1
  /\ Permutation (concat schedule) (seq 1 (Problem.n problem))
  /\ routed problem schedule.

(** [nb] holds the operations of [schedule] lane by lane, in another
    order. *)
Definition reordered (schedule nb : Schedule) : Prop :=
  length nb = length schedule
  /\ forall l, Permutation (lane schedule l) (lane nb l).

(** [nb] holds the operations of [schedule], lane 0 as it was and the
    operations of the other lanes spread over them anew. *)
Definition redistributed (schedule nb : Schedule) : Prop :=
  length nb = length schedule
  /\ lane nb 0 = lane schedule 0
  /\ Permutation (concat schedule) (concat nb)
  /\ forall l i, 1 <= l -> In i (lane nb l) ->
                 exists l', 1 <= l' /\ In i (lane schedule l').

(** [nb] holds the operations of [schedule]: those of lane 0 on lane 0,
    those of the other lanes on the other lanes. *)
Definition rearranged (schedule nb : Schedule) : Prop :=
  length nb = length schedule
  /\ Permutation (lane schedule 0) (lane nb 0)
  /\ Permutation (concat schedule) (concat nb)
  /\ forall l i, 1 <= l -> In i (lane nb l) ->
                 exists l', 1 <= l' /\ In i (lane schedule l').

(** An entry as the searches of the ILS handle it: a schedule that
    [is_feasible] accepts, its own evaluation, a finite makespan. *)
Definition sound_entry (problem : Problem.t) (e : entry) : Prop :=
  Problem.is_feasible problem (fst e) = true
  /\ evaluated problem e
  /\ finite_entry e = true.

(** The simulator can serve lane [l]: the lane has a next operation and
    no predecessor of it is pending. *)
Definition ready (schedule : Schedule) (st : Problem.sim) (l : nat) : bool :=
  (Problem.index st l <? length (lane schedule l))
  && (Problem.pendings st (nth (Problem.index st l) (lane schedule l) 0%nat) =? 0)%Z.

(** The operations the simulator has served, lane by lane. *)
Definition served (problem : Problem.t) (st : Problem.sim) : nat :=
  list_sum (map (Problem.index st) (seq 0 (Problem.m problem + 1))).

(** An order in which the schedule can be executed: [stamp] grows along
    every lane and along every edge into a scheduled operation, whose
    predecessors are scheduled as well. *)
Record executable (problem : Problem.t) (schedule : Schedule) (stamp : nat -> nat)
  : Prop := {
  ex_lane : forall l k k', l <= Problem.m problem ->
      k < k' -> k' < length (lane schedule l) ->
      stamp (nth k (lane schedule l) 0) < stamp (nth k' (lane schedule l) 0);
  ex_edge : forall j i, In j (scheduled_operations problem schedule) ->
      In i (Problem.predecessors problem j) ->
      In i (scheduled_operations problem schedule) /\ stamp i < stamp j
}.

(** Greedy's schedule can be executed in the order it was built in:
    the stamps are the ranks in that order, all below [bound]. *)
Definition built_in_order (problem : Problem.t) (st : Greedy.state) : Prop :=
  exists (stamp : nat -> nat) (bound : nat),
    executable problem (Greedy.schedule st) stamp
    /\ forall j, In j (concat (Greedy.schedule st)) -> stamp j < bound.

(** [i] must precede [j]: a predecessor of [j], or a predecessor of a
    switch that must precede [j]. *)
Inductive ancestor (preds : nat -> list nat) (j : nat) : nat -> Prop :=
| ancestor_direct : forall i, In i (preds j) -> ancestor preds j i
| ancestor_step : forall i k, ancestor preds j i -> In k (preds i) -> ancestor preds j k.

(** What the reader of the precedence constraints keeps of the two
    vectors: ascending sets, each listing the edges of the other, all
    within the vectors. *)
Record edges_inv (n : nat) (r : Loader.edges) : Prop := {
  ei_predecessors : forall j, StronglySorted lt (Loader.predecessors r j);
  ei_successors : forall i, StronglySorted lt (Loader.successors r i);
  ei_edges : forall i j,
      In i (Loader.predecessors r j) <-> In j (Loader.successors r i);
  ei_range : forall i j, In i (Loader.predecessors r j) -> i <= n /\ 1 <= j <= n
}.

(** The file lists [i] as a predecessor of switch [j]. *)
Definition listed (n : nat) (rows : list (list nat)) (j i : nat) : Prop :=
  exists row, In (j, row) (combine (seq 1 n) rows) /\ In i row.

(** The invariant of the loop that computes a column of the precedence
    matrix. *)
Record closure_inv (preds : nat -> list nat) (j : nat) (pending : list nat)
       (processed column : nat -> bool) : Prop := {
  ci_column : forall x, column x = processed x;
  ci_sorted : StronglySorted lt pending;
  ci_pending : forall x, In x pending ->
      processed x = false /\ ancestor preds j x;
  ci_processed : forall x, processed x = true ->
      ancestor preds j x
      /\ forall k, In k (preds x) -> processed k = true \/ In k pending;
  ci_direct : forall i, In i (preds j) -> processed i = true \/ In i pending
}.

(** The time at which lane [l] can start its operation at position
    [k], the predecessors apart: 0 on lane 0; on the lane of a team, the
    completion at the previous location and the travel from there. *)
Definition arrival (problem : Problem.t) (schedule : Schedule) (tv : nat -> double)
           (l k : nat) : double :=
  if l =? 0 then Fin 0
  else dadd (completion problem tv (previous schedule l k))
            (Fin (Problem.s problem (previous schedule l k)
                    (nth k (lane schedule l) 0) l)).

(** The start time of the operation at position [k] of lane [l] is the
    greatest of its arrival and the completions of its predecessors. *)
Definition start_rule (problem : Problem.t) (schedule : Schedule) (tv : nat -> double)
           (l k : nat) : Prop :=
  tv (nth k (lane schedule l) 0)
  = fold_left dmax
      (map (completion problem tv)
         (Problem.predecessors problem (nth k (lane schedule l) 0)))
      (arrival problem schedule tv l k).

(** The start times of the served operations follow the rule. *)
Definition timed (problem : Problem.t) (schedule : Schedule) (st : Problem.sim) : Prop :=
  forall l k, l <= Problem.m problem -> k < Problem.index st l ->
              start_rule problem schedule (Problem.st_t st) l k.

(** Greedy's start times, as doubles. *)
Definition greedy_times (st : Greedy.state) : nat -> double :=
  fun i => Fin (Greedy.t st i).

(** Greedy's start times follow the rule of the simulator on the
    schedule built so far, and [phi] is the last location of each
    team. *)
Record greedy_timed (problem : Problem.t) (st : Greedy.state) : Prop := {
  gt_depot : Greedy.t st 0 = 0%Q;
  gt_phi : forall l, 1 <= l <= Problem.m problem ->
      Greedy.phi st l
      = previous (Greedy.schedule st) l (length (lane (Greedy.schedule st) l));
  gt_rule : forall l k, l <= Problem.m problem ->
      k < length (lane (Greedy.schedule st) l) ->
      start_rule problem (Greedy.schedule st) (greedy_times st) l k
}.

(** What Greedy's loop keeps. *)
Definition greedy_run_inv (problem : Problem.t) (st : Greedy.state) : Prop :=
  greedy_inv problem st /\ built_in_order problem st /\ greedy_timed problem st.




(** Every chain of improvements by neighborhoods of the list that
    starts at [e] has fewer than [d] steps. *)
Inductive descent_bounded (problem : Problem.t) (neighborhoods : list Neighborhood)
  : nat -> entry -> Prop :=
| descent_step : forall d e,
    (forall N, In N neighborhoods ->
               common.less2 (snd (best N problem e)) (snd e) = true ->
               descent_bounded problem neighborhoods d (best N problem e)) ->
    descent_bounded problem neighborhoods (S d) e.

(** [sum over i in v of f i]. *)
Definition Qsum (f : nat -> Q) (v : list nat) : Q :=
  fold_right (fun i acc => (f i + acc)%Q) 0%Q v.

(** The longest travel into [j]: the greatest of 0 and [s[i][j][l]]
    over the locations [i] in 0..n and the teams [l] in 1..m. *)
Definition longest_travel (problem : Problem.t) (j : nat) : Q :=
  fold_left qmax
    (flat_map (fun i => map (fun l => Problem.s problem i j l)
                          (seq 1 (Problem.m problem)))
       (seq 0 (Problem.n problem + 1)))
    0%Q.

(** What switch [j] can add to a completion time: its processing time
    and the longest travel into it. *)
Definition work (problem : Problem.t) (j : nat) : Q :=
  (Problem.p problem j + longest_travel problem j)%Q.

Definition total_work (problem : Problem.t) : Q :=
  (Problem.p problem 0 + Qsum (work problem) (seq 1 (Problem.n problem)))%Q.

(** The times of the instance are far enough from the end of the range
    of [double]: no sum of them that the program forms comes near
    [DBL_MAX], however it is rounded. *)
Definition within_double_range (problem : Problem.t) : Prop :=
  (2 * total_work problem <= DBL_MAX)%Q.


(** The work of the operations stamped below [k], and of the depot. *)
Definition spent (problem : Problem.t) (schedule : Schedule) (stamp : nat -> nat)
           (k : nat) : Q :=
  (Problem.p problem 0
   + Qsum (work problem)
       (filter (fun i => stamp i <? k) (scheduled_operations problem schedule)))%Q.
(* ================================================================== *)
(** * Properties *)

(** ** Arithmetic of the model *)

Lemma Qltb_lt (a b : Q) : Qltb a b = true <-> (a < b)%Q.
Proof.
  unfold Qltb. rewrite negb_true_iff. split; intro H.
  - apply Qnot_le_lt. intro Hle. apply Qle_bool_iff in Hle. congruence.
  - destruct (Qle_bool b a) eqn:E; [|reflexivity].
    apply Qle_bool_iff in E. exfalso. apply (Qlt_not_le _ _ H E).
Qed.

Lemma Qltb_ge (a b : Q) : Qltb a b = false <-> (b <= a)%Q.
Proof.
  unfold Qltb. rewrite negb_false_iff. apply Qle_bool_iff.
Qed.

Lemma dle_refl (a : double) : dle a a.
Proof. destruct a; simpl; [apply Qle_refl | exact I]. Qed.

Lemma dle_trans (a b c : double) : dle a b -> dle b c -> dle a c.
Proof.
  destruct a, b, c; simpl; try tauto. apply Qle_trans.
Qed.

Lemma dmax_ge_l (a b : double) : dle a (dmax a b).
Proof.
  unfold dmax. destruct a as [x|], b as [y|]; simpl; try exact I.
  - destruct (Qltb x y) eqn:E; simpl.
    + apply Qltb_lt in E. apply Qlt_le_weak, E.
    + apply Qle_refl.
Qed.

Lemma dmax_ge_r (a b : double) : dle b (dmax a b).
Proof.
  unfold dmax. destruct a as [x|], b as [y|]; simpl; try exact I.
  destruct (Qltb x y) eqn:E; simpl.
  - apply Qle_refl.
  - apply Qltb_ge in E. exact E.
Qed.

Lemma dmax_cases (a b : double) : dmax a b = a \/ dmax a b = b.
Proof. unfold dmax. destruct (dlt a b); auto. Qed.

Lemma dmax_lub (a b c : double) : dle a c -> dle b c -> dle (dmax a b) c.
Proof. intros. destruct (dmax_cases a b) as [-> | ->]; assumption. Qed.

Lemma upd_same {A : Type} (v : nat -> A) (k : nat) (x : A) : upd v k x k = x.
Proof. unfold upd. now rewrite Nat.eqb_refl. Qed.

Lemma upd_other {A : Type} (v : nat -> A) (k i : nat) (x : A) :
  i <> k -> upd v k x i = v i.
Proof. unfold upd. intro H. apply Nat.eqb_neq in H. now rewrite H. Qed.


(** ** Vectors and lanes *)

Lemma assign_length {A : Type} (v : list A) (idx : nat) (x : A) :
  length (assign v idx x) = length v.
Proof.
  revert idx. induction v as [|y v IH]; intros [|idx]; simpl; auto.
Qed.

Lemma nth_assign_same {A : Type} (v : list A) (idx : nat) (x d : A) :
  idx < length v -> nth idx (assign v idx x) d = x.
Proof.
  revert idx. induction v as [|y v IH]; intros [|idx] H; simpl in *; try lia; auto.
  apply IH. lia.
Qed.

Lemma nth_assign_other {A : Type} (v : list A) (idx k : nat) (x d : A) :
  k <> idx -> nth k (assign v idx x) d = nth k v d.
Proof.
  revert idx k. induction v as [|y v IH]; intros [|idx] [|k] H; simpl; auto; try lia.
Qed.

Lemma assign_assign {A : Type} (v : list A) (idx : nat) (x y : A) :
  assign (assign v idx x) idx y = assign v idx y.
Proof.
  revert idx. induction v as [|z v IH]; intros [|idx]; simpl; auto. now rewrite IH.
Qed.

Lemma assign_nth {A : Type} (v : list A) (idx : nat) (d : A) :
  assign v idx (nth idx v d) = v.
Proof.
  revert idx. induction v as [|z v IH]; intros [|idx]; simpl; auto. now rewrite IH.
Qed.

Lemma set_lane_length (schedule : Schedule) (l : nat) (v : list nat) :
  length (set_lane schedule l v) = length schedule.
Proof. apply assign_length. Qed.

Lemma lane_set_lane_same (schedule : Schedule) (l : nat) (v : list nat) :
  l < length schedule -> lane (set_lane schedule l v) l = v.
Proof. apply nth_assign_same. Qed.

Lemma lane_set_lane_other (schedule : Schedule) (l k : nat) (v : list nat) :
  k <> l -> lane (set_lane schedule l v) k = lane schedule k.
Proof. apply nth_assign_other. Qed.

Lemma set_lane_set_lane (schedule : Schedule) (l : nat) (v w : list nat) :
  set_lane (set_lane schedule l v) l w = set_lane schedule l w.
Proof. apply assign_assign. Qed.

Lemma set_lane_lane (schedule : Schedule) (l : nat) :
  set_lane schedule l (lane schedule l) = schedule.
Proof. apply assign_nth. Qed.

Lemma erase_insert_at (v : list nat) (idx x : nat) :
  idx <= length v -> erase (insert_at v idx x) idx = v.
Proof.
  unfold erase, insert_at. revert v.
  induction idx as [|idx IH]; intros v H.
  - reflexivity.
  - destruct v as [|y v]; simpl in *; [lia|].
    f_equal. apply IH. lia.
Qed.

Lemma insert_at_erase (v : list nat) (idx d : nat) :
  idx < length v -> insert_at (erase v idx) idx (nth idx v d) = v.
Proof.
  unfold erase, insert_at. revert idx.
  induction v as [|y v IH]; intros [|idx] H; simpl in *; try lia; auto.
  f_equal. apply IH. lia.
Qed.

Lemma insert_at_Permutation (v : list nat) (idx x : nat) :
  Permutation (insert_at v idx x) (x :: v).
Proof.
  unfold insert_at. rewrite <- (firstn_skipn idx v) at 3.
  symmetry. apply Permutation_middle.
Qed.

Lemma erase_Permutation (v : list nat) (idx d : nat) :
  idx < length v -> Permutation v (nth idx v d :: erase v idx).
Proof.
  intro H. rewrite <- (insert_at_erase v idx d H) at 1. apply insert_at_Permutation.
Qed.

Lemma insert_at_length (v : list nat) (idx x : nat) :
  length (insert_at v idx x) = S (length v).
Proof.
  rewrite (Permutation_length (insert_at_Permutation v idx x)). reflexivity.
Qed.

Lemma erase_length (v : list nat) (idx : nat) :
  idx < length v -> S (length (erase v idx)) = length v.
Proof.
  intro H. rewrite (Permutation_length (erase_Permutation v idx 0 H)). reflexivity.
Qed.

(** The operations of a schedule, lane after lane. *)
Lemma concat_set_lane (schedule : Schedule) (l : nat) (v : list nat) :
  l < length schedule ->
  Permutation (v ++ concat (set_lane schedule l [])) (concat (set_lane schedule l v)).
Proof.
  unfold set_lane. revert l.
  induction schedule as [|w schedule IH]; intros [|l] H; simpl in *; try lia.
  - reflexivity.
  - rewrite Permutation_app_swap_app. apply Permutation_app_head. apply IH. lia.
Qed.

Lemma concat_lane (schedule : Schedule) (l : nat) :
  l < length schedule ->
  Permutation (lane schedule l ++ concat (set_lane schedule l [])) (concat schedule).
Proof.
  intro H. rewrite (concat_set_lane schedule l (lane schedule l) H).
  now rewrite set_lane_lane.
Qed.

Lemma concat_set_lane_Permutation (schedule : Schedule) (l : nat) (v w : list nat) :
  l < length schedule ->
  Permutation v w ->
  Permutation (concat (set_lane schedule l v)) (concat (set_lane schedule l w)).
Proof.
  intros H Hvw.
  rewrite <- (concat_set_lane schedule l v H), <- (concat_set_lane schedule l w H).
  now apply Permutation_app_tail.
Qed.

(** ** Folds and sums *)

(** A fold that keeps [I] and, from [I], reaches [G] at an element
    with [hit], when [G] is never lost. *)
Lemma fold_left_reaches {A B : Type} (f : B -> A -> B) (I G : B -> Prop)
      (hit : A -> Prop) :
  (forall b a, I b -> I (f b a)) ->
  (forall b a, G b -> G (f b a)) ->
  (forall b a, I b -> hit a -> G (f b a)) ->
  forall l b,
    I b ->
    I (fold_left f l b)
    /\ (G b -> G (fold_left f l b))
    /\ ((exists a, In a l /\ hit a) -> G (fold_left f l b)).
Proof.
  intros HI HG Hhit. induction l as [|a l IH]; intros b Hb; cbn [fold_left].
  - split; [exact Hb|]. split; [auto|]. intros (a & [] & _).
  - destruct (IH (f b a) (HI b a Hb)) as (H1 & H2 & H3).
    split; [exact H1|]. split; [intro Hg; apply H2; now apply HG|].
    intros (a' & [<- | Ha'] & Hh).
    + apply H2. now apply Hhit.
    + apply H3. now exists a'.
Qed.

Lemma DBL_MAX_positive : (0 < DBL_MAX)%Q.
Proof. reflexivity. Qed.

Lemma fold_qmax_ge_init (v : list Q) (init : Q) : (init <= fold_left qmax v init)%Q.
Proof.
  revert init. induction v as [|x v IH]; intro init; simpl; [lra|].
  eapply Qle_trans; [|apply IH]. unfold qmax.
  destruct (Qltb init x) eqn:E; [apply Qltb_lt in E; lra | lra].
Qed.

Lemma fold_qmax_ge (v : list Q) (init x : Q) :
  In x v -> (x <= fold_left qmax v init)%Q.
Proof.
  revert init. induction v as [|y v IH]; intros init Hx; [destruct Hx|].
  simpl. destruct Hx as [-> | Hx]; [|now apply IH].
  eapply Qle_trans; [|apply fold_qmax_ge_init]. unfold qmax.
  destruct (Qltb init x) eqn:E; [lra | now apply Qltb_ge in E].
Qed.

Lemma Qsum_nonnegative (f : nat -> Q) (v : list nat) :
  (forall i, 0 <= f i)%Q -> (0 <= Qsum f v)%Q.
Proof.
  intro Hf. induction v as [|x v IH]; simpl; [lra|].
  pose proof (Hf x). lra.
Qed.

Lemma Qsum_Permutation (f : nat -> Q) (a b : list nat) :
  Permutation a b -> (Qsum f a == Qsum f b)%Q.
Proof.
  intro H. induction H; simpl; lra.
Qed.

(** The sum over a list without duplicates is at most the sum over a
    list that holds its elements. *)
Lemma Qsum_incl (f : nat -> Q) (a : list nat) :
  (forall i, 0 <= f i)%Q ->
  NoDup a ->
  forall b, incl a b -> (Qsum f a <= Qsum f b)%Q.
Proof.
  intros Hf Hnd. induction Hnd as [|x a Hx Hnd IH]; intros b Hincl.
  - simpl. now apply Qsum_nonnegative.
  - destruct (in_split x b (Hincl x (or_introl eq_refl))) as (b1 & b2 & ->).
    rewrite (Qsum_Permutation f (b1 ++ x :: b2) (x :: b1 ++ b2))
      by (symmetry; apply Permutation_middle).
    simpl. apply Qplus_le_r. apply IH.
    intros y Hy. specialize (Hincl y (or_intror Hy)).
    apply in_app_or in Hincl. apply in_or_app.
    destruct Hincl as [H | [-> | H]]; [now left | contradiction | now right].
Qed.

Lemma Qsum_filter_add (f : nat -> Q) (c c' : nat -> bool) (v : list nat) (j : nat) :
  (forall i, 0 <= f i)%Q ->
  NoDup v -> In j v ->
  c j = false -> c' j = true ->
  (forall i, c i = true -> c' i = true) ->
  (Qsum f (filter c v) + f j <= Qsum f (filter c' v))%Q.
Proof.
  intros Hf Hnd Hj Hcj Hc'j Hsub.
  assert (H : (Qsum f (j :: filter c v) <= Qsum f (filter c' v))%Q).
  { apply Qsum_incl; [exact Hf| |].
    - constructor; [|now apply NoDup_filter].
      intro Hin. apply filter_In in Hin. destruct Hin as [_ Hin]. congruence.
    - intros y [<- | Hy]; apply filter_In.
      + now split.
      + apply filter_In in Hy. destruct Hy as [Hy Hcy]. split; [exact Hy | now apply Hsub]. }
  simpl in H. lra.
Qed.

Lemma Qsum_filter_incl (f : nat -> Q) (c c' : nat -> bool) (v : list nat) :
  (forall i, 0 <= f i)%Q ->
  NoDup v ->
  (forall i, c i = true -> c' i = true) ->
  (Qsum f (filter c v) <= Qsum f (filter c' v))%Q.
Proof.
  intros Hf Hnd Hsub. apply Qsum_incl; [exact Hf | now apply NoDup_filter|].
  intros y Hy. apply filter_In in Hy. apply filter_In.
  destruct Hy as [Hy Hcy]. split; [exact Hy | now apply Hsub].
Qed.

Lemma Qsum_filter_le (f : nat -> Q) (c : nat -> bool) (v : list nat) :
  (forall i, 0 <= f i)%Q ->
  NoDup v ->
  (Qsum f (filter c v) <= Qsum f v)%Q.
Proof.
  intros Hf Hnd. apply Qsum_incl; [exact Hf | now apply NoDup_filter|].
  intros y Hy. apply filter_In in Hy. tauto.
Qed.
(** ** The local search drivers stop at local optima *)

Lemma vnd_loop_local_optimum (problem : Problem.t) (neighborhoods : list Neighborhood) :
  forall fuel k incumbent r tried,
    neighborhoods = tried ++ k ->
    local_optimum problem tried incumbent ->
    local_search.vnd_loop fuel problem neighborhoods k incumbent = Some r ->
    local_optimum problem neighborhoods r.
Proof.
  induction fuel as [|fuel IH]; intros k incumbent r tried Hsplit Htried Hrun.
  - destruct k; simpl in Hrun; [|discriminate].
    injection Hrun as <-. rewrite app_nil_r in Hsplit. now subst.
  - destruct k as [|N k']; simpl in Hrun.
    + injection Hrun as <-. rewrite app_nil_r in Hsplit. now subst.
    + destruct (common.less2 (snd (best N problem incumbent)) (snd incumbent)) eqn:E.
      * eapply IH with (tried := []); [reflexivity|constructor|exact Hrun].
      * eapply IH with (tried := tried ++ [N]); [| |exact Hrun].
        -- now rewrite <- app_assoc.
        -- apply Forall_app. split; [exact Htried|]. constructor; [exact E|constructor].
Qed.

Lemma remove_at_In {A : Type} (v : list A) (idx : nat) (d x : A) :
  In x v -> x = nth idx v d \/ In x (local_search.remove_at v idx).
Proof.
  unfold local_search.remove_at. revert idx.
  induction v as [|y v IH]; intros idx Hin; [destruct Hin|].
  destruct idx as [|idx]; simpl.
  - destruct Hin as [-> | Hin]; [now left | now right].
  - destruct Hin as [-> | Hin]; [right; now left|].
    destruct (IH idx Hin) as [-> | H]; [now left | right; now right].
Qed.

Lemma rvnd_loop_step (problem : Problem.t) (neighborhoods : list Neighborhood)
      (fuel : nat) (d : Neighborhood) (rest : list Neighborhood)
      (incumbent : entry) (generator : mt19937) :
  local_search.rvnd_loop (S fuel) problem neighborhoods (d :: rest) incumbent generator
  = let idx := fst (draw generator) mod length (d :: rest) in
    let trial := best (nth idx (d :: rest) d) problem incumbent in
    if common.less2 (snd trial) (snd incumbent)
    then local_search.rvnd_loop fuel problem neighborhoods neighborhoods trial
           (snd (draw generator))
    else local_search.rvnd_loop fuel problem neighborhoods
           (local_search.remove_at (d :: rest) idx) incumbent (snd (draw generator)).
Proof. reflexivity. Qed.

Lemma rvnd_loop_local_optimum (problem : Problem.t) (neighborhoods : list Neighborhood) :
  forall fuel available incumbent generator r generator',
    (forall N, In N neighborhoods ->
               In N available \/
               common.less2 (snd (best N problem incumbent)) (snd incumbent) = false) ->
    local_search.rvnd_loop fuel problem neighborhoods available incumbent generator
    = Some (r, generator') ->
    local_optimum problem neighborhoods r.
Proof.
  induction fuel as [|fuel IH]; intros available incumbent generator r generator' Hinv Hrun.
  - destruct available; simpl in Hrun; [|discriminate].
    injection Hrun as <- _. apply Forall_forall. intros N HN.
    destruct (Hinv N HN) as [[]|H]; exact H.
  - destruct available as [|d rest].
    + simpl in Hrun. injection Hrun as <- _. apply Forall_forall. intros N HN.
      destruct (Hinv N HN) as [[]|H]; exact H.
    + rewrite rvnd_loop_step in Hrun. cbv zeta in Hrun.
      set (idx := fst (draw generator) mod length (d :: rest)) in *.
      destruct (common.less2 (snd (best (nth idx (d :: rest) d) problem incumbent))
                             (snd incumbent)) eqn:E.
      * eapply IH; [|exact Hrun]. intros N HN. now left.
      * eapply IH; [|exact Hrun]. intros N HN.
        destruct (Hinv N HN) as [Hav | Hno]; [|now right].
        destruct (remove_at_In (d :: rest) idx d N Hav) as [-> | Hrest];
          [now right | now left].
Qed.

Lemma vnd_loop_step (problem : Problem.t) (neighborhoods : list Neighborhood)
      (fuel : nat) (N : Neighborhood) (k : list Neighborhood) (incumbent : entry) :
  local_search.vnd_loop (S fuel) problem neighborhoods (N :: k) incumbent
  = if common.less2 (snd (best N problem incumbent)) (snd incumbent)
    then local_search.vnd_loop fuel problem neighborhoods neighborhoods
           (best N problem incumbent)
    else local_search.vnd_loop fuel problem neighborhoods k incumbent.
Proof. reflexivity. Qed.

Lemma remove_at_subset {A : Type} (v : list A) (idx : nat) (x : A) :
  In x (local_search.remove_at v idx) -> In x v.
Proof.
  unfold local_search.remove_at. intro H. apply in_app_or in H.
  rewrite <- (firstn_skipn idx v). apply in_or_app.
  destruct H as [H | H]; [now left|].
  right. rewrite <- (firstn_skipn 1 (skipn idx v)), skipn_skipn.
  apply in_or_app. now right.
Qed.

Lemma remove_at_length {A : Type} (v : list A) (idx : nat) :
  idx < length v -> S (length (local_search.remove_at v idx)) = length v.
Proof.
  unfold local_search.remove_at. intro H.
  rewrite length_app, length_firstn, length_skipn. lia.
Qed.

(** The drivers return whenever improvements cannot go on for ever:
    when the chains of improvements from the entry have a bounded
    length. *)
Section Termination.
Variable problem : Problem.t.
Variable neighborhoods : list Neighborhood.

Lemma vnd_loop_returns :
  forall d incumbent,
    descent_bounded problem neighborhoods d incumbent ->
    forall k,
      (forall N, In N k -> In N neighborhoods) ->
      exists fuel r,
        local_search.vnd_loop fuel problem neighborhoods k incumbent = Some r.
Proof.
  intros d incumbent Hd.
  induction Hd as [d e _ IH]. induction k as [|N k IHk]; intro Hsub.
  - exists 0, e. reflexivity.
  - destruct (common.less2 (snd (best N problem e)) (snd e)) eqn:E.
    + destruct (IH N (Hsub N (or_introl eq_refl)) E neighborhoods (fun N' H => H))
        as (fuel & r & Hrun).
      exists (S fuel), r. rewrite vnd_loop_step. now rewrite E.
    + destruct (IHk (fun N' H => Hsub N' (or_intror H))) as (fuel & r & Hrun).
      exists (S fuel), r. rewrite vnd_loop_step. now rewrite E.
Qed.

Lemma rvnd_loop_returns :
  forall d incumbent,
    descent_bounded problem neighborhoods d incumbent ->
    forall available generator,
      (forall N, In N available -> In N neighborhoods) ->
      exists fuel r generator',
        local_search.rvnd_loop fuel problem neighborhoods available incumbent generator
        = Some (r, generator').
Proof.
  intros d incumbent Hd.
  induction Hd as [d e _ IH]. intro available.
  remember (length available) as len eqn:Hlen. revert available Hlen.
  induction len as [|len IHlen]; intros available Hlen generator Hsub.
  - destruct available; [|discriminate].
    exists 0, e, generator. reflexivity.
  - destruct available as [|default rest]; [discriminate|].
    set (idx := fst (draw generator) mod length (default :: rest)).
    assert (Hidx : idx < length (default :: rest))
      by (apply Nat.mod_upper_bound; discriminate).
    destruct (common.less2 (snd (best (nth idx (default :: rest) default) problem e))
                (snd e)) eqn:E.
    + destruct (IH (nth idx (default :: rest) default)
                  (Hsub _ (nth_In _ _ Hidx)) E neighborhoods (snd (draw generator))
                  (fun N' H => H)) as (fuel & r & generator' & Hrun).
      exists (S fuel), r, generator'. rewrite rvnd_loop_step. cbv zeta.
      fold idx. now rewrite E.
    + destruct (IHlen (local_search.remove_at (default :: rest) idx)) with
        (generator := snd (draw generator)) as (fuel & r & generator' & Hrun).
      * pose proof (remove_at_length (default :: rest) idx Hidx) as H.
        simpl in H, Hlen. lia.
      * intros N' H. apply Hsub. now apply (remove_at_subset _ idx).
      * exists (S fuel), r, generator'. rewrite rvnd_loop_step. cbv zeta.
        fold idx. now rewrite E.
Qed.

End Termination.

(** With a generator that always draws 0, [rvnd] takes the first
    neighborhood left in the pool. *)
Lemma rvnd_loop_zeros_step (problem : Problem.t) (neighborhoods : list Neighborhood)
      (fuel : nat) (d : Neighborhood) (rest : list Neighborhood)
      (incumbent : entry) (position : nat) :
  local_search.rvnd_loop (S fuel) problem neighborhoods (d :: rest) incumbent
    (Examples.zeros position)
  = if common.less2 (snd (best d problem incumbent)) (snd incumbent)
    then local_search.rvnd_loop fuel problem neighborhoods neighborhoods
           (best d problem incumbent) (Examples.zeros (position + 1))
    else local_search.rvnd_loop fuel problem neighborhoods rest incumbent
           (Examples.zeros (position + 1)).
Proof.
  rewrite rvnd_loop_step. cbv zeta.
  change (snd (draw (Examples.zeros position))) with (Examples.zeros (position + 1)).
  change (fst (draw (Examples.zeros position))) with 0.
  rewrite Nat.Div0.mod_0_l. reflexivity.
Qed.

(** C4 as stated fails: from Greedy's solution of the instance [detour]
    the improvements that [vnd] finds come back to where they started
    (the comparator is not transitive), and neither [vnd] nor [rvnd],
    with a generator that always draws 0, ever returns: no result, so
    no local optimum. *)
Lemma local_search_never_returns_on_detour :
  (forall fuel,
      local_search.vnd fuel Examples.detour Examples.detour_entry ILS.neighborhoods
      = None)
  /\ (forall fuel position,
         local_search.rvnd fuel Examples.detour Examples.detour_entry ILS.neighborhoods
           (Examples.zeros position) = None)
  /\ ~ (exists fuel r,
           local_search.vnd fuel Examples.detour Examples.detour_entry ILS.neighborhoods
           = Some r
           /\ local_optimum Examples.detour ILS.neighborhoods r).
Proof.
  set (rest := [Exchange.neighborhood; Reassignment.neighborhood;
                DirectSwap.neighborhood; Swap.neighborhood]).
  assert (H1 : common.less2
                 (snd (best Shift.neighborhood Examples.detour Examples.detour_entry))
                 (snd Examples.detour_entry) = false) by (vm_compute; reflexivity).
  assert (H2 : common.less2
                 (snd (best Exchange.neighborhood Examples.detour Examples.detour_entry))
                 (snd Examples.detour_entry) = true) by (vm_compute; reflexivity).
  assert (H3 : common.less2
                 (snd (best Shift.neighborhood Examples.detour Examples.detour_second))
                 (snd Examples.detour_second) = false) by (vm_compute; reflexivity).
  assert (H4 : common.less2
                 (snd (best Exchange.neighborhood Examples.detour Examples.detour_second))
                 (snd Examples.detour_second) = true) by (vm_compute; reflexivity).
  assert (H5 : common.less2
                 (snd (best Shift.neighborhood Examples.detour Examples.detour_third))
                 (snd Examples.detour_third) = true) by (vm_compute; reflexivity).
  assert (H6 : best Shift.neighborhood Examples.detour Examples.detour_third
               = Examples.detour_entry) by (vm_compute; reflexivity).
  assert (Hvnd : forall fuel,
             local_search.vnd_loop fuel Examples.detour ILS.neighborhoods
               ILS.neighborhoods Examples.detour_entry = None
             /\ local_search.vnd_loop fuel Examples.detour ILS.neighborhoods
                  rest Examples.detour_entry = None
             /\ local_search.vnd_loop fuel Examples.detour ILS.neighborhoods
                  ILS.neighborhoods Examples.detour_second = None
             /\ local_search.vnd_loop fuel Examples.detour ILS.neighborhoods
                  rest Examples.detour_second = None
             /\ local_search.vnd_loop fuel Examples.detour ILS.neighborhoods
                  ILS.neighborhoods Examples.detour_third = None).
  { induction fuel as [|fuel (G1 & G2 & G3 & G4 & G5)].
    - repeat split; reflexivity.
    - change ILS.neighborhoods with (Shift.neighborhood :: rest) at 2 5 8.
      unfold rest at 2 4.
      rewrite !vnd_loop_step, H1, H2, H3, H4, H5, H6.
      fold Examples.detour_second Examples.detour_third.
      repeat split; assumption. }
  assert (Hrvnd : forall fuel position,
             local_search.rvnd_loop fuel Examples.detour ILS.neighborhoods
               ILS.neighborhoods Examples.detour_entry (Examples.zeros position) = None
             /\ local_search.rvnd_loop fuel Examples.detour ILS.neighborhoods
                  rest Examples.detour_entry (Examples.zeros position) = None
             /\ local_search.rvnd_loop fuel Examples.detour ILS.neighborhoods
                  ILS.neighborhoods Examples.detour_second (Examples.zeros position)
                = None
             /\ local_search.rvnd_loop fuel Examples.detour ILS.neighborhoods
                  rest Examples.detour_second (Examples.zeros position) = None
             /\ local_search.rvnd_loop fuel Examples.detour ILS.neighborhoods
                  ILS.neighborhoods Examples.detour_third (Examples.zeros position)
                = None).
  { induction fuel as [|fuel IH]; intro position; [repeat split; reflexivity|].
    destruct (IH (position + 1)) as (G1 & G2 & G3 & G4 & G5).
    change ILS.neighborhoods with (Shift.neighborhood :: rest) at 2 5 8.
    unfold rest at 2 4.
    rewrite !rvnd_loop_zeros_step, H1, H2, H3, H4, H5, H6.
    fold Examples.detour_second Examples.detour_third.
    repeat split; assumption. }
  split; [intro fuel; exact (proj1 (Hvnd fuel))|].
  split; [intros fuel position; exact (proj1 (Hrvnd fuel position))|].
  intros (fuel & r & Hrun & _).
  unfold local_search.vnd in Hrun. rewrite (proj1 (Hvnd fuel)) in Hrun. discriminate.
Qed.

(** C4, amended. Whatever [vnd] returns, and whatever [rvnd] returns, is
    a local optimum of every neighborhood of the list given: the best
    neighbor of the result in that neighborhood does not compare
    strictly less than the result under the epsilon-tolerant tuple
    comparator.  Both return such a result when the chains of
    improvements that start at the entry have a bounded length. *)
Theorem vnd_rvnd_return_local_optimum :
  forall (problem : Problem.t) (neighborhoods : list Neighborhood) (e : entry),
    (forall fuel r,
        local_search.vnd fuel problem e neighborhoods = Some r ->
        local_optimum problem neighborhoods r)
    /\
    (forall fuel generator r generator',
        local_search.rvnd fuel problem e neighborhoods generator = Some (r, generator') ->
        local_optimum problem neighborhoods r)
    /\
    (forall d,
        descent_bounded problem neighborhoods d e ->
        (exists fuel r,
            local_search.vnd fuel problem e neighborhoods = Some r
            /\ local_optimum problem neighborhoods r)
        /\ forall generator,
            exists fuel r generator',
              local_search.rvnd fuel problem e neighborhoods generator
              = Some (r, generator')
              /\ local_optimum problem neighborhoods r).
Proof.
  intros problem neighborhoods e.
  assert (Hvnd : forall fuel r,
             local_search.vnd fuel problem e neighborhoods = Some r ->
             local_optimum problem neighborhoods r).
  { intros fuel r Hrun.
    eapply vnd_loop_local_optimum with (tried := []);
      [reflexivity|constructor|exact Hrun]. }
  assert (Hrvnd : forall fuel generator r generator',
             local_search.rvnd fuel problem e neighborhoods generator
             = Some (r, generator') ->
             local_optimum problem neighborhoods r).
  { intros fuel generator r generator' Hrun.
    eapply rvnd_loop_local_optimum; [|exact Hrun]. intros N HN. now left. }
  split; [exact Hvnd|]. split; [exact Hrvnd|].
  intros d Hd. split.
  - destruct (vnd_loop_returns problem neighborhoods d e Hd neighborhoods
                (fun N H => H)) as (fuel & r & Hrun).
    exists fuel, r. split; [exact Hrun | exact (Hvnd fuel r Hrun)].
  - intro generator.
    destruct (rvnd_loop_returns problem neighborhoods d e Hd neighborhoods generator
                (fun N H => H)) as (fuel & r & generator' & Hrun).
    exists fuel, r, generator'.
    split; [exact Hrun | exact (Hrvnd fuel generator r generator' Hrun)].
Qed.

Lemma serial_single_descent :
  descent_bounded Examples.serial ILS.neighborhoods 2 Examples.serial_single.
Proof.
  apply descent_step. intros N HN Hless.
  apply descent_step. intros N' HN' Hless'.
  exfalso. simpl in HN, HN'.
  destruct HN as [<- | [<- | [<- | [<- | [<- | []]]]]];
    vm_compute in Hless; try discriminate;
    destruct HN' as [<- | [<- | [<- | [<- | [<- | []]]]]];
    vm_compute in Hless'; discriminate.
Qed.

Lemma vnd_rvnd_return_local_optimum_witness :
  (exists fuel r,
      local_search.vnd fuel Examples.serial Examples.serial_single ILS.neighborhoods
      = Some r
      /\ local_optimum Examples.serial ILS.neighborhoods r)
  /\ forall generator,
      exists fuel r generator',
        local_search.rvnd fuel Examples.serial Examples.serial_single ILS.neighborhoods
          generator = Some (r, generator')
        /\ local_optimum Examples.serial ILS.neighborhoods r.
Proof.
  exact (proj2 (proj2 (vnd_rvnd_return_local_optimum Examples.serial ILS.neighborhoods
                         Examples.serial_single))
           2 serial_single_descent).
Defined.

(** ** Counters of pending predecessors *)

Lemma pending_count_zero (done : nat -> bool) (preds : list nat) :
  pending_count done preds = 0%Z <-> forall i, In i preds -> done i = true.
Proof.
  unfold pending_count. induction preds as [|x preds IH]; simpl.
  - split; [intros _ i [] | reflexivity].
  - destruct (done x) eqn:E; simpl.
    + rewrite IH. split.
      * intros H i [<- | Hi]; auto.
      * intros H i Hi. apply H. now right.
    + split; [lia|]. intro H. specialize (H x (or_introl eq_refl)). congruence.
Qed.

Lemma filter_release_length (done done' : nat -> bool) (j : nat) (preds : list nat) :
  NoDup preds ->
  done j = false ->
  (forall x, done' x = done x || (x =? j)) ->
  length (filter (fun i => negb (done i)) preds)
  = length (filter (fun i => negb (done' i)) preds)
    + (if in_dec Nat.eq_dec j preds then 1 else 0).
Proof.
  intros Hnd Hj Hdone'.
  induction Hnd as [|x preds Hx Hnd IH]; [reflexivity|].
  simpl filter. rewrite Hdone'.
  destruct (Nat.eq_dec x j) as [-> | Hne].
  - rewrite Hj, Nat.eqb_refl. simpl negb. cbv iota.
    destruct (in_dec Nat.eq_dec j (j :: preds)) as [_ | Hout];
      [|exfalso; apply Hout; now left].
    destruct (in_dec Nat.eq_dec j preds) as [Hin' | _]; [contradiction|].
    simpl length. rewrite IH. lia.
  - pose proof Hne as Hneb. apply Nat.eqb_neq in Hneb. rewrite Hneb, orb_false_r.
    assert (Hsame : (if in_dec Nat.eq_dec j (x :: preds) then 1 else 0)
                    = (if in_dec Nat.eq_dec j preds then 1 else 0)).
    { destruct (in_dec Nat.eq_dec j (x :: preds)) as [[Heq | Hin] | Hout];
        destruct (in_dec Nat.eq_dec j preds) as [Hin' | Hout']; try reflexivity;
        try contradiction.
      exfalso. apply Hout. now right. }
    rewrite Hsame.
    destruct (done x); simpl; rewrite IH; lia.
Qed.

Lemma pending_count_release (done done' : nat -> bool) (j : nat) (preds : list nat) :
  NoDup preds ->
  done j = false ->
  (forall x, done' x = done x || (x =? j)) ->
  pending_count done' preds
  = (pending_count done preds - (if in_dec Nat.eq_dec j preds then 1 else 0))%Z.
Proof.
  intros Hnd Hj Hdone'. unfold pending_count.
  rewrite (filter_release_length done done' j preds Hnd Hj Hdone').
  destruct (in_dec Nat.eq_dec j preds); lia.
Qed.

(** [--counter[k]] for every [k] of a set. *)
Lemma decrement_all (succs : list nat) (g : nat -> Z) (x : nat) :
  NoDup succs ->
  fold_left (fun g' k => upd g' k (g' k - 1)%Z) succs g x
  = (g x - (if in_dec Nat.eq_dec x succs then 1 else 0))%Z.
Proof.
  intro Hnd. revert g.
  induction Hnd as [|y succs Hy Hnd IH]; intro g; simpl; [lia|].
  rewrite IH.
  destruct (Nat.eq_dec y x) as [-> | Hne].
  - rewrite upd_same.
    destruct (in_dec Nat.eq_dec x succs); [contradiction | lia].
  - rewrite upd_other by congruence.
    destruct (in_dec Nat.eq_dec x succs); lia.
Qed.

(** ** Folds of [dmax] *)

Lemma fold_dmax_ge_init (vals : list double) (init : double) :
  dle init (fold_left dmax vals init).
Proof.
  revert init. induction vals as [|v vals IH]; intro init; simpl.
  - apply dle_refl.
  - eapply dle_trans; [apply (dmax_ge_l init v) | apply IH].
Qed.

Lemma fold_dmax_ge (vals : list double) (init v : double) :
  In v vals -> dle v (fold_left dmax vals init).
Proof.
  revert init. induction vals as [|w vals IH]; intros init Hin; [destruct Hin|].
  simpl. destruct Hin as [-> | Hin].
  - eapply dle_trans; [apply (dmax_ge_r init v) | apply fold_dmax_ge_init].
  - now apply IH.
Qed.

Lemma fold_dmax_attained (vals : list double) (init : double) :
  fold_left dmax vals init = init \/ In (fold_left dmax vals init) vals.
Proof.
  revert init. induction vals as [|w vals IH]; intro init; simpl; [now left|].
  destruct (IH (dmax init w)) as [H | H].
  - rewrite H. destruct (dmax_cases init w) as [-> | ->]; [now left | right; now left].
  - right. now right.
Qed.

Lemma fold_dmax_finite (vals : list double) (init : double) :
  is_finite init = true ->
  (forall v, In v vals -> is_finite v = true) ->
  is_finite (fold_left dmax vals init) = true.
Proof.
  intros Hinit Hvals.
  destruct (fold_dmax_attained vals init) as [-> | H]; auto.
Qed.

Lemma fold_dmax_map {A : Type} (f : A -> double) (xs : list A) (init : double) :
  fold_left (fun acc x => dmax acc (f x)) xs init = fold_left dmax (map f xs) init.
Proof.
  revert init. induction xs as [|x xs IH]; intro init; simpl; auto.
Qed.

Lemma dle_antisym (a b : double) : dle a b -> dle b a -> deq a b.
Proof.
  destruct a, b; simpl; try tauto. apply Qle_antisym.
Qed.

Lemma fold_dmax_le (vs : list double) (init c : double) :
  dle init c -> (forall v, In v vs -> dle v c) -> dle (fold_left dmax vs init) c.
Proof.
  intros Hinit Hvs. destruct (fold_dmax_attained vs init) as [-> | Hin];
    [exact Hinit | now apply Hvs].
Qed.


(** ** Positions of a schedule without duplicates *)

Lemma NoDup_app_inv {A : Type} (xs ys : list A) :
  NoDup (xs ++ ys) -> NoDup xs /\ NoDup ys /\ forall a, In a xs -> ~ In a ys.
Proof.
  intro H. split; [exact (NoDup_app_remove_r _ _ H)|].
  split; [exact (NoDup_app_remove_l _ _ H)|].
  induction xs as [|x xs IH]; intros a Hin; [destruct Hin|].
  simpl in H. inversion H as [|? ? Hx Hrest]; subst.
  destruct Hin as [<- | Hin].
  - intro Hy. apply Hx. apply in_or_app. now right.
  - now apply IH.
Qed.

Lemma NoDup_concat_map (f : nat -> list nat) (ls : list nat) :
  NoDup (concat (map f ls)) ->
  (forall l, In l ls -> NoDup (f l))
  /\ (forall l l' x, In l ls -> In l' ls -> l <> l' -> In x (f l) -> ~ In x (f l')).
Proof.
  induction ls as [|a ls IH]; intro H; simpl in *.
  - split; [intros l [] | intros l l' x []].
  - destruct (NoDup_app_inv _ _ H) as (Ha & Hrest & Hdisj).
    destruct (IH Hrest) as [IH1 IH2].
    assert (Hsub : forall l x, In l ls -> In x (f l) -> In x (concat (map f ls))).
    { intros l x Hl Hx. apply in_concat. exists (f l). split; [|exact Hx].
      now apply in_map. }
    split.
    + intros l [<- | Hl]; auto.
    + intros l l' x [<- | Hl] [<- | Hl'] Hne Hx Hx'.
      * now apply Hne.
      * apply (Hdisj x Hx). now apply (Hsub l').
      * apply (Hdisj x Hx'). now apply (Hsub l).
      * now apply (IH2 l l' x).
Qed.

Lemma existsb_eqb_In (j : nat) (v : list nat) :
  existsb (Nat.eqb j) v = true <-> In j v.
Proof.
  rewrite existsb_exists. split.
  - intros (x & Hx & E). apply Nat.eqb_eq in E. now subst.
  - intro H. exists j. split; [exact H | apply Nat.eqb_refl].
Qed.

Lemma firstn_succ_nth (v : list nat) (k : nat) :
  k < length v -> firstn (k + 1) v = firstn k v ++ [nth k v 0].
Proof.
  revert k. induction v as [|x v IH]; intros [|k] H; simpl in *; try lia; auto.
  f_equal. apply IH. lia.
Qed.

Lemma In_firstn_nth (v : list nat) (k x : nat) :
  In x (firstn k v) <-> exists i, i < k /\ i < length v /\ nth i v 0 = x.
Proof.
  revert k. induction v as [|y v IH]; intros [|k]; simpl.
  - split; [intros [] | intros (i & H & _); lia].
  - split; [intros [] | intros (i & _ & H & _); lia].
  - split; [intros [] | intros (i & H & _); lia].
  - rewrite IH. split.
    + intros [<- | (i & Hi & Hl & Hn)].
      * exists 0. split; [lia|]. split; [lia|reflexivity].
      * exists (S i). split; [lia|]. split; [lia|exact Hn].
    + intros ([|i] & Hi & Hl & Hn).
      * now left.
      * right. exists i. split; [lia|]. split; [lia|exact Hn].
Qed.

Section Released.
Variable problem : Problem.t.
Variable schedule : Schedule.

Lemma released_iff (st : Problem.sim) (j : nat) :
  released problem schedule st j = true <->
  exists l k, l <= Problem.m problem /\ k < Problem.index st l
              /\ k < length (lane schedule l) /\ nth k (lane schedule l) 0 = j.
Proof.
  unfold released. rewrite existsb_exists. split.
  - intros (l & Hl & E). apply in_seq in Hl.
    apply existsb_eqb_In, In_firstn_nth in E. destruct E as (k & Hk).
    exists l, k. split; [lia | exact Hk].
  - intros (l & k & Hl & Hk). exists l. split; [apply in_seq; lia|].
    apply existsb_eqb_In, In_firstn_nth. now exists k.
Qed.

Lemma lane_operation_scheduled (l k : nat) :
  l <= Problem.m problem -> k < length (lane schedule l) ->
  In (nth k (lane schedule l) 0) (scheduled_operations problem schedule).
Proof.
  intros Hl Hk. unfold scheduled_operations. apply in_concat.
  exists (lane schedule l). split; [|now apply nth_In].
  apply in_map. apply in_seq. lia.
Qed.

Lemma scheduled_operation_position (x : nat) :
  In x (scheduled_operations problem schedule) ->
  exists l k, l <= Problem.m problem /\ k < length (lane schedule l)
              /\ nth k (lane schedule l) 0 = x.
Proof.
  unfold scheduled_operations. intro H. apply in_concat in H.
  destruct H as (v & Hv & Hx). apply in_map_iff in Hv.
  destruct Hv as (l & <- & Hl). apply in_seq in Hl.
  destruct (In_nth _ _ 0 Hx) as (k & Hk & Hn).
  exists l, k. repeat split; [lia | exact Hk | exact Hn].
Qed.

Lemma released_scheduled (st : Problem.sim) (j : nat) :
  released problem schedule st j = true ->
  In j (scheduled_operations problem schedule).
Proof.
  intro H. apply released_iff in H. destruct H as (l & k & Hl & _ & Hk & <-).
  now apply lane_operation_scheduled.
Qed.

Hypothesis schedule_NoDup : NoDup (scheduled_operations problem schedule).

(** An operation stands at one position only. *)
Lemma position_unique (l l' k k' : nat) :
  l <= Problem.m problem -> l' <= Problem.m problem ->
  k < length (lane schedule l) -> k' < length (lane schedule l') ->
  nth k (lane schedule l) 0 = nth k' (lane schedule l') 0 ->
  l = l' /\ k = k'.
Proof.
  intros Hl Hl' Hk Hk' E.
  destruct (NoDup_concat_map (lane schedule) (seq 0 (Problem.m problem + 1))
              schedule_NoDup) as [Hlanes Hdisj].
  assert (Hin : In l (seq 0 (Problem.m problem + 1))) by (apply in_seq; lia).
  assert (Hin' : In l' (seq 0 (Problem.m problem + 1))) by (apply in_seq; lia).
  destruct (Nat.eq_dec l l') as [-> | Hne].
  - split; [reflexivity|].
    apply (proj1 (NoDup_nth (lane schedule l') 0) (Hlanes l' Hin') k k' Hk Hk' E).
  - exfalso. apply (Hdisj l l' (nth k (lane schedule l) 0) Hin Hin' Hne).
    + now apply nth_In.
    + rewrite E. now apply nth_In.
Qed.

(** The head of a lane has not been released. *)
Lemma head_not_released (st : Problem.sim) (l : nat) :
  l <= Problem.m problem ->
  Problem.index st l < length (lane schedule l) ->
  released problem schedule st (nth (Problem.index st l) (lane schedule l) 0) = false.
Proof.
  intros Hl Hidx.
  destruct (released problem schedule st (nth (Problem.index st l) (lane schedule l) 0))
    eqn:E; [|reflexivity].
  apply released_iff in E. destruct E as (l' & k' & Hl' & Hk' & Hlen' & E).
  destruct (position_unique l' l k' (Problem.index st l) Hl' Hl Hlen' Hidx E) as [-> ->].
  lia.
Qed.

(** Releasing the head of lane [l] adds it to the released
    operations. *)
Lemma released_after (st st' : Problem.sim) (l : nat) :
  l <= Problem.m problem ->
  Problem.index st l < length (lane schedule l) ->
  Problem.index st' = upd (Problem.index st) l (Problem.index st l + 1) ->
  forall x,
    released problem schedule st' x
    = released problem schedule st x
      || (x =? nth (Problem.index st l) (lane schedule l) 0).
Proof.
  intros Hl Hidx Hindex x. unfold released. rewrite Hindex.
  assert (Hgen : forall ls,
             existsb (fun l' => existsb (Nat.eqb x)
                        (firstn (upd (Problem.index st) l (Problem.index st l + 1) l')
                           (lane schedule l'))) ls
             = existsb (fun l' => existsb (Nat.eqb x)
                           (firstn (Problem.index st l') (lane schedule l'))) ls
               || (existsb (Nat.eqb l) ls
                   && (x =? nth (Problem.index st l) (lane schedule l) 0))).
  { induction ls as [|a ls IH]; [reflexivity|].
    simpl. rewrite IH.
    destruct (Nat.eq_dec a l) as [-> | Hne].
    - rewrite upd_same, Nat.eqb_refl, (firstn_succ_nth _ _ Hidx), existsb_app.
      simpl. rewrite orb_false_r.
      destruct (existsb (Nat.eqb x) (firstn (Problem.index st l) (lane schedule l)));
        destruct (x =? nth (Problem.index st l) (lane schedule l) 0);
        simpl; rewrite ?orb_true_r; try reflexivity.
      now rewrite andb_false_r, orb_false_r.
    - rewrite upd_other by exact Hne.
      assert (Hneb : (l =? a) = false) by (apply Nat.eqb_neq; congruence).
      rewrite Hneb. simpl.
      now rewrite orb_assoc. }
  rewrite Hgen.
  assert (Hin : existsb (Nat.eqb l) (seq 0 (Problem.m problem + 1)) = true).
  { apply existsb_eqb_In. apply in_seq. lia. }
  now rewrite Hin.
Qed.

End Released.

(** ** The invariant of the forward simulator *)

Lemma wait_predecessors_other (problem : Problem.t) (j k : nat) (tv : nat -> double) :
  k <> j -> Problem.wait_predecessors problem j tv k = tv k.
Proof.
  intro Hne. unfold Problem.wait_predecessors.
  generalize (Problem.predecessors problem j) as preds. intro preds. revert tv.
  induction preds as [|a preds IH]; intro tv; simpl; [reflexivity|].
  rewrite IH. now apply upd_other.
Qed.

Lemma wait_predecessors_same (problem : Problem.t) (j : nat) (tv : nat -> double) :
  ~ In j (Problem.predecessors problem j) ->
  Problem.wait_predecessors problem j tv j
  = fold_left dmax (map (completion problem tv) (Problem.predecessors problem j)) (tv j).
Proof.
  unfold Problem.wait_predecessors.
  generalize (Problem.predecessors problem j) as preds. intro preds. revert tv.
  induction preds as [|a preds IH]; intros tv Hout; simpl; [reflexivity|].
  rewrite IH by (intro H; apply Hout; now right).
  rewrite upd_same. f_equal.
  apply map_ext_in. intros k Hk. unfold completion.
  rewrite upd_other; [reflexivity|].
  intros ->. apply Hout. now right.
Qed.

Lemma init_pendings_scheduled (problem : Problem.t) (schedule : Schedule) (j : nat) :
  In j (scheduled_operations problem schedule) ->
  Problem.init_pendings problem schedule j
  = Z.of_nat (length (Problem.predecessors problem j)).
Proof.
  unfold Problem.init_pendings, scheduled_operations.
  set (len := fun x => Z.of_nat (length (Problem.predecessors problem x))).
  assert (Hinner : forall v pd,
             In j v \/ pd j = len j ->
             fold_left (fun pd' x => upd pd' x (len x)) v pd j = len j).
  { induction v as [|a v IH]; intros pd H; simpl.
    - destruct H as [[] | H]; exact H.
    - apply IH. destruct (Nat.eq_dec a j) as [-> | Hne].
      + right. apply upd_same.
      + destruct H as [[Ha | Hv] | H]; [contradiction | now left |].
        right. rewrite upd_other by congruence. exact H. }
  generalize (seq 0 (Problem.m problem + 1)) as ls. intro ls.
  generalize (fun _ : nat => 0%Z) as pd.
  assert (Houter : forall ls pd,
             In j (concat (map (lane schedule) ls)) \/ pd j = len j ->
             fold_left
               (fun pd0 l => fold_left (fun pd' x => upd pd' x (len x)) (lane schedule l) pd0)
               ls pd j = len j).
  { clear ls. induction ls as [|l ls IH]; intros pd H; simpl in *.
    - destruct H as [[] | H]; exact H.
    - apply IH. destruct H as [H | H].
      + apply in_app_or in H. destruct H as [H | H]; [|now left].
        right. apply Hinner. now left.
      + right. apply Hinner. now right. }
  intros pd H. apply Houter. now left.
Qed.

Section SimulatorInvariant.
Variable problem : Problem.t.
Variable schedule : Schedule.
Hypothesis problem_wf : well_formed problem.
Hypothesis schedule_NoDup : NoDup (scheduled_operations problem schedule).
Hypothesis schedule_positive :
  forall x, In x (scheduled_operations problem schedule) -> 1 <= x.

Lemma init_inv : sim_inv problem schedule (Problem.init problem schedule).
Proof.
  assert (Hnone : forall j, released problem schedule (Problem.init problem schedule) j
                            = false).
  { intro j. unfold released. simpl.
    induction (seq 0 (Problem.m problem + 1)); simpl; auto. }
  constructor; simpl.
  - intros; lia.
  - intros j Hj. rewrite (init_pendings_scheduled problem schedule j Hj).
    unfold pending_count. f_equal. f_equal.
    induction (Problem.predecessors problem j) as [|a v IH]; simpl; [reflexivity|].
    rewrite Hnone. simpl. now rewrite <- IH.
  - apply upd_same.
  - intros j Hj _. rewrite upd_other by lia. reflexivity.
  - intros j Hj. rewrite Hnone in Hj. discriminate.
  - intros; lia.
  - reflexivity.
Qed.

(** The operation before the head of a lane has a finite start
    time. *)
Lemma previous_finite (st : Problem.sim) (l k : nat) :
  sim_inv problem schedule st ->
  l <= Problem.m problem -> k <= Problem.index st l ->
  is_finite (Problem.st_t st (previous schedule l k)) = true
  /\ (previous schedule l k = 0
      \/ released problem schedule st (previous schedule l k) = true).
Proof.
  intros Hinv Hl Hk. destruct k as [|k]; simpl.
  - rewrite (inv_depot _ _ _ Hinv). split; [reflexivity | now left].
  - assert (Hrel : released problem schedule st (nth k (lane schedule l) 0) = true).
    { apply released_iff. exists l, k. repeat split; try lia.
      pose proof (inv_index _ _ _ Hinv l Hl). lia. }
    split; [apply (inv_released _ _ _ Hinv _ Hrel) | now right].
Qed.

Lemma visit_lane_inv (st : Problem.sim) (l : nat) :
  l <= Problem.m problem ->
  sim_inv problem schedule st ->
  sim_inv problem schedule (Problem.visit_lane problem schedule st l).
Proof.
  intros Hl Hinv. unfold Problem.visit_lane.
  destruct (Problem.index st l <? length (lane schedule l)) eqn:Hidx; [|exact Hinv].
  apply Nat.ltb_lt in Hidx.
  set (j := nth (Problem.index st l) (lane schedule l) 0).
  destruct (Problem.pendings st j =? 0)%Z eqn:Hpend; [|exact Hinv].
  apply Z.eqb_eq in Hpend.
  set (i := Problem.location st l).
  set (t0 := if negb (l =? 0)
             then upd (Problem.st_t st) j
                    (dadd (dadd (Problem.st_t st i) (Fin (Problem.p problem i)))
                       (Fin (Problem.s problem i j l)))
             else upd (Problem.st_t st) j (Fin 0)).
  set (st' := {| Problem.st_t := Problem.wait_predecessors problem j t0;
                 Problem.index := upd (Problem.index st) l (Problem.index st l + 1);
                 Problem.location := upd (Problem.location st) l j;
                 Problem.pendings := Problem.release_successors problem j (Problem.pendings st);
                 Problem.count := Problem.count st + 1;
                 Problem.feasibility := true |}).
  (* facts about the released operation *)
  assert (Hjin : In j (scheduled_operations problem schedule))
    by (apply lane_operation_scheduled; assumption).
  assert (Hjpos : 1 <= j) by (now apply schedule_positive).
  assert (Hjnew : released problem schedule st j = false)
    by (apply head_not_released; assumption).
  assert (Hpreds : forall k, In k (Problem.predecessors problem j) ->
                             released problem schedule st k = true).
  { apply pending_count_zero. rewrite <- (inv_pendings _ _ _ Hinv j Hjin). exact Hpend. }
  assert (Hjself : ~ In j (Problem.predecessors problem j)).
  { intro H. apply Hpreds in H. congruence. }
  assert (Hrel' : forall x, released problem schedule st' x
                            = released problem schedule st x || (x =? j)).
  { apply released_after; [exact Hl | exact Hidx | reflexivity]. }
  assert (Hi : i = previous schedule l (Problem.index st l))
    by (apply (inv_location _ _ _ Hinv l Hl)).
  destruct (previous_finite st l (Problem.index st l) Hinv Hl (le_n _))
    as [Hifin Hirel]. rewrite <- Hi in Hifin, Hirel.
  assert (Hij : i <> j).
  { destruct Hirel as [H | H]; [lia | congruence]. }
  assert (Ht0other : forall k, k <> j -> t0 k = Problem.st_t st k).
  { intros k Hk. unfold t0. destruct (negb (l =? 0)); now apply upd_other. }
  assert (Ht0fin : is_finite (t0 j) = true).
  { unfold t0. destruct (negb (l =? 0)); rewrite upd_same; [|reflexivity].
    destruct (Problem.st_t st i); [reflexivity | discriminate]. }
  assert (Htother : forall k, k <> j -> Problem.st_t st' k = Problem.st_t st k).
  { intros k Hk. simpl. rewrite wait_predecessors_other by exact Hk. now apply Ht0other. }
  assert (Htj : Problem.st_t st' j
                = fold_left dmax
                    (map (completion problem (Problem.st_t st))
                       (Problem.predecessors problem j)) (t0 j)).
  { simpl. rewrite wait_predecessors_same by exact Hjself. f_equal.
    apply map_ext_in. intros k Hk. unfold completion. rewrite Ht0other; [reflexivity|].
    intros ->. now apply Hjself. }
  assert (Hrelne : forall x, released problem schedule st x = true -> x <> j)
    by (intros x Hx ->; congruence).
  fold st'.
  constructor.
  - (* index *)
    intros l' Hl'. simpl. destruct (Nat.eq_dec l' l) as [-> | Hne].
    + rewrite upd_same. lia.
    + rewrite upd_other by exact Hne. now apply (inv_index _ _ _ Hinv).
  - (* pendings *)
    intros x Hx. simpl. unfold Problem.release_successors.
    rewrite decrement_all by apply (wf_successors _ problem_wf).
    rewrite (pending_count_release (released problem schedule st)
               (released problem schedule st') j (Problem.predecessors problem x)
               (wf_predecessors _ problem_wf x) Hjnew Hrel').
    rewrite (inv_pendings _ _ _ Hinv x Hx).
    destruct (in_dec Nat.eq_dec x (Problem.successors problem j)) as [H | H];
      destruct (in_dec Nat.eq_dec j (Problem.predecessors problem x)) as [H' | H'];
      try reflexivity; exfalso.
    * apply H'. now apply (wf_edges _ problem_wf).
    * apply H. now apply (wf_edges _ problem_wf).
  - (* depot *)
    rewrite Htother by lia. apply (inv_depot _ _ _ Hinv).
  - (* unreleased *)
    intros x Hx Hnot. rewrite Hrel' in Hnot. apply orb_false_iff in Hnot.
    destruct Hnot as [Hnot Hne]. apply Nat.eqb_neq in Hne.
    rewrite Htother by exact Hne. now apply (inv_unreleased _ _ _ Hinv).
  - (* released *)
    intros x Hx. rewrite Hrel' in Hx.
    destruct (Nat.eq_dec x j) as [-> | Hne].
    + split.
      * rewrite Htj. apply fold_dmax_finite; [exact Ht0fin|].
        intros v Hv. apply in_map_iff in Hv. destruct Hv as (k & <- & Hk).
        unfold completion.
        destruct (Problem.st_t st k) eqn:E; [reflexivity|].
        pose proof (proj1 (inv_released _ _ _ Hinv k (Hpreds k Hk))) as Hfin.
        rewrite E in Hfin. discriminate.
      * intros k Hk. split; [rewrite Hrel', (Hpreds k Hk); reflexivity|].
        unfold completion. rewrite (Htother k) by (apply Hrelne; auto).
        rewrite Htj. apply fold_dmax_ge.
        apply in_map_iff. exists k. split; [reflexivity | exact Hk].
    + apply Nat.eqb_neq in Hne. rewrite Hne, orb_false_r in Hx.
      apply Nat.eqb_neq in Hne.
      destruct (inv_released _ _ _ Hinv x Hx) as [Hfin Hp].
      rewrite Htother by exact Hne. split; [exact Hfin|].
      intros k Hk. destruct (Hp k Hk) as [Hkrel Hle].
      split; [rewrite Hrel', Hkrel; reflexivity|].
      unfold completion. rewrite (Htother k) by (apply Hrelne; auto). exact Hle.
  - (* lane order *)
    intros l' k Hl' Hk. simpl in Hk.
    assert (Hcase : (l' = l /\ k = Problem.index st l) \/ k < Problem.index st l').
    { destruct (Nat.eq_dec l' l) as [-> | Hne].
      - rewrite upd_same in Hk. lia.
      - rewrite upd_other in Hk by exact Hne. now right. }
    destruct Hcase as [[-> ->] | Hold].
    + fold j. rewrite <- Hi. unfold completion.
      rewrite (Htother i Hij), Htj.
      eapply dle_trans; [|apply fold_dmax_ge_init].
      unfold t0. assert (Hl0 : (l =? 0) = false) by (apply Nat.eqb_neq; lia).
      rewrite Hl0. simpl. rewrite upd_same. apply dle_refl.
    + assert (Hl'm : l' <= Problem.m problem) by lia.
      pose proof (inv_index _ _ _ Hinv l' Hl'm) as Hlen.
      assert (Hxrel : released problem schedule st (nth k (lane schedule l') 0) = true).
      { apply released_iff. exists l', k. repeat split; try lia. }
      destruct (previous_finite st l' k Hinv Hl'm (Nat.lt_le_incl _ _ Hold))
        as [_ Hprev].
      assert (Hpne : previous schedule l' k <> j).
      { destruct Hprev as [H | H]; [lia | now apply Hrelne]. }
      unfold completion.
      rewrite (Htother _ Hpne), (Htother _ (Hrelne _ Hxrel)).
      now apply (inv_lane _ _ _ Hinv).
  - (* location *)
    intros l' Hl'. simpl. destruct (Nat.eq_dec l' l) as [-> | Hne].
    + rewrite !upd_same. replace (Problem.index st l + 1) with (S (Problem.index st l)) by lia.
      reflexivity.
    + rewrite !upd_other by exact Hne. now apply (inv_location _ _ _ Hinv).
Qed.

Lemma round_inv (st : Problem.sim) :
  sim_inv problem schedule st -> sim_inv problem schedule (Problem.round problem schedule st).
Proof.
  intro Hinv. unfold Problem.round.
  assert (Hstart : sim_inv problem schedule
            {| Problem.st_t := Problem.st_t st; Problem.index := Problem.index st;
               Problem.location := Problem.location st;
               Problem.pendings := Problem.pendings st;
               Problem.count := Problem.count st; Problem.feasibility := false |}).
  { destruct Hinv. constructor; assumption. }
  revert Hstart.
  generalize {| Problem.st_t := Problem.st_t st; Problem.index := Problem.index st;
                Problem.location := Problem.location st;
                Problem.pendings := Problem.pendings st;
                Problem.count := Problem.count st; Problem.feasibility := false |}.
  assert (Hls : forall l, In l (seq 0 (Problem.m problem + 1)) -> l <= Problem.m problem)
    by (intros l H; apply in_seq in H; lia).
  revert Hls. generalize (seq 0 (Problem.m problem + 1)) as ls.
  induction ls as [|l ls IH]; intros Hls s0 H0; simpl; [exact H0|].
  apply IH; [intros; apply Hls; now right|].
  apply visit_lane_inv; [apply Hls; now left | exact H0].
Qed.

Lemma rounds_inv (fuel : nat) (st : Problem.sim) :
  sim_inv problem schedule st ->
  sim_inv problem schedule (Problem.rounds problem schedule fuel st).
Proof.
  revert st. induction fuel as [|fuel IH]; intros st Hinv; simpl; [exact Hinv|].
  destruct ((Problem.count st <? Problem.n problem) && Problem.feasibility st);
    [|exact Hinv].
  apply IH. now apply round_inv.
Qed.

Lemma final_inv : sim_inv problem schedule (Problem.final problem schedule).
Proof. apply rounds_inv, init_inv. Qed.

End SimulatorInvariant.

(** ** The loop of the simulator ends within its fuel *)

Lemma visit_lane_progress (problem : Problem.t) (schedule : Schedule)
      (st : Problem.sim) (l : nat) :
  let st' := Problem.visit_lane problem schedule st l in
  Problem.count st <= Problem.count st'
  /\ (Problem.feasibility st' = true ->
      Problem.feasibility st = true \/ Problem.count st + 1 <= Problem.count st').
Proof.
  unfold Problem.visit_lane.
  destruct (Problem.index st l <? length (lane schedule l)); simpl; [|auto].
  destruct (Problem.pendings st _ =? 0)%Z; simpl; [split; [lia | right; lia] | auto].
Qed.

Lemma round_progress (problem : Problem.t) (schedule : Schedule) (st : Problem.sim) :
  let st' := Problem.round problem schedule st in
  Problem.count st <= Problem.count st'
  /\ (Problem.feasibility st' = true -> Problem.count st + 1 <= Problem.count st').
Proof.
  unfold Problem.round.
  set (s0 := {| Problem.st_t := Problem.st_t st; Problem.index := Problem.index st;
                Problem.location := Problem.location st;
                Problem.pendings := Problem.pendings st;
                Problem.count := Problem.count st; Problem.feasibility := false |}).
  assert (H0 : Problem.count st <= Problem.count s0
               /\ (Problem.feasibility s0 = true ->
                   Problem.count st + 1 <= Problem.count s0))
    by (simpl; split; [lia | discriminate]).
  revert H0. generalize s0. generalize (seq 0 (Problem.m problem + 1)) as ls.
  induction ls as [|l ls IH]; intros s [Hc Hf]; simpl; [auto|].
  apply IH.
  destruct (visit_lane_progress problem schedule s l) as [Hc' Hf'].
  split; [lia|]. intro H. destruct (Hf' H) as [H' | H']; [specialize (Hf H')|]; lia.
Qed.

Lemma rounds_stopped (problem : Problem.t) (schedule : Schedule) (fuel : nat)
      (st : Problem.sim) :
  simulating problem st = false -> Problem.rounds problem schedule fuel st = st.
Proof.
  unfold simulating. intro H. destruct fuel; simpl; [reflexivity | now rewrite H].
Qed.

Lemma rounds_exit (problem : Problem.t) (schedule : Schedule) :
  forall fuel st,
    Problem.n problem - Problem.count st < fuel ->
    simulating problem (Problem.rounds problem schedule fuel st) = false.
Proof.
  induction fuel as [|fuel IH]; intros st Hfuel; [lia|].
  simpl. fold (simulating problem st).
  destruct (simulating problem st) eqn:E; [|exact E].
  unfold simulating in E. apply andb_true_iff in E. destruct E as [Hc _].
  apply Nat.ltb_lt in Hc.
  destruct (round_progress problem schedule st) as [Hle Hprog].
  destruct (Problem.feasibility (Problem.round problem schedule st)) eqn:Hf.
  - apply IH. specialize (Hprog eq_refl). lia.
  - rewrite rounds_stopped; unfold simulating; rewrite Hf; apply andb_false_r.
Qed.

(** [start_time] is the state at which the source's loop ends: all [n]
    operations counted, or a round without progress. *)
Lemma final_exit (problem : Problem.t) (schedule : Schedule) :
  simulating problem (Problem.final problem schedule) = false.
Proof. apply rounds_exit. simpl. lia. Qed.

(** ** What [is_feasible] checks *)

Lemma count_lane (n : nat) (v : list nat) (acc : option (nat -> nat)) :
  let step := fun (acc' : option (nat -> nat)) i =>
                match acc' with
                | None => None
                | Some a => if (i <? 1) || (n <? i) then None else Some (upd a i (a i + 1))
                end in
  match fold_left step v acc with
  | Some a' =>
      exists a, acc = Some a
                /\ (forall x, In x v -> 1 <= x <= n)
                /\ forall i, a' i = a i + count_occ Nat.eq_dec v i
  | None => acc = None \/ exists x, In x v /\ ~ (1 <= x <= n)
  end.
Proof.
  intro step. revert acc. induction v as [|y v IH]; intro acc; simpl.
  - destruct acc as [a|]; [|now left].
    exists a. split; [reflexivity|]. split; [intros x [] | intro i; lia].
  - specialize (IH (step acc y)).
    destruct (fold_left step v (step acc y)) as [a'|].
    + destruct IH as (a1 & Hstep & Hvalid & Hcount).
      destruct acc as [a|]; [|discriminate]. simpl in Hstep.
      destruct ((y <? 1) || (n <? y)) eqn:E; [discriminate|].
      injection Hstep as <-. apply orb_false_iff in E. destruct E as [E1 E2].
      apply Nat.ltb_ge in E1, E2.
      exists a. split; [reflexivity|]. split.
      * intros x [<- | Hx]; [lia | now apply Hvalid].
      * intro i. rewrite Hcount. unfold upd.
        destruct (Nat.eq_dec y i) as [-> | Hne].
        -- rewrite Nat.eqb_refl. lia.
        -- assert (Hneb : (i =? y) = false) by (apply Nat.eqb_neq; congruence).
           rewrite Hneb. lia.
    + destruct acc as [a|]; [|now left]. right.
      simpl in IH. destruct ((y <? 1) || (n <? y)) eqn:E.
      * exists y. split; [now left|].
        apply orb_true_iff in E. destruct E as [E | E]; apply Nat.ltb_lt in E; lia.
      * destruct IH as [H | (x & Hx & Hbad)]; [discriminate|].
        exists x. split; [now right | exact Hbad].
Qed.

Lemma count_assignments_spec (problem : Problem.t) (schedule : Schedule) :
  match Problem.count_assignments problem schedule with
  | Some a =>
      (forall x, In x (scheduled_operations problem schedule) ->
                 1 <= x <= Problem.n problem)
      /\ forall i, a i = count_occ Nat.eq_dec (scheduled_operations problem schedule) i
  | None =>
      exists x, In x (scheduled_operations problem schedule)
                /\ ~ (1 <= x <= Problem.n problem)
  end.
Proof.
  unfold Problem.count_assignments, scheduled_operations.
  set (step := fun (acc' : option (nat -> nat)) i =>
                 match acc' with
                 | None => None
                 | Some a =>
                     if (i <? 1) || (Problem.n problem <? i) then None
                     else Some (upd a i (a i + 1))
                 end).
  assert (Hgen : forall ls acc,
             match fold_left (fun acc0 l => fold_left step (lane schedule l) acc0) ls acc with
             | Some a' =>
                 exists a, acc = Some a
                   /\ (forall x, In x (concat (map (lane schedule) ls)) ->
                                 1 <= x <= Problem.n problem)
                   /\ forall i, a' i = a i + count_occ Nat.eq_dec
                                                (concat (map (lane schedule) ls)) i
             | None =>
                 acc = None
                 \/ exists x, In x (concat (map (lane schedule) ls))
                              /\ ~ (1 <= x <= Problem.n problem)
             end).
  { induction ls as [|l ls IH]; intro acc; simpl.
    - destruct acc as [a|]; [|now left].
      exists a. split; [reflexivity|]. split; [intros x [] | intro i; lia].
    - specialize (IH (fold_left step (lane schedule l) acc)).
      pose proof (count_lane (Problem.n problem) (lane schedule l) acc) as Hlane.
      cbv zeta in Hlane. fold step in Hlane.
      destruct (fold_left (fun acc0 l0 => fold_left step (lane schedule l0) acc0) ls
                  (fold_left step (lane schedule l) acc)) as [a'|].
      + destruct IH as (a1 & Hmid & Hvalid & Hcount). rewrite Hmid in Hlane.
        destruct Hlane as (a & -> & Hvalid0 & Hcount0).
        exists a. split; [reflexivity|]. split.
        * intros x Hx. apply in_app_or in Hx. destruct Hx as [Hx | Hx];
            [now apply Hvalid0 | now apply Hvalid].
        * intro i. rewrite Hcount, Hcount0, count_occ_app. lia.
      + destruct IH as [Hmid | (x & Hx & Hbad)].
        * rewrite Hmid in Hlane. destruct Hlane as [-> | (y & Hy & Hbad)]; [now left|].
          right. exists y. split; [apply in_or_app; now left | exact Hbad].
        * right. exists x. split; [apply in_or_app; now right | exact Hbad]. }
  specialize (Hgen (seq 0 (Problem.m problem + 1)) (Some (fun _ => 0))).
  destruct (fold_left _ _ _) as [a'|].
  - destruct Hgen as (a & Ha & Hvalid & Hcount). injection Ha as <-.
    split; [exact Hvalid | exact Hcount].
  - destruct Hgen as [H | H]; [discriminate | exact H].
Qed.

Lemma Technology_eqb_eq (a b : Technology) : Technology_eqb a b = true <-> a = b.
Proof. destruct a, b; simpl; split; congruence. Qed.

Lemma is_feasible_iff (problem : Problem.t) (schedule : Schedule) :
  Problem.is_feasible problem schedule = true <-> feasibility_checks problem schedule.
Proof.
  unfold Problem.is_feasible.
  pose proof (count_assignments_spec problem schedule) as Hcount.
  split.
  - intro H.
    destruct (length schedule =? Problem.m problem + 1) eqn:Elen; [|discriminate].
    simpl in H. apply Nat.eqb_eq in Elen.
    destruct (Problem.count_assignments problem schedule) as [a|]; [|discriminate].
    destruct Hcount as [Hvalid Hocc].
    destruct (forallb (fun i => a i =? 1) (seq 1 (Problem.n problem))) eqn:Eonce;
      [|discriminate].
    destruct (forallb (fun i => Technology_eqb (Problem.technology problem i) REMOTE)
                (lane schedule 0)) eqn:Erem; [|discriminate].
    destruct (forallb _ (seq 1 (Problem.m problem))) eqn:Eman; [|discriminate].
    simpl in H.
    rewrite forallb_forall in Eonce, Erem, Eman, H.
    constructor; auto.
    + intros i Hi. rewrite <- Hocc. apply Nat.eqb_eq. apply Eonce. apply in_seq. lia.
    + intros i Hi. now apply Technology_eqb_eq, Erem.
    + intros l i Hl Hi. apply Technology_eqb_eq.
      assert (Hin : In l (seq 1 (Problem.m problem))) by (apply in_seq; lia).
      specialize (Eman l Hin). rewrite forallb_forall in Eman. now apply Eman.
    + intros j i Hj Hi.
      assert (Hin : In j (seq 1 (Problem.n problem))) by (apply in_seq; lia).
      specialize (H j Hin). rewrite forallb_forall in H.
      apply negb_true_iff. now apply H.
  - intros [Hlen Hids Honce Hrem Hman Hprec].
    apply Nat.eqb_eq in Hlen. rewrite Hlen. simpl.
    destruct (Problem.count_assignments problem schedule) as [a|].
    + destruct Hcount as [_ Hocc].
      assert (Eonce : forallb (fun i => a i =? 1) (seq 1 (Problem.n problem)) = true).
      { apply forallb_forall. intros i Hi. apply in_seq in Hi. apply Nat.eqb_eq.
        rewrite Hocc. apply Honce. lia. }
      rewrite Eonce. simpl.
      assert (Erem : forallb (fun i => Technology_eqb (Problem.technology problem i) REMOTE)
                       (lane schedule 0) = true).
      { apply forallb_forall. intros i Hi. now apply Technology_eqb_eq, Hrem. }
      rewrite Erem. simpl.
      assert (Eman : forallb
                       (fun l => forallb
                          (fun i => Technology_eqb (Problem.technology problem i) MANUAL)
                          (lane schedule l))
                       (seq 1 (Problem.m problem)) = true).
      { apply forallb_forall. intros l Hl. apply in_seq in Hl.
        apply forallb_forall. intros i Hi. apply Technology_eqb_eq, (Hman l); [lia|exact Hi]. }
      rewrite Eman. simpl.
      apply forallb_forall. intros j Hj. apply in_seq in Hj.
      apply forallb_forall. intros i Hi. apply negb_true_iff. apply Hprec; [lia|exact Hi].
    + destruct Hcount as (x & Hx & Hbad). exfalso. apply Hbad. now apply Hids.
Qed.

Lemma feasibility_checks_well_scheduled (problem : Problem.t) (schedule : Schedule) :
  feasibility_checks problem schedule -> well_scheduled problem schedule.
Proof.
  intros [_ Hids Honce _ _ _]. split; [|exact Hids].
  apply (NoDup_count_occ' Nat.eq_dec). intros x Hx. apply Honce. now apply Hids.
Qed.

(** ** Start times of feasible schedules respect the precedence *)

Lemma dle_PInf (a : double) : dle a infinity.
Proof. destruct a; exact I. Qed.

Lemma dadd_nonpositive (a : double) (q : Q) : (q <= 0)%Q -> dle (dadd a (Fin q)) a.
Proof. destruct a as [x|]; simpl; [intro; lra | auto]. Qed.

Lemma dadd_nonnegative (a : double) (q : Q) : (0 <= q)%Q -> dle a (dadd a (Fin q)).
Proof. destruct a as [x|]; simpl; [intro; lra | auto]. Qed.

Lemma dadd_monotone (a b : double) (q : Q) : dle a b -> dle (dadd a (Fin q)) (dadd b (Fin q)).
Proof. destruct a, b; simpl; auto. intro. lra. Qed.

(** Start times of a duplicate-free schedule: a released operation
    starts after each of its predecessors has completed, and an operation
    that is not released has an infinite start time. *)
Lemma start_time_precedence (problem : Problem.t) (schedule : Schedule) :
  well_formed problem ->
  well_scheduled problem schedule ->
  forall i j, 1 <= j -> In i (Problem.predecessors problem j) ->
    dle (completion problem (Problem.start_time problem schedule) i)
        (Problem.start_time problem schedule j).
Proof.
  intros Hwf [Hnd Hids] i j Hj Hi.
  assert (Hinv : sim_inv problem schedule (Problem.final problem schedule)).
  { apply final_inv; [exact Hwf | exact Hnd | intros x Hx; apply Hids in Hx; lia]. }
  unfold Problem.start_time.
  destruct (released problem schedule (Problem.final problem schedule) j) eqn:E.
  - apply (inv_released _ _ _ Hinv j E). exact Hi.
  - rewrite (inv_unreleased _ _ _ Hinv j Hj E). apply dle_PInf.
Qed.

(** C5. When [is_feasible] accepts a schedule, every direct precedence
    i -> j has t[j] >= t[i] + p[i] - 1e-5 in the start times of the
    simulator. *)
Theorem feasible_respects_precedence :
  forall (problem : Problem.t) (schedule : Schedule),
    well_formed problem ->
    Problem.is_feasible problem schedule = true ->
    forall i j,
      1 <= j <= Problem.n problem ->
      In i (Problem.predecessors problem j) ->
      dle (dadd (dadd (Problem.start_time problem schedule i) (Fin (Problem.p problem i)))
             (Fin (- common.THRESHOLD)))
          (Problem.start_time problem schedule j).
Proof.
  intros problem schedule Hwf Hfeasible i j Hj Hi.
  apply is_feasible_iff, feasibility_checks_well_scheduled in Hfeasible.
  eapply dle_trans; [apply dadd_nonpositive; vm_compute; discriminate|].
  apply (start_time_precedence problem schedule Hwf Hfeasible i j); [lia | exact Hi].
Qed.

Lemma serial_well_formed : well_formed Examples.serial.
Proof.
  constructor.
  - intros [|[|[|j]]]; simpl; repeat constructor; simpl; tauto.
  - intros [|[|[|i]]]; simpl; repeat constructor; simpl; tauto.
  - intros i j. simpl.
    destruct j as [|[|[|j]]]; destruct i as [|[|[|i]]]; simpl; split; intro H;
      try tauto; try (destruct H as [H | []]; try discriminate H); auto; lia.
Qed.

Lemma feasible_respects_precedence_witness :
  dle (dadd (dadd (Problem.start_time Examples.serial [[]; [1]; [2]] 1)
               (Fin (Problem.p Examples.serial 1)))
         (Fin (- common.THRESHOLD)))
      (Problem.start_time Examples.serial [[]; [1]; [2]] 2).
Proof.
  apply (feasible_respects_precedence Examples.serial [[]; [1]; [2]]
           serial_well_formed).
  - vm_compute. reflexivity.
  - simpl. lia.
  - simpl. left. reflexivity.
Defined.

(** ** [evaluate] and [makespan] on completed simulations *)

Lemma fold_dmax_dominated (vs ws : list double) (init : double) :
  (forall v, In v vs -> exists w, In w ws /\ dle v w) ->
  dle (fold_left dmax vs init) (fold_left dmax ws init).
Proof.
  intro H. destruct (fold_dmax_attained vs init) as [-> | Hin].
  - apply fold_dmax_ge_init.
  - destruct (H _ Hin) as (w & Hw & Hle).
    eapply dle_trans; [exact Hle | now apply fold_dmax_ge].
Qed.

Lemma evaluate_fst (problem : Problem.t) (schedule : Schedule) :
  fst (evaluate problem schedule)
  = fold_left dmax (evaluated_completions problem schedule) (Fin 0).
Proof.
  unfold evaluate, evaluated_completions. cbv zeta.
  set (tv := Problem.start_time problem schedule).
  set (step := fun (acc : double * double) l =>
                 if negb (length (lane schedule l) =? 0)
                 then (dmax (fst acc)
                         (dadd (tv (nth (length (lane schedule l) - 1) (lane schedule l) 0))
                            (Fin (Problem.p problem
                                    (nth (length (lane schedule l) - 1) (lane schedule l) 0)))),
                       dadd (snd acc)
                         (dadd (tv (nth (length (lane schedule l) - 1) (lane schedule l) 0))
                            (Fin (Problem.p problem
                                    (nth (length (lane schedule l) - 1) (lane schedule l) 0)))))
                 else acc).
  assert (Hfold : forall ls acc,
             fst (fold_left step ls acc)
             = fold_left dmax
                 (flat_map (fun l => if negb (length (lane schedule l) =? 0)
                                     then [completion problem tv
                                             (nth (length (lane schedule l) - 1)
                                                (lane schedule l) 0)]
                                     else []) ls) (fst acc)).
  { induction ls as [|l ls IH]; intro acc; simpl; [reflexivity|].
    rewrite IH, fold_left_app. unfold step.
    destruct (negb (length (lane schedule l) =? 0)); reflexivity. }
  specialize (Hfold (seq 1 (Problem.m problem)) (Fin 0, Fin 0)).
  destruct (fold_left step (seq 1 (Problem.m problem)) (Fin 0, Fin 0)) as [mk sm].
  simpl fst in *. rewrite fold_left_app, <- Hfold.
  apply (fold_dmax_map (completion problem tv)).
Qed.

Lemma makespan_fold (problem : Problem.t) (schedule : Schedule) :
  Problem.makespan problem schedule
  = fold_left dmax
      (map (completion problem (Problem.start_time problem schedule))
         (seq 1 (Problem.n problem))) (Fin 0).
Proof.
  unfold Problem.makespan.
  apply (fold_dmax_map (completion problem (Problem.start_time problem schedule))).
Qed.

Section Completed.
Variable problem : Problem.t.
Variable schedule : Schedule.
Hypothesis problem_wf : well_formed problem.
Hypothesis schedule_ok : well_scheduled problem schedule.
Hypothesis p_nonnegative : forall i, (0 <= Problem.p problem i)%Q.
Hypothesis s_nonnegative : forall i j l, (0 <= Problem.s problem i j l)%Q.
Hypothesis all_finite :
  forall i, 1 <= i <= Problem.n problem ->
            is_finite (Problem.start_time problem schedule i) = true.

Lemma completed_inv : sim_inv problem schedule (Problem.final problem schedule).
Proof.
  destruct schedule_ok as [Hnd Hids].
  apply final_inv; [exact problem_wf | exact Hnd | intros x Hx; apply Hids in Hx; lia].
Qed.

Lemma completed_released (i : nat) :
  1 <= i <= Problem.n problem -> released problem schedule (Problem.final problem schedule) i = true.
Proof.
  intro Hi. destruct (released problem schedule (Problem.final problem schedule) i) eqn:E; [reflexivity|].
  pose proof (inv_unreleased _ _ _ completed_inv i (proj1 Hi) E) as Hinf.
  pose proof (all_finite i Hi) as Hfin. unfold Problem.start_time in Hfin.
  rewrite Hinf in Hfin. discriminate.
Qed.

(** Every lane has been released to its end. *)
Lemma completed_index (l k : nat) :
  l <= Problem.m problem -> k < length (lane schedule l) ->
  k < Problem.index (Problem.final problem schedule) l.
Proof.
  intros Hl Hk. destruct schedule_ok as [Hnd Hids].
  pose proof (lane_operation_scheduled problem schedule l k Hl Hk) as Hin.
  pose proof (completed_released _ (Hids _ Hin)) as Hrel.
  apply released_iff in Hrel. destruct Hrel as (l' & k' & Hl' & Hk' & Hlen' & E).
  destruct (position_unique problem schedule Hnd l' l k' k Hl' Hl Hlen' Hk E) as [-> ->].
  exact Hk'.
Qed.

(** Completion times do not decrease along a manual lane. *)
Lemma completion_step (l k : nat) :
  1 <= l <= Problem.m problem -> k < length (lane schedule l) ->
  dle (completion problem (Problem.start_time problem schedule) (previous schedule l k))
      (completion problem (Problem.start_time problem schedule) (nth k (lane schedule l) 0)).
Proof.
  intros Hl Hk.
  assert (Hidx : k < Problem.index (Problem.final problem schedule) l) by (apply completed_index; [lia | exact Hk]).
  pose proof (inv_lane _ _ _ completed_inv l k Hl Hidx) as Hlane.
    eapply dle_trans; [apply dadd_nonnegative, s_nonnegative|].
  eapply dle_trans; [exact Hlane|].
  apply dadd_nonnegative, p_nonnegative.
Qed.

Lemma completion_monotone (l : nat) :
  1 <= l <= Problem.m problem ->
  forall d k, k + d < length (lane schedule l) ->
    dle (completion problem (Problem.start_time problem schedule) (nth k (lane schedule l) 0))
        (completion problem (Problem.start_time problem schedule) (nth (k + d) (lane schedule l) 0)).
Proof.
  intros Hl. induction d as [|d IH]; intros k Hk.
  - rewrite Nat.add_0_r. apply dle_refl.
  - eapply dle_trans; [apply IH; lia|].
    replace (k + S d) with (S (k + d)) by lia.
    apply (completion_step l (S (k + d)) Hl). lia.
Qed.

Lemma evaluate_le_makespan :
  dle (fst (evaluate problem schedule)) (Problem.makespan problem schedule).
Proof.
  rewrite evaluate_fst, makespan_fold. apply fold_dmax_dominated.
  destruct schedule_ok as [Hnd Hids].
  assert (Hop : forall l k, l <= Problem.m problem -> k < length (lane schedule l) ->
              exists w, In w (map (completion problem (Problem.start_time problem schedule)) (seq 1 (Problem.n problem)))
                        /\ dle (completion problem (Problem.start_time problem schedule) (nth k (lane schedule l) 0)) w).
  { intros l k Hl Hk. eexists. split; [|apply dle_refl].
    apply in_map. apply in_seq.
    pose proof (Hids _ (lane_operation_scheduled problem schedule l k Hl Hk)). lia. }
  intros v Hv. unfold evaluated_completions in Hv. 
  apply in_app_or in Hv. destruct Hv as [Hv | Hv].
  - apply in_flat_map in Hv. destruct Hv as (l & Hl & Hv). apply in_seq in Hl.
    destruct (length (lane schedule l) =? 0) eqn:E; simpl in Hv; [destruct Hv|].
    apply Nat.eqb_neq in E. destruct Hv as [<- | []].
    apply Hop; lia.
  - apply in_map_iff in Hv. destruct Hv as (x & <- & Hx).
    destruct (In_nth _ _ 0 Hx) as (k & Hk & <-).
    apply Hop; [lia | exact Hk].
Qed.

Lemma makespan_le_evaluate :
  dle (Problem.makespan problem schedule) (fst (evaluate problem schedule)).
Proof.
  rewrite evaluate_fst, makespan_fold. apply fold_dmax_dominated.
  intros v Hv. apply in_map_iff in Hv. destruct Hv as (i & <- & Hi).
  apply in_seq in Hi.
  assert (Hrel : released problem schedule (Problem.final problem schedule) i = true)
    by (apply completed_released; lia).
  apply released_iff in Hrel. destruct Hrel as (l & k & Hl & _ & Hk & <-).
  unfold evaluated_completions.
  destruct (Nat.eq_dec l 0) as [-> | Hl0].
  - eexists. split; [|apply dle_refl].
    apply in_or_app. right. apply in_map. now apply nth_In.
  - exists (completion problem (Problem.start_time problem schedule)
              (nth (length (lane schedule l) - 1) (lane schedule l) 0)).
    split.
    + apply in_or_app. left. apply in_flat_map. exists l.
      split; [apply in_seq; lia|].
      assert (E : (length (lane schedule l) =? 0) = false) by (apply Nat.eqb_neq; lia).
      rewrite E. now left.
    + replace (length (lane schedule l) - 1) with (k + (length (lane schedule l) - 1 - k))
        by lia.
      apply completion_monotone; lia.
Qed.

End Completed.

(** C9 as stated fails: on the instance [shortcut] the simulator
    releases both operations of the schedule [[], [1, 2]], at time 0
    each, since the travel from switch 1 to switch 2 takes -10; the lane
    ends on the completion time 1, which is what [evaluate] returns,
    while [makespan] is the completion time 10 of switch 1. *)
Lemma evaluate_misses_makespan_on_shortcut :
  well_formed Examples.shortcut
  /\ well_scheduled Examples.shortcut [[]; [1; 2]]
  /\ (forall i, (0 <= Problem.p Examples.shortcut i)%Q)
  /\ (forall i, 1 <= i <= Problem.n Examples.shortcut ->
                is_finite (Problem.start_time Examples.shortcut [[]; [1; 2]] i) = true)
  /\ fst (evaluate Examples.shortcut [[]; [1; 2]]) = Fin 1
  /\ Problem.makespan Examples.shortcut [[]; [1; 2]] = Fin 10
  /\ ~ deq (fst (evaluate Examples.shortcut [[]; [1; 2]]))
           (Problem.makespan Examples.shortcut [[]; [1; 2]]).
Proof.
  split; [|split; [|split; [|split; [|split; [|split]]]]].
  - constructor; simpl; [constructor | constructor | tauto].
  - split; simpl.
    + repeat constructor; simpl; intuition lia.
    + intros x [<- | [<- | []]]; lia.
  - intros [|[|[|i]]]; vm_compute; discriminate.
  - intros i Hi. simpl in Hi.
    destruct i as [|[|[|i]]]; try lia; vm_compute; reflexivity.
  - vm_compute. reflexivity.
  - vm_compute. reflexivity.
  - vm_compute. intro H. discriminate.
Qed.

(** C9, amended. On a schedule whose operations the simulator all
    releases (every start time finite), the first component of
    [evaluate] equals [makespan], when the schedule holds each operation
    once and neither a processing time nor a travel time is negative. *)
Theorem evaluate_agrees_with_makespan :
  forall (problem : Problem.t) (schedule : Schedule),
    well_formed problem ->
    well_scheduled problem schedule ->
    (forall i, (0 <= Problem.p problem i)%Q) ->
    (forall i j l, (0 <= Problem.s problem i j l)%Q) ->
    (forall i, 1 <= i <= Problem.n problem ->
               is_finite (Problem.start_time problem schedule i) = true) ->
    deq (fst (evaluate problem schedule)) (Problem.makespan problem schedule).
Proof.
  intros problem schedule Hwf Hok Hp Hs Hfin.
  apply dle_antisym.
  - now apply evaluate_le_makespan.
  - now apply makespan_le_evaluate.
Qed.

Lemma serial_well_scheduled : well_scheduled Examples.serial [[]; [1]; [2]].
Proof.
  split; simpl.
  - repeat constructor; simpl; intuition lia.
  - intros x [<- | [<- | []]]; lia.
Qed.

Lemma serial_single_well_scheduled : well_scheduled Examples.serial [[]; [1; 2]; []].
Proof.
  split; simpl.
  - repeat constructor; simpl; intuition lia.
  - intros x [<- | [<- | []]]; lia.
Qed.

Lemma evaluate_agrees_with_makespan_witness :
  deq (fst (evaluate Examples.serial [[]; [1; 2]; []]))
      (Problem.makespan Examples.serial [[]; [1; 2]; []]).
Proof.
  apply (evaluate_agrees_with_makespan Examples.serial [[]; [1; 2]; []]
           serial_well_formed serial_single_well_scheduled).
  - intros [|[|[|i]]]; vm_compute; discriminate.
  - intros i j l. vm_compute. discriminate.
  - intros i Hi. simpl in Hi.
    destruct i as [|[|[|i]]]; try lia; vm_compute; reflexivity.
Defined.

(** ** The main loop of ILS searches from the start solution *)

(** Whatever the perturbation phase produced, the trial of an iteration is
    the local search run on [start]; of the perturbation only the state
    of the generator reaches the call. *)
Lemma iteration_body_trial
      (shuffle : list nat -> mt19937 -> list nat * mt19937) (problem : Problem.t)
      (opt : ILS.options) (ls_fuel : nat) (start : entry) (st : ILS.loop_state)
      (r : ILS.iteration_result) :
  ILS.iteration_body shuffle problem opt ls_fuel start st = Some r ->
  ILS.local_search_call problem opt ls_fuel start
    (snd (ILS.perturbation_phase shuffle problem st))
  = Some (ILS.trial r, ILS.generator (ILS.next r)).
Proof.
  unfold ILS.iteration_body.
  destruct (ILS.perturbation_phase shuffle problem st) as [perturbed_entry generator1].
  simpl. destruct (ILS.local_search_call problem opt ls_fuel start generator1)
    as [[trial_entry generator2]|]; [|discriminate].
  intro H. injection H as <-. simpl.
  now destruct (common.less2 (snd trial_entry) (snd (ILS.incumbent st))).
Qed.

(** C1. On the instance [twins], with the generator [counting] and a
    shuffle that keeps the order, the first iteration perturbs the
    incumbent [[]; [1]; [2]] into [[]; [2]; [1]], whose local search
    returns [[]; [2]; [1]]; the trial the iteration submits to the
    improvement test is instead the local search of the start solution,
    [[]; [1]; [2]]. *)
Theorem ils_trial_is_not_search_of_perturbed :
  exists start st r after_perturbed,
    ILS.prepare Examples.twins Examples.twins_options 20 = Some (start, st)
    /\ ILS.iteration_body Examples.keep_order Examples.twins
         Examples.twins_options 20 start st = Some r
    /\ fst (ILS.perturbed r) = [[]; [2]; [1]]
    /\ local_search.vnd 20 Examples.twins (ILS.perturbed r) ILS.neighborhoods
       = Some after_perturbed
    /\ fst after_perturbed = [[]; [2]; [1]]
    /\ local_search.vnd 20 Examples.twins start ILS.neighborhoods = Some (ILS.trial r)
    /\ fst (ILS.trial r) = [[]; [1]; [2]].
Proof.
  destruct (ILS.prepare Examples.twins Examples.twins_options 20)
    as [[start st]|] eqn:Hprep; [|vm_compute in Hprep; discriminate].
  destruct (ILS.iteration_body Examples.keep_order Examples.twins
              Examples.twins_options 20 start st) as [r|] eqn:Hbody;
    [|vm_compute in Hprep; injection Hprep as <- <-; vm_compute in Hbody; discriminate].
  destruct (local_search.vnd 20 Examples.twins (ILS.perturbed r) ILS.neighborhoods)
    as [after|] eqn:Hafter;
    [|vm_compute in Hprep; injection Hprep as <- <-;
      vm_compute in Hbody; injection Hbody as <-;
      vm_compute in Hafter; discriminate].
  exists start, st, r, after.
  vm_compute in Hprep. injection Hprep as <- <-.
  vm_compute in Hbody. injection Hbody as <-.
  vm_compute in Hafter. injection Hafter as <-.
  repeat split; vm_compute; reflexivity.
Qed.

(** ** Deadlocked schedules *)

Lemma dle_infinity_eq (a : double) : dle infinity a -> a = infinity.
Proof. destruct a; simpl; [intros [] | reflexivity]. Qed.



(** C2. On the instance [remote_pair] the schedule [[2; 1]; []] blocks
    lane 0: the simulator stops with no operation released and both start
    times stay infinite, and [evaluate] returns (+infinity, 0): its second
    component is not +infinity. *)
Theorem evaluate_of_deadlock_on_lane_0 :
  Problem.count (Problem.final Examples.remote_pair [[2; 1]; []]) = 0
  /\ Problem.feasibility (Problem.final Examples.remote_pair [[2; 1]; []]) = false
  /\ Problem.start_time Examples.remote_pair [[2; 1]; []] 1 = infinity
  /\ Problem.start_time Examples.remote_pair [[2; 1]; []] 2 = infinity
  /\ evaluate Examples.remote_pair [[2; 1]; []] = (infinity, Fin 0).
Proof. repeat split; vm_compute; reflexivity. Qed.

(** C3. On scenario S3 the schedule [[]; [2; 1]; []] places switch 2
    before its predecessor 1 on lane 1: the simulator releases nothing,
    both start times are infinite, and [is_feasible] returns true. *)
Theorem is_feasible_accepts_deadlock :
  Problem.count (Problem.final Examples.serial [[]; [2; 1]; []]) = 0
  /\ Problem.start_time Examples.serial [[]; [2; 1]; []] 1 = infinity
  /\ Problem.start_time Examples.serial [[]; [2; 1]; []] 2 = infinity
  /\ Problem.is_feasible Examples.serial [[]; [2; 1]; []] = true.
Proof. repeat split; vm_compute; reflexivity. Qed.

(** ** The contract of [best] *)

Lemma scan_app (problem : Problem.t) (xs ys : list Schedule) (e : entry) :
  scan problem (xs ++ ys) e = scan problem ys (scan problem xs e).
Proof. unfold scan. apply fold_left_app. Qed.

Lemma scan_no_improvement (problem : Problem.t) (neighbors : list Schedule) (e : entry) :
  (forall nb, In nb neighbors -> common.less2 (evaluate problem nb) (snd e) = false) ->
  scan problem neighbors e = e.
Proof.
  induction neighbors as [|x xs IH]; intro Hall; [reflexivity|].
  simpl. rewrite (Hall x (or_introl eq_refl)).
  apply IH. intros nb Hnb. apply Hall. now right.
Qed.

(** The scan either never replaced the entry, or it stands at the last
    neighbor that replaced the running best. *)
Lemma scan_cases (problem : Problem.t) (neighbors : list Schedule) (e : entry) :
  (scan problem neighbors e = e
   /\ forall nb, In nb neighbors -> common.less2 (evaluate problem nb) (snd e) = false)
  \/
  (exists pre nb post,
      neighbors = pre ++ nb :: post
      /\ scan problem neighbors e = (nb, evaluate problem nb)
      /\ common.less2 (evaluate problem nb) (snd (scan problem pre e)) = true
      /\ forall x, In x post ->
                   common.less2 (evaluate problem x) (evaluate problem nb) = false).
Proof.
  induction neighbors as [|x xs IH] using rev_ind.
  - left. split; [reflexivity | intros nb []].
  - rewrite scan_app. simpl.
    destruct (common.less2 (evaluate problem x) (snd (scan problem xs e))) eqn:E.
    + right. exists xs, x, []. repeat split; [exact E | intros y []].
    + destruct IH as [[Hsame Hall] | (pre & nb & post & Hsplit & Hres & Hless & Hpost)].
      * left. split; [exact Hsame|].
        intros nb Hnb. apply in_app_or in Hnb. destruct Hnb as [Hnb | [<- | []]].
        -- now apply Hall.
        -- now rewrite Hsame in E.
      * right. exists pre, nb, (post ++ [x]). repeat split.
        -- rewrite Hsplit, <- app_assoc. reflexivity.
        -- exact Hres.
        -- exact Hless.
        -- intros y Hy. apply in_app_or in Hy. destruct Hy as [Hy | [<- | []]].
           ++ now apply Hpost.
           ++ now rewrite Hres in E.
Qed.

Lemma scan_contract (problem : Problem.t) (neighbors : list Schedule) (e : entry) :
  best_as_scanned problem neighbors e (scan problem neighbors e).
Proof.
  split.
  - apply scan_no_improvement.
  - intros (nb0 & Hin0 & Hless0).
    destruct (scan_cases problem neighbors e)
      as [[_ Hall] | (pre & nb & post & Hsplit & Hres & Hless & Hpost)].
    + rewrite (Hall nb0 Hin0) in Hless0. discriminate.
    + exists pre, post. rewrite Hres. simpl. repeat split; assumption.
Qed.

(** The neighbors enumerated are the move families of the specification. *)
Lemma shift_neighbors_family (problem : Problem.t) (start_schedule nb : Schedule) :
  In nb (Shift.neighbors problem start_schedule) <->
  exists l idx_origin idx_target,
    l <= Problem.m problem
    /\ idx_origin < length (lane start_schedule l)
    /\ idx_target < length (lane start_schedule l)
    /\ idx_target <> idx_origin
    /\ nb = set_lane start_schedule l
              (insert_at (erase (lane start_schedule l) idx_origin) idx_target
                 (nth idx_origin (lane start_schedule l) 0)).
Proof.
  unfold Shift.neighbors. rewrite in_flat_map. split.
  - intros (l & Hl & H). apply in_seq in Hl.
    apply in_flat_map in H. destruct H as (o & Ho & H). apply in_seq in Ho.
    apply in_flat_map in H. destruct H as (t & Ht & H). apply in_seq in Ht.
    destruct (t =? o) eqn:E; simpl in H; [destruct H|].
    apply Nat.eqb_neq in E. destruct H as [<- | []].
    exists l, o, t. repeat split; try lia.
  - intros (l & o & t & Hl & Ho & Ht & Hne & ->).
    exists l. split; [apply in_seq; lia|].
    apply in_flat_map. exists o. split; [apply in_seq; lia|].
    apply in_flat_map. exists t. split; [apply in_seq; lia|].
    apply Nat.eqb_neq in Hne. rewrite Hne. now left.
Qed.

Lemma direct_swap_neighbors_family (problem : Problem.t) (start_schedule nb : Schedule) :
  In nb (DirectSwap.neighbors problem start_schedule) <->
  exists l1 l2 idx1 idx2,
    1 <= l1 /\ l1 < l2 /\ l2 <= Problem.m problem
    /\ idx1 < length (lane start_schedule l1)
    /\ idx2 < length (lane start_schedule l2)
    /\ nb = set_lane
              (set_lane start_schedule l1
                 (assign (lane start_schedule l1) idx1 (nth idx2 (lane start_schedule l2) 0)))
              l2
              (assign
                 (lane (set_lane start_schedule l1
                          (assign (lane start_schedule l1) idx1
                             (nth idx2 (lane start_schedule l2) 0))) l2)
                 idx2 (nth idx1 (lane start_schedule l1) 0)).
Proof.
  unfold DirectSwap.neighbors. rewrite in_flat_map. split.
  - intros (l1 & Hl1 & H). apply in_seq in Hl1.
    destruct (0 <? length (lane start_schedule l1)); [|destruct H].
    apply in_flat_map in H. destruct H as (l2 & Hl2 & H). apply in_seq in Hl2.
    destruct (0 <? length (lane start_schedule l2)); [|destruct H].
    apply in_flat_map in H. destruct H as (i1 & Hi1 & H). apply in_seq in Hi1.
    apply in_flat_map in H. destruct H as (i2 & Hi2 & H). apply in_seq in Hi2.
    destruct H as [<- | []].
    exists l1, l2, i1, i2. repeat split; try lia.
  - intros (l1 & l2 & i1 & i2 & Hl1 & Hl12 & Hl2 & Hi1 & Hi2 & ->).
    exists l1. split; [apply in_seq; lia|].
    assert (E1 : (0 <? length (lane start_schedule l1)) = true) by (apply Nat.ltb_lt; lia).
    assert (E2 : (0 <? length (lane start_schedule l2)) = true) by (apply Nat.ltb_lt; lia).
    rewrite E1. apply in_flat_map. exists l2. split; [apply in_seq; lia|].
    rewrite E2. apply in_flat_map. exists i1. split; [apply in_seq; lia|].
    apply in_flat_map. exists i2. split; [apply in_seq; lia|]. now left.
Qed.

(** C6 as stated fails: from Greedy's solution of [detour], evaluated
    (100, 20), [Shift::best] returns the neighbor [[4]; [1; 3; 2]] evaluated
    (100, 65), which is neither the entry nor strictly less than it, while
    the neighbor [[4]; [2; 1; 3]] is strictly less than both. *)
Lemma shift_best_not_as_specified :
  ~ best_as_specified Examples.detour
      (Shift.neighbors Examples.detour (fst Examples.detour_entry))
      Examples.detour_entry
      (Shift.best Examples.detour Examples.detour_entry).
Proof.
  intros [[_ Hsame] | (_ & _ & _ & Hless)].
  - vm_compute in Hsame. discriminate.
  - vm_compute in Hless. discriminate.
Qed.

(** C6, amended. For Shift, Exchange, Reassignment and DirectSwap,
    [best] scans the whole move family in enumeration order.  It returns
    the entry unchanged when no neighbor's evaluation is strictly less
    than the entry's under the epsilon-tolerant tuple comparator.
    Otherwise it returns a neighbor with that neighbor's evaluation, one
    that was strictly less than the best of the neighbors enumerated
    before it and that no neighbor enumerated after it is strictly less
    than. *)
Theorem best_scans_move_family :
  forall (problem : Problem.t) (e : entry),
    best_as_scanned problem (Shift.neighbors problem (fst e)) e
                    (Shift.best problem e)
    /\ best_as_scanned problem (Exchange.neighbors problem (fst e)) e
                       (Exchange.best problem e)
    /\ best_as_scanned problem (Reassignment.neighbors problem (fst e)) e
                       (Reassignment.best problem e)
    /\ best_as_scanned problem (DirectSwap.neighbors problem (fst e)) e
                       (DirectSwap.best problem e).
Proof.
  intros problem e. repeat split; apply scan_contract.
Qed.

Lemma best_scans_move_family_witness :
  exists pre post,
    Shift.neighbors Examples.detour (fst Examples.detour_entry)
    = pre ++ fst (Shift.best Examples.detour Examples.detour_entry) :: post
    /\ snd (Shift.best Examples.detour Examples.detour_entry)
       = evaluate Examples.detour (fst (Shift.best Examples.detour Examples.detour_entry))
    /\ common.less2 (snd (Shift.best Examples.detour Examples.detour_entry))
         (snd (scan Examples.detour pre Examples.detour_entry)) = true
    /\ forall nb, In nb post ->
         common.less2 (evaluate Examples.detour nb)
           (snd (Shift.best Examples.detour Examples.detour_entry)) = false.
Proof.
  destruct (best_scans_move_family Examples.detour Examples.detour_entry)
    as [[_ Hshift] _].
  apply Hshift.
  exists [[4]; [2; 1; 3]]. split; [|vm_compute; reflexivity].
  vm_compute. left. reflexivity.
Defined.

(** ** The perturbation keeps the operations *)

Section Perturbation.
Variable shuffle : list nat -> mt19937 -> list nat * mt19937.
Hypothesis shuffle_Permutation : forall v g, Permutation v (fst (shuffle v g)).
Variable problem : Problem.t.

Lemma inserted_undone (schedule : Schedule) (l_target operation idx_target : nat) :
  l_target < length schedule ->
  idx_target <= length (lane schedule l_target) ->
  set_lane (inserted schedule l_target operation idx_target) l_target
    (erase (lane (inserted schedule l_target operation idx_target) l_target) idx_target)
  = schedule.
Proof.
  intros Hl Hidx. unfold inserted.
  rewrite lane_set_lane_same by exact Hl.
  rewrite erase_insert_at by exact Hidx.
  rewrite set_lane_set_lane. apply set_lane_lane.
Qed.

Lemma try_insert_outcome (l_target operation : nat) :
  forall indexes schedule,
    l_target < length schedule ->
    (forall k, In k indexes -> k <= length (lane schedule l_target)) ->
    (exists pre idx_target post,
        indexes = pre ++ idx_target :: post
        /\ (forall k, In k pre ->
                      insertion_feasible problem schedule l_target operation k = false)
        /\ insertion_feasible problem schedule l_target operation idx_target = true
        /\ ILS.try_insert problem schedule l_target operation indexes
           = (Some (inserted schedule l_target operation idx_target,
                    evaluate problem (inserted schedule l_target operation idx_target)),
              inserted schedule l_target operation idx_target))
    \/
    ((forall k, In k indexes ->
                insertion_feasible problem schedule l_target operation k = false)
     /\ ILS.try_insert problem schedule l_target operation indexes = (None, schedule)).
Proof.
  induction indexes as [|i indexes IH]; intros schedule Hl Hbound.
  - right. split; [intros k []|reflexivity].
  - simpl. fold (inserted schedule l_target operation i).
    destruct (is_finite (fst (evaluate problem (inserted schedule l_target operation i))))
      eqn:E.
    + left. exists [], i, indexes. repeat split; [intros k []|exact E].
    + rewrite inserted_undone by (auto; apply Hbound; now left).
      destruct (IH schedule Hl (fun k Hk => Hbound k (or_intror Hk)))
        as [(pre & j & post & Hsplit & Hpre & Hj & Hrun) | [Hall Hrun]].
      * left. exists (i :: pre), j, post. repeat split.
        -- now rewrite Hsplit.
        -- intros k [<- | Hk]; [exact E | now apply Hpre].
        -- exact Hj.
        -- exact Hrun.
      * right. split; [|exact Hrun].
        intros k [<- | Hk]; [exact E | now apply Hall].
Qed.

Lemma chain_lanes (chain : list nat) (idx : nat) :
  Permutation (seq 1 (Problem.m problem)) chain ->
  idx < length chain ->
  origin_of chain idx < Problem.m problem + 1
  /\ target_of chain idx < Problem.m problem + 1.
Proof.
  intros Hperm Hidx.
  assert (Hin : forall k, k < length chain -> nth k chain 0 < Problem.m problem + 1).
  { intros k Hk.
    assert (H : In (nth k chain 0) (seq 1 (Problem.m problem))).
    { apply (Permutation_in _ (Permutation_sym Hperm)). now apply nth_In. }
    apply in_seq in H. lia. }
  split; apply Hin; [exact Hidx|].
  apply Nat.mod_upper_bound. lia.
Qed.

(** [eject] on a lane that is not empty, the draws named. *)
Lemma eject_nonempty (chain : list nat) (schedule : Schedule)
      (evaluation : double * double) (generator : mt19937) (idx : nat) :
  lane schedule (origin_of chain idx) <> [] ->
  ILS.eject shuffle problem chain ((schedule, evaluation), generator) idx
  = let l_origin := origin_of chain idx in
    let l_target := target_of chain idx in
    let idx_origin := fst (draw generator) mod length (lane schedule l_origin) in
    let operation := nth idx_origin (lane schedule l_origin) 0 in
    let erased :=
      set_lane schedule l_origin (erase (lane schedule l_origin) idx_origin) in
    let shuffled :=
      shuffle (seq 0 (length (lane erased l_target) + 1)) (snd (draw generator)) in
    match ILS.try_insert problem erased l_target operation (fst shuffled) with
    | (Some moved, _) => (moved, snd shuffled)
    | (None, sched') =>
        ((set_lane sched' l_origin
            (insert_at (lane sched' l_origin) idx_origin operation),
          evaluation), snd shuffled)
    end.
Proof.
  intro Hne. unfold ILS.eject. fold (origin_of chain idx) (target_of chain idx).
  destruct (lane schedule (origin_of chain idx)) as [|x v] eqn:Hlane; [now elim Hne|].
  cbn [length Nat.eqb negb]. cbv zeta.
  unfold draw. cbn [fst snd].
  destruct (shuffle _ _) as [indexes generator2]. reflexivity.
Qed.

(** One ejection, for a lane that is not empty. *)
Lemma eject_outcome (chain : list nat) (schedule : Schedule)
      (evaluation : double * double) (generator : mt19937) (idx : nat) :
  length schedule = Problem.m problem + 1 ->
  Permutation (seq 1 (Problem.m problem)) chain ->
  idx < length chain ->
  lane schedule (origin_of chain idx) <> [] ->
  let l_origin := origin_of chain idx in
  let l_target := target_of chain idx in
  let idx_origin := fst (draw generator) mod length (lane schedule l_origin) in
  let erased :=
    set_lane schedule l_origin (erase (lane schedule l_origin) idx_origin) in
  let indexes :=
    fst (shuffle (seq 0 (length (lane erased l_target) + 1)) (snd (draw generator))) in
  ejection_outcome problem schedule evaluation l_origin l_target idx_origin indexes
    (fst (ILS.eject shuffle problem chain ((schedule, evaluation), generator) idx)).
Proof.
  intros Hlen Hperm Hidx Hne l_origin l_target idx_origin erased indexes.
  destruct (chain_lanes chain idx Hperm Hidx) as [Ho Ht].
  fold l_origin in Ho. fold l_target in Ht.
  assert (Hsize : length (lane schedule l_origin) <> 0).
  { intro H. apply length_zero_iff_nil in H. now apply Hne. }
  assert (Hio : idx_origin < length (lane schedule l_origin))
    by (apply Nat.mod_upper_bound; exact Hsize).
  rewrite (eject_nonempty chain schedule evaluation generator idx Hne). cbv zeta.
  fold l_origin l_target. fold idx_origin. fold erased. fold indexes.
  assert (Hsh : Permutation (seq 0 (length (lane erased l_target) + 1)) indexes)
    by apply shuffle_Permutation.
  clearbody indexes.
  assert (Hbound : forall k, In k indexes -> k <= length (lane erased l_target)).
  { intros k Hk.
    apply (Permutation_in _ (Permutation_sym Hsh)) in Hk.
    apply in_seq in Hk. lia. }
  assert (Hterased : l_target < length erased)
    by (unfold erased; rewrite set_lane_length; lia).
  destruct (try_insert_outcome l_target (nth idx_origin (lane schedule l_origin) 0)
              indexes erased Hterased Hbound)
    as [(pre & j & post & Hsplit & Hpre & Hj & Hrun) | [Hall Hrun]];
    rewrite Hrun; simpl fst.
  - left. exists pre, j, post. repeat split; assumption.
  - right. split; [exact Hall|].
    unfold erased. rewrite lane_set_lane_same by lia.
    rewrite insert_at_erase by exact Hio.
    rewrite set_lane_set_lane, set_lane_lane. reflexivity.
Qed.

Lemma ejection_outcome_Permutation (schedule : Schedule) (evaluation : double * double)
      (l_origin l_target idx_origin : nat) (indexes : list nat) (r : entry) :
  l_origin < length schedule ->
  l_target < length schedule ->
  idx_origin < length (lane schedule l_origin) ->
  ejection_outcome problem schedule evaluation l_origin l_target idx_origin indexes r ->
  Permutation (concat schedule) (concat (fst r)) /\ length (fst r) = length schedule.
Proof.
  intros Ho Ht Hio [(pre & j & post & _ & _ & _ & ->) | [_ ->]]; simpl fst;
    [|split; reflexivity].
  unfold inserted.
  set (erased := set_lane schedule l_origin (erase (lane schedule l_origin) idx_origin)).
  assert (Hterased : l_target < length erased)
    by (unfold erased; rewrite set_lane_length; lia).
  split; [|unfold erased; now rewrite !set_lane_length].
  rewrite <- (concat_set_lane erased l_target _ Hterased).
  rewrite (Permutation_app_tail _ (insert_at_Permutation _ _ _)).
  simpl. rewrite (concat_lane erased l_target Hterased).
  unfold erased. rewrite <- (concat_set_lane schedule l_origin _ Ho).
  rewrite <- (concat_lane schedule l_origin Ho).
  change (?x :: ?v ++ ?w) with ((x :: v) ++ w).
  apply Permutation_app_tail. now apply erase_Permutation.
Qed.

Lemma eject_Permutation (chain : list nat) (acc : entry * mt19937) (idx : nat) :
  length (fst (fst acc)) = Problem.m problem + 1 ->
  Permutation (seq 1 (Problem.m problem)) chain ->
  idx < length chain ->
  Permutation (concat (fst (fst acc)))
              (concat (fst (fst (ILS.eject shuffle problem chain acc idx))))
  /\ length (fst (fst (ILS.eject shuffle problem chain acc idx)))
     = length (fst (fst acc)).
Proof.
  destruct acc as [[schedule evaluation] generator]. simpl fst.
  intros Hlen Hperm Hidx.
  destruct (lane schedule (origin_of chain idx)) as [|x v] eqn:Hlane.
  - unfold ILS.eject. fold (origin_of chain idx). rewrite Hlane. simpl.
    split; reflexivity.
  - assert (Hne : lane schedule (origin_of chain idx) <> []) by (now rewrite Hlane).
    destruct (chain_lanes chain idx Hperm Hidx) as [Ho Ht].
    eapply ejection_outcome_Permutation;
      [| | |apply (eject_outcome chain schedule evaluation generator idx Hlen Hperm Hidx Hne)];
      try lia.
    apply Nat.mod_upper_bound. rewrite Hlane. discriminate.
Qed.

Lemma perturb_Permutation (e : entry) (generator : mt19937) :
  length (fst e) = Problem.m problem + 1 ->
  Permutation (concat (fst e)) (concat (fst (fst (ILS.perturb shuffle problem e generator))))
  /\ length (fst (fst (ILS.perturb shuffle problem e generator))) = length (fst e).
Proof.
  intro Hlen. unfold ILS.perturb.
  pose proof (shuffle_Permutation (seq 1 (Problem.m problem)) generator) as Hperm.
  destruct (shuffle (seq 1 (Problem.m problem)) generator) as [chain generator1].
  simpl in Hperm.
  assert (Hgen : forall idxs acc,
             (forall i, In i idxs -> i < length chain) ->
             length (fst (fst acc)) = Problem.m problem + 1 ->
             Permutation (concat (fst (fst acc)))
               (concat (fst (fst (fold_left (ILS.eject shuffle problem chain) idxs acc))))
             /\ length (fst (fst (fold_left (ILS.eject shuffle problem chain) idxs acc)))
                = length (fst (fst acc))).
  { induction idxs as [|i idxs IH]; intros acc Hin Hacc; [split; reflexivity|].
    simpl.
    destruct (eject_Permutation chain acc i Hacc Hperm (Hin i (or_introl eq_refl)))
      as [Hp Hl].
    destruct (IH (ILS.eject shuffle problem chain acc i)
                (fun k Hk => Hin k (or_intror Hk)) (eq_trans Hl Hacc)) as [Hp' Hl'].
    split; [exact (Permutation_trans Hp Hp') | exact (eq_trans Hl' Hl)]. }
  apply (Hgen (seq 0 (length chain)) (e, generator1)); [|exact Hlen].
  intros i Hi. apply in_seq in Hi. lia.
Qed.

End Perturbation.

(** C8. The schedule the ILS perturbation returns holds the operations of
    the entry, each as many times as the entry does (once, when the entry
    has no duplicates), in as many lanes; and each ejection either commits
    the ejected operation at the first insertion position, in the shuffled
    order, whose schedule has a finite makespan, or, when no position has
    one, leaves the solution as it was, the operation back at its
    position in the origin lane. *)
Theorem perturb_keeps_operations :
  forall (shuffle : list nat -> mt19937 -> list nat * mt19937),
    (forall v g, Permutation v (fst (shuffle v g))) ->
    forall (problem : Problem.t) (e : entry) (generator : mt19937),
      length (fst e) = Problem.m problem + 1 ->
      let r := fst (ILS.perturb shuffle problem e generator) in
      (Permutation (concat (fst e)) (concat (fst r))
       /\ length (fst r) = length (fst e)
       /\ (NoDup (concat (fst e)) -> NoDup (concat (fst r))))
      /\
      (forall chain idx evaluation g,
          Permutation (seq 1 (Problem.m problem)) chain ->
          idx < length chain ->
          lane (fst e) (nth idx chain 0) <> [] ->
          let l_origin := nth idx chain 0 in
          let l_target := nth ((idx + 1) mod length chain) chain 0 in
          let idx_origin := fst (draw g) mod length (lane (fst e) l_origin) in
          let erased :=
            set_lane (fst e) l_origin (erase (lane (fst e) l_origin) idx_origin) in
          let indexes :=
            fst (shuffle (seq 0 (length (lane erased l_target) + 1)) (snd (draw g))) in
          ejection_outcome problem (fst e) evaluation l_origin l_target idx_origin indexes
            (fst (ILS.eject shuffle problem chain ((fst e, evaluation), g) idx))).
Proof.
  intros shuffle Hshuffle problem e generator Hlen r.
  destruct (perturb_Permutation shuffle Hshuffle problem e generator Hlen) as [Hperm Hlanes].
  split.
  - repeat split; [exact Hperm | exact Hlanes |].
    intro Hnodup. exact (Permutation_NoDup Hperm Hnodup).
  - intros chain idx evaluation g Hchain Hidx Hne.
    exact (eject_outcome shuffle Hshuffle problem chain (fst e) evaluation g idx Hlen Hchain Hidx Hne).
Qed.

Lemma perturb_keeps_operations_witness :
  Permutation
    (concat (fst Examples.serial_start))
    (concat (fst (fst (ILS.perturb Examples.keep_order Examples.serial
                         Examples.serial_start Examples.counting)))).
Proof.
  exact (proj1 (proj1 (perturb_keeps_operations Examples.keep_order
                         (fun v g => Permutation_refl v)
                         Examples.serial Examples.serial_start Examples.counting
                         eq_refl))).
Defined.

(** ** The scalar makespan of Greedy *)

Lemma qmax_cases (a b : Q) : qmax a b = a \/ qmax a b = b.
Proof. unfold qmax. destruct (Qltb a b); auto. Qed.

Lemma qmax_ge_l (a b : Q) : (a <= qmax a b)%Q.
Proof.
  unfold qmax. destruct (Qltb a b) eqn:E.
  - apply Qltb_lt in E. lra.
  - lra.
Qed.

Lemma qmax_ge_r (a b : Q) : (b <= qmax a b)%Q.
Proof.
  unfold qmax. destruct (Qltb a b) eqn:E.
  - lra.
  - apply Qltb_ge in E. exact E.
Qed.

Lemma greedy_wait_other (problem : Problem.t) (j k : nat) (tv : nat -> Q) :
  k <> j -> Greedy.wait_predecessors problem j tv k = tv k.
Proof.
  intro Hne. unfold Greedy.wait_predecessors.
  generalize (Problem.predecessors problem j) as preds. intro preds. revert tv.
  induction preds as [|a preds IH]; intro tv; simpl; [reflexivity|].
  rewrite IH. now apply upd_other.
Qed.

Lemma lane_create_empty (m l : nat) : lane (create_empty_schedule m) l = [].
Proof.
  unfold lane, create_empty_schedule.
  destruct (Nat.lt_ge_cases l (m + 1)) as [H | H].
  - now rewrite nth_repeat_lt.
  - apply nth_overflow. now rewrite repeat_length.
Qed.

Lemma lane_member_bound (schedule : Schedule) (l j : nat) :
  In j (lane schedule l) -> l < length schedule.
Proof.
  intro H. destruct (Nat.lt_ge_cases l (length schedule)) as [Hl | Hl]; [exact Hl|].
  unfold lane in H. rewrite nth_overflow in H by exact Hl. destruct H.
Qed.

(** What [choose] returns is a ready switch of [S_manual] and a team. *)
Lemma choose_spec (problem : Problem.t) (st : Greedy.state) (c : Q) (j l : nat) :
  Greedy.choose problem st = Some (c, j, l) ->
  In j (Greedy.S_manual st) /\ 1 <= l <= Problem.m problem
  /\ Greedy.gamma st j = 0%Z.
Proof.
  intro H. change (chosen_ok problem st (Some (c, j, l))). rewrite <- H. clear H.
  unfold Greedy.choose.
  set (inner := fun (j_trial : nat) (acc' : option (Q * nat * nat)) (l_trial : nat) =>
                  let criterion_trial :=
                    (Greedy.t st (Greedy.phi st l_trial)
                     + Problem.p problem (Greedy.phi st l_trial)
                     + Problem.s problem (Greedy.phi st l_trial) j_trial l_trial)%Q in
                  let criterion :=
                    match acc' with
                    | None => DBL_MAX
                    | Some (criterion, _, _) => criterion
                    end in
                  if Qltb criterion_trial criterion
                  then Some (criterion_trial, j_trial, l_trial)
                  else acc').
  assert (Hinner : forall j_trial ls acc,
             In j_trial (Greedy.S_manual st) ->
             Greedy.gamma st j_trial = 0%Z ->
             (forall l', In l' ls -> 1 <= l' <= Problem.m problem) ->
             chosen_ok problem st acc ->
             chosen_ok problem st (fold_left (inner j_trial) ls acc)).
  { intros j_trial ls. induction ls as [|l' ls IH]; intros acc Hj Hg Hls Hacc;
      [exact Hacc|].
    cbn [fold_left]. apply IH; try assumption; [intros; apply Hls; now right|].
    unfold inner. cbv zeta.
    destruct (Qltb _ _); [|exact Hacc].
    simpl. split; [exact Hj|]. split; [apply Hls; now left | exact Hg]. }
  change (chosen_ok problem st
            (fold_left
               (fun acc0 j_trial =>
                  if (Greedy.gamma st j_trial =? 0)%Z
                  then fold_left (inner j_trial) (seq 1 (Problem.m problem)) acc0
                  else acc0) (Greedy.S_manual st) None)).
  assert (Houter : forall js acc,
             (forall x, In x js -> In x (Greedy.S_manual st)) ->
             chosen_ok problem st acc ->
             chosen_ok problem st
               (fold_left
                  (fun acc0 j_trial =>
                     if (Greedy.gamma st j_trial =? 0)%Z
                     then fold_left (inner j_trial) (seq 1 (Problem.m problem)) acc0
                     else acc0) js acc)).
  { induction js as [|x js IH]; intros acc Hjs Hacc; [exact Hacc|].
    cbn [fold_left]. apply IH; [intros; apply Hjs; now right|].
    destruct (Greedy.gamma st x =? 0)%Z eqn:E; [|exact Hacc].
    apply Hinner; try assumption.
    - apply Hjs. now left.
    - now apply Z.eqb_eq.
    - intros l' Hl'. apply in_seq in Hl'. lia. }
  apply Houter; [auto | exact I].
Qed.

Section GreedyMakespan.
Variable problem : Problem.t.

Lemma init_makespan_inv : makespan_inv problem (Greedy.init problem).
Proof.
  constructor; simpl.
  - unfold create_empty_schedule. apply repeat_length.
  - intros j Hj. apply filter_In in Hj. now apply Technology_eqb_eq.
  - intros j Hj. apply filter_In in Hj. now apply Technology_eqb_eq.
  - intros l j _ Hj. rewrite lane_create_empty in Hj. destruct Hj.
  - intros l j _ Hj. rewrite lane_create_empty in Hj. destruct Hj.
  - now left.
Qed.

Lemma schedule_remote_makespan_inv (st : Greedy.state) (j : nat) :
  Problem.technology problem j = REMOTE ->
  makespan_inv problem st ->
  makespan_inv problem (Greedy.schedule_remote problem st j).
Proof.
  intros Hj [Hlen Hman Hrem Hsch Hup Hatt].
  assert (Hlane : forall l, 1 <= l ->
             lane (set_lane (Greedy.schedule st) 0 (lane (Greedy.schedule st) 0 ++ [j])) l
             = lane (Greedy.schedule st) l).
  { intros l Hl. apply lane_set_lane_other. lia. }
  assert (Ht : forall l x, 1 <= l -> In x (lane (Greedy.schedule st) l) ->
             Greedy.wait_predecessors problem j (upd (Greedy.t st) j 0%Q) x
             = Greedy.t st x).
  { intros l x Hl Hx. destruct (Hsch l x Hl Hx) as [Hx' _].
    assert (Hne : x <> j) by (intros ->; congruence).
    rewrite greedy_wait_other by exact Hne. now apply upd_other. }
  constructor; simpl.
  - now rewrite set_lane_length.
  - exact Hman.
  - intros x Hx. apply in_remove in Hx. now apply Hrem.
  - intros l x Hl Hx. rewrite Hlane in Hx by exact Hl. now apply (Hsch l).
  - intros l x Hl Hx. rewrite Hlane in Hx by exact Hl.
    rewrite (Ht l x Hl Hx). now apply (Hup l).
  - destruct Hatt as [H0 | (l & x & Hl & Hx & E)]; [now left|].
    right. exists l, x. rewrite Hlane by exact Hl. rewrite (Ht l x Hl Hx). auto.
Qed.

Lemma schedule_manual_makespan_inv (st : Greedy.state) (j l : nat) :
  In j (Greedy.S_manual st) -> 1 <= l <= Problem.m problem ->
  makespan_inv problem st ->
  makespan_inv problem (Greedy.schedule_manual problem st j l).
Proof.
  intros Hj Hl [Hlen Hman Hrem Hsch Hup Hatt].
  set (tv := Greedy.wait_predecessors problem j
               (upd (Greedy.t st) j
                  (Greedy.t st (Greedy.phi st l) + Problem.p problem (Greedy.phi st l)
                   + Problem.s problem (Greedy.phi st l) j l)%Q)).
  assert (Hlane : forall l' x, 1 <= l' ->
             In x (lane (set_lane (Greedy.schedule st) l
                           (lane (Greedy.schedule st) l ++ [j])) l') ->
             In x (lane (Greedy.schedule st) l') \/ x = j).
  { intros l' x Hl' Hx. destruct (Nat.eq_dec l' l) as [-> | Hne].
    - rewrite lane_set_lane_same in Hx by lia.
      apply in_app_or in Hx. destruct Hx as [Hx | [<- | []]]; auto.
    - rewrite lane_set_lane_other in Hx by exact Hne. now left. }
  assert (Ht : forall l' x, 1 <= l' -> In x (lane (Greedy.schedule st) l') ->
             tv x = Greedy.t st x).
  { intros l' x Hl' Hx. destruct (Hsch l' x Hl' Hx) as [_ Hx'].
    assert (Hne : x <> j) by (intros ->; contradiction).
    unfold tv. rewrite greedy_wait_other by exact Hne. now apply upd_other. }
  constructor; simpl; fold tv.
  - now rewrite set_lane_length.
  - intros x Hx. apply in_remove in Hx. now apply Hman.
  - exact Hrem.
  - intros l' x Hl' Hx. destruct (Hlane l' x Hl' Hx) as [Hold | ->].
    + destruct (Hsch l' x Hl' Hold) as [Htech Hout]. split; [exact Htech|].
      intro H. apply in_remove in H. now apply Hout.
    + split; [now apply Hman | apply remove_In].
  - intros l' x Hl' Hx. destruct (Hlane l' x Hl' Hx) as [Hold | ->].
    + rewrite (Ht l' x Hl' Hold).
      eapply Qle_trans; [apply (Hup l' x Hl' Hold) | apply qmax_ge_l].
    + apply qmax_ge_r.
  - assert (Hkeep : forall l' x, 1 <= l' -> In x (lane (Greedy.schedule st) l') ->
               In x (lane (set_lane (Greedy.schedule st) l
                             (lane (Greedy.schedule st) l ++ [j])) l')).
    { intros l' x Hl' Hx. destruct (Nat.eq_dec l' l) as [-> | Hne].
      - rewrite lane_set_lane_same by lia. apply in_or_app. now left.
      - now rewrite lane_set_lane_other by exact Hne. }
    destruct (qmax_cases (Greedy.makespan st) (tv j + Problem.p problem j)%Q) as [E | E];
      rewrite E.
    + destruct Hatt as [H0 | (l' & x & Hl' & Hx & Hmk)]; [now left|].
      right. exists l', x. split; [exact Hl'|]. split; [now apply Hkeep|].
      now rewrite (Ht l' x Hl' Hx).
    + right. exists l, j. split; [lia|]. split; [|reflexivity].
      rewrite lane_set_lane_same by lia. apply in_or_app. right. now left.
Qed.

Lemma drain_pass_makespan_inv (st : Greedy.state) :
  makespan_inv problem st ->
  makespan_inv problem (fst (Greedy.drain_pass problem st)).
Proof.
  intro Hinv. unfold Greedy.drain_pass.
  assert (Hgen : forall js acc,
             (forall j, In j js -> Problem.technology problem j = REMOTE) ->
             makespan_inv problem (fst acc) ->
             makespan_inv problem
               (fst (fold_left
                       (fun (acc0 : Greedy.state * bool) j =>
                          if (Greedy.gamma (fst acc0) j =? 0)%Z
                          then (Greedy.schedule_remote problem (fst acc0) j, false)
                          else acc0) js acc))).
  { induction js as [|j js IH]; intros acc Hjs Hacc; [exact Hacc|].
    simpl. apply IH; [intros; apply Hjs; now right|].
    destruct (Greedy.gamma (fst acc) j =? 0)%Z; [|exact Hacc].
    simpl. apply schedule_remote_makespan_inv; [apply Hjs; now left | exact Hacc]. }
  apply Hgen; [apply (mk_remote _ _ Hinv) | exact Hinv].
Qed.

Lemma drain_makespan_inv (fuel : nat) :
  forall st st', makespan_inv problem st ->
                 Greedy.drain problem fuel st = Some st' ->
                 makespan_inv problem st'.
Proof.
  induction fuel as [|fuel IH]; intros st st' Hinv Hrun; [discriminate|].
  simpl in Hrun. pose proof (drain_pass_makespan_inv st Hinv) as Hpass.
  destruct (Greedy.drain_pass problem st) as [st1 stop]. simpl in Hpass.
  destruct stop; [injection Hrun as <-; exact Hpass | now apply (IH st1)].
Qed.

Lemma loop_makespan_inv (fuel : nat) :
  forall st st', makespan_inv problem st ->
                 Greedy.loop problem fuel st = Some st' ->
                 makespan_inv problem st'.
Proof.
  induction fuel as [|fuel IH]; intros st st' Hinv Hrun; simpl in Hrun.
  - destruct (_ =? 0); [injection Hrun as <-; exact Hinv | discriminate].
  - destruct (_ =? 0); [injection Hrun as <-; exact Hinv|].
    destruct (Greedy.drain problem (length (Greedy.S_remote st) + 1) st) as [st1|] eqn:Ed;
      [|discriminate].
    pose proof (drain_makespan_inv _ _ _ Hinv Ed) as H1.
    destruct (0 <? length (Greedy.S_manual st1)); [|now apply (IH st1)].
    destruct (Greedy.choose problem st1) as [[[c j] l]|] eqn:Ec; [|discriminate].
    destruct (choose_spec problem st1 c j l Ec) as (Hj & Hl & _).
    apply (IH _ _ (schedule_manual_makespan_inv st1 j l Hj Hl H1) Hrun).
Qed.

Lemma run_makespan_inv (st : Greedy.state) :
  Greedy.run problem = Some st -> makespan_inv problem st.
Proof. apply loop_makespan_inv, init_makespan_inv. Qed.

End GreedyMakespan.

(** What every step of Greedy keeps, it keeps to the end. *)
Lemma loop_keeps (problem : Problem.t) (P : Greedy.state -> Prop) :
  (forall st j, P st -> P (Greedy.schedule_remote problem st j)) ->
  (forall st j l, P st -> P (Greedy.schedule_manual problem st j l)) ->
  forall fuel st st',
    P st -> Greedy.loop problem fuel st = Some st' -> P st'.
Proof.
  intros Hremote Hmanual.
  assert (Hpass : forall js (acc : Greedy.state * bool),
             P (fst acc) ->
             P (fst (fold_left
                       (fun (acc0 : Greedy.state * bool) j =>
                          if (Greedy.gamma (fst acc0) j =? 0)%Z
                          then (Greedy.schedule_remote problem (fst acc0) j, false)
                          else acc0) js acc))).
  { induction js as [|j js IH]; intros acc Hacc; [exact Hacc|].
    cbn [fold_left]. apply IH.
    destruct (Greedy.gamma (fst acc) j =? 0)%Z; [|exact Hacc].
    cbn [fst]. now apply Hremote. }
  assert (Hdrain : forall fuel st st',
             P st -> Greedy.drain problem fuel st = Some st' -> P st').
  { induction fuel as [|fuel IH]; intros st st' Hst Hrun; [discriminate|].
    simpl in Hrun.
    pose proof (Hpass (Greedy.S_remote st) (st, true) Hst) as H1.
    fold (Greedy.drain_pass problem st) in H1.
    destruct (Greedy.drain_pass problem st) as [st1 stop]. simpl in H1.
    destruct stop; [injection Hrun as <-; exact H1 | now apply (IH st1)]. }
  induction fuel as [|fuel IH]; intros st st' Hst Hrun; simpl in Hrun.
  - destruct (_ =? 0); [injection Hrun as <-; exact Hst | discriminate].
  - destruct (_ =? 0); [injection Hrun as <-; exact Hst|].
    destruct (Greedy.drain problem (length (Greedy.S_remote st) + 1) st) as [st1|] eqn:Ed;
      [|discriminate].
    pose proof (Hdrain _ _ _ Hst Ed) as H1.
    destruct (0 <? length (Greedy.S_manual st1)); [|now apply (IH st1)].
    destruct (Greedy.choose problem st1) as [[[c j] l]|]; [|discriminate].
    apply (IH (Greedy.schedule_manual problem st1 j l)); [now apply Hmanual | exact Hrun].
Qed.

(** The scalar starts at 0 and only grows. *)
Lemma run_makespan_nonnegative (problem : Problem.t) (st : Greedy.state) :
  Greedy.run problem = Some st -> (0 <= Greedy.makespan st)%Q.
Proof.
  apply (loop_keeps problem (fun st0 => (0 <= Greedy.makespan st0)%Q)).
  - intros st0 j H. exact H.
  - intros st0 j l H. simpl. eapply Qle_trans; [exact H | apply qmax_ge_l].
  - simpl. lra.
Qed.

(** ** Greedy on feasible instances *)

Lemma less_after_completion (a b : double) (q : Q) :
  (0 <= q)%Q -> dle (dadd a (Fin q)) b -> common.less b a = false.
Proof.
  intros Hq Hle. unfold common.less, common.compare.
  destruct b as [y|].
  - destruct a as [x|]; simpl in Hle; [|destruct Hle].
    cbn [common.abs_diff common.below_threshold dlt].
    destruct (Qltb (Qabs (y - x)) common.THRESHOLD); [reflexivity|].
    destruct (Qltb y x) eqn:E; [|reflexivity].
    apply Qltb_lt in E. lra.
  - destruct a; reflexivity.
Qed.

Lemma map_lane_seq (schedule : Schedule) :
  map (lane schedule) (seq 0 (length schedule)) = schedule.
Proof.
  unfold lane. induction schedule as [|v schedule IH]; [reflexivity|].
  simpl. f_equal. rewrite <- seq_shift, map_map. exact IH.
Qed.

Lemma scheduled_operations_concat (problem : Problem.t) (schedule : Schedule) :
  length schedule = Problem.m problem + 1 ->
  scheduled_operations problem schedule = concat schedule.
Proof.
  intro H. unfold scheduled_operations. now rewrite <- H, map_lane_seq.
Qed.

(** A schedule that partitions the switches and routes them by
    technology passes [is_feasible] when no processing time is
    negative. *)
Lemma partition_is_feasible (problem : Problem.t) (schedule : Schedule) :
  well_formed problem ->
  (forall i, (0 <= Problem.p problem i)%Q) ->
  length schedule = Problem.m problem + 1 ->
  Permutation (concat schedule) (seq 1 (Problem.n problem)) ->
  (forall j, In j (lane schedule 0) -> Problem.technology problem j = REMOTE) ->
  (forall l j, 1 <= l -> In j (lane schedule l) -> Problem.technology problem j = MANUAL) ->
  Problem.is_feasible problem schedule = true.
Proof.
  intros Hwf Hp Hlen Hperm Hrem Hman.
  pose proof (scheduled_operations_concat problem schedule Hlen) as Hops.
  assert (Hok : well_scheduled problem schedule).
  { split; rewrite Hops.
    - apply (Permutation_NoDup (Permutation_sym Hperm)). apply seq_NoDup.
    - intros x Hx. apply (Permutation_in _ Hperm) in Hx. apply in_seq in Hx. lia. }
  apply is_feasible_iff. constructor.
  - exact Hlen.
  - apply Hok.
  - intros i Hi. apply (NoDup_count_occ' Nat.eq_dec); [apply Hok|].
    rewrite Hops. apply (Permutation_in _ (Permutation_sym Hperm)). apply in_seq. lia.
  - exact Hrem.
  - intros l j Hl Hj. apply (Hman l); [lia | exact Hj].
  - intros j i Hj Hi.
    apply (less_after_completion _ _ (Problem.p problem i) (Hp i)).
    apply (start_time_precedence problem schedule Hwf Hok i j); [lia | exact Hi].
Qed.

Lemma filter_split_Permutation (f g : nat -> bool) (v : list nat) :
  (forall x, In x v -> (f x = true /\ g x = false) \/ (f x = false /\ g x = true)) ->
  Permutation (filter f v ++ filter g v) v.
Proof.
  induction v as [|x v IH]; intro H; [reflexivity|].
  simpl. destruct (H x (or_introl eq_refl)) as [[-> ->] | [-> ->]].
  - simpl. apply perm_skip. apply IH. intros; apply H; now right.
  - rewrite <- Permutation_middle. apply perm_skip. apply IH. intros; apply H; now right.
Qed.

Lemma remove_Permutation (x : nat) (v : list nat) :
  NoDup v -> In x v -> Permutation v (x :: remove Nat.eq_dec x v).
Proof.
  intros Hnd. induction Hnd as [|y v Hy Hnd IH]; intro Hin; [destruct Hin|].
  simpl. destruct (Nat.eq_dec x y) as [<- | Hne].
  - rewrite notin_remove by exact Hy. reflexivity.
  - destruct Hin as [-> | Hin]; [congruence|].
    rewrite perm_swap. apply perm_skip. now apply IH.
Qed.

Lemma concat_append_lane (schedule : Schedule) (l j : nat) :
  l < length schedule ->
  Permutation (concat (set_lane schedule l (lane schedule l ++ [j]))) (j :: concat schedule).
Proof.
  intro Hl.
  rewrite <- (concat_set_lane schedule l _ Hl).
  rewrite <- (concat_lane schedule l Hl).
  rewrite <- app_assoc. simpl.
  rewrite <- Permutation_middle. reflexivity.
Qed.

Lemma least_rank (rank : nat -> nat) (v : list nat) :
  v <> [] -> exists x, In x v /\ forall y, In y v -> rank x <= rank y.
Proof.
  induction v as [|a v IH]; intro Hne; [congruence|].
  destruct v as [|b v].
  - exists a. split; [now left|]. intros y [<- | []]. lia.
  - destruct IH as (x & Hx & Hmin); [discriminate|].
    destruct (Nat.le_gt_cases (rank a) (rank x)) as [Hle | Hgt].
    + exists a. split; [now left|].
      intros y [<- | Hy]; [lia|]. specialize (Hmin y Hy). lia.
    + exists x. split; [now right|].
      intros y [<- | Hy]; [lia | now apply Hmin].
Qed.

Lemma unscheduled_In (st : Greedy.state) (x : nat) :
  unscheduled st x = true <-> In x (Greedy.S_manual st ++ Greedy.S_remote st).
Proof. apply existsb_eqb_In. Qed.

Section GreedySteps.
Variable problem : Problem.t.
Hypothesis problem_wf : well_formed problem.

Lemma inv_sets_NoDup (st : Greedy.state) :
  greedy_inv problem st -> NoDup (Greedy.S_manual st ++ Greedy.S_remote st).
Proof.
  intro Hinv.
  apply (NoDup_app_remove_l (concat (Greedy.schedule st))).
  apply (Permutation_NoDup (Permutation_sym (gi_partition _ _ Hinv))).
  apply seq_NoDup.
Qed.

Lemma inv_set_range (st : Greedy.state) (x : nat) :
  greedy_inv problem st ->
  In x (Greedy.S_manual st ++ Greedy.S_remote st) -> 1 <= x <= Problem.n problem.
Proof.
  intros Hinv Hx.
  assert (H : In x (seq 1 (Problem.n problem))).
  { apply (Permutation_in _ (gi_partition _ _ Hinv)). apply in_or_app. now right. }
  apply in_seq in H. lia.
Qed.

(** Scheduling the unscheduled switch [j0] on lane [l]. *)
Lemma schedule_step_inv (st st' : Greedy.state) (j0 l : nat) :
  greedy_inv problem st ->
  l <= Problem.m problem ->
  (l = 0 -> Problem.technology problem j0 = REMOTE) ->
  (1 <= l -> Problem.technology problem j0 = MANUAL) ->
  Greedy.schedule st'
  = set_lane (Greedy.schedule st) l (lane (Greedy.schedule st) l ++ [j0]) ->
  Permutation (Greedy.S_manual st ++ Greedy.S_remote st)
              (j0 :: Greedy.S_manual st' ++ Greedy.S_remote st') ->
  (forall x, In x (Greedy.S_manual st') -> In x (Greedy.S_manual st)) ->
  (forall x, In x (Greedy.S_remote st') -> In x (Greedy.S_remote st)) ->
  Greedy.gamma st' = Greedy.release_successors problem j0 (Greedy.gamma st) ->
  greedy_inv problem st'.
Proof.
  intros Hinv Hl Hl0 Hl1 Hsched Hsets Hsubm Hsubr Hgamma.
  pose proof (inv_sets_NoDup st Hinv) as Hnd.
  assert (Hnd' : NoDup (j0 :: Greedy.S_manual st' ++ Greedy.S_remote st'))
    by (apply (Permutation_NoDup Hsets Hnd)).
  assert (Hj0 : unscheduled st j0 = true).
  { apply unscheduled_In. apply (Permutation_in _ (Permutation_sym Hsets)). now left. }
  assert (Hdone : forall x, scheduled st' x = scheduled st x || (x =? j0)).
  { intro x. unfold scheduled.
    destruct (Nat.eq_dec x j0) as [-> | Hne].
    - rewrite Nat.eqb_refl, orb_true_r. apply negb_true_iff.
      destruct (unscheduled st' j0) eqn:E; [|reflexivity].
      apply unscheduled_In in E. inversion Hnd'; contradiction.
    - pose proof Hne as Hneb. apply Nat.eqb_neq in Hneb. rewrite Hneb, orb_false_r.
      f_equal. destruct (unscheduled st x) eqn:E.
      + apply unscheduled_In. apply unscheduled_In in E.
        apply (Permutation_in _ Hsets) in E. destruct E as [E | E]; [congruence | exact E].
      + destruct (unscheduled st' x) eqn:E'; [|reflexivity].
        apply unscheduled_In in E'.
        assert (H : In x (Greedy.S_manual st ++ Greedy.S_remote st)).
        { apply (Permutation_in _ (Permutation_sym Hsets)). now right. }
        apply unscheduled_In in H. congruence. }
  assert (Hlen : l < length (Greedy.schedule st)) by (rewrite (gi_lanes _ _ Hinv); lia).
  constructor.
  - rewrite Hsched, set_lane_length. apply (gi_lanes _ _ Hinv).
  - rewrite Hsched, (concat_append_lane _ l j0 Hlen).
    rewrite <- (gi_partition _ _ Hinv). simpl.
    rewrite Permutation_middle. apply Permutation_app_head.
    symmetry. exact Hsets.
  - intros x Hx. apply (gi_manual _ _ Hinv). now apply Hsubm.
  - intros x Hx. apply (gi_remote _ _ Hinv). now apply Hsubr.
  - intros x Hx. rewrite Hsched in Hx.
    destruct (Nat.eq_dec l 0) as [-> | Hne].
    + rewrite lane_set_lane_same in Hx by exact Hlen.
      apply in_app_or in Hx. destruct Hx as [Hx | [<- | []]]; [|now apply Hl0].
      now apply (gi_lane0 _ _ Hinv).
    + rewrite lane_set_lane_other in Hx by congruence. now apply (gi_lane0 _ _ Hinv).
  - intros l' x Hl' Hx. rewrite Hsched in Hx.
    destruct (Nat.eq_dec l' l) as [-> | Hne].
    + rewrite lane_set_lane_same in Hx by exact Hlen.
      apply in_app_or in Hx. destruct Hx as [Hx | [<- | []]]; [|now apply Hl1].
      now apply (gi_lanes_manual _ _ Hinv l).
    + rewrite lane_set_lane_other in Hx by exact Hne.
      now apply (gi_lanes_manual _ _ Hinv l').
  - intros x Hx. rewrite Hgamma. unfold Greedy.release_successors.
    rewrite decrement_all by apply (wf_successors _ problem_wf).
    assert (Hnot : scheduled st j0 = false) by (unfold scheduled; now rewrite Hj0).
    rewrite (pending_count_release (scheduled st) (scheduled st') j0
               (Problem.predecessors problem x)
               (wf_predecessors _ problem_wf x) Hnot Hdone).
    rewrite (gi_gamma _ _ Hinv x Hx).
    destruct (in_dec Nat.eq_dec x (Problem.successors problem j0)) as [H | H];
      destruct (in_dec Nat.eq_dec j0 (Problem.predecessors problem x)) as [H' | H'];
      try reflexivity; exfalso.
    * apply H'. now apply (wf_edges _ problem_wf).
    * apply H. now apply (wf_edges _ problem_wf).
Qed.

Lemma schedule_remote_inv (st : Greedy.state) (j : nat) :
  greedy_inv problem st -> In j (Greedy.S_remote st) ->
  greedy_inv problem (Greedy.schedule_remote problem st j)
  /\ Permutation (Greedy.S_remote st)
                 (j :: Greedy.S_remote (Greedy.schedule_remote problem st j)).
Proof.
  intros Hinv Hj.
  assert (Hndr : NoDup (Greedy.S_remote st))
    by (apply (NoDup_app_remove_l _ _ (inv_sets_NoDup st Hinv))).
  pose proof (remove_Permutation j (Greedy.S_remote st) Hndr Hj) as Hperm.
  split; [|exact Hperm].
  apply (schedule_step_inv st _ j 0 Hinv); simpl; try reflexivity.
  - lia.
  - intros _. now apply (gi_remote _ _ Hinv).
  - lia.
  - rewrite Permutation_middle. now apply Permutation_app_head.
  - auto.
  - intros x Hx. now apply in_remove in Hx.
Qed.

Lemma schedule_manual_inv (st : Greedy.state) (j l : nat) :
  greedy_inv problem st -> In j (Greedy.S_manual st) ->
  1 <= l <= Problem.m problem ->
  greedy_inv problem (Greedy.schedule_manual problem st j l)
  /\ Permutation (Greedy.S_manual st)
                 (j :: Greedy.S_manual (Greedy.schedule_manual problem st j l)).
Proof.
  intros Hinv Hj Hl.
  assert (Hndm : NoDup (Greedy.S_manual st))
    by (apply (NoDup_app_remove_r _ _ (inv_sets_NoDup st Hinv))).
  pose proof (remove_Permutation j (Greedy.S_manual st) Hndm Hj) as Hperm.
  split; [|exact Hperm].
  apply (schedule_step_inv st _ j l Hinv); simpl; try reflexivity.
  - lia.
  - lia.
  - intros _. now apply (gi_manual _ _ Hinv).
  - change (j :: remove Nat.eq_dec j (Greedy.S_manual st) ++ Greedy.S_remote st)
      with ((j :: remove Nat.eq_dec j (Greedy.S_manual st)) ++ Greedy.S_remote st).
    now apply Permutation_app_tail.
  - intros x Hx. now apply in_remove in Hx.
  - auto.
Qed.

End GreedySteps.

Section GreedyFeasible.
Variable problem : Problem.t.
Hypothesis instance_ok : feasible_instance problem.
Hypothesis staffed :
  (exists i, 1 <= i <= Problem.n problem /\ Problem.technology problem i = MANUAL) ->
  1 <= Problem.m problem.

Lemma init_inv_greedy : greedy_inv problem (Greedy.init problem).
Proof.
  assert (Hsets : Permutation
                    (filter (Greedy.has_technology problem MANUAL) (seq 1 (Problem.n problem))
                     ++ filter (Greedy.has_technology problem REMOTE)
                          (seq 1 (Problem.n problem)))
                    (seq 1 (Problem.n problem))).
  { apply filter_split_Permutation. intros x Hx. apply in_seq in Hx.
    unfold Greedy.has_technology.
    destruct (fi_technology _ instance_ok x) as [-> | ->]; [lia | now left | now right]. }
  assert (Hempty : concat (create_empty_schedule (Problem.m problem)) = []).
  { unfold create_empty_schedule.
    induction (Problem.m problem + 1) as [|k IH]; simpl; auto. }
  constructor.
  - simpl. apply repeat_length.
  - simpl. rewrite Hempty. exact Hsets.
  - simpl. intros j Hj. apply filter_In in Hj. now apply Technology_eqb_eq.
  - simpl. intros j Hj. apply filter_In in Hj. now apply Technology_eqb_eq.
  - simpl. intros j Hj. rewrite lane_create_empty in Hj. destruct Hj.
  - simpl. intros l j _ Hj. rewrite lane_create_empty in Hj. destruct Hj.
  - intros j Hj. cbn [Greedy.gamma Greedy.init].
    assert (H1 : (1 <=? j) = true) by (apply Nat.leb_le; lia).
    assert (H2 : (j <=? Problem.n problem) = true) by (apply Nat.leb_le; lia).
    rewrite H1, H2. cbn [andb]. unfold pending_count. f_equal. f_equal.
    symmetry. apply forallb_filter_id.
    apply forallb_forall. intros i Hi. unfold scheduled. rewrite negb_involutive.
    apply unscheduled_In. cbn [Greedy.S_manual Greedy.S_remote Greedy.init].
    apply (Permutation_in _ (Permutation_sym Hsets)). apply in_seq.
    pose proof (fi_range _ instance_ok j i Hj Hi). lia.
Qed.

(** While a switch is unscheduled, some unscheduled switch is ready. *)
Lemma ready_exists (st : Greedy.state) :
  greedy_inv problem st ->
  Greedy.S_manual st ++ Greedy.S_remote st <> [] ->
  exists x, In x (Greedy.S_manual st ++ Greedy.S_remote st)
            /\ Greedy.gamma st x = 0%Z.
Proof.
  intros Hinv Hne. destruct (fi_acyclic _ instance_ok) as [rank Hrank].
  destruct (least_rank rank _ Hne) as (x & Hx & Hmin).
  exists x. split; [exact Hx|].
  pose proof (inv_set_range problem st x Hinv Hx) as Hrange.
  rewrite (gi_gamma _ _ Hinv x Hrange). apply pending_count_zero.
  intros i Hi. unfold scheduled. apply negb_true_iff.
  destruct (unscheduled st i) eqn:E; [|reflexivity].
  apply unscheduled_In in E. specialize (Hmin i E).
  specialize (Hrank x i Hrange Hi). lia.
Qed.

Lemma drain_fold (js : list nat) :
  forall s stop,
    greedy_inv problem s -> NoDup js ->
    (forall j, In j js -> In j (Greedy.S_remote s)) ->
    let r := fold_left
               (fun (acc : Greedy.state * bool) j =>
                  if (Greedy.gamma (fst acc) j =? 0)%Z
                  then (Greedy.schedule_remote problem (fst acc) j, false)
                  else acc) js (s, stop) in
    greedy_inv problem (fst r)
    /\ Greedy.S_manual (fst r) = Greedy.S_manual s
    /\ length (Greedy.S_remote (fst r)) <= length (Greedy.S_remote s)
    /\ (snd r = true ->
        stop = true /\ fst r = s /\ forall j, In j js -> Greedy.gamma s j <> 0%Z)
    /\ (snd r = false ->
        stop = false \/ length (Greedy.S_remote (fst r)) < length (Greedy.S_remote s)).
Proof.
  induction js as [|j js IH]; intros s stop Hinv Hnd Hin; cbv zeta.
  - simpl. split; [exact Hinv|]. split; [reflexivity|]. split; [lia|]. split.
    + intro H. split; [exact H|]. split; [reflexivity|]. intros j [].
    + intro H. now left.
  - simpl fold_left. simpl fst at 1.
    inversion Hnd as [|? ? Hj Hnd']; subst.
    destruct (Greedy.gamma s j =? 0)%Z eqn:E.
    + destruct (schedule_remote_inv problem (fi_well_formed _ instance_ok) s j Hinv (Hin j (or_introl eq_refl)))
        as [Hinv1 Hperm].
      pose proof (Permutation_length Hperm) as Hlen. cbn [length] in Hlen.
      specialize (IH (Greedy.schedule_remote problem s j) false Hinv1 Hnd').
      cbv zeta in IH.
      destruct IH as (H1 & H2 & H3 & H4 & H5).
      { intros x Hx. simpl. apply in_in_remove; [|apply Hin; now right].
        intros ->. contradiction. }
      split; [exact H1|]. split; [rewrite H2; reflexivity|]. split; [lia|]. split.
      * intro H. apply H4 in H. destruct H; discriminate.
      * intro H. right. lia.
    + specialize (IH s stop Hinv Hnd' (fun x Hx => Hin x (or_intror Hx))).
      cbv zeta in IH. destruct IH as (H1 & H2 & H3 & H4 & H5).
      split; [exact H1|]. split; [exact H2|]. split; [exact H3|]. split.
      * intro H. destruct (H4 H) as (Hs & Hr & Hall).
        split; [exact Hs|]. split; [exact Hr|].
        intros x [<- | Hx].
        -- intro H0. rewrite H0 in E. discriminate.
        -- now apply Hall.
      * exact H5.
Qed.

Lemma drain_ok (fuel : nat) :
  forall st,
    greedy_inv problem st -> length (Greedy.S_remote st) < fuel ->
    exists st',
      Greedy.drain problem fuel st = Some st'
      /\ greedy_inv problem st'
      /\ Greedy.S_manual st' = Greedy.S_manual st
      /\ length (Greedy.S_remote st') <= length (Greedy.S_remote st)
      /\ forall j, In j (Greedy.S_remote st') -> Greedy.gamma st' j <> 0%Z.
Proof.
  induction fuel as [|fuel IH]; intros st Hinv Hfuel; [lia|].
  simpl. unfold Greedy.drain_pass.
  assert (Hnd : NoDup (Greedy.S_remote st))
    by (apply (NoDup_app_remove_l _ _ (inv_sets_NoDup problem st Hinv))).
  pose proof (drain_fold (Greedy.S_remote st) st true Hinv Hnd (fun j H => H)) as Hpass.
  cbv zeta in Hpass.
  destruct (fold_left _ (Greedy.S_remote st) (st, true)) as [st1 stop].
  simpl in Hpass. destruct Hpass as (H1 & H2 & H3 & H4 & H5).
  destruct stop.
  - destruct (H4 eq_refl) as (_ & -> & Hready).
    exists st. split; [reflexivity|]. split; [exact Hinv|].
    split; [reflexivity|]. split; [lia | exact Hready].
  - destruct (H5 eq_refl) as [Habs | Hless]; [discriminate|].
    destruct (IH st1 H1) as (st' & Hrun & Hinv' & Hm & Hr & Hready); [lia|].
    exists st'. split; [exact Hrun|]. split; [exact Hinv'|].
    split; [congruence|]. split; [lia | exact Hready].
Qed.

End GreedyFeasible.

(** The search ends with [j] and [l] set as soon as a ready switch has,
    with some team, a criterion below [DBL_MAX]. *)
Lemma choose_some (problem : Problem.t) (st : Greedy.state) (x l : nat) :
  In x (Greedy.S_manual st) -> Greedy.gamma st x = 0%Z ->
  1 <= l <= Problem.m problem ->
  (Greedy.t st (Greedy.phi st l) + Problem.p problem (Greedy.phi st l)
   + Problem.s problem (Greedy.phi st l) x l < DBL_MAX)%Q ->
  exists c j l', Greedy.choose problem st = Some (c, j, l').
Proof.
  intros Hx Hg Hl Hbelow.
  set (inner := fun (j_trial : nat) (acc' : option (Q * nat * nat)) (l_trial : nat) =>
                  let criterion_trial :=
                    (Greedy.t st (Greedy.phi st l_trial)
                     + Problem.p problem (Greedy.phi st l_trial)
                     + Problem.s problem (Greedy.phi st l_trial) j_trial l_trial)%Q in
                  let criterion :=
                    match acc' with
                    | None => DBL_MAX
                    | Some (criterion, _, _) => criterion
                    end in
                  if Qltb criterion_trial criterion
                  then Some (criterion_trial, j_trial, l_trial)
                  else acc').
  set (outer := fun (acc0 : option (Q * nat * nat)) (j_trial : nat) =>
                  if (Greedy.gamma st j_trial =? 0)%Z
                  then fold_left (inner j_trial) (seq 1 (Problem.m problem)) acc0
                  else acc0).
  set (chosen := fun acc : option (Q * nat * nat) => acc <> None).
  assert (Hinner : forall j_trial ls acc,
             (chosen acc -> chosen (fold_left (inner j_trial) ls acc))
             /\ ((exists l0, In l0 ls
                             /\ (Greedy.t st (Greedy.phi st l0)
                                 + Problem.p problem (Greedy.phi st l0)
                                 + Problem.s problem (Greedy.phi st l0) j_trial l0
                                 < DBL_MAX)%Q) ->
                 chosen (fold_left (inner j_trial) ls acc))).
  { intros j_trial ls acc.
    destruct (fold_left_reaches (inner j_trial) (fun _ => True) chosen
                (fun l0 => (Greedy.t st (Greedy.phi st l0)
                            + Problem.p problem (Greedy.phi st l0)
                            + Problem.s problem (Greedy.phi st l0) j_trial l0
                            < DBL_MAX)%Q))
      with (l := ls) (b := acc) as (_ & Hkeep & Hreach); [| | | |split; assumption].
    - auto.
    - intros b a Hb. unfold inner, chosen. cbv zeta.
      destruct (Qltb _ _); [discriminate | exact Hb].
    - intros b a _ Hhit. unfold inner, chosen. cbv zeta.
      destruct b as [[[c0 j0] l0]|].
      + destruct (Qltb _ c0); discriminate.
      + apply Qltb_lt in Hhit. rewrite Hhit. discriminate.
    - exact I. }
  assert (Hchosen : chosen (fold_left outer (Greedy.S_manual st) None)).
  { destruct (fold_left_reaches outer (fun _ => True) chosen
                (fun j0 => Greedy.gamma st j0 = 0%Z
                           /\ exists l0, In l0 (seq 1 (Problem.m problem))
                                 /\ (Greedy.t st (Greedy.phi st l0)
                                     + Problem.p problem (Greedy.phi st l0)
                                     + Problem.s problem (Greedy.phi st l0) j0 l0
                                     < DBL_MAX)%Q))
      with (l := Greedy.S_manual st) (b := @None (Q * nat * nat))
      as (_ & _ & Hreach).
    - auto.
    - intros b a Hb. unfold outer. destruct (Greedy.gamma st a =? 0)%Z; [|exact Hb].
      exact (proj1 (Hinner a _ b) Hb).
    - intros b a _ [Hga Hhit]. unfold outer. rewrite Hga. simpl.
      exact (proj2 (Hinner a _ b) Hhit).
    - exact I.
    - apply Hreach. exists x. split; [exact Hx|]. split; [exact Hg|].
      exists l. split; [apply in_seq; lia | exact Hbelow]. }
  change (fold_left outer (Greedy.S_manual st) None) with (Greedy.choose problem st)
    in Hchosen.
  unfold chosen in Hchosen.
  destruct (Greedy.choose problem st) as [[[c j] l']|]; [|congruence].
  now exists c, j, l'.
Qed.


(** C7 as stated fails, in two ways.  The instance [unstaffed] (one
    manual switch, no team) has an acyclic precedence graph and only
    Manual switches, yet Greedy finds no team to choose (it would read
    [j] and [l] uninitialised) and no schedule at all passes
    [is_feasible].  The instance [far] has a team, but the only
    criterion is [DBL_MAX], which is not below the value [DBL_MAX] that
    the search starts from: again [j] and [l] are read uninitialised. *)
Lemma greedy_fails_on_feasible_instances :
  (feasible_instance Examples.unstaffed
   /\ Greedy.solve Examples.unstaffed = None
   /\ (forall schedule, Problem.is_feasible Examples.unstaffed schedule = false)
   /\ ~ greedy_succeeds Examples.unstaffed)
  /\
  (feasible_instance Examples.far
   /\ 1 <= Problem.m Examples.far
   /\ (forall i, (0 <= Problem.p Examples.far i)%Q)
   /\ Greedy.solve Examples.far = None
   /\ ~ greedy_succeeds Examples.far).
Proof.
  assert (Hnone : forall schedule,
             Problem.is_feasible Examples.unstaffed schedule = false).
  { intro schedule.
    destruct (Problem.is_feasible Examples.unstaffed schedule) eqn:E; [|reflexivity].
    apply is_feasible_iff in E. destruct E as [Hlen _ Honce Hrem _ _].
    specialize (Honce 1). simpl in Honce.
    assert (Hin : In 1 (scheduled_operations Examples.unstaffed schedule)).
    { apply (count_occ_In Nat.eq_dec). rewrite Honce; lia. }
    unfold scheduled_operations in Hin. simpl in Hin. rewrite app_nil_r in Hin.
    specialize (Hrem 1 Hin). discriminate. }
  assert (Hfar : Greedy.solve Examples.far = None) by (vm_compute; reflexivity).
  split.
  - split; [|split; [vm_compute; reflexivity | split; [exact Hnone|]]].
    + constructor.
      * constructor; simpl; [constructor | constructor | tauto].
      * simpl. intros j i _ [].
      * exists (fun _ => 0). simpl. intros j i _ [].
      * intros i _. now left.
    + intros (schedule & makespan & _ & _ & Hfeasible).
      rewrite Hnone in Hfeasible. discriminate.
  - split; [|split; [simpl; lia | split; [|split; [exact Hfar|]]]].
    + constructor.
      * constructor; simpl; [constructor | constructor | tauto].
      * simpl. intros j i _ [].
      * exists (fun _ => 0). simpl. intros j i _ [].
      * intros i _. now left.
    + intros [|i]; vm_compute; discriminate.
    + intros (schedule & makespan & Hsolve & _). rewrite Hfar in Hsolve. discriminate.
Qed.

Lemma serial_feasible_instance : feasible_instance Examples.serial.
Proof.
  constructor.
  - exact serial_well_formed.
  - simpl. intros j i Hj Hi.
    destruct j as [|[|[|j]]]; simpl in Hi; try lia; destruct Hi as [<- | []]; lia.
  - exists (fun i => i). simpl. intros j i Hj Hi.
    destruct j as [|[|[|j]]]; simpl in Hi; try lia; destruct Hi as [<- | []]; lia.
  - intros i _. now left.
Qed.


Lemma inv_well_scheduled (problem : Problem.t) (st : Greedy.state) :
  greedy_inv problem st -> well_scheduled problem (Greedy.schedule st).
Proof.
  intro Hinv.
  pose proof (gi_partition _ _ Hinv) as Hpart.
  assert (Hnd : NoDup (concat (Greedy.schedule st)
                       ++ Greedy.S_manual st ++ Greedy.S_remote st)).
  { apply (Permutation_NoDup (Permutation_sym Hpart)). apply seq_NoDup. }
  split; rewrite (scheduled_operations_concat problem _ (gi_lanes _ _ Hinv)).
  - apply (NoDup_app_inv _ _ Hnd).
  - intros x Hx.
    assert (Hin : In x (seq 1 (Problem.n problem))).
    { apply (Permutation_in _ Hpart). apply in_or_app. now left. }
    apply in_seq in Hin. lia.
Qed.


(** ** The fuel of Greedy's loop *)

(** [Greedy.run] gives the loop [n] passes.  A run that ends within any
    number of passes ends within [n], with the same result: [None] is
    only a loop that does not end, or the read of an unchosen pair. *)
Section GreedyFuel.
Variable problem : Problem.t.

Lemma remove_NoDup (x : nat) (v : list nat) :
  NoDup v -> NoDup (remove Nat.eq_dec x v).
Proof.
  intro Hnd. induction Hnd as [|y v Hy Hnd IH]; simpl; [constructor|].
  destruct (Nat.eq_dec x y); [exact IH|].
  constructor; [|exact IH]. intro H. apply in_remove in H. now apply Hy.
Qed.

Lemma remove_shorter (x : nat) (v : list nat) :
  NoDup v -> In x v -> S (length (remove Nat.eq_dec x v)) = length v.
Proof.
  intros Hnd Hin.
  now rewrite (Permutation_length (remove_Permutation x v Hnd Hin)).
Qed.

Lemma drain_pass_sets (js : list nat) :
  forall s stop,
    NoDup (Greedy.S_remote s) -> NoDup js ->
    (forall j, In j js -> In j (Greedy.S_remote s)) ->
    let r := fold_left
               (fun (acc : Greedy.state * bool) j =>
                  if (Greedy.gamma (fst acc) j =? 0)%Z
                  then (Greedy.schedule_remote problem (fst acc) j, false)
                  else acc) js (s, stop) in
    NoDup (Greedy.S_remote (fst r))
    /\ Greedy.S_manual (fst r) = Greedy.S_manual s
    /\ (snd r = true -> stop = true /\ fst r = s)
    /\ (snd r = false ->
        stop = false \/ length (Greedy.S_remote (fst r)) < length (Greedy.S_remote s))
    /\ length (Greedy.S_remote (fst r)) <= length (Greedy.S_remote s).
Proof.
  induction js as [|j js IH]; intros s stop Hs Hnd Hin; cbv zeta.
  - simpl. split; [exact Hs|]. split; [reflexivity|]. split; [auto|].
    split; [|lia]. intro H. now left.
  - simpl fold_left. simpl fst at 1.
    inversion Hnd as [|? ? Hj Hnd']; subst.
    destruct (Greedy.gamma s j =? 0)%Z.
    + pose proof (remove_shorter j (Greedy.S_remote s) Hs (Hin j (or_introl eq_refl)))
        as Hlen.
      specialize (IH (Greedy.schedule_remote problem s j) false
                    (remove_NoDup j _ Hs) Hnd').
      cbv zeta in IH. destruct IH as (H1 & H2 & H3 & H4 & H5).
      { intros x Hx. simpl. apply in_in_remove; [|apply Hin; now right].
        intros ->. contradiction. }
      change (Greedy.S_remote (Greedy.schedule_remote problem s j))
        with (remove Nat.eq_dec j (Greedy.S_remote s)) in H4, H5.
      split; [exact H1|]. split; [exact H2|]. split.
      * intro H. destruct (H3 H) as [Habs _]. discriminate.
      * split; [intro; right; lia | lia].
    + exact (IH s stop Hs Hnd' (fun x Hx => Hin x (or_intror Hx))).
Qed.

Lemma drain_sets (fuel : nat) :
  forall st st1,
    NoDup (Greedy.S_remote st) ->
    Greedy.drain problem fuel st = Some st1 ->
    NoDup (Greedy.S_remote st1)
    /\ Greedy.S_manual st1 = Greedy.S_manual st
    /\ (st1 = st \/ length (Greedy.S_remote st1) < length (Greedy.S_remote st)).
Proof.
  induction fuel as [|fuel IH]; intros st st1 Hnd Hrun; [discriminate|].
  simpl in Hrun. unfold Greedy.drain_pass in Hrun.
  pose proof (drain_pass_sets (Greedy.S_remote st) st true Hnd Hnd (fun j H => H))
    as Hpass. cbv zeta in Hpass.
  destruct (fold_left _ (Greedy.S_remote st) (st, true)) as [st' stop].
  simpl in Hpass. destruct Hpass as (H1 & H2 & H3 & H4 & H5).
  destruct stop.
  - injection Hrun as <-. destruct (H3 eq_refl) as [_ ->]. auto.
  - destruct (H4 eq_refl) as [Habs | Hlt]; [discriminate|].
    destruct (IH st' st1 H1 Hrun) as (G1 & G2 & G3).
    split; [exact G1|]. split; [congruence|].
    right. destruct G3 as [-> | G3]; lia.
Qed.

(** The passes granted to the inner loop are enough. *)
Lemma drain_total (fuel : nat) :
  forall st,
    NoDup (Greedy.S_remote st) -> length (Greedy.S_remote st) < fuel ->
    exists st1, Greedy.drain problem fuel st = Some st1.
Proof.
  induction fuel as [|fuel IH]; intros st Hnd Hfuel; [lia|].
  simpl. unfold Greedy.drain_pass.
  pose proof (drain_pass_sets (Greedy.S_remote st) st true Hnd Hnd (fun j H => H))
    as Hpass. cbv zeta in Hpass.
  destruct (fold_left _ (Greedy.S_remote st) (st, true)) as [st' stop].
  simpl in Hpass. destruct Hpass as (H1 & _ & _ & H4 & _).
  destruct stop; [now exists st'|].
  destruct (H4 eq_refl) as [Habs | Hlt]; [discriminate|].
  apply IH; [exact H1 | lia].
Qed.

Lemma loop_more_fuel (fuel : nat) :
  forall st r extra,
    Greedy.loop problem fuel st = Some r ->
    Greedy.loop problem (fuel + extra) st = Some r.
Proof.
  induction fuel as [|fuel IH]; intros st r extra Hrun.
  - simpl in Hrun.
    destruct (length (Greedy.S_manual st) + length (Greedy.S_remote st) =? 0) eqn:E;
      [|discriminate].
    destruct extra; simpl; now rewrite E.
  - simpl in Hrun |- *.
    destruct (length (Greedy.S_manual st) + length (Greedy.S_remote st) =? 0);
      [exact Hrun|].
    destruct (Greedy.drain problem (length (Greedy.S_remote st) + 1) st) as [st1|];
      [|discriminate].
    destruct (0 <? length (Greedy.S_manual st1)); [|now apply IH].
    destruct (Greedy.choose problem st1) as [[[c j] l]|]; [|discriminate].
    now apply IH.
Qed.

Lemma loop_fuel_adequate (fuel : nat) :
  forall st r,
    NoDup (Greedy.S_manual st) -> NoDup (Greedy.S_remote st) ->
    Greedy.loop problem fuel st = Some r ->
    Greedy.loop problem (length (Greedy.S_manual st) + length (Greedy.S_remote st)) st
    = Some r.
Proof.
  induction fuel as [|fuel IH]; intros st r Hm Hr Hrun.
  - simpl in Hrun.
    destruct (length (Greedy.S_manual st) + length (Greedy.S_remote st) =? 0) eqn:E;
      [|discriminate].
    apply Nat.eqb_eq in E. rewrite E. simpl.
    apply Nat.eqb_eq in E. now rewrite E.
  - simpl in Hrun.
    destruct (length (Greedy.S_manual st) + length (Greedy.S_remote st)) as [|size] eqn:Esize.
    + simpl in Hrun |- *. rewrite Esize. exact Hrun.
    + simpl in Hrun. simpl. rewrite Esize. simpl.
      destruct (Greedy.drain problem (length (Greedy.S_remote st) + 1) st) as [st1|] eqn:Ed;
        [|discriminate].
      destruct (drain_sets _ st st1 Hr Ed) as (Hr1 & Hm1 & Hshrink).
      destruct (0 <? length (Greedy.S_manual st1)) eqn:Eman.
      * destruct (Greedy.choose problem st1) as [[[c j] l]|] eqn:Ec; [|discriminate].
        destruct (choose_spec problem st1 c j l Ec) as (Hj & _ & _).
        assert (Hm1' : NoDup (Greedy.S_manual st1)) by (now rewrite Hm1).
        pose proof (remove_shorter j _ Hm1' Hj) as Hlen.
        specialize (IH (Greedy.schedule_manual problem st1 j l) r
                      (remove_NoDup j _ Hm1') Hr1 Hrun).
        simpl Greedy.S_manual in IH. simpl Greedy.S_remote in IH.
        replace size with
          (length (remove Nat.eq_dec j (Greedy.S_manual st1))
           + length (Greedy.S_remote st1)
           + (size - (length (remove Nat.eq_dec j (Greedy.S_manual st1))
                      + length (Greedy.S_remote st1)))).
        -- now apply loop_more_fuel.
        -- rewrite Hm1 in Hlen |- *.
           destruct Hshrink as [-> | Hlt]; lia.
      * destruct Hshrink as [-> | Hlt].
        -- specialize (IH st r Hm Hr Hrun). rewrite Esize in IH.
           simpl in IH. rewrite Esize in IH. simpl in IH. rewrite Ed, Eman in IH.
           exact IH.
        -- assert (Hm1' : NoDup (Greedy.S_manual st1)) by (now rewrite Hm1).
           specialize (IH st1 r Hm1' Hr1 Hrun).
           replace size with
             (length (Greedy.S_manual st1) + length (Greedy.S_remote st1)
              + (size - (length (Greedy.S_manual st1) + length (Greedy.S_remote st1)))).
           ++ now apply loop_more_fuel.
           ++ rewrite Hm1. lia.
Qed.

Lemma filter_NoDup (f : nat -> bool) (v : list nat) : NoDup v -> NoDup (filter f v).
Proof.
  intro Hnd. induction Hnd as [|x v Hx Hnd IH]; simpl; [constructor|].
  destruct (f x); [|exact IH].
  constructor; [|exact IH]. intro H. apply filter_In in H. now apply Hx.
Qed.

Lemma filter_disjoint_length (f g : nat -> bool) (v : list nat) :
  (forall x, f x = true -> g x = false) ->
  length (filter f v) + length (filter g v) <= length v.
Proof.
  intro H. induction v as [|x v IH]; simpl; [lia|].
  destruct (f x) eqn:E.
  - rewrite (H x E). simpl. lia.
  - destruct (g x); simpl; lia.
Qed.

(** Whatever the number of passes granted, a run that ends gives the
    result of [Greedy.run]. *)
Lemma run_fuel_adequate (fuel : nat) (r : Greedy.state) :
  Greedy.loop problem fuel (Greedy.init problem) = Some r ->
  Greedy.run problem = Some r.
Proof.
  intro Hrun. unfold Greedy.run.
  apply loop_fuel_adequate in Hrun;
    [| apply filter_NoDup, seq_NoDup | apply filter_NoDup, seq_NoDup].
  simpl Greedy.S_manual in Hrun. simpl Greedy.S_remote in Hrun.
  pose proof (filter_disjoint_length (Greedy.has_technology problem MANUAL)
                (Greedy.has_technology problem REMOTE) (seq 1 (Problem.n problem))) as Hlen.
  rewrite length_seq in Hlen.
  replace (Problem.n problem) with
    (length (filter (Greedy.has_technology problem MANUAL) (seq 1 (Problem.n problem)))
     + length (filter (Greedy.has_technology problem REMOTE) (seq 1 (Problem.n problem)))
     + (Problem.n problem
        - (length (filter (Greedy.has_technology problem MANUAL) (seq 1 (Problem.n problem)))
           + length (filter (Greedy.has_technology problem REMOTE)
                       (seq 1 (Problem.n problem)))))) at 1.
  - now apply loop_more_fuel.
  - assert (H : forall x, Greedy.has_technology problem MANUAL x = true ->
                          Greedy.has_technology problem REMOTE x = false).
    { intros x. unfold Greedy.has_technology.
      destruct (Problem.technology problem x); simpl; congruence. }
    specialize (Hlen H). lia.
Qed.

End GreedyFuel.

(* ================================================================== *)
(** * Further properties of the code *)

(** ** The comparator *)

Lemma below_threshold_finite (a b : Q) :
  common.below_threshold (common.abs_diff (Fin a) (Fin b)) = true
  <-> (a - common.THRESHOLD < b /\ b < a + common.THRESHOLD)%Q.
Proof.
  simpl. rewrite Qltb_lt. apply Qabs_diff_Qlt_condition.
Qed.

Lemma compare_finite (a b : Q) :
  (common.compare (Fin a) (Fin b) = (-1)%Z <-> (a + common.THRESHOLD <= b)%Q)
  /\ (common.compare (Fin a) (Fin b) = 0%Z
      <-> (a - common.THRESHOLD < b /\ b < a + common.THRESHOLD)%Q)
  /\ (common.compare (Fin a) (Fin b) = 1%Z <-> (b + common.THRESHOLD <= a)%Q).
Proof.
  unfold common.compare.
  pose proof (below_threshold_finite a b) as Hnear.
  assert (Heps : (0 < common.THRESHOLD)%Q) by reflexivity.
  destruct (common.below_threshold (common.abs_diff (Fin a) (Fin b))) eqn:E.
  - destruct (proj1 Hnear eq_refl) as [H1 H2].
    split; [|split]; (split; intro H).
    + discriminate.
    + lra.
    + split; assumption.
    + reflexivity.
    + discriminate.
    + lra.
  - assert (Hfar : ~ (a - common.THRESHOLD < b /\ b < a + common.THRESHOLD)%Q).
    { intro H. apply Hnear in H. discriminate. }
    simpl dlt. destruct (Qltb a b) eqn:Elt.
    + apply Qltb_lt in Elt.
      split; [|split]; (split; intro H).
      * apply Qnot_lt_le. intro Hc. apply Hfar. split; lra.
      * reflexivity.
      * discriminate.
      * exfalso. now apply Hfar.
      * discriminate.
      * lra.
    + apply Qltb_ge in Elt.
      split; [|split]; (split; intro H).
      * discriminate.
      * lra.
      * discriminate.
      * exfalso. now apply Hfar.
      * apply Qnot_lt_le. intro Hc. apply Hfar. split; lra.
      * reflexivity.
Qed.

Lemma less_finite (a b : Q) :
  common.less (Fin a) (Fin b) = true <-> (a + common.THRESHOLD <= b)%Q.
Proof.
  destruct (compare_finite a b) as (Hl & _ & _).
  unfold common.less. now rewrite Z.eqb_eq.
Qed.

Lemma less_finite_left (a b : double) :
  common.less a b = true -> exists x, a = Fin x.
Proof.
  destruct a as [x|]; [now exists x|].
  destruct b; discriminate.
Qed.

Lemma less_irreflexive (a : double) : common.less a a = false.
Proof.
  assert (Heps : (0 < common.THRESHOLD)%Q) by reflexivity.
  destruct a as [x|]; [|reflexivity].
  destruct (common.less (Fin x) (Fin x)) eqn:E; [|reflexivity].
  apply less_finite in E. lra.
Qed.

Lemma less_asymmetric (a b : double) :
  common.less a b = true -> common.less b a = false.
Proof.
  assert (Heps : (0 < common.THRESHOLD)%Q) by reflexivity.
  intro Hab. destruct (less_finite_left a b Hab) as [x ->].
  destruct b as [y|]; [|reflexivity].
  destruct (common.less (Fin y) (Fin x)) eqn:E; [|reflexivity].
  apply less_finite in E, Hab. lra.
Qed.

Lemma less_transitive (a b c : double) :
  common.less a b = true -> common.less b c = true -> common.less a c = true.
Proof.
  assert (Heps : (0 < common.THRESHOLD)%Q) by reflexivity.
  intros Hab Hbc.
  destruct (less_finite_left a b Hab) as [x ->].
  destruct (less_finite_left b c Hbc) as [y ->].
  destruct c as [z|]; [|reflexivity].
  apply less_finite. apply less_finite in Hab, Hbc. lra.
Qed.

Lemma compare_values (a b : double) :
  common.compare a b = (-1)%Z \/ common.compare a b = 0%Z \/ common.compare a b = 1%Z.
Proof.
  unfold common.compare.
  destruct (common.below_threshold _); [auto|]. destruct (dlt a b); auto.
Qed.

Lemma compare_swap (a b : double) :
  (common.compare a b = (-1)%Z -> common.compare b a = 1%Z)
  /\ (common.compare a b = 0%Z -> common.compare b a = 0%Z).
Proof.
  assert (Heps : (0 < common.THRESHOLD)%Q) by reflexivity.
  destruct a as [x|], b as [y|]; try (split; intro H; (discriminate || reflexivity)).
  destruct (compare_finite x y) as (Hl & He & Hg).
  destruct (compare_finite y x) as (Hl' & He' & Hg').
  split; intro H.
  - apply Hg'. apply Hl in H. exact H.
  - apply He'. apply He in H. lra.
Qed.

Lemma less2_lexicographic (x1 x2 y1 y2 : double) :
  common.less2 (x1, x2) (y1, y2)
  = common.less x1 y1 || (common.equal x1 y1 && common.less x2 y2).
Proof.
  unfold common.less2, common.compare2, common.less, common.equal.
  simpl fst. simpl snd.
  destruct (compare_values x1 y1) as [-> | [-> | ->]]; simpl; try reflexivity.
  destruct (compare_values x2 y2) as [-> | [-> | ->]]; reflexivity.
Qed.

Lemma less2_irreflexive (e : double * double) : common.less2 e e = false.
Proof.
  destruct e as [a1 a2]. rewrite less2_lexicographic.
  rewrite (less_irreflexive a1), (less_irreflexive a2).
  now rewrite andb_false_r.
Qed.

Lemma less2_asymmetric (e1 e2 : double * double) :
  common.less2 e1 e2 = true -> common.less2 e2 e1 = false.
Proof.
  destruct e1 as [a1 a2], e2 as [b1 b2].
  rewrite !less2_lexicographic. intro H. apply orb_true_iff in H.
  unfold common.less, common.equal in *.
  destruct H as [H | H].
  - apply Z.eqb_eq in H. apply compare_swap in H. rewrite H. reflexivity.
  - apply andb_true_iff in H. destruct H as [H1 H2].
    apply Z.eqb_eq in H1, H2.
    apply compare_swap in H1. apply compare_swap in H2.
    rewrite H1, H2. reflexivity.
Qed.

(** X1. On finite values the helpers separate by the threshold 1e-5
    with room to spare: [less(a, b)] holds only when a < b and whenever
    a + 2e-5 <= b, [greater(a, b)] holds only when b < a, and
    [equal(a, b)] holds whenever |a - b| <= 5e-6.  Swapping the
    arguments negates [compare], so [less(a, b)] is [greater(b, a)] and
    [equal] is symmetric; [less_or_equal] is the negation of [greater]
    and [greater_or_equal] that of [less]. *)
Theorem comparator_on_finite_values :
  forall a b : Q,
    (common.less (Fin a) (Fin b) = true -> (a < b)%Q)
    /\ (common.greater (Fin a) (Fin b) = true -> (b < a)%Q)
    /\ ((a + 2 * common.THRESHOLD <= b)%Q -> common.less (Fin a) (Fin b) = true)
    /\ ((a - common.THRESHOLD / 2 <= b)%Q -> (b <= a + common.THRESHOLD / 2)%Q ->
        common.equal (Fin a) (Fin b) = true)
    /\ common.compare (Fin b) (Fin a) = (- common.compare (Fin a) (Fin b))%Z
    /\ common.less (Fin a) (Fin b) = common.greater (Fin b) (Fin a)
    /\ common.equal (Fin a) (Fin b) = common.equal (Fin b) (Fin a)
    /\ common.less_or_equal (Fin a) (Fin b) = negb (common.greater (Fin a) (Fin b))
    /\ common.greater_or_equal (Fin a) (Fin b) = negb (common.less (Fin a) (Fin b)).
Proof.
  intros a b.
  assert (Heps : (0 < common.THRESHOLD)%Q) by reflexivity.
  assert (Hhalf : (common.THRESHOLD / 2 < common.THRESHOLD)%Q) by reflexivity.
  destruct (compare_finite a b) as (Hl & He & Hg).
  assert (Hswap : common.compare (Fin b) (Fin a) = (- common.compare (Fin a) (Fin b))%Z).
  { destruct (compare_swap (Fin a) (Fin b)) as [H1 H2].
    destruct (compare_swap (Fin b) (Fin a)) as [H3 H4].
    destruct (compare_values (Fin a) (Fin b)) as [E | [E | E]].
    - rewrite E, (H1 E). reflexivity.
    - rewrite E, (H2 E). reflexivity.
    - destruct (compare_values (Fin b) (Fin a)) as [E' | [E' | E']].
      + rewrite E, E'. reflexivity.
      + rewrite (H4 E') in E. discriminate.
      + exfalso. destruct (compare_finite b a) as (_ & _ & Hg').
        apply Hg in E. apply Hg' in E'. lra. }
  unfold common.less, common.equal, common.greater, common.less_or_equal,
    common.greater_or_equal.
  rewrite Hswap.
  repeat split.
  - rewrite Z.eqb_eq. intro H. apply Hl in H. lra.
  - rewrite Z.eqb_eq. intro H. apply Hg in H. lra.
  - intro H. apply Z.eqb_eq. apply Hl. lra.
  - intros H1 H2. apply Z.eqb_eq. apply He. split; lra.
  - destruct (compare_values (Fin a) (Fin b)) as [-> | [-> | ->]]; reflexivity.
  - destruct (compare_values (Fin a) (Fin b)) as [-> | [-> | ->]]; reflexivity.
Qed.

(** X2. +infinity compares greater than every value, itself included: it
    is never less than anything and not even equal to itself, and every
    finite value is less than it. *)
Theorem comparator_at_infinity :
  forall b : double,
    common.less infinity b = false
    /\ common.equal infinity b = false
    /\ common.greater infinity b = true
    /\ common.less_or_equal infinity b = false
    /\ forall a : Q, common.less (Fin a) infinity = true.
Proof.
  intro b. destruct b; repeat split; reflexivity.
Qed.

(** X3. [less] on doubles is a strict order: irreflexive, asymmetric and
    transitive (although [equal] is not transitive). *)
Theorem less_strict_order :
  forall a b c : double,
    common.less a a = false
    /\ (common.less a b = true -> common.less b a = false)
    /\ (common.less a b = true -> common.less b c = true -> common.less a c = true).
Proof.
  intros a b c. split; [|split].
  - apply less_irreflexive.
  - apply less_asymmetric.
  - apply less_transitive.
Qed.

(** X4. The tuple comparator is lexicographic: a pair is less than
    another when its first component is less, or the first components are
    equal within the threshold and its second component is less.  It is
    irreflexive and asymmetric, so an improvement is never an improvement
    in the other direction too. *)
Theorem tuple_less_lexicographic :
  forall e1 e2 : double * double,
    common.less2 e1 e2
    = common.less (fst e1) (fst e2)
      || (common.equal (fst e1) (fst e2) && common.less (snd e1) (snd e2))
    /\ common.less2 e1 e1 = false
    /\ (common.less2 e1 e2 = true -> common.less2 e2 e1 = false).
Proof.
  intros [a1 a2] [b1 b2]. simpl fst. simpl snd.
  split; [apply less2_lexicographic|]. split.
  - apply less2_irreflexive.
  - apply less2_asymmetric.
Qed.

(** ** What [is_feasible] tests *)

Lemma feasibility_checks_partition (problem : Problem.t) (schedule : Schedule) :
  feasibility_checks problem schedule ->
  Permutation (concat schedule) (seq 1 (Problem.n problem)).
Proof.
  intro Hchk.
  pose proof (scheduled_operations_concat problem schedule (chk_lanes _ _ Hchk)) as Hops.
  rewrite <- Hops.
  apply NoDup_Permutation.
  - apply (feasibility_checks_well_scheduled problem schedule Hchk).
  - apply seq_NoDup.
  - intro x. split; intro Hx.
    + apply in_seq. pose proof (chk_ids _ _ Hchk x Hx). lia.
    + apply in_seq in Hx.
      apply (count_occ_In Nat.eq_dec).
      rewrite (chk_once _ _ Hchk x); lia.
Qed.

Lemma is_feasible_partitioned (problem : Problem.t) (schedule : Schedule) :
  well_formed problem ->
  (forall i, (0 <= Problem.p problem i)%Q) ->
  Problem.is_feasible problem schedule = true <-> partitioned problem schedule.
Proof.
  intros Hwf Hp. split.
  - intro Hfeas. apply is_feasible_iff in Hfeas.
    split; [apply (chk_lanes _ _ Hfeas)|].
    split; [apply (feasibility_checks_partition _ _ Hfeas)|].
    split; [apply (chk_remote _ _ Hfeas)|].
    intros l i Hl Hi. apply (chk_manual _ _ Hfeas l i); [|exact Hi].
    split; [exact Hl|].
    pose proof (lane_member_bound schedule l i Hi) as Hb.
    rewrite (chk_lanes _ _ Hfeas) in Hb. lia.
  - intros (Hlen & Hperm & Hrem & Hman).
    now apply partition_is_feasible.
Qed.

(** X5. Whenever the instance is well formed and no processing time is
    negative, [is_feasible] accepts exactly the schedules with m + 1
    lanes that hold every switch 1..n once and route it by technology:
    the test of the precedence constraints never rejects a schedule. *)
Theorem is_feasible_is_partition_and_routing :
  forall (problem : Problem.t) (schedule : Schedule),
    well_formed problem ->
    (forall i, (0 <= Problem.p problem i)%Q) ->
    (Problem.is_feasible problem schedule = true
     <-> length schedule = Problem.m problem + 1
         /\ Permutation (concat schedule) (seq 1 (Problem.n problem))
         /\ (forall i, In i (lane schedule 0) -> Problem.technology problem i = REMOTE)
         /\ (forall l i, 1 <= l -> In i (lane schedule l) ->
                         Problem.technology problem i = MANUAL)).
Proof.
  intros problem schedule Hwf Hp.
  apply (is_feasible_partitioned problem schedule Hwf Hp).
Qed.

Lemma serial_p_nonnegative : forall i, (0 <= Problem.p Examples.serial i)%Q.
Proof.
  intros [|[|[|i]]]; vm_compute; discriminate.
Qed.

Lemma is_feasible_is_partition_and_routing_witness :
  Problem.is_feasible Examples.serial [[]; [2; 1]; []] = true
  <-> length [[]; [2; 1]; []] = Problem.m Examples.serial + 1
      /\ Permutation (concat [[]; [2; 1]; []]) (seq 1 (Problem.n Examples.serial))
      /\ (forall i, In i (lane [[]; [2; 1]; []] 0) ->
                    Problem.technology Examples.serial i = REMOTE)
      /\ (forall l i, 1 <= l -> In i (lane [[]; [2; 1]; []] l) ->
                      Problem.technology Examples.serial i = MANUAL).
Proof.
  apply (is_feasible_is_partition_and_routing Examples.serial [[]; [2; 1]; []]).
  - exact serial_well_formed.
  - exact serial_p_nonnegative.
Defined.

(** ** The moves and the scan *)

Lemma In_assign {A : Type} (v : list A) (idx : nat) (x y : A) :
  In y (assign v idx x) -> y = x \/ In y v.
Proof.
  revert idx. induction v as [|a v IH]; intros idx H; [destruct H|].
  destruct idx as [|idx]; simpl in H.
  - destruct H as [<- | H]; [now left | right; now right].
  - destruct H as [<- | H]; [right; now left|].
    destruct (IH idx H) as [-> | H']; [now left | right; now right].
Qed.

Lemma assign_Permutation (v : list nat) (k x d : nat) :
  k < length v -> Permutation (x :: v) (nth k v d :: assign v k x).
Proof.
  revert k. induction v as [|a v IH]; intros k Hk; simpl in Hk; [lia|].
  destruct k as [|k]; simpl.
  - apply perm_swap.
  - rewrite perm_swap. rewrite (IH k) by lia. apply perm_swap.
Qed.

Lemma assign_swap_Permutation (v : list nat) (idx1 idx2 d : nat) :
  idx1 < idx2 -> idx2 < length v ->
  Permutation v (assign (assign v idx1 (nth idx2 v d)) idx2 (nth idx1 v d)).
Proof.
  revert idx1 idx2. induction v as [|a v IH]; intros idx1 idx2 H12 H2; simpl in H2; [lia|].
  destruct idx2 as [|idx2]; [lia|].
  destruct idx1 as [|idx1]; simpl.
  - apply assign_Permutation. lia.
  - apply perm_skip. apply IH; lia.
Qed.

Lemma assign_comm {A : Type} (v : list A) (i j : nat) (x y : A) :
  i <> j -> assign (assign v i x) j y = assign (assign v j y) i x.
Proof.
  revert i j. induction v as [|a v IH]; intros i j Hij; [reflexivity|].
  destruct i as [|i], j as [|j]; simpl; try reflexivity; [lia|].
  f_equal. apply IH. lia.
Qed.

Lemma lane_nonempty_bound (schedule : Schedule) (l k : nat) :
  k < length (lane schedule l) -> l < length schedule.
Proof.
  intro Hk. destruct (Nat.lt_ge_cases l (length schedule)) as [H | H]; [exact H|].
  unfold lane in Hk. rewrite nth_overflow in Hk by exact H. simpl in Hk. lia.
Qed.

(** Replacing the contents of two lanes by a rearrangement of them. *)
Lemma concat_two_lanes (schedule : Schedule) (l1 l2 : nat) (v1 v2 : list nat) :
  l1 <> l2 -> l1 < length schedule -> l2 < length schedule ->
  Permutation (lane schedule l1 ++ lane schedule l2) (v1 ++ v2) ->
  Permutation (concat schedule) (concat (set_lane (set_lane schedule l1 v1) l2 v2)).
Proof.
  intros Hne H1 H2 Hperm.
  assert (H2' : l2 < length (set_lane schedule l1 v1)) by now rewrite set_lane_length.
  assert (H1' : l1 < length (set_lane schedule l2 [])) by now rewrite set_lane_length.
  rewrite <- (concat_set_lane _ l2 v2 H2').
  replace (set_lane (set_lane schedule l1 v1) l2 [])
    with (set_lane (set_lane schedule l2 []) l1 v1)
    by (unfold set_lane; apply assign_comm; congruence).
  rewrite <- (concat_set_lane _ l1 v1 H1').
  rewrite <- (concat_lane schedule l2 H2).
  rewrite <- (concat_lane (set_lane schedule l2 []) l1 H1').
  rewrite (lane_set_lane_other schedule l2 l1 []) by exact Hne.
  rewrite !app_assoc. apply Permutation_app_tail.
  rewrite (Permutation_app_comm v2 v1).
  rewrite (Permutation_app_comm (lane schedule l2) (lane schedule l1)).
  exact Hperm.
Qed.

Lemma exchange_neighbors_family (problem : Problem.t) (start_schedule nb : Schedule) :
  In nb (Exchange.neighbors problem start_schedule) <->
  exists l idx1 idx2,
    l <= Problem.m problem
    /\ idx1 < idx2 /\ idx2 < length (lane start_schedule l)
    /\ nb = set_lane start_schedule l
              (assign (assign (lane start_schedule l) idx1
                         (nth idx2 (lane start_schedule l) 0))
                 idx2 (nth idx1 (lane start_schedule l) 0)).
Proof.
  unfold Exchange.neighbors. rewrite in_flat_map. split.
  - intros (l & Hl & H). apply in_seq in Hl.
    destruct (2 <=? length (lane start_schedule l)) eqn:E; [|destruct H].
    apply Nat.leb_le in E.
    apply in_flat_map in H. destruct H as (i & Hi & H). apply in_seq in Hi.
    apply in_flat_map in H. destruct H as (j & Hj & H). apply in_seq in Hj.
    destruct H as [<- | []].
    exists l, i, j. split; [lia|]. split; [lia|]. split; [lia|]. reflexivity.
  - intros (l & i & j & Hl & Hij & Hj & ->).
    exists l. split; [apply in_seq; lia|].
    assert (E : (2 <=? length (lane start_schedule l)) = true) by (apply Nat.leb_le; lia).
    rewrite E.
    apply in_flat_map. exists i. split; [apply in_seq; lia|].
    apply in_flat_map. exists j. split; [apply in_seq; lia|].
    now left.
Qed.

Lemma reassignment_neighbors_family (problem : Problem.t) (start_schedule nb : Schedule) :
  In nb (Reassignment.neighbors problem start_schedule) <->
  exists l_origin idx_origin l_target idx_target,
    1 <= l_origin <= Problem.m problem
    /\ idx_origin < length (lane start_schedule l_origin)
    /\ 1 <= l_target <= Problem.m problem
    /\ l_target <> l_origin
    /\ idx_target <= length (lane start_schedule l_target)
    /\ nb = set_lane
              (set_lane start_schedule l_origin
                 (erase (lane start_schedule l_origin) idx_origin))
              l_target
              (insert_at
                 (lane (set_lane start_schedule l_origin
                          (erase (lane start_schedule l_origin) idx_origin)) l_target)
                 idx_target (nth idx_origin (lane start_schedule l_origin) 0)).
Proof.
  unfold Reassignment.neighbors. rewrite in_flat_map. split.
  - intros (lo & Hlo & H). apply in_seq in Hlo.
    apply in_flat_map in H. destruct H as (io & Hio & H). apply in_seq in Hio.
    apply in_flat_map in H. destruct H as (lt & Hlt & H). apply in_seq in Hlt.
    destruct (lt =? lo) eqn:E; simpl in H; [destruct H|].
    apply Nat.eqb_neq in E.
    apply in_flat_map in H. destruct H as (it & Hit & H). apply in_seq in Hit.
    destruct H as [<- | []].
    exists lo, io, lt, it.
    split; [lia|]. split; [lia|]. split; [lia|]. split; [exact E|].
    split; [lia|]. reflexivity.
  - intros (lo & io & lt & it & Hlo & Hio & Hlt & Hne & Hit & ->).
    exists lo. split; [apply in_seq; lia|].
    apply in_flat_map. exists io. split; [apply in_seq; lia|].
    apply in_flat_map. exists lt. split; [apply in_seq; lia|].
    apply Nat.eqb_neq in Hne. rewrite Hne. simpl.
    apply in_flat_map. exists it. split; [apply in_seq; lia|].
    now left.
Qed.

Lemma concat_lanes_Permutation (a b : Schedule) :
  length b = length a ->
  (forall l, Permutation (lane a l) (lane b l)) ->
  Permutation (concat a) (concat b).
Proof.
  revert b. induction a as [|x a IH]; intros b Hlen H.
  - destruct b; [reflexivity | discriminate].
  - destruct b as [|y b]; [discriminate|]. simpl.
    apply Permutation_app.
    + exact (H 0).
    + apply IH; [simpl in Hlen; lia|]. intro l. exact (H (S l)).
Qed.

Lemma reordered_rearranged (schedule nb : Schedule) :
  reordered schedule nb -> rearranged schedule nb.
Proof.
  intros [Hlen H]. split; [exact Hlen|]. split; [exact (H 0)|].
  split; [now apply concat_lanes_Permutation|].
  intros l i Hl Hi. exists l. split; [exact Hl|].
  apply (Permutation_in _ (Permutation_sym (H l))). exact Hi.
Qed.

Lemma redistributed_rearranged (schedule nb : Schedule) :
  redistributed schedule nb -> rearranged schedule nb.
Proof.
  intros (Hlen & H0 & Hperm & Hfrom).
  split; [exact Hlen|]. split; [now rewrite H0|]. split; assumption.
Qed.

Lemma rearranged_refl (schedule : Schedule) : rearranged schedule schedule.
Proof.
  split; [reflexivity|]. split; [reflexivity|]. split; [reflexivity|].
  intros l i Hl Hi. now exists l.
Qed.

Lemma rearranged_trans (a b c : Schedule) :
  rearranged a b -> rearranged b c -> rearranged a c.
Proof.
  intros (L1 & Z1 & P1 & F1) (L2 & Z2 & P2 & F2).
  split; [congruence|]. split; [now rewrite Z1|]. split; [now rewrite P1|].
  intros l i Hl Hi. destruct (F2 l i Hl Hi) as (l' & Hl' & Hi').
  exact (F1 l' i Hl' Hi').
Qed.

Lemma rearranged_partitioned (problem : Problem.t) (schedule nb : Schedule) :
  rearranged schedule nb -> partitioned problem schedule -> partitioned problem nb.
Proof.
  intros (Hlen & H0 & Hperm & Hfrom) (Hl & Hp & Hrem & Hman).
  split; [congruence|]. split; [now rewrite <- Hperm|]. split.
  - intros i Hi. apply Hrem. apply (Permutation_in _ (Permutation_sym H0)). exact Hi.
  - intros l i Hl1 Hi. destruct (Hfrom l i Hl1 Hi) as (l' & Hl' & Hi').
    exact (Hman l' i Hl' Hi').
Qed.

Lemma one_lane_reordered (schedule : Schedule) (l : nat) (v : list nat) :
  l < length schedule ->
  Permutation (lane schedule l) v ->
  reordered schedule (set_lane schedule l v).
Proof.
  intros Hl Hperm. split; [apply set_lane_length|].
  intro k. destruct (Nat.eq_dec k l) as [-> | Hne].
  - now rewrite lane_set_lane_same.
  - now rewrite lane_set_lane_other.
Qed.

Lemma two_lanes_redistributed (schedule : Schedule) (l1 l2 : nat) (v1 v2 : list nat) :
  1 <= l1 -> 1 <= l2 -> l1 <> l2 ->
  l1 < length schedule -> l2 < length schedule ->
  Permutation (lane schedule l1 ++ lane schedule l2) (v1 ++ v2) ->
  redistributed schedule (set_lane (set_lane schedule l1 v1) l2 v2).
Proof.
  intros H1 H2 Hne Hb1 Hb2 Hperm.
  assert (Hb2' : l2 < length (set_lane schedule l1 v1)) by now rewrite set_lane_length.
  split; [now rewrite !set_lane_length|].
  split; [rewrite !lane_set_lane_other by lia; reflexivity|].
  split; [now apply concat_two_lanes|].
  assert (Hfrom : forall i, In i (v1 ++ v2) ->
                            exists l', 1 <= l' /\ In i (lane schedule l')).
  { intros i Hi. apply (Permutation_in _ (Permutation_sym Hperm)) in Hi.
    apply in_app_or in Hi. destruct Hi as [Hi | Hi]; [now exists l1 | now exists l2]. }
  intros l i Hl Hi. destruct (Nat.eq_dec l l2) as [-> | Hn2].
  - rewrite lane_set_lane_same in Hi by exact Hb2'.
    apply Hfrom. apply in_or_app. now right.
  - rewrite lane_set_lane_other in Hi by exact Hn2.
    destruct (Nat.eq_dec l l1) as [-> | Hn1].
    + rewrite lane_set_lane_same in Hi by exact Hb1.
      apply Hfrom. apply in_or_app. now left.
    + rewrite lane_set_lane_other in Hi by exact Hn1. now exists l.
Qed.

Lemma shift_neighbor_reordered (problem : Problem.t) (start_schedule nb : Schedule) :
  In nb (Shift.neighbors problem start_schedule) -> reordered start_schedule nb.
Proof.
  intro H. apply shift_neighbors_family in H.
  destruct H as (l & o & t & Hl & Ho & Ht & Hne & ->).
  apply one_lane_reordered; [exact (lane_nonempty_bound _ _ _ Ho)|].
  rewrite insert_at_Permutation. now apply erase_Permutation.
Qed.

Lemma exchange_neighbor_reordered (problem : Problem.t) (start_schedule nb : Schedule) :
  In nb (Exchange.neighbors problem start_schedule) -> reordered start_schedule nb.
Proof.
  intro H. apply exchange_neighbors_family in H.
  destruct H as (l & i & j & Hl & Hij & Hj & ->).
  apply one_lane_reordered; [exact (lane_nonempty_bound _ _ _ Hj)|].
  now apply assign_swap_Permutation.
Qed.

Lemma reassignment_neighbor_redistributed (problem : Problem.t)
      (start_schedule nb : Schedule) :
  length start_schedule = Problem.m problem + 1 ->
  In nb (Reassignment.neighbors problem start_schedule) ->
  redistributed start_schedule nb.
Proof.
  intros Hlen H. apply reassignment_neighbors_family in H.
  destruct H as (lo & io & lt & it & Hlo & Hio & Hlt & Hne & Hit & ->).
  rewrite (lane_set_lane_other start_schedule lo lt) by exact Hne.
  apply two_lanes_redistributed; try lia.
  rewrite insert_at_Permutation. rewrite <- Permutation_middle.
  rewrite (erase_Permutation (lane start_schedule lo) io 0 Hio) at 1.
  reflexivity.
Qed.

Lemma direct_swap_neighbor_redistributed (problem : Problem.t)
      (start_schedule nb : Schedule) :
  In nb (DirectSwap.neighbors problem start_schedule) ->
  redistributed start_schedule nb.
Proof.
  intro H. apply direct_swap_neighbors_family in H.
  destruct H as (l1 & l2 & i1 & i2 & H1 & H12 & H2 & Hi1 & Hi2 & ->).
  rewrite (lane_set_lane_other start_schedule l1 l2) by lia.
  apply two_lanes_redistributed; try lia.
  - exact (lane_nonempty_bound _ _ _ Hi1).
  - exact (lane_nonempty_bound _ _ _ Hi2).
  - apply (Permutation_cons_inv (a := nth i1 (lane start_schedule l1) 0)).
    apply (Permutation_cons_inv (a := nth i2 (lane start_schedule l2) 0)).
    transitivity ((nth i2 (lane start_schedule l2) 0 :: lane start_schedule l1)
                  ++ (nth i1 (lane start_schedule l1) 0 :: lane start_schedule l2)).
    + simpl. apply perm_skip. apply Permutation_middle.
    + rewrite (assign_Permutation (lane start_schedule l1) i1
                 (nth i2 (lane start_schedule l2) 0) 0 Hi1).
      rewrite (assign_Permutation (lane start_schedule l2) i2
                 (nth i1 (lane start_schedule l1) 0) 0 Hi2).
      simpl. symmetry. rewrite perm_swap. apply perm_skip. apply Permutation_middle.
Qed.

Lemma less2_finite (x b : double * double) :
  common.less2 x b = true -> is_finite (fst x) = true.
Proof.
  destruct x as [x1 x2], b as [b1 b2]. rewrite less2_lexicographic.
  intro H. apply orb_true_iff in H. destruct H as [H | H].
  - destruct (less_finite_left x1 b1 H) as [q ->]. reflexivity.
  - apply andb_true_iff in H. destruct H as [H _].
    destruct x1 as [q|]; [reflexivity|]. destruct b1; discriminate.
Qed.

Lemma scan_result (problem : Problem.t) (neighbors : list Schedule) (e : entry) :
  scan problem neighbors e = e
  \/ exists nb, In nb neighbors
                /\ scan problem neighbors e = (nb, evaluate problem nb)
                /\ is_finite (fst (evaluate problem nb)) = true.
Proof.
  destruct (scan_cases problem neighbors e) as [[H _] | (pre & nb & post & Hn & Hs & Hl & _)].
  - now left.
  - right. exists nb. split; [rewrite Hn; apply in_or_app; right; now left|].
    split; [exact Hs|]. exact (less2_finite _ _ Hl).
Qed.

Lemma scan_invariant (problem : Problem.t) (P : entry -> Prop)
      (neighbors : list Schedule) (e : entry) :
  P e ->
  (forall nb, In nb neighbors -> is_finite (fst (evaluate problem nb)) = true ->
              P (nb, evaluate problem nb)) ->
  P (scan problem neighbors e).
Proof.
  intros He Hnb.
  destruct (scan_result problem neighbors e) as [-> | (nb & Hin & -> & Hfin)].
  - exact He.
  - now apply Hnb.
Qed.

Lemma neighborhoods_cases (N : Neighborhood) :
  In N ILS.neighborhoods ->
  N = Shift.neighborhood \/ N = Exchange.neighborhood
  \/ N = Reassignment.neighborhood \/ N = DirectSwap.neighborhood
  \/ N = Swap.neighborhood.
Proof.
  intro H. simpl in H.
  destruct H as [<- | [<- | [<- | [<- | [<- | []]]]]]; auto.
Qed.

Lemma best_is_scan (N : Neighborhood) :
  In N ILS.neighborhoods ->
  exists neighbors : Problem.t -> Schedule -> list Schedule,
    (forall problem e, best N problem e = scan problem (neighbors problem (fst e)) e)
    /\ (forall problem start_schedule nb,
           length start_schedule = Problem.m problem + 1 ->
           In nb (neighbors problem start_schedule) -> rearranged start_schedule nb).
Proof.
  intro H. apply neighborhoods_cases in H.
  destruct H as [-> | [-> | [-> | [-> | ->]]]].
  - exists Shift.neighbors. split; [reflexivity|]. intros problem s nb _ Hin.
    apply reordered_rearranged. exact (shift_neighbor_reordered problem s nb Hin).
  - exists Exchange.neighbors. split; [reflexivity|]. intros problem s nb _ Hin.
    apply reordered_rearranged. exact (exchange_neighbor_reordered problem s nb Hin).
  - exists Reassignment.neighbors. split; [reflexivity|]. intros problem s nb Hlen Hin.
    apply redistributed_rearranged.
    exact (reassignment_neighbor_redistributed problem s nb Hlen Hin).
  - exists DirectSwap.neighbors. split; [reflexivity|]. intros problem s nb _ Hin.
    apply redistributed_rearranged.
    exact (direct_swap_neighbor_redistributed problem s nb Hin).
  - exists DirectSwap.neighbors. split; [reflexivity|]. intros problem s nb _ Hin.
    apply redistributed_rearranged.
    exact (direct_swap_neighbor_redistributed problem s nb Hin).
Qed.

(** What every [best] of the five neighborhoods keeps of an entry whose
    schedule has m + 1 lanes. *)
Lemma best_kept (problem : Problem.t) (N : Neighborhood) (e : entry) :
  In N ILS.neighborhoods ->
  length (fst e) = Problem.m problem + 1 ->
  rearranged (fst e) (fst (best N problem e))
  /\ (evaluated problem e -> evaluated problem (best N problem e))
  /\ (finite_entry e = true -> finite_entry (best N problem e) = true).
Proof.
  intros HN Hlen. destruct (best_is_scan N HN) as (neighbors & Hbest & Hfam).
  rewrite Hbest.
  destruct (scan_result problem (neighbors problem (fst e)) e)
    as [-> | (nb & Hin & -> & Hfin)].
  - split; [apply rearranged_refl | split; auto].
  - split; [exact (Hfam problem (fst e) nb Hlen Hin)|].
    split; intros _; [reflexivity | exact Hfin].
Qed.

(** X6. Shift and Exchange never change the team of a maneuver: every
    lane of the schedule that [best] returns holds the operations of the
    same lane of the entry, in some order. *)
Theorem shift_exchange_reorder_within_lanes :
  forall (problem : Problem.t) (e : entry) (l : nat),
    Permutation (lane (fst e) l) (lane (fst (Shift.best problem e)) l)
    /\ Permutation (lane (fst e) l) (lane (fst (Exchange.best problem e)) l)
    /\ length (fst (Shift.best problem e)) = length (fst e)
    /\ length (fst (Exchange.best problem e)) = length (fst e).
Proof.
  intros problem e l.
  assert (Hs : reordered (fst e) (fst (Shift.best problem e))).
  { unfold Shift.best.
    apply (scan_invariant problem (fun b => reordered (fst e) (fst b))).
    - split; [reflexivity | intro; reflexivity].
    - intros nb Hin _. exact (shift_neighbor_reordered problem (fst e) nb Hin). }
  assert (Hx : reordered (fst e) (fst (Exchange.best problem e))).
  { unfold Exchange.best.
    apply (scan_invariant problem (fun b => reordered (fst e) (fst b))).
    - split; [reflexivity | intro; reflexivity].
    - intros nb Hin _. exact (exchange_neighbor_reordered problem (fst e) nb Hin). }
  destruct Hs as [Hs1 Hs2], Hx as [Hx1 Hx2]. auto.
Qed.

(** X7. Reassignment and DirectSwap leave the lane of the remote
    maneuvers as it is and move operations between the lanes of the
    teams only; the schedule they return has the same lanes and the same
    operations. *)
Theorem reassignment_direct_swap_keep_lane_0 :
  forall (problem : Problem.t) (e : entry),
    length (fst e) = Problem.m problem + 1 ->
    redistributed (fst e) (fst (Reassignment.best problem e))
    /\ redistributed (fst e) (fst (DirectSwap.best problem e)).
Proof.
  intros problem e Hlen.
  assert (Hrefl : redistributed (fst e) (fst e)).
  { split; [reflexivity|]. split; [reflexivity|]. split; [reflexivity|].
    intros l i Hl Hi. now exists l. }
  split.
  - unfold Reassignment.best.
    apply (scan_invariant problem (fun b => redistributed (fst e) (fst b))).
    + exact Hrefl.
    + intros nb Hin _.
      exact (reassignment_neighbor_redistributed problem (fst e) nb Hlen Hin).
  - unfold DirectSwap.best.
    apply (scan_invariant problem (fun b => redistributed (fst e) (fst b))).
    + exact Hrefl.
    + intros nb Hin _.
      exact (direct_swap_neighbor_redistributed problem (fst e) nb Hin).
Qed.

Lemma reassignment_direct_swap_keep_lane_0_witness :
  redistributed (fst Examples.serial_start)
                (fst (Reassignment.best Examples.serial Examples.serial_start))
  /\ redistributed (fst Examples.serial_start)
                   (fst (DirectSwap.best Examples.serial Examples.serial_start)).
Proof.
  apply (reassignment_direct_swap_keep_lane_0 Examples.serial Examples.serial_start).
  reflexivity.
Defined.

(** X8. Each of the five neighborhoods of the ILS returns, from an entry
    whose schedule [is_feasible] accepts, a schedule that [is_feasible]
    accepts; the entry returned is the one given or a neighbor with its
    own evaluation and a finite makespan. *)
Theorem best_keeps_feasibility :
  forall (problem : Problem.t) (N : Neighborhood) (e : entry),
    well_formed problem ->
    (forall i, (0 <= Problem.p problem i)%Q) ->
    In N ILS.neighborhoods ->
    Problem.is_feasible problem (fst e) = true ->
    Problem.is_feasible problem (fst (best N problem e)) = true
    /\ (best N problem e = e
        \/ (snd (best N problem e) = evaluate problem (fst (best N problem e))
            /\ is_finite (fst (snd (best N problem e))) = true)).
Proof.
  intros problem N e Hwf Hp HN Hfeas.
  apply (is_feasible_partitioned problem (fst e) Hwf Hp) in Hfeas.
  split.
  - apply (is_feasible_partitioned problem _ Hwf Hp).
    apply (rearranged_partitioned problem (fst e)); [|exact Hfeas].
    apply (best_kept problem N e HN). apply Hfeas.
  - destruct (best_is_scan N HN) as (neighbors & Hbest & _). rewrite Hbest.
    destruct (scan_result problem (neighbors problem (fst e)) e)
      as [-> | (nb & Hin & -> & Hfin)]; [now left | right].
    split; [reflexivity | exact Hfin].
Qed.

Lemma best_keeps_feasibility_witness :
  Problem.is_feasible Examples.serial
    (fst (best Reassignment.neighborhood Examples.serial Examples.serial_start)) = true
  /\ (best Reassignment.neighborhood Examples.serial Examples.serial_start
      = Examples.serial_start
      \/ (snd (best Reassignment.neighborhood Examples.serial Examples.serial_start)
          = evaluate Examples.serial
              (fst (best Reassignment.neighborhood Examples.serial Examples.serial_start))
          /\ is_finite
               (fst (snd (best Reassignment.neighborhood Examples.serial
                            Examples.serial_start))) = true)).
Proof.
  apply (best_keeps_feasibility Examples.serial Reassignment.neighborhood
           Examples.serial_start).
  - exact serial_well_formed.
  - exact serial_p_nonnegative.
  - simpl. auto.
  - vm_compute. reflexivity.
Defined.

(** ** The local searches *)

Lemma standard_is_vnd (problem : Problem.t) (N : Neighborhood) :
  forall fuel e,
    local_search.standard fuel problem e N = local_search.vnd fuel problem e [N].
Proof.
  unfold local_search.vnd.
  induction fuel as [|fuel IH]; intro e; [reflexivity|].
  simpl. destruct (common.less2 _ _).
  - apply IH.
  - destruct fuel; reflexivity.
Qed.

Lemma standard_local_optimum (problem : Problem.t) (N : Neighborhood) :
  forall fuel e r,
    local_search.standard fuel problem e N = Some r ->
    common.less2 (snd (best N problem r)) (snd r) = false.
Proof.
  induction fuel as [|fuel IH]; intros e r H; [discriminate|].
  simpl in H. destruct (common.less2 _ _) eqn:E.
  - exact (IH _ _ H).
  - injection H as <-. exact E.
Qed.

(** X9. [standard] with a neighborhood is [vnd] with the list of that
    neighborhood alone, and what it returns is a local optimum of it. *)
Theorem standard_is_vnd_of_one_neighborhood :
  forall (problem : Problem.t) (N : Neighborhood) (fuel : nat) (e : entry),
    local_search.standard fuel problem e N = local_search.vnd fuel problem e [N]
    /\ forall r, local_search.standard fuel problem e N = Some r ->
                 common.less2 (snd (best N problem r)) (snd r) = false.
Proof.
  intros problem N fuel e. split.
  - apply standard_is_vnd.
  - intro r. apply standard_local_optimum.
Qed.

Lemma vnd_loop_fixed (problem : Problem.t) (neighborhoods : list Neighborhood)
      (e : entry) :
  forall k fuel,
    Forall (fun N => common.less2 (snd (best N problem e)) (snd e) = false) k ->
    length k <= fuel ->
    local_search.vnd_loop fuel problem neighborhoods k e = Some e.
Proof.
  induction k as [|N k IH]; intros fuel Hk Hfuel.
  - destruct fuel; reflexivity.
  - destruct fuel as [|fuel]; [simpl in Hfuel; lia|].
    inversion Hk as [|? ? HN Hk']; subst.
    simpl. rewrite HN. apply IH; [exact Hk' | simpl in Hfuel; lia].
Qed.

(** The generator after [k] draws. *)
Lemma rvnd_loop_fixed (problem : Problem.t) (neighborhoods : list Neighborhood)
      (e : entry) :
  forall fuel available generator,
    (forall N, In N available ->
               common.less2 (snd (best N problem e)) (snd e) = false) ->
    length available <= fuel ->
    local_search.rvnd_loop fuel problem neighborhoods available e generator
    = Some (e, {| outputs := outputs generator;
                  position := position generator + length available |}).
Proof.
  induction fuel as [|fuel IH]; intros available generator Hk Hfuel.
  - destruct available; [|simpl in Hfuel; lia].
    simpl. destruct generator. simpl. now rewrite Nat.add_0_r.
  - destruct available as [|d rest].
    + simpl. destruct generator. simpl. now rewrite Nat.add_0_r.
    + rewrite rvnd_loop_step. cbv zeta.
      assert (Hidx : fst (draw generator) mod length (d :: rest) < length (d :: rest)).
      { apply Nat.mod_upper_bound. simpl. lia. }
      rewrite (Hk (nth (fst (draw generator) mod length (d :: rest)) (d :: rest) d))
        by (apply nth_In; exact Hidx).
      pose proof (remove_at_length (d :: rest) _ Hidx) as Hlen.
      set (idx := fst (draw generator) mod length (d :: rest)) in *.
      rewrite IH.
      * simpl outputs. simpl position. f_equal. f_equal. f_equal. lia.
      * intros N HN. apply Hk. exact (remove_at_subset _ _ _ HN).
      * lia.
Qed.

(** X10. A local optimum of every neighborhood of the list is a fixed
    point of both searches: [vnd] returns it after one pass over the
    list, and [rvnd] after one draw per neighborhood. *)
Theorem local_optimum_is_fixed_point :
  forall (problem : Problem.t) (neighborhoods : list Neighborhood) (e : entry)
         (generator : mt19937),
    local_optimum problem neighborhoods e ->
    local_search.vnd (length neighborhoods) problem e neighborhoods = Some e
    /\ local_search.rvnd (length neighborhoods) problem e neighborhoods generator
       = Some (e, {| outputs := outputs generator;
                     position := position generator + length neighborhoods |}).
Proof.
  intros problem neighborhoods e generator Hopt. split.
  - apply vnd_loop_fixed; [exact Hopt | lia].
  - apply rvnd_loop_fixed; [|lia].
    intros N HN. unfold local_optimum in Hopt. rewrite Forall_forall in Hopt.
    exact (Hopt N HN).
Qed.

Lemma serial_start_local_optimum :
  local_optimum Examples.serial ILS.neighborhoods Examples.serial_start.
Proof.
  unfold local_optimum, ILS.neighborhoods.
  repeat (constructor; [vm_compute; reflexivity|]). constructor.
Qed.

Lemma local_optimum_is_fixed_point_witness :
  local_search.vnd 5 Examples.serial Examples.serial_start ILS.neighborhoods
  = Some Examples.serial_start
  /\ local_search.rvnd 5 Examples.serial Examples.serial_start ILS.neighborhoods
       Examples.counting
     = Some (Examples.serial_start,
             {| outputs := outputs Examples.counting;
                position := position Examples.counting + 5 |}).
Proof.
  apply (local_optimum_is_fixed_point Examples.serial ILS.neighborhoods
           Examples.serial_start Examples.counting).
  exact serial_start_local_optimum.
Defined.

(** What the searches keep of an entry. *)
Section SearchInvariant.
Variable problem : Problem.t.
Variable neighborhoods : list Neighborhood.
Variable P : entry -> Prop.
Hypothesis best_keeps :
  forall N e, In N neighborhoods -> P e -> P (best N problem e).

Lemma vnd_loop_invariant :
  forall fuel k incumbent r,
    (forall N, In N k -> In N neighborhoods) ->
    P incumbent ->
    local_search.vnd_loop fuel problem neighborhoods k incumbent = Some r ->
    P r.
Proof.
  induction fuel as [|fuel IH]; intros k incumbent r Hk HP Hrun.
  - destruct k; [|discriminate]. injection Hrun as <-. exact HP.
  - destruct k as [|N k]; [injection Hrun as <-; exact HP|].
    simpl in Hrun. destruct (common.less2 _ _).
    + apply (IH neighborhoods (best N problem incumbent) r (fun N' H => H));
        [|exact Hrun].
      apply best_keeps; [apply Hk; now left | exact HP].
    + apply (IH k incumbent r); [|exact HP | exact Hrun].
      intros N' H. apply Hk. now right.
Qed.

Lemma rvnd_loop_invariant :
  forall fuel available incumbent generator r generator',
    (forall N, In N available -> In N neighborhoods) ->
    P incumbent ->
    local_search.rvnd_loop fuel problem neighborhoods available incumbent generator
    = Some (r, generator') ->
    P r.
Proof.
  induction fuel as [|fuel IH]; intros available incumbent generator r generator' Hk HP Hrun.
  - destruct available; [|discriminate]. injection Hrun as <- _. exact HP.
  - destruct available as [|d rest]; [injection Hrun as <- _; exact HP|].
    rewrite rvnd_loop_step in Hrun. cbv zeta in Hrun.
    assert (Hidx : fst (draw generator) mod length (d :: rest) < length (d :: rest)).
    { apply Nat.mod_upper_bound. simpl. lia. }
    destruct (common.less2 _ _).
    + eapply (IH neighborhoods _ _ r generator' (fun N H => H)); [|exact Hrun].
      apply best_keeps; [|exact HP]. apply Hk. apply nth_In. exact Hidx.
    + eapply (IH _ incumbent _ r generator'); [|exact HP | exact Hrun].
      intros N HN. apply Hk. exact (remove_at_subset _ _ _ HN).
Qed.

End SearchInvariant.

(** An entry of the search: a schedule that [is_feasible] accepts, with
    its own evaluation and a finite makespan. *)
Lemma best_keeps_sound (problem : Problem.t) :
  well_formed problem ->
  (forall i, (0 <= Problem.p problem i)%Q) ->
  forall N e, In N ILS.neighborhoods ->
    sound_entry problem e -> sound_entry problem (best N problem e).
Proof.
  intros Hwf Hp N e HN (Hfeas & Heval & Hfin).
  pose proof (proj1 (is_feasible_partitioned problem (fst e) Hwf Hp) Hfeas) as Hpart.
  destruct (best_kept problem N e HN (proj1 Hpart)) as (Hre & He & Hf).
  split; [|split; auto].
  apply (is_feasible_partitioned problem _ Hwf Hp).
  exact (rearranged_partitioned problem _ _ Hre Hpart).
Qed.

(** X11. The local searches of the ILS keep what they are given: from a
    schedule that [is_feasible] accepts, carried with its own evaluation
    and a finite makespan, [vnd], [rvnd] and [standard] over the
    neighborhoods of the ILS return such an entry again. *)
Theorem local_search_keeps_feasibility :
  forall (problem : Problem.t) (e : entry),
    well_formed problem ->
    (forall i, (0 <= Problem.p problem i)%Q) ->
    sound_entry problem e ->
    (forall fuel r,
        local_search.vnd fuel problem e ILS.neighborhoods = Some r ->
        sound_entry problem r)
    /\ (forall fuel generator r generator',
           local_search.rvnd fuel problem e ILS.neighborhoods generator
           = Some (r, generator') ->
           sound_entry problem r)
    /\ (forall fuel N r,
           In N ILS.neighborhoods ->
           local_search.standard fuel problem e N = Some r ->
           sound_entry problem r).
Proof.
  intros problem e Hwf Hp He. split; [|split].
  - intros fuel r Hrun.
    apply (vnd_loop_invariant problem ILS.neighborhoods (sound_entry problem)
             (best_keeps_sound problem Hwf Hp) fuel ILS.neighborhoods e r
             (fun N H => H) He Hrun).
  - intros fuel generator r generator' Hrun.
    apply (rvnd_loop_invariant problem ILS.neighborhoods (sound_entry problem)
             (best_keeps_sound problem Hwf Hp) fuel ILS.neighborhoods e generator
             r generator' (fun N H => H) He Hrun).
  - intros fuel N r HN Hrun. rewrite standard_is_vnd in Hrun.
    apply (vnd_loop_invariant problem [N] (sound_entry problem)) with
      (fuel := fuel) (k := [N]) (incumbent := e); auto.
    intros N' e' [<- | []] He'. exact (best_keeps_sound problem Hwf Hp N e' HN He').
Qed.

Lemma serial_start_sound : sound_entry Examples.serial Examples.serial_start.
Proof.
  split; [vm_compute; reflexivity|]. split; [reflexivity | vm_compute; reflexivity].
Qed.

Lemma local_search_keeps_feasibility_witness :
  local_search.vnd 5 Examples.serial Examples.serial_start ILS.neighborhoods
  = Some Examples.serial_start
  /\ sound_entry Examples.serial Examples.serial_start.
Proof.
  split; [vm_compute; reflexivity|].
  apply (proj1 (local_search_keeps_feasibility Examples.serial Examples.serial_start
                  serial_well_formed serial_p_nonnegative serial_start_sound)
           5 Examples.serial_start).
  vm_compute. reflexivity.
Defined.

(** ** The simulator never stalls on an executable schedule *)

Lemma visit_lane_idle (problem : Problem.t) (schedule : Schedule)
      (st : Problem.sim) (l : nat) :
  ready schedule st l = false -> Problem.visit_lane problem schedule st l = st.
Proof.
  unfold ready, Problem.visit_lane. intro H.
  destruct (Problem.index st l <? length (lane schedule l)); [|reflexivity].
  simpl in H. now rewrite H.
Qed.

Lemma visit_lane_serves (problem : Problem.t) (schedule : Schedule)
      (st : Problem.sim) (l : nat) :
  ready schedule st l = true ->
  Problem.feasibility (Problem.visit_lane problem schedule st l) = true
  /\ Problem.count (Problem.visit_lane problem schedule st l) = Problem.count st + 1
  /\ Problem.index (Problem.visit_lane problem schedule st l)
     = upd (Problem.index st) l (Problem.index st l + 1).
Proof.
  unfold ready, Problem.visit_lane. intro H. apply andb_true_iff in H.
  destruct H as [H1 H2]. rewrite H1, H2. simpl. auto.
Qed.

Lemma list_sum_upd (f : nat -> nat) (l : nat) (ls : list nat) :
  NoDup ls ->
  list_sum (map (upd f l (f l + 1)) ls)
  = list_sum (map f ls) + (if in_dec Nat.eq_dec l ls then 1 else 0).
Proof.
  intro Hnd. induction Hnd as [|x ls Hx Hnd IH]; [reflexivity|].
  simpl map. simpl list_sum. rewrite IH.
  destruct (Nat.eq_dec x l) as [-> | Hne].
  - rewrite upd_same.
    destruct (in_dec Nat.eq_dec l ls) as [Hin | _]; [contradiction|].
    destruct (in_dec Nat.eq_dec l (l :: ls)) as [_ | Hout]; [lia|].
    exfalso. apply Hout. now left.
  - rewrite upd_other by exact Hne.
    destruct (in_dec Nat.eq_dec l ls) as [Hin | Hout];
      destruct (in_dec Nat.eq_dec l (x :: ls)) as [Hin' | Hout']; try lia.
    + exfalso. apply Hout'. now right.
    + exfalso. destruct Hin' as [E | Hin']; [congruence | contradiction].
Qed.

Lemma visit_lane_served (problem : Problem.t) (schedule : Schedule)
      (st : Problem.sim) (l : nat) :
  l <= Problem.m problem ->
  Problem.count st = served problem st ->
  Problem.count (Problem.visit_lane problem schedule st l)
  = served problem (Problem.visit_lane problem schedule st l).
Proof.
  intros Hl Hc. destruct (ready schedule st l) eqn:E.
  - destruct (visit_lane_serves problem schedule st l E) as (_ & Hcount & Hindex).
    unfold served. rewrite Hcount, Hindex, list_sum_upd by apply seq_NoDup.
    destruct (in_dec Nat.eq_dec l (seq 0 (Problem.m problem + 1))) as [_ | Hout].
    + unfold served in Hc. lia.
    + exfalso. apply Hout. apply in_seq. lia.
  - now rewrite visit_lane_idle.
Qed.

Lemma round_served (problem : Problem.t) (schedule : Schedule) (st : Problem.sim) :
  Problem.count st = served problem st ->
  Problem.count (Problem.round problem schedule st)
  = served problem (Problem.round problem schedule st).
Proof.
  intro Hc. unfold Problem.round.
  assert (H0 : Problem.count
                 {| Problem.st_t := Problem.st_t st; Problem.index := Problem.index st;
                    Problem.location := Problem.location st;
                    Problem.pendings := Problem.pendings st;
                    Problem.count := Problem.count st; Problem.feasibility := false |}
               = served problem
                   {| Problem.st_t := Problem.st_t st; Problem.index := Problem.index st;
                      Problem.location := Problem.location st;
                      Problem.pendings := Problem.pendings st;
                      Problem.count := Problem.count st; Problem.feasibility := false |})
    by exact Hc.
  revert H0.
  generalize {| Problem.st_t := Problem.st_t st; Problem.index := Problem.index st;
                Problem.location := Problem.location st;
                Problem.pendings := Problem.pendings st;
                Problem.count := Problem.count st; Problem.feasibility := false |}.
  assert (Hls : forall l, In l (seq 0 (Problem.m problem + 1)) -> l <= Problem.m problem)
    by (intros l H; apply in_seq in H; lia).
  revert Hls. generalize (seq 0 (Problem.m problem + 1)) as ls.
  induction ls as [|l ls IH]; intros Hls s0 H0; simpl; [exact H0|].
  apply IH; [intros; apply Hls; now right|].
  apply visit_lane_served; [apply Hls; now left | exact H0].
Qed.

Lemma rounds_served (problem : Problem.t) (schedule : Schedule) (fuel : nat) :
  forall st,
    Problem.count st = served problem st ->
    Problem.count (Problem.rounds problem schedule fuel st)
    = served problem (Problem.rounds problem schedule fuel st).
Proof.
  induction fuel as [|fuel IH]; intros st Hc; simpl; [exact Hc|].
  destruct ((Problem.count st <? Problem.n problem) && Problem.feasibility st);
    [|exact Hc].
  apply IH. now apply round_served.
Qed.

(** A pass over the lanes that leaves [feasibility] false has served no
    lane: none was ready. *)
Lemma lanes_stalled (problem : Problem.t) (schedule : Schedule) (ls : list nat) :
  forall st,
    Problem.feasibility (fold_left (Problem.visit_lane problem schedule) ls st) = false ->
    fold_left (Problem.visit_lane problem schedule) ls st = st
    /\ forall l, In l ls -> ready schedule st l = false.
Proof.
  induction ls as [|l ls IH]; intros st H; simpl in *.
  - split; [reflexivity | intros l []].
  - destruct (IH _ H) as [Hsame Hidle].
    rewrite Hsame in H.
    destruct (ready schedule st l) eqn:E.
    + destruct (visit_lane_serves problem schedule st l E) as [Habs _]. congruence.
    + rewrite (visit_lane_idle problem schedule st l E) in Hsame, Hidle.
      rewrite (visit_lane_idle problem schedule st l E).
      split; [exact Hsame|]. intros l' [<- | Hl']; [exact E | now apply Hidle].
Qed.

Lemma round_stalled (problem : Problem.t) (schedule : Schedule) (st : Problem.sim) :
  Problem.feasibility (Problem.round problem schedule st) = false ->
  forall l, l <= Problem.m problem ->
            ready schedule (Problem.round problem schedule st) l = false.
Proof.
  unfold Problem.round. intros H l Hl.
  destruct (lanes_stalled problem schedule _ _ H) as [Hsame Hidle].
  rewrite Hsame. apply Hidle. apply in_seq. lia.
Qed.

Lemma rounds_stalled (problem : Problem.t) (schedule : Schedule) (fuel : nat) :
  forall st,
    (Problem.feasibility st = false ->
     forall l, l <= Problem.m problem -> ready schedule st l = false) ->
    Problem.feasibility (Problem.rounds problem schedule fuel st) = false ->
    forall l, l <= Problem.m problem ->
              ready schedule (Problem.rounds problem schedule fuel st) l = false.
Proof.
  induction fuel as [|fuel IH]; intros st Hst; simpl; [exact Hst|].
  destruct ((Problem.count st <? Problem.n problem) && Problem.feasibility st);
    [|exact Hst].
  apply IH. apply round_stalled.
Qed.

Lemma length_scheduled_operations (problem : Problem.t) (schedule : Schedule) :
  length (scheduled_operations problem schedule)
  = list_sum (map (fun l => length (lane schedule l)) (seq 0 (Problem.m problem + 1))).
Proof.
  unfold scheduled_operations.
  generalize (seq 0 (Problem.m problem + 1)) as ls.
  induction ls as [|l ls IH]; [reflexivity|].
  simpl. rewrite length_app, IH. reflexivity.
Qed.

Lemma list_sum_tight (f g : nat -> nat) (ls : list nat) :
  (forall x, In x ls -> f x <= g x) ->
  list_sum (map g ls) <= list_sum (map f ls) ->
  forall x, In x ls -> f x = g x.
Proof.
  induction ls as [|a ls IH]; intros Hle Hsum x Hx; [destruct Hx|].
  simpl in Hsum.
  assert (Hrest : list_sum (map f ls) <= list_sum (map g ls)).
  { clear -Hle. induction ls as [|b ls IH]; [reflexivity|]. simpl.
    pose proof (Hle b (or_intror (or_introl eq_refl))).
    assert (list_sum (map f ls) <= list_sum (map g ls)).
    { apply IH. intros y [<- | Hy]; apply Hle; [now left | right; now right]. }
    lia. }
  pose proof (Hle a (or_introl eq_refl)) as Ha.
  destruct Hx as [<- | Hx]; [lia|].
  apply IH; [intros y Hy; apply Hle; now right | lia | exact Hx].
Qed.

Section Executable.
Variable problem : Problem.t.
Variable schedule : Schedule.
Variable stamp : nat -> nat.
Hypothesis problem_wf : well_formed problem.
Hypothesis schedule_ok : well_scheduled problem schedule.
Hypothesis schedule_executable : executable problem schedule stamp.

(** With every lane idle, every scheduled operation has been served:
    the unserved operation of least stamp would be ready. *)
Lemma stalled_complete (st : Problem.sim) :
  sim_inv problem schedule st ->
  (forall l, l <= Problem.m problem -> ready schedule st l = false) ->
  forall j, In j (scheduled_operations problem schedule) ->
            released problem schedule st j = true.
Proof.
  intros Hinv Hidle.
  destruct schedule_ok as [Hnd Hids].
  set (U := filter (fun j => negb (released problem schedule st j))
                   (scheduled_operations problem schedule)).
  assert (HU : forall v : list nat, v = [] \/ v <> [])
    by (intros [|? ?]; [now left | right; discriminate]).
  destruct (HU U) as [EU | EU].
  - intros j Hj. destruct (released problem schedule st j) eqn:E; [reflexivity|].
    assert (Hin : In j U) by (apply filter_In; split; [exact Hj | now rewrite E]).
    rewrite EU in Hin. destruct Hin.
  - exfalso.
    destruct (least_rank stamp U EU) as (j & HjU & Hmin).
    assert (Hserved : forall x, In x (scheduled_operations problem schedule) ->
                                stamp x < stamp j ->
                                released problem schedule st x = true).
    { intros x Hx Hlt. destruct (released problem schedule st x) eqn:E; [reflexivity|].
      assert (Hin : In x U) by (apply filter_In; split; [exact Hx | now rewrite E]).
      specialize (Hmin x Hin). lia. }
    apply filter_In in HjU. destruct HjU as [Hj Hnot].
    apply negb_true_iff in Hnot.
    destruct (scheduled_operation_position problem schedule j Hj)
      as (l & k & Hl & Hk & Hnth).
    assert (Hge : k <= Problem.index st l).
    { destruct k as [|k']; [lia|].
      assert (Hrel : released problem schedule st (nth k' (lane schedule l) 0) = true).
      { apply Hserved.
        - apply lane_operation_scheduled; [exact Hl | lia].
        - rewrite <- Hnth.
          apply (ex_lane _ _ _ schedule_executable l k' (S k') Hl); lia. }
      apply released_iff in Hrel. destruct Hrel as (l2 & k2 & Hl2 & Hk2 & Hlen2 & E2).
      destruct (position_unique problem schedule Hnd l2 l k2 k' Hl2 Hl Hlen2
                  ltac:(lia) E2) as [-> ->].
      lia. }
    assert (Hle : ~ k < Problem.index st l).
    { intro Hlt.
      assert (Hrel : released problem schedule st j = true).
      { apply released_iff. exists l, k. auto. }
      congruence. }
    assert (Hidx : Problem.index st l = k) by lia.
    assert (Hready : ready schedule st l = true).
    { unfold ready. rewrite Hidx, Hnth.
      apply andb_true_iff. split; [apply Nat.ltb_lt; exact Hk|].
      apply Z.eqb_eq. rewrite (inv_pendings _ _ _ Hinv j Hj).
      apply pending_count_zero. intros i Hi.
      destruct (ex_edge _ _ _ schedule_executable j i Hj Hi) as [Hin Hlt].
      now apply Hserved. }
    rewrite (Hidle l Hl) in Hready. discriminate.
Qed.

(** As many served operations as the instance has switches: all of the
    schedule are served. *)
Lemma served_complete (st : Problem.sim) :
  sim_inv problem schedule st ->
  Problem.n problem <= served problem st ->
  forall j, In j (scheduled_operations problem schedule) ->
            released problem schedule st j = true.
Proof.
  intros Hinv Hn j Hj.
  destruct schedule_ok as [Hnd Hids].
  assert (Hlen : length (scheduled_operations problem schedule) <= Problem.n problem).
  { rewrite <- (length_seq (Problem.n problem) 1).
    apply NoDup_incl_length; [exact Hnd|].
    intros x Hx. apply in_seq. specialize (Hids x Hx). lia. }
  rewrite length_scheduled_operations in Hlen.
  destruct (scheduled_operation_position problem schedule j Hj)
    as (l & k & Hl & Hk & Hnth).
  assert (Hidx : Problem.index st l = length (lane schedule l)).
  { apply (list_sum_tight (Problem.index st) (fun l => length (lane schedule l))
             (seq 0 (Problem.m problem + 1))).
    - intros x Hx. apply (inv_index _ _ _ Hinv). apply in_seq in Hx. lia.
    - unfold served in Hn. lia.
    - apply in_seq. lia. }
  apply released_iff. exists l, k. split; [exact Hl|]. split; [lia|]. auto.
Qed.

Lemma executable_released :
  forall j, In j (scheduled_operations problem schedule) ->
            released problem schedule (Problem.final problem schedule) j = true.
Proof.
  assert (Hinv : sim_inv problem schedule (Problem.final problem schedule)).
  { destruct schedule_ok as [Hnd Hids].
    apply final_inv; [exact problem_wf | exact Hnd | intros x Hx; apply Hids in Hx; lia]. }
  pose proof (final_exit problem schedule) as Hexit.
  unfold simulating in Hexit. apply andb_false_iff in Hexit.
  destruct Hexit as [Hcount | Hstall].
  - apply Nat.ltb_ge in Hcount.
    apply (served_complete _ Hinv).
    unfold Problem.final in *.
    rewrite <- (rounds_served problem schedule (Problem.n problem + 1)
                  (Problem.init problem schedule)); [exact Hcount|].
    unfold served. simpl.
    generalize (seq 0 (Problem.m problem + 1)) as ls.
    induction ls as [|l ls IH]; [reflexivity | exact IH].
  - apply (stalled_complete _ Hinv).
    unfold Problem.final in *.
    apply (rounds_stalled problem schedule (Problem.n problem + 1)
             (Problem.init problem schedule)); [|exact Hstall].
    simpl. discriminate.
Qed.

Lemma executable_finite :
  forall j, In j (scheduled_operations problem schedule) ->
            is_finite (Problem.start_time problem schedule j) = true.
Proof.
  intros j Hj.
  assert (Hinv : sim_inv problem schedule (Problem.final problem schedule)).
  { destruct schedule_ok as [Hnd Hids].
    apply final_inv; [exact problem_wf | exact Hnd | intros x Hx; apply Hids in Hx; lia]. }
  apply (inv_released _ _ _ Hinv j). now apply executable_released.
Qed.



End Executable.


Lemma rounds_more (problem : Problem.t) (schedule : Schedule) (extra : nat) :
  forall fuel st,
    simulating problem (Problem.rounds problem schedule fuel st) = false ->
    Problem.rounds problem schedule (fuel + extra) st
    = Problem.rounds problem schedule fuel st.
Proof.
  induction fuel as [|fuel IH]; intros st H.
  - simpl in *. now apply rounds_stopped.
  - simpl in *. fold (simulating problem st) in *.
    destruct (simulating problem st); [now apply IH | reflexivity].
Qed.

(** X13. The loop of [start_time] ends: after at most n + 1 tests of
    its condition the condition fails, each round before having served
    an operation; whatever the number of rounds granted beyond that, the
    state is the one the loop leaves. *)
Theorem simulator_loop_ends :
  forall (problem : Problem.t) (schedule : Schedule) (extra : nat),
    Problem.rounds problem schedule (Problem.n problem + 1 + extra)
      (Problem.init problem schedule)
    = Problem.final problem schedule
    /\ ((Problem.count (Problem.final problem schedule) <? Problem.n problem)
        && Problem.feasibility (Problem.final problem schedule) = false)
    /\ Problem.count (Problem.final problem schedule)
       = list_sum (map (Problem.index (Problem.final problem schedule))
                     (seq 0 (Problem.m problem + 1))).
Proof.
  intros problem schedule extra. split; [|split].
  - apply rounds_more. exact (final_exit problem schedule).
  - exact (final_exit problem schedule).
  - unfold Problem.final.
    apply (rounds_served problem schedule (Problem.n problem + 1)
             (Problem.init problem schedule)).
    unfold served. simpl.
    generalize (seq 0 (Problem.m problem + 1)) as ls.
    induction ls as [|l ls IH]; [reflexivity | exact IH].
Qed.

(** X14. An operation that the schedule leaves out keeps the start time
    +infinity, so [Problem::makespan], which ranges over all the
    switches 1..n, is +infinity on every partial schedule; the depot 0
    starts at 0. *)
Theorem makespan_of_partial_schedule :
  forall (problem : Problem.t) (schedule : Schedule) (i : nat),
    well_formed problem ->
    well_scheduled problem schedule ->
    1 <= i <= Problem.n problem ->
    ~ In i (scheduled_operations problem schedule) ->
    Problem.start_time problem schedule i = infinity
    /\ Problem.makespan problem schedule = infinity
    /\ Problem.start_time problem schedule 0 = Fin 0.
Proof.
  intros problem schedule i Hwf [Hnd Hids] Hi Hout.
  assert (Hinv : sim_inv problem schedule (Problem.final problem schedule)).
  { apply final_inv; [exact Hwf | exact Hnd | intros x Hx; apply Hids in Hx; lia]. }
  assert (Hinf : Problem.start_time problem schedule i = infinity).
  { apply (inv_unreleased _ _ _ Hinv i); [lia|].
    destruct (released problem schedule (Problem.final problem schedule) i) eqn:E;
      [|reflexivity].
    exfalso. apply Hout. exact (released_scheduled problem schedule _ i E). }
  split; [exact Hinf|]. split.
  - apply dle_infinity_eq. rewrite makespan_fold. apply fold_dmax_ge.
    apply in_map_iff. exists i. split; [|apply in_seq; lia].
    unfold completion. now rewrite Hinf.
  - exact (inv_depot _ _ _ Hinv).
Qed.

Lemma makespan_of_partial_schedule_witness :
  Problem.start_time Examples.serial [[]; [1]; []] 2 = infinity
  /\ Problem.makespan Examples.serial [[]; [1]; []] = infinity
  /\ Problem.start_time Examples.serial [[]; [1]; []] 0 = Fin 0.
Proof.
  apply (makespan_of_partial_schedule Examples.serial [[]; [1]; []] 2).
  - exact serial_well_formed.
  - split; [vm_compute; repeat constructor; intros []|].
    intros x Hx. simpl in Hx. destruct Hx as [<- | []]. simpl. lia.
  - simpl. lia.
  - simpl. intros [H | []]. discriminate.
Defined.

(** ** Times that follow the rule stay within the total work *)

Lemma longest_travel_nonnegative (problem : Problem.t) (j : nat) :
  (0 <= longest_travel problem j)%Q.
Proof. apply fold_qmax_ge_init. Qed.

Lemma travel_le_longest (problem : Problem.t) (i j l : nat) :
  i <= Problem.n problem -> 1 <= l <= Problem.m problem ->
  (Problem.s problem i j l <= longest_travel problem j)%Q.
Proof.
  intros Hi Hl. apply fold_qmax_ge. apply in_flat_map.
  exists i. split; [apply in_seq; lia|].
  apply in_map_iff. exists l. split; [reflexivity | apply in_seq; lia].
Qed.

Lemma work_nonnegative (problem : Problem.t) :
  (forall i, 0 <= Problem.p problem i)%Q -> forall j, (0 <= work problem j)%Q.
Proof.
  intros Hp j. unfold work. pose proof (Hp j).
  pose proof (longest_travel_nonnegative problem j). lra.
Qed.

(** The work of switches of the instance, each counted once, is within
    the total. *)
Lemma within_total (problem : Problem.t) (v : list nat) :
  (forall i, 0 <= Problem.p problem i)%Q ->
  NoDup v -> (forall x, In x v -> 1 <= x <= Problem.n problem) ->
  (Problem.p problem 0 + Qsum (work problem) v <= total_work problem)%Q.
Proof.
  intros Hp Hnd Hrange. unfold total_work. apply Qplus_le_r.
  apply Qsum_incl; [now apply work_nonnegative | exact Hnd|].
  intros x Hx. apply in_seq. specialize (Hrange x Hx). lia.
Qed.

Section RuleRange.
Variable problem : Problem.t.
Variable schedule : Schedule.
Variable stamp : nat -> nat.
Variable tv : nat -> double.
Hypothesis p_nonnegative : forall i, (0 <= Problem.p problem i)%Q.
Hypothesis schedule_ok : well_scheduled problem schedule.
Hypothesis schedule_executable : executable problem schedule stamp.
Hypothesis depot : tv 0 = Fin 0.
Hypothesis rules :
  forall l k, l <= Problem.m problem -> k < length (lane schedule l) ->
              start_rule problem schedule tv l k.

Lemma spent_monotone (a b : nat) :
  a <= b ->
  (spent problem schedule stamp a <= spent problem schedule stamp b)%Q.
Proof.
  intro Hab. unfold spent. apply Qplus_le_r.
  apply Qsum_filter_incl;
    [now apply work_nonnegative | exact (proj1 schedule_ok)|].
  intros i Hi. apply Nat.ltb_lt in Hi. apply Nat.ltb_lt. lia.
Qed.

Lemma spent_step (j : nat) :
  In j (scheduled_operations problem schedule) ->
  (spent problem schedule stamp (stamp j) + work problem j
   <= spent problem schedule stamp (S (stamp j)))%Q.
Proof.
  intro Hj. unfold spent.
  pose proof (Qsum_filter_add (work problem)
                (fun i => stamp i <? stamp j) (fun i => stamp i <? S (stamp j))
                (scheduled_operations problem schedule) j
                (work_nonnegative problem p_nonnegative) (proj1 schedule_ok) Hj) as H.
  cbv beta in H.
  assert (H1 : (stamp j <? stamp j) = false) by (apply Nat.ltb_ge; lia).
  assert (H2 : (stamp j <? S (stamp j)) = true) by (apply Nat.ltb_lt; lia).
  specialize (H H1 H2).
  assert (H3 : forall i, (stamp i <? stamp j) = true -> (stamp i <? S (stamp j)) = true).
  { intros i Hi. apply Nat.ltb_lt in Hi. apply Nat.ltb_lt. lia. }
  specialize (H H3). lra.
Qed.

Lemma spent_total (k : nat) :
  (spent problem schedule stamp k
   <= Problem.p problem 0
      + Qsum (work problem) (scheduled_operations problem schedule))%Q.
Proof.
  unfold spent. apply Qplus_le_r.
  apply Qsum_filter_le; [now apply work_nonnegative | exact (proj1 schedule_ok)].
Qed.

Lemma spent_depot (k : nat) :
  (Problem.p problem 0 <= spent problem schedule stamp k)%Q.
Proof.
  unfold spent.
  pose proof (Qsum_nonnegative (work problem)
                (filter (fun i => stamp i <? k) (scheduled_operations problem schedule))
                (work_nonnegative problem p_nonnegative)).
  lra.
Qed.

(** An operation starts after at most the work of the operations
    stamped before it and the longest travel into it, and completes
    within the work of the operations stamped up to it. *)
Lemma rule_upper :
  forall bound j,
    stamp j < bound ->
    In j (scheduled_operations problem schedule) ->
    exists q, tv j = Fin q
              /\ (q <= spent problem schedule stamp (stamp j)
                       + longest_travel problem j)%Q
              /\ (q + Problem.p problem j
                  <= spent problem schedule stamp (S (stamp j)))%Q.
Proof.
  induction bound as [|bound IH]; intros j Hbound Hj; [lia|].
  assert (Hdone : forall i, In i (scheduled_operations problem schedule) ->
                            stamp i < stamp j ->
                            dle (completion problem tv i)
                                (Fin (spent problem schedule stamp (stamp j)))).
  { intros i Hi Hlt. destruct (IH i ltac:(lia) Hi) as (c & Hc & _ & Hup).
    unfold completion. rewrite Hc. simpl.
    eapply Qle_trans; [exact Hup|]. apply spent_monotone. lia. }
  destruct (scheduled_operation_position problem schedule j Hj)
    as (l & k & Hl & Hk & Hnth).
  pose proof (rules l k Hl Hk) as Hrule. unfold start_rule in Hrule.
  rewrite Hnth in Hrule.
  pose proof (longest_travel_nonnegative problem j) as Hlong.
  pose proof (spent_depot (stamp j)) as Hdepot.
  pose proof (p_nonnegative 0) as Hp0.
  assert (Hstart : dle (tv j)
                     (Fin (spent problem schedule stamp (stamp j)
                           + longest_travel problem j))).
  { rewrite Hrule. apply fold_dmax_le.
    - unfold arrival. destruct (l =? 0) eqn:El; [simpl; lra|].
      apply Nat.eqb_neq in El.
      assert (Htravel : forall i, i <= Problem.n problem ->
                 (Problem.s problem i j l <= longest_travel problem j)%Q).
      { intros i Hi. apply travel_le_longest; [exact Hi | lia]. }
      rewrite Hnth.
      destruct k as [|k']; simpl previous.
      + unfold completion. rewrite depot. simpl.
        pose proof (Htravel 0 ltac:(lia)). lra.
      + assert (Hprev : In (nth k' (lane schedule l) 0)
                           (scheduled_operations problem schedule))
          by (apply lane_operation_scheduled; [exact Hl | lia]).
        assert (Hlt : stamp (nth k' (lane schedule l) 0) < stamp j).
        { pose proof (ex_lane _ _ _ schedule_executable l k' (S k') Hl
                        (Nat.lt_succ_diag_r k') Hk) as H.
          now rewrite Hnth in H. }
        pose proof (Hdone _ Hprev Hlt) as Hc.
        destruct (completion problem tv (nth k' (lane schedule l) 0)) as [c|];
          [|destruct Hc].
        simpl in Hc |- *.
        pose proof (Htravel (nth k' (lane schedule l) 0)
                      (proj2 (proj2 schedule_ok _ Hprev))).
        lra.
    - intros v Hv. apply in_map_iff in Hv. destruct Hv as (i & <- & Hi).
      destruct (ex_edge _ _ _ schedule_executable j i Hj Hi) as [Hiin Hlt].
      eapply dle_trans; [exact (Hdone i Hiin Hlt)|]. simpl. lra. }
  destruct (tv j) as [q|]; [|destruct Hstart].
  simpl in Hstart. exists q. split; [reflexivity|]. split; [exact Hstart|].
  pose proof (spent_step j Hj). unfold work in *. lra.
Qed.


(** Every scheduled operation completes within the work of the
    scheduled operations. *)
Lemma rule_completes (j : nat) :
  In j (scheduled_operations problem schedule) ->
  exists q, tv j = Fin q
            /\ (q + Problem.p problem j
                <= Problem.p problem 0
                   + Qsum (work problem) (scheduled_operations problem schedule))%Q.
Proof.
  intro Hj. destruct (rule_upper (S (stamp j)) j ltac:(lia) Hj) as (q & Hq & _ & Hup).
  exists q. split; [exact Hq|].
  eapply Qle_trans; [exact Hup | apply spent_total].
Qed.

End RuleRange.

(** ** Greedy builds its schedule in an order of execution *)

Lemma lane_In_concat (schedule : Schedule) (l x : nat) :
  In x (lane schedule l) -> In x (concat schedule).
Proof.
  intro Hx. pose proof (lane_member_bound schedule l x Hx) as Hl.
  apply in_concat. exists (lane schedule l). split; [|exact Hx].
  unfold lane. now apply nth_In.
Qed.

Lemma append_executable (problem : Problem.t) (schedule : Schedule)
      (stamp : nat -> nat) (bound l j0 : nat) :
  length schedule = Problem.m problem + 1 ->
  l <= Problem.m problem ->
  executable problem schedule stamp ->
  (forall j, In j (concat schedule) -> stamp j < bound) ->
  ~ In j0 (concat schedule) ->
  (forall i, In i (Problem.predecessors problem j0) -> In i (concat schedule)) ->
  executable problem (set_lane schedule l (lane schedule l ++ [j0]))
             (upd stamp j0 bound)
  /\ forall j, In j (concat (set_lane schedule l (lane schedule l ++ [j0]))) ->
               upd stamp j0 bound j < S bound.
Proof.
  intros Hlen Hl Hex Hbound Hnew Hpreds.
  assert (Hl' : l < length schedule) by lia.
  assert (Hlen' : length (set_lane schedule l (lane schedule l ++ [j0]))
                  = Problem.m problem + 1) by now rewrite set_lane_length.
  pose proof (concat_append_lane schedule l j0 Hl') as Hperm.
  assert (Hold : forall x, In x (concat schedule) ->
                           upd stamp j0 bound x = stamp x).
  { intros x Hx. apply upd_other. intros ->. contradiction. }
  assert (Hin' : forall x, In x (concat (set_lane schedule l (lane schedule l ++ [j0]))) ->
                           x = j0 \/ In x (concat schedule)).
  { intros x Hx. apply (Permutation_in _ Hperm) in Hx.
    destruct Hx as [<- | Hx]; auto. }
  split; [constructor|].
  - intros l' k k' Hl'm Hk Hk'.
    destruct (Nat.eq_dec l' l) as [-> | Hne].
    + rewrite lane_set_lane_same in * by exact Hl'.
      rewrite length_app in Hk'. simpl in Hk'.
      assert (Hk0 : k < length (lane schedule l)) by lia.
      rewrite (app_nth1 _ _ 0 Hk0).
      assert (Hkin : In (nth k (lane schedule l) 0) (concat schedule)).
      { apply (lane_In_concat schedule l). now apply nth_In. }
      rewrite (Hold _ Hkin).
      destruct (Nat.eq_dec k' (length (lane schedule l))) as [-> | Hlt].
      * rewrite app_nth2 by lia. rewrite Nat.sub_diag. simpl.
        rewrite upd_same. now apply Hbound.
      * assert (Hk1 : k' < length (lane schedule l)) by lia.
        rewrite (app_nth1 _ _ 0 Hk1).
        rewrite Hold by (apply (lane_In_concat schedule l); now apply nth_In).
        now apply (ex_lane _ _ _ Hex l k k').
    + rewrite lane_set_lane_other in * by exact Hne.
      rewrite !Hold by (apply (lane_In_concat schedule l'); apply nth_In; lia).
      now apply (ex_lane _ _ _ Hex l' k k').
  - intros j i Hj Hi.
    rewrite (scheduled_operations_concat problem _ Hlen') in *.
    assert (Hto : forall x, In x (concat schedule) ->
                            In x (concat (set_lane schedule l (lane schedule l ++ [j0])))).
    { intros x Hx. apply (Permutation_in _ (Permutation_sym Hperm)). now right. }
    destruct (Hin' j Hj) as [-> | Hjold].
    + pose proof (Hpreds i Hi) as Hiold.
      split; [now apply Hto|].
      rewrite upd_same, (Hold i Hiold). now apply Hbound.
    + rewrite <- (scheduled_operations_concat problem schedule Hlen) in Hjold.
      destruct (ex_edge _ _ _ Hex j i Hjold Hi) as [Hiold Hlt].
      rewrite (scheduled_operations_concat problem schedule Hlen) in Hjold, Hiold.
      split; [now apply Hto|]. now rewrite !Hold.
  - intros j Hj. destruct (Hin' j Hj) as [-> | Hjold].
    + rewrite upd_same. lia.
    + rewrite (Hold j Hjold). specialize (Hbound j Hjold). lia.
Qed.

(** Greedy waits for the predecessors as the simulator does. *)
Lemma greedy_wait_lift (problem : Problem.t) (j : nat) :
  forall (tv : nat -> Q) (dv : nat -> double),
    (forall i, Fin (tv i) = dv i) ->
    forall x, Fin (Greedy.wait_predecessors problem j tv x)
              = Problem.wait_predecessors problem j dv x.
Proof.
  unfold Greedy.wait_predecessors, Problem.wait_predecessors.
  generalize (Problem.predecessors problem j) as preds.
  induction preds as [|k preds IH]; intros tv dv Hrel x; [apply Hrel|].
  cbn [fold_left]. apply IH. intro i.
  unfold upd. destruct (i =? j); [|apply Hrel].
  rewrite <- (Hrel j), <- (Hrel k). unfold dmax, qmax. simpl.
  destruct (Qltb (tv j) (tv k + Problem.p problem k)); reflexivity.
Qed.

(** Appending [j], whose predecessors are scheduled, to lane [l] with
    the start time of the rule keeps the rule. *)
Lemma append_timed (problem : Problem.t) (schedule : Schedule) (tv : nat -> Q)
      (l j : nat) (base : Q) :
  length schedule = Problem.m problem + 1 ->
  l <= Problem.m problem ->
  1 <= j ->
  ~ In j (concat schedule) ->
  (forall i, In i (Problem.predecessors problem j) -> In i (concat schedule)) ->
  (forall x i, In x (concat schedule) -> In i (Problem.predecessors problem x) ->
               In i (concat schedule)) ->
  (forall l' k, l' <= Problem.m problem -> k < length (lane schedule l') ->
                start_rule problem schedule (fun i => Fin (tv i)) l' k) ->
  Fin base
  = arrival problem (set_lane schedule l (lane schedule l ++ [j]))
      (fun i => Fin (tv i)) l (length (lane schedule l)) ->
  forall l' k, l' <= Problem.m problem ->
    k < length (lane (set_lane schedule l (lane schedule l ++ [j])) l') ->
    start_rule problem (set_lane schedule l (lane schedule l ++ [j]))
      (fun i => Fin (Greedy.wait_predecessors problem j (upd tv j base) i)) l' k.
Proof.
  intros Hlen Hl Hj Hnew Hpreds Hclosed Hrule Hbase l' k Hl' Hk.
  assert (Hl2 : l < length schedule) by lia.
  set (schedule' := set_lane schedule l (lane schedule l ++ [j])) in *.
  set (tv' := Greedy.wait_predecessors problem j (upd tv j base)).
  assert (Hother : forall x, x <> j -> tv' x = tv x).
  { intros x Hx. unfold tv'. rewrite greedy_wait_other by exact Hx.
    now apply upd_other. }
  assert (Hin : forall x, In x (concat schedule) -> x <> j)
    by (intros x Hx ->; contradiction).
  assert (Hself : ~ In j (Problem.predecessors problem j))
    by (intro H; apply Hnew; now apply Hpreds).
  assert (Hlane : forall l0 k0, k0 < length (lane schedule l0) ->
                                nth k0 (lane schedule' l0) 0 = nth k0 (lane schedule l0) 0).
  { intros l0 k0 Hk0. unfold schedule'. destruct (Nat.eq_dec l0 l) as [-> | Hne].
    - rewrite lane_set_lane_same by exact Hl2. now apply app_nth1.
    - now rewrite lane_set_lane_other. }
  assert (Hprev : forall l0 k0, k0 <= length (lane schedule l0) ->
                                previous schedule' l0 k0 = previous schedule l0 k0
                                /\ previous schedule l0 k0 <> j).
  { intros l0 k0 Hk0. destruct k0 as [|k0]; simpl; [split; [reflexivity | lia]|].
    split; [apply Hlane; lia|].
    apply Hin. apply (lane_In_concat schedule l0). apply nth_In. lia. }
  assert (Hcompl : forall x, x <> j ->
                             completion problem (fun i => Fin (tv' i)) x
                             = completion problem (fun i => Fin (tv i)) x).
  { intros x Hx. unfold completion. now rewrite (Hother x Hx). }
  assert (Hcase : k < length (lane schedule l')
                  \/ (l' = l /\ k = length (lane schedule l))).
  { unfold schedule' in Hk. destruct (Nat.eq_dec l' l) as [-> | Hne].
    - rewrite lane_set_lane_same in Hk by exact Hl2.
      rewrite length_app in Hk. simpl in Hk. lia.
    - rewrite lane_set_lane_other in Hk by exact Hne. now left. }
  unfold start_rule.
  destruct Hcase as [Hold | [-> ->]].
  - assert (Hx : In (nth k (lane schedule l') 0) (concat schedule)).
    { apply (lane_In_concat schedule l'). now apply nth_In. }
    rewrite (Hlane l' k Hold). rewrite (Hother _ (Hin _ Hx)).
    rewrite (Hrule l' k Hl' Hold). f_equal.
    + apply map_ext_in. intros i Hi. symmetry. apply Hcompl.
      apply Hin. exact (Hclosed _ i Hx Hi).
    + unfold arrival. destruct (l' =? 0); [reflexivity|].
      destruct (Hprev l' k (Nat.lt_le_incl _ _ Hold)) as [-> Hne].
      now rewrite (Hlane l' k Hold), (Hcompl _ Hne).
  - assert (Hnth : nth (length (lane schedule l)) (lane schedule' l) 0 = j).
    { unfold schedule'. rewrite lane_set_lane_same by exact Hl2.
      rewrite app_nth2 by lia. now rewrite Nat.sub_diag. }
    rewrite Hnth.
    rewrite (greedy_wait_lift problem j (upd tv j base)
               (upd (fun i => Fin (tv i)) j (Fin base))).
    2:{ intro i. unfold upd. destruct (i =? j); reflexivity. }
    rewrite wait_predecessors_same by exact Hself.
    rewrite upd_same. f_equal.
    + apply map_ext_in. intros i Hi. unfold completion.
      assert (Hne : i <> j) by (intros ->; contradiction).
      rewrite upd_other by exact Hne. now rewrite (Hother i Hne).
    + rewrite Hbase. unfold arrival. destruct (l =? 0); [reflexivity|].
      destruct (Hprev l (length (lane schedule l)) (le_n _)) as [Hp Hne].
      rewrite Hp. now rewrite (Hcompl _ Hne).
Qed.

Section GreedyOrder.
Variable problem : Problem.t.
Hypothesis instance_ok : feasible_instance problem.

(** A switch of the sets whose [gamma] is 0 can be appended: it is not
    on the schedule, and its predecessors are. *)
Lemma ready_switch (st : Greedy.state) (j : nat) :
  greedy_inv problem st ->
  In j (Greedy.S_manual st ++ Greedy.S_remote st) ->
  Greedy.gamma st j = 0%Z ->
  ~ In j (concat (Greedy.schedule st))
  /\ forall i, In i (Problem.predecessors problem j) ->
               In i (concat (Greedy.schedule st)).
Proof.
  intros Hinv Hj Hgamma.
  pose proof (fi_well_formed _ instance_ok) as Hwf.
  pose proof (gi_partition _ _ Hinv) as Hpart.
  assert (Hnd : NoDup (concat (Greedy.schedule st)
                       ++ Greedy.S_manual st ++ Greedy.S_remote st)).
  { apply (Permutation_NoDup (Permutation_sym Hpart)). apply seq_NoDup. }
  destruct (NoDup_app_inv _ _ Hnd) as (_ & _ & Hdisj).
  pose proof (inv_set_range problem st j Hinv Hj) as Hrange.
  split.
  - intro Hin. exact (Hdisj j Hin Hj).
  - intros i Hi.
    pose proof (gi_gamma _ _ Hinv j Hrange) as Hcount.
    rewrite Hgamma in Hcount. symmetry in Hcount.
    pose proof (proj1 (pending_count_zero _ _) Hcount i Hi) as Hdone.
    unfold scheduled in Hdone. apply negb_true_iff in Hdone.
    pose proof (fi_range _ instance_ok j i Hrange Hi) as Hirange.
    assert (Hiall : In i (concat (Greedy.schedule st)
                          ++ Greedy.S_manual st ++ Greedy.S_remote st)).
    { apply (Permutation_in _ (Permutation_sym Hpart)). apply in_seq. lia. }
    apply in_app_or in Hiall. destruct Hiall as [Hin | Hin]; [exact Hin|].
    apply unscheduled_In in Hin. congruence.
Qed.

Lemma schedule_remote_order (st : Greedy.state) (j : nat) :
  greedy_inv problem st -> built_in_order problem st ->
  In j (Greedy.S_remote st) -> Greedy.gamma st j = 0%Z ->
  built_in_order problem (Greedy.schedule_remote problem st j).
Proof.
  intros Hinv (stamp & bound & Hex & Hbound) Hj Hgamma.
  destruct (ready_switch st j Hinv) as [Hnew Hpreds];
    [apply in_or_app; now right | exact Hgamma|].
  exists (upd stamp j bound), (S bound). simpl.
  apply append_executable; auto.
  - apply (gi_lanes _ _ Hinv).
  - lia.
Qed.

Lemma schedule_manual_order (st : Greedy.state) (j l : nat) :
  greedy_inv problem st -> built_in_order problem st ->
  In j (Greedy.S_manual st) -> Greedy.gamma st j = 0%Z ->
  1 <= l <= Problem.m problem ->
  built_in_order problem (Greedy.schedule_manual problem st j l).
Proof.
  intros Hinv (stamp & bound & Hex & Hbound) Hj Hgamma Hl.
  destruct (ready_switch st j Hinv) as [Hnew Hpreds];
    [apply in_or_app; now left | exact Hgamma|].
  exists (upd stamp j bound), (S bound). simpl.
  apply append_executable; auto.
  - apply (gi_lanes _ _ Hinv).
  - lia.
Qed.

Lemma scheduled_closed (st : Greedy.state) :
  greedy_inv problem st -> built_in_order problem st ->
  forall x i, In x (concat (Greedy.schedule st)) ->
              In i (Problem.predecessors problem x) ->
              In i (concat (Greedy.schedule st)).
Proof.
  intros Hinv (stamp & bound & Hex & _) x i Hx Hi.
  rewrite <- (scheduled_operations_concat problem _ (gi_lanes _ _ Hinv)) in *.
  exact (proj1 (ex_edge _ _ _ Hex x i Hx Hi)).
Qed.

Lemma schedule_remote_timed (st : Greedy.state) (j : nat) :
  greedy_inv problem st -> built_in_order problem st -> greedy_timed problem st ->
  In j (Greedy.S_remote st) -> Greedy.gamma st j = 0%Z ->
  greedy_timed problem (Greedy.schedule_remote problem st j).
Proof.
  intros Hinv Hord Htimed Hj Hgamma.
  assert (Hjs : In j (Greedy.S_manual st ++ Greedy.S_remote st))
    by (apply in_or_app; now right).
  destruct (ready_switch st j Hinv Hjs Hgamma) as [Hnew Hpreds].
  pose proof (inv_set_range problem st j Hinv Hjs) as Hrange.
  constructor.
  - simpl. rewrite greedy_wait_other by lia. rewrite upd_other by lia.
    apply (gt_depot _ _ Htimed).
  - intros l Hl. simpl. rewrite lane_set_lane_other by lia.
    rewrite (gt_phi _ _ Htimed l Hl).
    destruct (length (lane (Greedy.schedule st) l)) as [|k]; simpl; [reflexivity|].
    now rewrite lane_set_lane_other by lia.
  - intros l k Hl Hk. simpl in Hk.
    apply (append_timed problem (Greedy.schedule st) (Greedy.t st) 0 j 0%Q); auto.
    + apply (gi_lanes _ _ Hinv).
    + lia.
    + lia.
    + now apply scheduled_closed.
    + apply (gt_rule _ _ Htimed).
Qed.

Lemma schedule_manual_timed (st : Greedy.state) (j l : nat) :
  greedy_inv problem st -> built_in_order problem st -> greedy_timed problem st ->
  In j (Greedy.S_manual st) -> Greedy.gamma st j = 0%Z ->
  1 <= l <= Problem.m problem ->
  greedy_timed problem (Greedy.schedule_manual problem st j l).
Proof.
  intros Hinv Hord Htimed Hj Hgamma Hl.
  assert (Hjs : In j (Greedy.S_manual st ++ Greedy.S_remote st))
    by (apply in_or_app; now left).
  destruct (ready_switch st j Hinv Hjs Hgamma) as [Hnew Hpreds].
  pose proof (inv_set_range problem st j Hinv Hjs) as Hrange.
  pose proof (gi_lanes _ _ Hinv) as Hlen.
  assert (Hl2 : l < length (Greedy.schedule st)) by lia.
  constructor.
  - simpl. rewrite greedy_wait_other by lia. rewrite upd_other by lia.
    apply (gt_depot _ _ Htimed).
  - intros l' Hl'. simpl. destruct (Nat.eq_dec l' l) as [-> | Hne].
    + rewrite upd_same, lane_set_lane_same by exact Hl2.
      rewrite length_app. simpl. rewrite Nat.add_1_r. simpl.
      rewrite lane_set_lane_same by exact Hl2.
      rewrite app_nth2 by lia. now rewrite Nat.sub_diag.
    + rewrite upd_other by exact Hne. rewrite lane_set_lane_other by exact Hne.
      rewrite (gt_phi _ _ Htimed l' Hl').
      destruct (length (lane (Greedy.schedule st) l')) as [|k]; simpl; [reflexivity|].
      now rewrite lane_set_lane_other by exact Hne.
  - intros l' k Hl' Hk. simpl in Hk.
    apply (append_timed problem (Greedy.schedule st) (Greedy.t st) l j
             (Greedy.t st (Greedy.phi st l) + Problem.p problem (Greedy.phi st l)
              + Problem.s problem (Greedy.phi st l) j l)%Q); auto.
    + lia.
    + lia.
    + now apply scheduled_closed.
    + apply (gt_rule _ _ Htimed).
    + unfold arrival.
      assert (E : (l =? 0) = false) by (apply Nat.eqb_neq; lia).
      rewrite E. rewrite lane_set_lane_same by exact Hl2.
      rewrite app_nth2 by lia. rewrite Nat.sub_diag. cbn [nth].
      rewrite (gt_phi _ _ Htimed l Hl).
      assert (Hp : previous (set_lane (Greedy.schedule st) l
                               (lane (Greedy.schedule st) l ++ [j])) l
                     (length (lane (Greedy.schedule st) l))
                   = previous (Greedy.schedule st) l
                       (length (lane (Greedy.schedule st) l))).
      { destruct (length (lane (Greedy.schedule st) l)) as [|k0] eqn:E0;
          simpl; [reflexivity|].
        rewrite lane_set_lane_same by exact Hl2. apply app_nth1. lia. }
      rewrite Hp. reflexivity.
Qed.

Lemma drain_pass_order (js : list nat) :
  forall (acc : Greedy.state * bool),
    greedy_run_inv problem (fst acc) ->
    NoDup js ->
    (forall j, In j js -> In j (Greedy.S_remote (fst acc))) ->
    let r := fold_left
               (fun (acc0 : Greedy.state * bool) j =>
                  if (Greedy.gamma (fst acc0) j =? 0)%Z
                  then (Greedy.schedule_remote problem (fst acc0) j, false)
                  else acc0) js acc in
    greedy_run_inv problem (fst r).
Proof.
  pose proof (fi_well_formed _ instance_ok) as Hwf.
  induction js as [|j js IH]; intros acc Hrun Hnd Hin; cbv zeta; [exact Hrun|].
  cbn [fold_left]. inversion Hnd as [|? ? Hj Hnd']; subst.
  destruct Hrun as (Hinv & Hord & Htimed).
  apply IH; try assumption.
  - destruct (Greedy.gamma (fst acc) j =? 0)%Z eqn:E;
      [|split; [exact Hinv | split; assumption]].
    apply Z.eqb_eq in E. cbn [fst].
    assert (Hjin : In j (Greedy.S_remote (fst acc))) by (apply Hin; now left).
    split; [|split].
    + now apply (schedule_remote_inv problem Hwf).
    + now apply schedule_remote_order.
    + now apply schedule_remote_timed.
  - intros x Hx.
    destruct (Greedy.gamma (fst acc) j =? 0)%Z; [|apply Hin; now right].
    simpl. apply in_in_remove; [|apply Hin; now right].
    intros ->. contradiction.
Qed.

Lemma drain_order (fuel : nat) :
  forall st st',
    greedy_run_inv problem st ->
    Greedy.drain problem fuel st = Some st' ->
    greedy_run_inv problem st'.
Proof.
  induction fuel as [|fuel IH]; intros st st' Hrun Hdrain; [discriminate|].
  simpl in Hdrain.
  assert (Hndr : NoDup (Greedy.S_remote st))
    by (apply (NoDup_app_remove_l _ _ (inv_sets_NoDup problem st (proj1 Hrun)))).
  pose proof (drain_pass_order (Greedy.S_remote st) (st, true) Hrun Hndr
                (fun j H => H)) as Hpass.
  cbv zeta in Hpass. fold (Greedy.drain_pass problem st) in Hpass.
  destruct (Greedy.drain_pass problem st) as [st1 stop]. simpl in Hpass.
  destruct stop; [injection Hdrain as <-; exact Hpass|].
  now apply (IH st1).
Qed.

Lemma loop_order (fuel : nat) :
  forall st st',
    greedy_run_inv problem st ->
    Greedy.loop problem fuel st = Some st' ->
    greedy_run_inv problem st'
    /\ Greedy.S_manual st' = [] /\ Greedy.S_remote st' = [].
Proof.
  pose proof (fi_well_formed _ instance_ok) as Hwf.
  assert (Hend : forall st : Greedy.state,
             (length (Greedy.S_manual st) + length (Greedy.S_remote st) =? 0) = true ->
             Greedy.S_manual st = [] /\ Greedy.S_remote st = []).
  { intros st H. apply Nat.eqb_eq in H.
    destruct (Greedy.S_manual st), (Greedy.S_remote st); simpl in H; try lia. auto. }
  induction fuel as [|fuel IH]; intros st st' Hrun Hloop; simpl in Hloop.
  - destruct (_ =? 0) eqn:E; [|discriminate].
    injection Hloop as <-. destruct (Hend st E). auto.
  - destruct (_ =? 0) eqn:E; [injection Hloop as <-; destruct (Hend st E); auto|].
    destruct (Greedy.drain problem (length (Greedy.S_remote st) + 1) st) as [st1|] eqn:Ed;
      [|discriminate].
    pose proof (drain_order _ _ _ Hrun Ed) as H1.
    destruct (0 <? length (Greedy.S_manual st1)); [|now apply (IH st1)].
    destruct (Greedy.choose problem st1) as [[[c j] l]|] eqn:Ec; [|discriminate].
    destruct (choose_spec problem st1 c j l Ec) as (Hj & Hl & Hg).
    destruct H1 as (Hinv1 & Hord1 & Htimed1).
    apply (IH (Greedy.schedule_manual problem st1 j l)); [|exact Hloop].
    split; [|split].
    + now apply (schedule_manual_inv problem Hwf).
    + now apply schedule_manual_order.
    + now apply schedule_manual_timed.
Qed.

Lemma init_order : built_in_order problem (Greedy.init problem).
Proof.
  exists (fun _ => 0), 0. simpl.
  assert (Hempty : forall k, concat (repeat (@nil nat) k) = []).
  { induction k as [|k IH]; [reflexivity | exact IH]. }
  split; [constructor|].
  - intros l k k' _ _ Hk'. rewrite lane_create_empty in Hk'. simpl in Hk'. lia.
  - intros j i Hj _. exfalso.
    rewrite scheduled_operations_concat in Hj
      by (unfold create_empty_schedule; apply repeat_length).
    unfold create_empty_schedule in Hj. rewrite Hempty in Hj. exact Hj.
  - intros j Hj. unfold create_empty_schedule in Hj. rewrite Hempty in Hj.
    destruct Hj.
Qed.

(** The invariant at the entry of the loop, whatever the number of
    teams. *)
Lemma init_partition : greedy_inv problem (Greedy.init problem).
Proof.
  assert (Hsets : Permutation
                    (Greedy.S_manual (Greedy.init problem)
                     ++ Greedy.S_remote (Greedy.init problem))
                    (seq 1 (Problem.n problem))).
  { simpl. apply filter_split_Permutation. intros x Hx. apply in_seq in Hx.
    unfold Greedy.has_technology.
    destruct (fi_technology _ instance_ok x) as [-> | ->]; [lia | now left | now right]. }
  assert (Hempty : forall k, concat (repeat (@nil nat) k) = []).
  { induction k as [|k IH]; [reflexivity | exact IH]. }
  constructor.
  - simpl. apply repeat_length.
  - cbn [Greedy.schedule Greedy.init]. unfold create_empty_schedule.
    rewrite Hempty. exact Hsets.
  - simpl. intros j Hj. apply filter_In in Hj. now apply Technology_eqb_eq.
  - simpl. intros j Hj. apply filter_In in Hj. now apply Technology_eqb_eq.
  - simpl. intros j Hj. rewrite lane_create_empty in Hj. destruct Hj.
  - simpl. intros l j _ Hj. rewrite lane_create_empty in Hj. destruct Hj.
  - intros j Hj. cbn [Greedy.gamma Greedy.init].
    assert (H1 : (1 <=? j) = true) by (apply Nat.leb_le; lia).
    assert (H2 : (j <=? Problem.n problem) = true) by (apply Nat.leb_le; lia).
    rewrite H1, H2. cbn [andb]. unfold pending_count. f_equal. f_equal.
    symmetry. apply forallb_filter_id.
    apply forallb_forall. intros i Hi. unfold scheduled. rewrite negb_involutive.
    apply unscheduled_In.
    apply (Permutation_in _ (Permutation_sym Hsets)). apply in_seq.
    pose proof (fi_range _ instance_ok j i Hj Hi). lia.
Qed.

Lemma init_timed : greedy_timed problem (Greedy.init problem).
Proof.
  constructor; simpl.
  - reflexivity.
  - intros l _. now rewrite lane_create_empty.
  - intros l k _ Hk. rewrite lane_create_empty in Hk. simpl in Hk. lia.
Qed.

(** Greedy's result: every switch scheduled, in an order of execution,
    at the start times of the rule. *)
Lemma run_order (st : Greedy.state) :
  Greedy.run problem = Some st ->
  greedy_inv problem st
  /\ Permutation (concat (Greedy.schedule st)) (seq 1 (Problem.n problem))
  /\ well_scheduled problem (Greedy.schedule st)
  /\ (exists stamp, executable problem (Greedy.schedule st) stamp)
  /\ greedy_timed problem st.
Proof.
  intro Hrun. unfold Greedy.run in Hrun.
  assert (Hinit : greedy_run_inv problem (Greedy.init problem)).
  { split; [exact init_partition | split; [exact init_order | exact init_timed]]. }
  destruct (loop_order _ _ _ Hinit Hrun) as ((Hinv & Hord & Htimed) & Hm & Hr).
  assert (Hperm : Permutation (concat (Greedy.schedule st)) (seq 1 (Problem.n problem))).
  { pose proof (gi_partition _ _ Hinv) as Hp. rewrite Hm, Hr in Hp.
    simpl in Hp. now rewrite app_nil_r in Hp. }
  split; [exact Hinv|]. split; [exact Hperm|]. split.
  - rewrite <- (scheduled_operations_concat problem _ (gi_lanes _ _ Hinv)) in Hperm.
    split.
    + apply (Permutation_NoDup (Permutation_sym Hperm)). apply seq_NoDup.
    + intros x Hx. apply (Permutation_in _ Hperm) in Hx. apply in_seq in Hx. lia.
  - split; [|exact Htimed].
    destruct Hord as (stamp & bound & Hex & _). now exists stamp.
Qed.

End GreedyOrder.


(** ** Greedy ends when its times stay within the range of double *)

Section GreedyTotal.
Variable problem : Problem.t.
Hypothesis instance_ok : feasible_instance problem.
Hypothesis staffed :
  (exists i, 1 <= i <= Problem.n problem /\ Problem.technology problem i = MANUAL) ->
  1 <= Problem.m problem.
Hypothesis p_nonnegative : forall i, (0 <= Problem.p problem i)%Q.

(** The criterion of an unscheduled switch and a team is within the
    total work. *)
Lemma greedy_criterion_bounded (st : Greedy.state) (x l : nat) :
  greedy_run_inv problem st ->
  In x (Greedy.S_manual st) ->
  1 <= l <= Problem.m problem ->
  (Greedy.t st (Greedy.phi st l) + Problem.p problem (Greedy.phi st l)
   + Problem.s problem (Greedy.phi st l) x l <= total_work problem)%Q.
Proof.
  intros (Hinv & (stamp & bound & Hex & _) & Htimed) Hx Hl.
  pose proof (inv_well_scheduled problem st Hinv) as Hwell.
  pose proof (scheduled_operations_concat problem _ (gi_lanes _ _ Hinv)) as Hops.
  assert (Hxs : In x (Greedy.S_manual st ++ Greedy.S_remote st))
    by (apply in_or_app; now left).
  pose proof (inv_set_range problem st x Hinv Hxs) as Hrange.
  assert (Hnew : ~ In x (scheduled_operations problem (Greedy.schedule st))).
  { rewrite Hops. intro Hin.
    pose proof (gi_partition _ _ Hinv) as Hpart.
    assert (Hnd : NoDup (concat (Greedy.schedule st)
                         ++ Greedy.S_manual st ++ Greedy.S_remote st)).
    { apply (Permutation_NoDup (Permutation_sym Hpart)). apply seq_NoDup. }
    destruct (NoDup_app_inv _ _ Hnd) as (_ & _ & Hdisj).
    exact (Hdisj x Hin Hxs). }
  assert (Htotal : (Problem.p problem 0
                    + Qsum (work problem)
                        (x :: scheduled_operations problem (Greedy.schedule st))
                    <= total_work problem)%Q).
  { apply within_total; [exact p_nonnegative | |].
    - constructor; [exact Hnew | exact (proj1 Hwell)].
    - intros y [<- | Hy]; [exact Hrange | exact (proj2 Hwell y Hy)]. }
  simpl in Htotal. unfold work in Htotal at 1.
  pose proof (p_nonnegative x) as Hpx.
  pose proof (p_nonnegative 0) as Hp0.
  pose proof (Qsum_nonnegative (work problem)
                (scheduled_operations problem (Greedy.schedule st))
                (work_nonnegative problem p_nonnegative)) as Hsum.
  rewrite (gt_phi _ _ Htimed l Hl).
  destruct (length (lane (Greedy.schedule st) l)) as [|k] eqn:Elen; simpl previous.
  - rewrite (gt_depot _ _ Htimed).
    pose proof (travel_le_longest problem 0 x l ltac:(lia) Hl). lra.
  - assert (Hlast : In (nth k (lane (Greedy.schedule st) l) 0)
                       (scheduled_operations problem (Greedy.schedule st)))
      by (apply lane_operation_scheduled; lia).
    destruct (rule_completes problem (Greedy.schedule st) stamp (greedy_times st)
                p_nonnegative Hwell Hex
                (f_equal Fin (gt_depot _ _ Htimed))
                (gt_rule _ _ Htimed) _ Hlast) as (q & Hq & Hdone).
    unfold greedy_times in Hq. injection Hq as Hq. rewrite <- Hq in Hdone.
    pose proof (travel_le_longest problem (nth k (lane (Greedy.schedule st) l) 0) x l
                  (proj2 (proj2 Hwell _ Hlast)) Hl).
    lra.
Qed.

Hypothesis in_double_range : within_double_range problem.

Lemma loop_total (fuel : nat) :
  forall st,
    greedy_run_inv problem st ->
    length (Greedy.S_manual st) + length (Greedy.S_remote st) <= fuel ->
    exists st', Greedy.loop problem fuel st = Some st'.
Proof.
  pose proof (fi_well_formed _ instance_ok) as Hwf.
  induction fuel as [|fuel IH]; intros st Hrun Hfuel.
  - simpl. assert (E : length (Greedy.S_manual st) + length (Greedy.S_remote st) = 0) by lia.
    rewrite E. simpl. now exists st.
  - simpl.
    destruct (length (Greedy.S_manual st) + length (Greedy.S_remote st) =? 0) eqn:E;
      [now exists st|].
    destruct (drain_ok problem instance_ok staffed (length (Greedy.S_remote st) + 1) st
                (proj1 Hrun))
      as (st1 & Hdrain & Hinv1 & Hm1 & Hr1 & Hready); [lia|].
    rewrite Hdrain.
    pose proof (drain_order problem instance_ok _ _ _ Hrun Hdrain) as Hrun1.
    destruct (0 <? length (Greedy.S_manual st1)) eqn:Eman.
    + apply Nat.ltb_lt in Eman.
      assert (Hne : Greedy.S_manual st1 ++ Greedy.S_remote st1 <> []).
      { destruct (Greedy.S_manual st1); [simpl in Eman; lia | discriminate]. }
      destruct (ready_exists problem instance_ok staffed st1 Hinv1 Hne) as (x & Hx & Hg).
      apply in_app_or in Hx. destruct Hx as [Hx | Hx];
        [|exfalso; now apply (Hready x Hx)].
      assert (Hm : 1 <= Problem.m problem).
      { apply staffed. exists x. split.
        - apply (inv_set_range problem st1 x Hinv1). apply in_or_app. now left.
        - now apply (gi_manual _ _ Hinv1). }
      pose proof (greedy_criterion_bounded st1 x 1 Hrun1 Hx (conj (le_n 1) Hm))
        as Hbound.
      assert (Hbelow : (Greedy.t st1 (Greedy.phi st1 1)
                        + Problem.p problem (Greedy.phi st1 1)
                        + Problem.s problem (Greedy.phi st1 1) x 1 < DBL_MAX)%Q).
      { pose proof DBL_MAX_positive. unfold within_double_range in in_double_range.
        lra. }
      destruct (choose_some problem st1 x 1 Hx Hg (conj (le_n 1) Hm) Hbelow)
        as (c & j & l & Hchoose).
      rewrite Hchoose.
      destruct (choose_spec problem st1 c j l Hchoose) as (Hj & Hl & Hgj).
      destruct (schedule_manual_inv problem Hwf st1 j l Hinv1 Hj Hl) as [Hinv2 Hperm].
      pose proof (Permutation_length Hperm) as Hlen. cbn [length] in Hlen.
      apply IH.
      * destruct Hrun1 as (_ & Hord1 & Htimed1).
        split; [exact Hinv2|]. split.
        -- now apply schedule_manual_order.
        -- now apply schedule_manual_timed.
      * change (Greedy.S_remote (Greedy.schedule_manual problem st1 j l))
          with (Greedy.S_remote st1).
        rewrite Hm1 in Hlen. lia.
    + apply Nat.ltb_ge in Eman.
      assert (Hman : Greedy.S_manual st1 = [])
        by (apply length_zero_iff_nil; lia).
      assert (Hrem : Greedy.S_remote st1 = []).
      { destruct (Greedy.S_remote st1) as [|y ys] eqn:Er; [reflexivity|].
        assert (Hne : Greedy.S_manual st1 ++ Greedy.S_remote st1 <> [])
          by (rewrite Hman, Er; discriminate).
        destruct (ready_exists problem instance_ok staffed st1 Hinv1 Hne)
          as (x & Hx & Hg).
        rewrite Hman in Hx. simpl in Hx. rewrite Er in Hx.
        exfalso. exact (Hready x Hx Hg). }
      apply IH; [exact Hrun1|]. rewrite Hman, Hrem. simpl. lia.
Qed.

(** Greedy returns, with every switch on the schedule. *)
Lemma run_total :
  exists st,
    Greedy.run problem = Some st
    /\ greedy_inv problem st
    /\ Permutation (concat (Greedy.schedule st)) (seq 1 (Problem.n problem)).
Proof.
  assert (Hinit : greedy_run_inv problem (Greedy.init problem)).
  { split; [exact (init_partition problem instance_ok)|].
    split; [exact (init_order problem) | exact (init_timed problem)]. }
  destruct (loop_total (Problem.n problem) (Greedy.init problem) Hinit) as [st Hrun].
  - pose proof (Permutation_length (gi_partition _ _ (proj1 Hinit))) as Hlen.
    rewrite !length_app, length_seq in Hlen. lia.
  - exists st. split; [exact Hrun|].
    destruct (run_order problem instance_ok st Hrun) as (Hinv & Hperm & _).
    split; assumption.
Qed.

End GreedyTotal.

(** C7, amended. On every feasible instance (acyclic precedence among
    the switches, every switch Manual or Remote) that has at least one
    team whenever it has a manual switch, whose processing times are not
    negative, and whose total work (the processing times, and for each
    switch the longest travel into it) is at most half of [DBL_MAX],
    Greedy terminates with every operation scheduled and the schedule
    it returns satisfies [is_feasible]. *)
Theorem greedy_feasible_when_staffed :
  forall problem : Problem.t,
    feasible_instance problem ->
    ((exists i, 1 <= i <= Problem.n problem /\ Problem.technology problem i = MANUAL) ->
     1 <= Problem.m problem) ->
    (forall i, (0 <= Problem.p problem i)%Q) ->
    within_double_range problem ->
    greedy_succeeds problem.
Proof.
  intros problem Hok Hstaffed Hp Hrange.
  destruct (run_total problem Hok Hstaffed Hp Hrange) as (st & Hrun & Hinv & Hperm).
  exists (Greedy.schedule st), (Greedy.makespan st).
  split; [unfold Greedy.solve; now rewrite Hrun|]. split.
  - intros i Hi.
    rewrite (scheduled_operations_concat problem _ (gi_lanes _ _ Hinv)).
    apply (Permutation_in _ (Permutation_sym Hperm)). apply in_seq. lia.
  - apply partition_is_feasible.
    + apply (fi_well_formed _ Hok).
    + exact Hp.
    + apply (gi_lanes _ _ Hinv).
    + exact Hperm.
    + apply (gi_lane0 _ _ Hinv).
    + apply (gi_lanes_manual _ _ Hinv).
Qed.

Lemma serial_within_double_range : within_double_range Examples.serial.
Proof. vm_compute. discriminate. Qed.

Lemma greedy_feasible_when_staffed_witness : greedy_succeeds Examples.serial.
Proof.
  apply (greedy_feasible_when_staffed Examples.serial serial_feasible_instance).
  - intros _. simpl. lia.
  - intros [|[|[|i]]]; vm_compute; discriminate.
  - exact serial_within_double_range.
Defined.

(** ** The ILS driver *)

Section DriverInvariant.
Variable shuffle : list nat -> mt19937 -> list nat * mt19937.
Variable problem : Problem.t.
Variable opt : ILS.options.
Variable ls_fuel : nat.
Variable start : entry.
Variable P : entry -> Prop.
Hypothesis search_keeps :
  forall generator r generator',
    ILS.local_search_call problem opt ls_fuel start generator = Some (r, generator') ->
    P r.

Lemma iteration_body_incumbent (st : ILS.loop_state) (r : ILS.iteration_result) :
  P (ILS.incumbent st) ->
  ILS.iteration_body shuffle problem opt ls_fuel start st = Some r ->
  P (ILS.incumbent (ILS.next r)).
Proof.
  intros Hst Hbody. unfold ILS.iteration_body in Hbody.
  destruct (ILS.perturbation_phase shuffle problem st) as [perturbed_entry generator1].
  destruct (ILS.local_search_call problem opt ls_fuel start generator1)
    as [[trial_entry generator2]|] eqn:Hcall; [|discriminate].
  injection Hbody as <-. simpl.
  destruct (common.less2 (snd trial_entry) (snd (ILS.incumbent st))); simpl.
  - exact (search_keeps _ _ _ Hcall).
  - exact Hst.
Qed.

Lemma main_loop_incumbent (remaining : nat) :
  forall st st',
    P (ILS.incumbent st) ->
    ILS.main_loop shuffle problem remaining opt ls_fuel start st = Some st' ->
    P (ILS.incumbent st').
Proof.
  induction remaining as [|remaining IH]; intros st st' Hst Hrun; simpl in Hrun.
  - destruct (ILS.continue opt st); injection Hrun as <-; exact Hst.
  - destruct (ILS.continue opt st); [|injection Hrun as <-; exact Hst].
    destruct (ILS.iteration_body shuffle problem opt ls_fuel start st) as [r|] eqn:Hbody;
      [|discriminate].
    apply (IH (ILS.next r) st'); [|exact Hrun].
    exact (iteration_body_incumbent st r Hst Hbody).
Qed.

End DriverInvariant.






(** With [vnd], every trial is the local search of the same start: the
    first incumbent again. *)
Lemma vnd_call (problem : Problem.t) (opt : ILS.options) (ls_fuel : nat)
      (e : entry) (generator : mt19937) (r : entry) (generator' : mt19937) :
  ILS.randomized_vnd opt = false ->
  ILS.local_search_call problem opt ls_fuel e generator = Some (r, generator') ->
  local_search.vnd ls_fuel problem e ILS.neighborhoods = Some r.
Proof.
  intros Hvnd Hcall. unfold ILS.local_search_call in Hcall. rewrite Hvnd in Hcall.
  destruct (local_search.vnd ls_fuel problem e ILS.neighborhoods) as [r0|];
    [|discriminate].
  now injection Hcall as <- _.
Qed.

(** X17. With the deterministic [vnd], [ILS::solve] returns the local
    optimum that [vnd] reaches from the greedy solution, whatever the
    seed, the limits and the perturbations: every iteration searches
    from the greedy solution again, and its trial, the incumbent itself,
    is never an improvement. *)
Theorem ils_with_vnd_returns_first_local_optimum :
  forall (shuffle : list nat -> mt19937 -> list nat * mt19937)
         (problem : Problem.t) (opt : ILS.options) (ls_fuel : nat)
         (schedule : Schedule) (makespan : double),
    ILS.randomized_vnd opt = false ->
    ILS.solve shuffle problem opt ls_fuel = Some (schedule, makespan) ->
    exists start_schedule start_makespan r,
      Greedy.solve problem = Some (start_schedule, start_makespan)
      /\ local_search.vnd ls_fuel problem
           (start_schedule, evaluate problem start_schedule) ILS.neighborhoods
         = Some r
      /\ schedule = fst r
      /\ makespan = fst (snd r).
Proof.
  intros shuffle problem opt ls_fuel schedule makespan Hvnd Hsolve.
  unfold ILS.solve, ILS.prepare in Hsolve.
  destruct (Greedy.solve problem) as [[start_schedule start_makespan]|] eqn:Hgreedy;
    [|discriminate].
  destruct (ILS.local_search_call problem opt ls_fuel
              (start_schedule, evaluate problem start_schedule) (ILS.seeded opt))
    as [[first_incumbent generator1]|] eqn:Hfirst; [|discriminate].
  pose proof (vnd_call problem opt ls_fuel _ _ _ _ Hvnd Hfirst) as Hv.
  destruct (ILS.main_loop shuffle problem (ILS.iterations_limit opt) opt ls_fuel _ _)
    as [st|] eqn:Hloop; [|discriminate].
  injection Hsolve as <- <-.
  assert (Hend : ILS.incumbent st = first_incumbent).
  { apply (main_loop_incumbent shuffle problem opt ls_fuel
             (start_schedule, evaluate problem start_schedule)
             (fun e => e = first_incumbent))
      with (remaining := ILS.iterations_limit opt)
           (st := {| ILS.incumbent := first_incumbent; ILS.iteration := 0;
                     ILS.perturbation_passes := 1;
                     ILS.iteration_last_improvement := 0;
                     ILS.generator := generator1 |}).
    - intros g r g' Hcall.
      pose proof (vnd_call problem opt ls_fuel _ _ _ _ Hvnd Hcall) as Hv'.
      congruence.
    - reflexivity.
    - exact Hloop. }
  exists start_schedule, start_makespan, first_incumbent.
  rewrite Hend. auto.
Qed.

Lemma ils_with_vnd_returns_first_local_optimum_witness :
  exists start_schedule start_makespan r,
    Greedy.solve Examples.twins = Some (start_schedule, start_makespan)
    /\ local_search.vnd 20 Examples.twins
         (start_schedule, evaluate Examples.twins start_schedule) ILS.neighborhoods
       = Some r
    /\ [[]; [1]; [2]] = fst r
    /\ Fin 1 = fst (snd r).
Proof.
  apply (ils_with_vnd_returns_first_local_optimum Examples.keep_order Examples.twins
           Examples.twins_options 20 [[]; [1]; [2]] (Fin 1)).
  - reflexivity.
  - vm_compute. reflexivity.
Defined.

(** ** The perturbation keeps feasible entries *)

Section PerturbationSound.
Variable shuffle : list nat -> mt19937 -> list nat * mt19937.
Hypothesis shuffle_Permutation : forall v g, Permutation v (fst (shuffle v g)).
Variable problem : Problem.t.
Hypothesis problem_wf : well_formed problem.
Hypothesis p_nonnegative : forall i, (0 <= Problem.p problem i)%Q.

Lemma chain_lanes_manual (chain : list nat) (idx : nat) :
  Permutation (seq 1 (Problem.m problem)) chain ->
  idx < length chain ->
  1 <= origin_of chain idx <= Problem.m problem
  /\ 1 <= target_of chain idx <= Problem.m problem.
Proof.
  intros Hperm Hidx.
  assert (Hin : forall k, k < length chain -> 1 <= nth k chain 0 <= Problem.m problem).
  { intros k Hk.
    pose proof (nth_In chain 0 Hk) as H.
    apply (Permutation_in _ (Permutation_sym Hperm)) in H. apply in_seq in H. lia. }
  split; [now apply Hin|].
  unfold target_of. apply Hin. apply Nat.mod_upper_bound. lia.
Qed.

(** An operation taken from a lane of a team and put on a lane of a
    team. *)
Lemma moved_rearranged (schedule : Schedule) (l_origin l_target idx_origin k : nat) :
  1 <= l_origin -> 1 <= l_target ->
  l_origin < length schedule -> l_target < length schedule ->
  idx_origin < length (lane schedule l_origin) ->
  rearranged schedule
    (inserted (set_lane schedule l_origin (erase (lane schedule l_origin) idx_origin))
       l_target (nth idx_origin (lane schedule l_origin) 0) k).
Proof.
  intros Ho Ht Hbo Hbt Hidx. unfold inserted.
  destruct (Nat.eq_dec l_target l_origin) as [-> | Hne].
  - rewrite lane_set_lane_same by exact Hbo. rewrite set_lane_set_lane.
    apply reordered_rearranged. apply one_lane_reordered; [exact Hbo|].
    rewrite insert_at_Permutation. now apply erase_Permutation.
  - rewrite lane_set_lane_other by exact Hne.
    apply redistributed_rearranged. apply two_lanes_redistributed; auto.
    rewrite insert_at_Permutation. rewrite <- Permutation_middle.
    rewrite (erase_Permutation (lane schedule l_origin) idx_origin 0 Hidx) at 1.
    reflexivity.
Qed.

Lemma ejection_outcome_sound (schedule : Schedule) (evaluation : double * double)
      (l_origin l_target idx_origin : nat) (indexes : list nat) (r : entry) :
  1 <= l_origin <= Problem.m problem ->
  1 <= l_target <= Problem.m problem ->
  idx_origin < length (lane schedule l_origin) ->
  sound_entry problem (schedule, evaluation) ->
  ejection_outcome problem schedule evaluation l_origin l_target idx_origin indexes r ->
  sound_entry problem r.
Proof.
  intros Ho Ht Hidx Hsound Hout.
  destruct Hout as [(pre & k & post & _ & _ & Hfin & ->) | [_ ->]]; [|exact Hsound].
  destruct Hsound as (Hfeas & _ & _). simpl in Hfeas.
  apply (is_feasible_partitioned problem schedule problem_wf p_nonnegative) in Hfeas.
  pose proof (proj1 Hfeas) as Hlen.
  split; [|split].
  - simpl. apply (is_feasible_partitioned problem _ problem_wf p_nonnegative).
    apply (rearranged_partitioned problem schedule); [|exact Hfeas].
    apply moved_rearranged; lia.
  - reflexivity.
  - exact Hfin.
Qed.

Lemma eject_sound (chain : list nat) (acc : entry * mt19937) (idx : nat) :
  Permutation (seq 1 (Problem.m problem)) chain ->
  idx < length chain ->
  sound_entry problem (fst acc) ->
  sound_entry problem (fst (ILS.eject shuffle problem chain acc idx)).
Proof.
  destruct acc as [[schedule evaluation] generator]. simpl fst.
  intros Hperm Hidx Hsound.
  destruct (lane schedule (origin_of chain idx)) as [|x v] eqn:Hlane.
  - unfold ILS.eject. fold (origin_of chain idx). rewrite Hlane. simpl. exact Hsound.
  - assert (Hne : lane schedule (origin_of chain idx) <> []) by (now rewrite Hlane).
    destruct (chain_lanes_manual chain idx Hperm Hidx) as [Ho Ht].
    assert (Hlen : length schedule = Problem.m problem + 1).
    { destruct Hsound as (Hfeas & _). simpl in Hfeas.
      apply (is_feasible_partitioned problem schedule problem_wf p_nonnegative) in Hfeas.
      apply Hfeas. }
    eapply ejection_outcome_sound;
      [| | | exact Hsound
       | apply (eject_outcome shuffle shuffle_Permutation problem chain schedule
                  evaluation generator idx Hlen Hperm Hidx Hne)];
      try assumption.
    apply Nat.mod_upper_bound. rewrite Hlane. discriminate.
Qed.

Lemma perturb_sound (e : entry) (generator : mt19937) :
  sound_entry problem e ->
  sound_entry problem (fst (ILS.perturb shuffle problem e generator)).
Proof.
  intro Hsound. unfold ILS.perturb.
  pose proof (shuffle_Permutation (seq 1 (Problem.m problem)) generator) as Hperm.
  destruct (shuffle (seq 1 (Problem.m problem)) generator) as [chain generator1].
  simpl in Hperm.
  assert (Hgen : forall idxs acc,
             (forall i, In i idxs -> i < length chain) ->
             sound_entry problem (fst acc) ->
             sound_entry problem
               (fst (fold_left (ILS.eject shuffle problem chain) idxs acc))).
  { induction idxs as [|i idxs IH]; intros acc Hin Hacc; [exact Hacc|].
    simpl. apply IH; [intros; apply Hin; now right|].
    apply eject_sound; [exact Hperm | apply Hin; now left | exact Hacc]. }
  apply Hgen; [|exact Hsound].
  intros i Hi. apply in_seq in Hi. lia.
Qed.

Lemma perturbation_phase_sound (st : ILS.loop_state) :
  sound_entry problem (ILS.incumbent st) ->
  sound_entry problem (fst (ILS.perturbation_phase shuffle problem st)).
Proof.
  intro Hsound. unfold ILS.perturbation_phase.
  generalize (seq 1 (ILS.perturbation_passes st - 1)) as passes.
  pose proof (perturb_sound (ILS.incumbent st) (ILS.generator st) Hsound) as H0.
  revert H0. generalize (ILS.perturb shuffle problem (ILS.incumbent st) (ILS.generator st)).
  intros acc Hacc passes. revert acc Hacc.
  induction passes as [|x passes IH]; intros acc Hacc; [exact Hacc|].
  simpl. apply IH. now apply perturb_sound.
Qed.

End PerturbationSound.

(** X18. The perturbation keeps feasible entries: from a schedule that
    [is_feasible] accepts, carried with its own evaluation and a finite
    makespan, [ILS::perturb], and the whole perturbation phase of an
    iteration, return such an entry again; operations only move among
    the lanes of the teams, and a move is committed only with a finite
    makespan. *)
Theorem perturb_keeps_feasibility :
  forall (shuffle : list nat -> mt19937 -> list nat * mt19937)
         (problem : Problem.t) (e : entry) (generator : mt19937)
         (st : ILS.loop_state),
    (forall v g, Permutation v (fst (shuffle v g))) ->
    well_formed problem ->
    (forall i, (0 <= Problem.p problem i)%Q) ->
    (sound_entry problem e ->
     sound_entry problem (fst (ILS.perturb shuffle problem e generator)))
    /\ (sound_entry problem (ILS.incumbent st) ->
        sound_entry problem (fst (ILS.perturbation_phase shuffle problem st))).
Proof.
  intros shuffle problem e generator st Hshuffle Hwf Hp. split.
  - apply (perturb_sound shuffle Hshuffle problem Hwf Hp).
  - apply (perturbation_phase_sound shuffle Hshuffle problem Hwf Hp).
Qed.

Lemma perturb_keeps_feasibility_witness :
  sound_entry Examples.serial
    (fst (ILS.perturb Examples.keep_order Examples.serial Examples.serial_start
            Examples.counting)).
Proof.
  apply (proj1 (perturb_keeps_feasibility Examples.keep_order Examples.serial
                  Examples.serial_start Examples.counting
                  {| ILS.incumbent := Examples.serial_start; ILS.iteration := 0;
                     ILS.perturbation_passes := 1;
                     ILS.iteration_last_improvement := 0;
                     ILS.generator := Examples.counting |}
                  (fun v g => Permutation_refl v)
                  serial_well_formed serial_p_nonnegative)).
  exact serial_start_sound.
Defined.

(** ** The constructor builds a consistent precedence graph *)

Lemma insert_In (x y : nat) (v : list nat) :
  In y (Loader.insert x v) <-> y = x \/ In y v.
Proof.
  induction v as [|a v IH]; simpl.
  - split; [intros [<- | []]; now left | intros [-> | []]; now left].
  - destruct (x <? a); [simpl; split; intros [H | H]; auto|].
    destruct (x =? a) eqn:E.
    + apply Nat.eqb_eq in E. subst a. simpl. split; [auto|].
      intros [-> | H]; [now left | exact H].
    + simpl. rewrite IH. split; intros [H | H]; auto.
      * destruct H as [H | H]; auto.
      * destruct H as [H | H]; auto.
Qed.

Lemma insert_sorted (x : nat) (v : list nat) :
  StronglySorted lt v -> StronglySorted lt (Loader.insert x v).
Proof.
  induction v as [|a v IH]; intro H; simpl.
  - constructor; constructor.
  - inversion H as [|? ? Hv Ha]; subst.
    destruct (x <? a) eqn:E1.
    + apply Nat.ltb_lt in E1. constructor; [exact H|].
      constructor; [exact E1|].
      rewrite Forall_forall in *. intros y Hy. specialize (Ha y Hy). lia.
    + destruct (x =? a) eqn:E2; [exact H|].
      apply Nat.ltb_ge in E1. apply Nat.eqb_neq in E2.
      constructor; [now apply IH|].
      rewrite Forall_forall in *. intros y Hy. apply insert_In in Hy.
      destruct Hy as [-> | Hy]; [lia | now apply Ha].
Qed.

Lemma sorted_NoDup (v : list nat) : StronglySorted lt v -> NoDup v.
Proof.
  induction 1 as [|a v Hv IH Ha]; constructor; [|exact IH].
  intro Hin. rewrite Forall_forall in Ha. specialize (Ha a Hin). lia.
Qed.

Lemma read_predecessor_inv (n j i : nat) (r r' : Loader.edges) :
  1 <= j <= n ->
  edges_inv n r ->
  Loader.read_predecessor n j (Some r) i = Some r' ->
  edges_inv n r'
  /\ forall a b, In a (Loader.predecessors r' b)
                 <-> In a (Loader.predecessors r b) \/ (a = i /\ b = j).
Proof.
  intros Hj Hinv Hread. simpl in Hread.
  destruct (n <? i) eqn:E; [discriminate|]. apply Nat.ltb_ge in E.
  injection Hread as <-.
  assert (Hpreds : forall a b,
             In a (upd (Loader.predecessors r) j
                     (Loader.insert i (Loader.predecessors r j)) b)
             <-> In a (Loader.predecessors r b) \/ (a = i /\ b = j)).
  { intros a b. destruct (Nat.eq_dec b j) as [-> | Hne].
    - rewrite upd_same, insert_In. tauto.
    - rewrite upd_other by exact Hne. tauto. }
  assert (Hsuccs : forall a b,
             In b (upd (Loader.successors r) i
                     (Loader.insert j (Loader.successors r i)) a)
             <-> In b (Loader.successors r a) \/ (a = i /\ b = j)).
  { intros a b. destruct (Nat.eq_dec a i) as [-> | Hne].
    - rewrite upd_same, insert_In. tauto.
    - rewrite upd_other by exact Hne. tauto. }
  split; [constructor; simpl | exact Hpreds].
  - intro b. destruct (Nat.eq_dec b j) as [-> | Hne].
    + rewrite upd_same. apply insert_sorted, (ei_predecessors _ _ Hinv).
    + rewrite upd_other by exact Hne. apply (ei_predecessors _ _ Hinv).
  - intro a. destruct (Nat.eq_dec a i) as [-> | Hne].
    + rewrite upd_same. apply insert_sorted, (ei_successors _ _ Hinv).
    + rewrite upd_other by exact Hne. apply (ei_successors _ _ Hinv).
  - intros a b. rewrite Hpreds, Hsuccs, (ei_edges _ _ Hinv a b). tauto.
  - intros a b Hab. apply Hpreds in Hab. destruct Hab as [Hab | [-> ->]].
    + exact (ei_range _ _ Hinv a b Hab).
    + lia.
Qed.

Lemma read_row_none (n j : nat) (row : list nat) :
  fold_left (Loader.read_predecessor n j) row None = None.
Proof.
  induction row as [|i row IH]; [reflexivity | exact IH].
Qed.

Lemma read_rows_none (n : nat) (pairs : list (nat * list nat)) :
  fold_left
    (fun acc (row : nat * list nat) =>
       fold_left (Loader.read_predecessor n (fst row)) (snd row) acc)
    pairs None = None.
Proof.
  induction pairs as [|x pairs IH]; [reflexivity|].
  cbn [fold_left]. now rewrite read_row_none.
Qed.

Lemma read_row_inv (n j : nat) (row : list nat) :
  1 <= j <= n ->
  forall r r',
    edges_inv n r ->
    fold_left (Loader.read_predecessor n j) row (Some r) = Some r' ->
    edges_inv n r'
    /\ forall a b, In a (Loader.predecessors r' b)
                   <-> In a (Loader.predecessors r b) \/ (In a row /\ b = j).
Proof.
  intro Hj. induction row as [|i row IH]; intros r r' Hinv Hread.
  - injection Hread as <-. split; [exact Hinv|]. intros a b. simpl. tauto.
  - cbn [fold_left] in Hread.
    destruct (Loader.read_predecessor n j (Some r) i) as [r1|] eqn:E.
    + destruct (read_predecessor_inv n j i r r1 Hj Hinv E) as [H1 Hedge1].
      destruct (IH r1 r' H1 Hread) as [H2 Hedge2].
      split; [exact H2|]. intros a b. rewrite Hedge2, Hedge1. simpl.
      split; intros H; intuition (subst; auto).
    + now rewrite read_row_none in Hread.
Qed.

Lemma read_rows_inv (n : nat) (pairs : list (nat * list nat)) :
  (forall j row, In (j, row) pairs -> 1 <= j <= n) ->
  forall r r',
    edges_inv n r ->
    fold_left
      (fun acc (row : nat * list nat) =>
         fold_left (Loader.read_predecessor n (fst row)) (snd row) acc)
      pairs (Some r) = Some r' ->
    edges_inv n r'
    /\ forall a b, In a (Loader.predecessors r' b)
                   <-> In a (Loader.predecessors r b)
                       \/ exists row, In (b, row) pairs /\ In a row.
Proof.
  induction pairs as [|[j row] pairs IH]; intros Hpairs r r' Hinv Hread.
  - injection Hread as <-. split; [exact Hinv|]. intros a b. simpl.
    split; [auto | intros [H | (row & [] & _)]; exact H].
  - cbn [fold_left fst snd] in Hread.
    destruct (fold_left (Loader.read_predecessor n j) row (Some r)) as [r1|] eqn:E.
    + destruct (read_row_inv n j row (Hpairs j row (or_introl eq_refl)) r r1 Hinv E)
        as [H1 Hedge1].
      destruct (IH (fun j' row' H => Hpairs j' row' (or_intror H)) r1 r' H1 Hread)
        as [H2 Hedge2].
      split; [exact H2|]. intros a b. rewrite Hedge2, Hedge1. split.
      * intros [[H | [Ha ->]] | (row' & Hin & Ha)]; auto.
        -- right. exists row. split; [now left | exact Ha].
        -- right. exists row'. split; [now right | exact Ha].
      * intros [H | (row' & [Heq | Hin] & Ha)]; auto.
        -- injection Heq as <- <-. left. right. auto.
        -- right. exists row'. auto.
    + now rewrite read_rows_none in Hread.
Qed.

(** X19. The reader of the precedence constraints builds a consistent
    graph: whenever it does not write outside the vectors, the sets
    [predecessors] and [successors] are ascending without duplicates,
    [j] is a successor of [i] exactly when [i] is a predecessor of [j],
    the predecessors of [j] are exactly the ids that the file lists for
    [j], and every edge lies within 0..n and 1..n.  An instance with
    these two vectors is well formed. *)
Theorem reader_builds_consistent_graph :
  forall (n : nat) (rows : list (list nat)) (r : Loader.edges),
    Loader.read_precedence n rows = Some r ->
    (forall j, StronglySorted lt (Loader.predecessors r j)
               /\ StronglySorted lt (Loader.successors r j))
    /\ (forall i j, In i (Loader.predecessors r j) <-> listed n rows j i)
    /\ (forall i j, In i (Loader.predecessors r j) -> i <= n /\ 1 <= j <= n)
    /\ forall m technology p s,
         well_formed
           (Problem.mk n m technology p s (Loader.predecessors r) (Loader.successors r)).
Proof.
  intros n rows r Hread. unfold Loader.read_precedence in Hread.
  assert (H0 : edges_inv n {| Loader.predecessors := fun _ => [];
                              Loader.successors := fun _ => [] |}).
  { constructor; simpl.
    - intro j. constructor.
    - intro i. constructor.
    - intros i j. tauto.
    - intros i j []. }
  destruct (read_rows_inv n (combine (seq 1 n) rows)) with (2 := H0) (3 := Hread)
    as [Hinv Hedges].
  { intros j row Hin. apply in_combine_l in Hin. apply in_seq in Hin. lia. }
  split; [|split; [|split]].
  - intro j. split; [apply (ei_predecessors _ _ Hinv) | apply (ei_successors _ _ Hinv)].
  - intros i j. rewrite Hedges. simpl. unfold listed. tauto.
  - apply (ei_range _ _ Hinv).
  - intros m technology p s. constructor; simpl.
    + intro j. apply sorted_NoDup, (ei_predecessors _ _ Hinv).
    + intro i. apply sorted_NoDup, (ei_successors _ _ Hinv).
    + apply (ei_edges _ _ Hinv).
Qed.

Lemma reader_builds_consistent_graph_witness : well_formed Examples.serial.
Proof.
  assert (Hread : exists r,
             Loader.read_precedence 2 [[]; [1]] = Some r
             /\ (forall j, Loader.predecessors r j = Problem.predecessors Examples.serial j)
             /\ (forall i, Loader.successors r i = Problem.successors Examples.serial i)).
  { eexists. split; [reflexivity|].
    split; intros [|[|[|k]]]; reflexivity. }
  destruct Hread as (r & Hread & Hp & Hs).
  destruct (reader_builds_consistent_graph 2 [[]; [1]] r Hread) as (_ & _ & _ & Hwf).
  specialize (Hwf 2 (fun _ => MANUAL) (fun _ => 0%Q) (fun _ _ _ => 0%Q)).
  destruct Hwf as [H1 H2 H3]. simpl in H1, H2, H3.
  constructor.
  - intro j. rewrite <- Hp. apply H1.
  - intro i. rewrite <- Hs. apply H2.
  - intros i j. rewrite <- Hp, <- Hs. apply H3.
Defined.

Lemma add_pending_fold (processed : nat -> bool) (ks : list nat) :
  forall pending,
    StronglySorted lt pending ->
    StronglySorted lt (fold_left (Loader.add_pending processed) ks pending)
    /\ forall x, In x (fold_left (Loader.add_pending processed) ks pending)
                 <-> In x pending \/ (In x ks /\ processed x = false).
Proof.
  induction ks as [|k ks IH]; intros pending Hs.
  - simpl. split; [exact Hs|]. intro x. tauto.
  - cbn [fold_left].
    assert (Hs' : StronglySorted lt (Loader.add_pending processed pending k)).
    { unfold Loader.add_pending. destruct (processed k); [exact Hs|].
      now apply insert_sorted. }
    destruct (IH _ Hs') as [H1 H2]. split; [exact H1|].
    intro x. rewrite H2. unfold Loader.add_pending. simpl.
    destruct (processed k) eqn:E.
    + split; [tauto|]. intros [H | [[<- | H] Hx]]; auto. congruence.
    + rewrite insert_In. split.
      * intros [[-> | H] | [H Hx]]; auto.
      * intros [H | [[<- | H] Hx]]; auto.
Qed.

Lemma insert_fold (ks : list nat) :
  forall pending,
    StronglySorted lt pending ->
    StronglySorted lt (fold_left (fun pd i => Loader.insert i pd) ks pending)
    /\ forall x, In x (fold_left (fun pd i => Loader.insert i pd) ks pending)
                 <-> In x pending \/ In x ks.
Proof.
  induction ks as [|k ks IH]; intros pending Hs.
  - simpl. split; [exact Hs|]. intro x. tauto.
  - cbn [fold_left].
    destruct (IH _ (insert_sorted k pending Hs)) as [H1 H2]. split; [exact H1|].
    intro x. rewrite H2, insert_In. simpl. split.
    + intros [[-> | H] | H]; auto.
    + intros [H | [<- | H]]; auto.
Qed.

Section Closure.
Variable n : nat.
Variable preds : nat -> list nat.
Variable j : nat.
Hypothesis preds_range : forall a b, In a (preds b) -> a <= n.

Lemma ancestor_range (x : nat) : ancestor preds j x -> x <= n.
Proof.
  intro H. destruct H as [i Hi | i k _ Hk]; eauto.
Qed.

Lemma closure_step (i : nat) (pending : list nat) (processed column : nat -> bool) :
  closure_inv preds j (i :: pending) processed column ->
  closure_inv preds j
    (fold_left (Loader.add_pending (upd processed i true)) (preds i) pending)
    (upd processed i true) (upd column i true).
Proof.
  intro Hinv.
  pose proof (ci_sorted _ _ _ _ _ Hinv) as Hsorted.
  inversion Hsorted as [|? ? Hs Hhead]; subst.
  assert (Hnotin : ~ In i pending).
  { pose proof (sorted_NoDup _ Hsorted) as Hnd. now inversion Hnd. }
  destruct (add_pending_fold (upd processed i true) (preds i) pending Hs) as [H1 H2].
  destruct (ci_pending _ _ _ _ _ Hinv i (or_introl eq_refl)) as [Hi Hanc].
  assert (Hmono : forall x, processed x = true -> upd processed i true x = true).
  { intros x Hx. destruct (Nat.eq_dec x i) as [-> | Hne];
      [apply upd_same | now rewrite upd_other]. }
  assert (Hnext : forall k, processed k = true \/ In k (i :: pending) ->
                            upd processed i true k = true
                            \/ In k (fold_left (Loader.add_pending (upd processed i true))
                                       (preds i) pending)).
  { intros k [Hk | [<- | Hk]].
    - left. now apply Hmono.
    - left. apply upd_same.
    - right. apply H2. now left. }
  constructor.
  - intro x. destruct (Nat.eq_dec x i) as [-> | Hne].
    + now rewrite !upd_same.
    + rewrite !upd_other by exact Hne. apply (ci_column _ _ _ _ _ Hinv).
  - exact H1.
  - intros x Hx. apply H2 in Hx. destruct Hx as [Hx | [Hx Hp]].
    + destruct (ci_pending _ _ _ _ _ Hinv x (or_intror Hx)) as [Hpx Hax].
      split; [|exact Hax]. rewrite upd_other; [exact Hpx|]. intros ->. contradiction.
    + split; [exact Hp|]. exact (ancestor_step preds j i x Hanc Hx).
  - intros x Hx. destruct (Nat.eq_dec x i) as [-> | Hne].
    + split; [exact Hanc|]. intros k Hk.
      destruct (upd processed i true k) eqn:E; [now left|].
      right. apply H2. right. auto.
    + rewrite upd_other in Hx by exact Hne.
      destruct (ci_processed _ _ _ _ _ Hinv x Hx) as [Hax Hkx].
      split; [exact Hax|]. intros k Hk. apply Hnext. now apply Hkx.
  - intros x Hx. apply Hnext. now apply (ci_direct _ _ _ _ _ Hinv).
Qed.

Lemma closure_done (processed column : nat -> bool) :
  closure_inv preds j [] processed column ->
  forall x, column x = true <-> ancestor preds j x.
Proof.
  intros Hinv x. rewrite (ci_column _ _ _ _ _ Hinv). split.
  - intro Hx. apply (ci_processed _ _ _ _ _ Hinv x Hx).
  - intro Hx. induction Hx as [i Hi | i k _ IH Hk].
    + destruct (ci_direct _ _ _ _ _ Hinv i Hi) as [H | []]. exact H.
    + destruct (ci_processed _ _ _ _ _ Hinv i IH) as [_ Hnext].
      destruct (Hnext k Hk) as [H | []]. exact H.
Qed.

Lemma closure_returns (fuel : nat) :
  forall pending processed column,
    closure_inv preds j pending processed column ->
    length (filter (fun x => negb (processed x)) (seq 0 (n + 1))) <= fuel ->
    exists result,
      Loader.closure fuel preds pending processed column = Some result
      /\ forall x, result x = true <-> ancestor preds j x.
Proof.
  induction fuel as [|fuel IH]; intros pending processed column Hinv Hfuel.
  - destruct pending as [|i pending].
    + exists column. split; [reflexivity | now apply (closure_done processed)].
    + exfalso.
      destruct (ci_pending _ _ _ _ _ Hinv i (or_introl eq_refl)) as [Hi Hanc].
      pose proof (ancestor_range i Hanc) as Hle.
      assert (Hin : In i (filter (fun x => negb (processed x)) (seq 0 (n + 1)))).
      { apply filter_In. split; [apply in_seq; lia | now rewrite Hi]. }
      destruct (filter _ _); [destruct Hin | simpl in Hfuel; lia].
  - destruct pending as [|i pending].
    + exists column. split; [reflexivity | now apply (closure_done processed)].
    + cbn [Loader.closure].
      destruct (ci_pending _ _ _ _ _ Hinv i (or_introl eq_refl)) as [Hi Hanc].
      pose proof (ancestor_range i Hanc) as Hle.
      apply IH; [now apply closure_step|].
      pose proof (filter_release_length processed (upd processed i true) i
                    (seq 0 (n + 1)) (seq_NoDup _ _) Hi) as Hcount.
      destruct (in_dec Nat.eq_dec i (seq 0 (n + 1))) as [_ | Hout].
      * rewrite Hcount in Hfuel; [lia|].
        intro x. unfold upd. destruct (Nat.eq_dec x i) as [-> | Hne].
        -- rewrite Nat.eqb_refl. now rewrite orb_true_r.
        -- apply Nat.eqb_neq in Hne. rewrite Hne. now rewrite orb_false_r.
      * exfalso. apply Hout. apply in_seq. lia.
Qed.

Lemma precedence_returns :
  exists column,
    Loader.precedence n preds j = Some column
    /\ forall i, column i = true <-> ancestor preds j i.
Proof.
  unfold Loader.precedence. apply closure_returns.
  - destruct (insert_fold (preds j) [] (SSorted_nil lt)) as [H1 H2].
    constructor.
    + reflexivity.
    + exact H1.
    + intros x Hx. split; [reflexivity|]. apply H2 in Hx.
      destruct Hx as [[] | Hx]. now apply ancestor_direct.
    + intros x Hx. discriminate.
    + intros i Hi. right. apply H2. now right.
  - etransitivity; [apply filter_length_le|]. rewrite length_seq. lia.
Qed.

End Closure.

(** X20. The precedence matrix is the ancestry of the graph: when the
    predecessor ids lie within the vectors, the loop that computes
    column [j] ends within n + 1 passes, and [precedence[i][j]] is true
    exactly when [i] is a predecessor of [j] or of a switch that must
    precede [j]. *)
Theorem precedence_matrix_is_ancestry :
  forall (n : nat) (preds : nat -> list nat) (j : nat),
    (forall a b, In a (preds b) -> a <= n) ->
    exists column,
      Loader.precedence n preds j = Some column
      /\ forall i, column i = true <-> ancestor preds j i.
Proof.
  intros n preds j Hrange. exact (precedence_returns n preds j Hrange).
Qed.

Lemma precedence_matrix_is_ancestry_witness :
  exists column,
    Loader.precedence 4 (Problem.predecessors Examples.detour) 4 = Some column
    /\ forall i, column i = true <-> ancestor (Problem.predecessors Examples.detour) 4 i.
Proof.
  apply (precedence_matrix_is_ancestry 4 (Problem.predecessors Examples.detour) 4).
  intros a b Hab. simpl in Hab.
  destruct b as [|[|[|[|[|b]]]]]; simpl in Hab; try (destruct Hab; fail).
  destruct Hab as [<- | []]. lia.
Defined.

(** ** The start times the simulator computes *)

Section StartTimes.
Variable problem : Problem.t.
Variable schedule : Schedule.
Hypothesis problem_wf : well_formed problem.
Hypothesis schedule_ok : well_scheduled problem schedule.

Lemma schedule_sim_inv : sim_inv problem schedule (Problem.final problem schedule).
Proof.
  destruct schedule_ok as [Hnd Hids].
  apply final_inv; [exact problem_wf | exact Hnd | intros x Hx; apply Hids in Hx; lia].
Qed.

(** What serving lane [l] does to the start times. *)
Lemma visit_lane_times (st : Problem.sim) (l : nat) :
  l <= Problem.m problem ->
  sim_inv problem schedule st ->
  ready schedule st l = true ->
  let j := nth (Problem.index st l) (lane schedule l) 0 in
  released problem schedule st j = false
  /\ 1 <= j
  /\ (forall k, In k (Problem.predecessors problem j) ->
                released problem schedule st k = true)
  /\ (forall x, x <> j ->
                Problem.st_t (Problem.visit_lane problem schedule st l) x
                = Problem.st_t st x)
  /\ Problem.st_t (Problem.visit_lane problem schedule st l) j
     = fold_left dmax
         (map (completion problem (Problem.st_t st)) (Problem.predecessors problem j))
         (arrival problem schedule (Problem.st_t st) l (Problem.index st l))
  /\ Problem.index (Problem.visit_lane problem schedule st l)
     = upd (Problem.index st) l (Problem.index st l + 1).
Proof.
  intros Hl Hinv Hready j.
  destruct schedule_ok as [Hnd Hids].
  pose proof Hready as Hready'. unfold ready in Hready'.
  apply andb_true_iff in Hready'. destruct Hready' as [Hidx Hpend].
  apply Nat.ltb_lt in Hidx. fold j in Hpend. apply Z.eqb_eq in Hpend.
  assert (Hjin : In j (scheduled_operations problem schedule))
    by (apply lane_operation_scheduled; assumption).
  assert (Hjnew : released problem schedule st j = false)
    by (apply head_not_released; assumption).
  assert (Hpreds : forall k, In k (Problem.predecessors problem j) ->
                             released problem schedule st k = true).
  { apply pending_count_zero. rewrite <- (inv_pendings _ _ _ Hinv j Hjin). exact Hpend. }
  assert (Hjself : ~ In j (Problem.predecessors problem j)).
  { intro H. apply Hpreds in H. congruence. }
  split; [exact Hjnew|]. split; [apply (Hids j Hjin)|]. split; [exact Hpreds|].
  unfold Problem.visit_lane.
  assert (E1 : (Problem.index st l <? length (lane schedule l)) = true)
    by now apply Nat.ltb_lt.
  assert (E2 : (Problem.pendings st j =? 0)%Z = true) by now apply Z.eqb_eq.
  rewrite E1. fold j. rewrite E2. cbn [Problem.st_t Problem.index].
  set (t0 := if negb (l =? 0)
             then upd (Problem.st_t st) j
                    (dadd (dadd (Problem.st_t st (Problem.location st l))
                             (Fin (Problem.p problem (Problem.location st l))))
                       (Fin (Problem.s problem (Problem.location st l) j l)))
             else upd (Problem.st_t st) j (Fin 0)).
  assert (Ht0other : forall k, k <> j -> t0 k = Problem.st_t st k).
  { intros k Hk. unfold t0. destruct (negb (l =? 0)); now apply upd_other. }
  split; [|split; [|reflexivity]].
  - intros x Hx. rewrite wait_predecessors_other by exact Hx. now apply Ht0other.
  - rewrite wait_predecessors_same by exact Hjself. f_equal.
    + apply map_ext_in. intros k Hk. unfold completion.
      rewrite Ht0other; [reflexivity|]. intros ->. now apply Hjself.
    + unfold t0, arrival. fold j.
      rewrite <- (inv_location _ _ _ Hinv l Hl).
      destruct (l =? 0); simpl; now rewrite upd_same.
Qed.

Lemma visit_lane_timed (st : Problem.sim) (l : nat) :
  l <= Problem.m problem ->
  sim_inv problem schedule st ->
  timed problem schedule st ->
  timed problem schedule (Problem.visit_lane problem schedule st l).
Proof.
  intros Hl Hinv Htimed.
  destruct (ready schedule st l) eqn:Hready;
    [|now rewrite (visit_lane_idle problem schedule st l Hready)].
  destruct (visit_lane_times st l Hl Hinv Hready)
    as (Hjnew & Hjpos & Hpreds & Hother & Hj & Hindex).
  set (j := nth (Problem.index st l) (lane schedule l) 0) in *.
  set (st' := Problem.visit_lane problem schedule st l) in *.
  assert (Hrelne : forall x, released problem schedule st x = true -> x <> j)
    by (intros x Hx ->; congruence).
  assert (Hprev : forall l' k, l' <= Problem.m problem -> k <= Problem.index st l' ->
                               previous schedule l' k <> j).
  { intros l' k Hl' Hk.
    destruct (previous_finite problem schedule st l' k Hinv Hl' Hk) as [_ [H | H]];
      [lia | now apply Hrelne]. }
  assert (Harrival : forall l' k, l' <= Problem.m problem -> k <= Problem.index st l' ->
                                  arrival problem schedule (Problem.st_t st') l' k
                                  = arrival problem schedule (Problem.st_t st) l' k).
  { intros l' k Hl' Hk. unfold arrival, completion.
    now rewrite (Hother _ (Hprev l' k Hl' Hk)). }
  intros l' k Hl' Hk. rewrite Hindex in Hk. unfold start_rule.
  assert (Hcase : (l' = l /\ k = Problem.index st l) \/ k < Problem.index st l').
  { destruct (Nat.eq_dec l' l) as [-> | Hne].
    - rewrite upd_same in Hk. lia.
    - rewrite upd_other in Hk by exact Hne. now right. }
  destruct Hcase as [[-> ->] | Hold].
  - fold j. rewrite Hj, (Harrival l _ Hl (le_n _)). f_equal.
    apply map_ext_in. intros i Hi. unfold completion.
    now rewrite (Hother i (Hrelne i (Hpreds i Hi))).
  - pose proof (inv_index _ _ _ Hinv l' Hl') as Hlen.
    assert (Hxrel : released problem schedule st (nth k (lane schedule l') 0) = true).
    { apply released_iff. exists l', k. repeat split; try lia. }
    rewrite (Hother _ (Hrelne _ Hxrel)), (Harrival l' k Hl' (Nat.lt_le_incl _ _ Hold)).
    rewrite (Htimed l' k Hl' Hold). f_equal.
    apply map_ext_in. intros i Hi. unfold completion.
    destruct (inv_released _ _ _ Hinv _ Hxrel) as [_ Hp].
    now rewrite (Hother i (Hrelne i (proj1 (Hp i Hi)))).
Qed.

Lemma final_timed : timed problem schedule (Problem.final problem schedule).
Proof.
  destruct schedule_ok as [Hnd Hids].
  assert (Hpos : forall x, In x (scheduled_operations problem schedule) -> 1 <= x)
    by (intros x Hx; apply Hids in Hx; lia).
  assert (Hround : forall st, sim_inv problem schedule st -> timed problem schedule st ->
                              timed problem schedule (Problem.round problem schedule st)).
  { intros st Hinv Htimed. unfold Problem.round.
    assert (H0 : sim_inv problem schedule
              {| Problem.st_t := Problem.st_t st; Problem.index := Problem.index st;
                 Problem.location := Problem.location st;
                 Problem.pendings := Problem.pendings st;
                 Problem.count := Problem.count st; Problem.feasibility := false |}
            /\ timed problem schedule
              {| Problem.st_t := Problem.st_t st; Problem.index := Problem.index st;
                 Problem.location := Problem.location st;
                 Problem.pendings := Problem.pendings st;
                 Problem.count := Problem.count st; Problem.feasibility := false |}).
    { split; [destruct Hinv; constructor; assumption | exact Htimed]. }
    revert H0.
    generalize {| Problem.st_t := Problem.st_t st; Problem.index := Problem.index st;
                  Problem.location := Problem.location st;
                  Problem.pendings := Problem.pendings st;
                  Problem.count := Problem.count st; Problem.feasibility := false |}.
    assert (Hls : forall l, In l (seq 0 (Problem.m problem + 1)) -> l <= Problem.m problem)
      by (intros l H; apply in_seq in H; lia).
    revert Hls. generalize (seq 0 (Problem.m problem + 1)) as ls.
    induction ls as [|l ls IH]; intros Hls s0 [H1 H2]; simpl; [exact H2|].
    apply IH; [intros; apply Hls; now right|]. split.
    - apply (visit_lane_inv problem schedule problem_wf Hnd Hpos);
        [apply Hls; now left | exact H1].
    - apply visit_lane_timed; [apply Hls; now left | exact H1 | exact H2]. }
  unfold Problem.final.
  assert (Hgen : forall fuel st, sim_inv problem schedule st -> timed problem schedule st ->
                                 timed problem schedule (Problem.rounds problem schedule fuel st)).
  { induction fuel as [|fuel IH]; intros st Hinv Htimed; simpl; [exact Htimed|].
    destruct ((Problem.count st <? Problem.n problem) && Problem.feasibility st);
      [|exact Htimed].
    apply IH; [|now apply Hround].
    now apply (round_inv problem schedule problem_wf Hnd Hpos). }
  apply Hgen.
  - apply (init_inv problem schedule).
  - intros l k _ Hk. simpl in Hk. lia.
Qed.

Lemma finite_served (l k : nat) :
  l <= Problem.m problem -> k < length (lane schedule l) ->
  is_finite (Problem.start_time problem schedule (nth k (lane schedule l) 0)) = true ->
  k < Problem.index (Problem.final problem schedule) l.
Proof.
  intros Hl Hk Hfin. destruct schedule_ok as [Hnd Hids].
  pose proof schedule_sim_inv as Hinv.
  assert (Hrel : released problem schedule (Problem.final problem schedule)
                          (nth k (lane schedule l) 0) = true).
  { destruct (released problem schedule (Problem.final problem schedule)
                (nth k (lane schedule l) 0)) eqn:E; [reflexivity|].
    unfold Problem.start_time in Hfin.
    rewrite (inv_unreleased _ _ _ Hinv _
               (proj1 (Hids _ (lane_operation_scheduled problem schedule l k Hl Hk))) E)
      in Hfin.
    discriminate. }
  apply released_iff in Hrel. destruct Hrel as (l2 & k2 & Hl2 & Hk2 & Hlen2 & E2).
  destruct (position_unique problem schedule Hnd l2 l k2 k Hl2 Hl Hlen2 Hk E2)
    as [-> ->].
  exact Hk2.
Qed.

Lemma start_time_rule (l k : nat) :
  l <= Problem.m problem -> k < length (lane schedule l) ->
  is_finite (Problem.start_time problem schedule (nth k (lane schedule l) 0)) = true ->
  start_rule problem schedule (Problem.start_time problem schedule) l k.
Proof.
  intros Hl Hk Hfin.
  apply (final_timed l k Hl). now apply finite_served.
Qed.

End StartTimes.

(** X21. The start times follow the schedule: every operation that the
    simulator serves starts at the greatest of the completion times of
    its predecessors and of its arrival, which is 0 on lane 0 and, on
    the lane of a team, the completion of the operation before it on the
    lane (the depot 0 at the head) plus the travel from there. *)
Theorem start_time_is_arrival_or_last_predecessor :
  forall (problem : Problem.t) (schedule : Schedule) (l k : nat),
    well_formed problem ->
    well_scheduled problem schedule ->
    l <= Problem.m problem -> k < length (lane schedule l) ->
    is_finite (Problem.start_time problem schedule (nth k (lane schedule l) 0)) = true ->
    let tv := Problem.start_time problem schedule in
    let j := nth k (lane schedule l) 0 in
    let i := previous schedule l k in
    tv j
    = fold_left dmax
        (map (fun h => dadd (tv h) (Fin (Problem.p problem h)))
           (Problem.predecessors problem j))
        (if l =? 0 then Fin 0
         else dadd (dadd (tv i) (Fin (Problem.p problem i)))
                   (Fin (Problem.s problem i j l))).
Proof.
  intros problem schedule l k Hwf Hok Hl Hk Hfin.
  exact (start_time_rule problem schedule Hwf Hok l k Hl Hk Hfin).
Qed.

Lemma start_time_is_arrival_or_last_predecessor_witness :
  Problem.start_time Examples.serial [[]; [1]; [2]] 2
  = fold_left dmax
      (map (fun h => dadd (Problem.start_time Examples.serial [[]; [1]; [2]] h)
                          (Fin (Problem.p Examples.serial h)))
         (Problem.predecessors Examples.serial 2))
      (dadd (dadd (Problem.start_time Examples.serial [[]; [1]; [2]] 0)
                  (Fin (Problem.p Examples.serial 0)))
            (Fin (Problem.s Examples.serial 0 2 2))).
Proof.
  apply (start_time_is_arrival_or_last_predecessor Examples.serial [[]; [1]; [2]] 2 0).
  - exact serial_well_formed.
  - exact serial_well_scheduled.
  - simpl. lia.
  - simpl. lia.
  - vm_compute. reflexivity.
Defined.

(** ** Greedy's start times are the simulator's *)

(** On a schedule that can be executed in some order, the rule has one
    solution. *)
Lemma start_rule_unique (problem : Problem.t) (schedule : Schedule)
      (stamp : nat -> nat) (tv1 tv2 : nat -> double) :
  executable problem schedule stamp ->
  tv1 0 = tv2 0 ->
  (forall l k, l <= Problem.m problem -> k < length (lane schedule l) ->
               start_rule problem schedule tv1 l k
               /\ start_rule problem schedule tv2 l k) ->
  forall x, In x (scheduled_operations problem schedule) -> tv1 x = tv2 x.
Proof.
  intros Hex Hdepot Hrules.
  assert (Hgen : forall bound x, stamp x < bound ->
                                 In x (scheduled_operations problem schedule) ->
                                 tv1 x = tv2 x).
  { induction bound as [|bound IH]; intros x Hx Hin; [lia|].
    destruct (scheduled_operation_position problem schedule x Hin)
      as (l & k & Hl & Hk & Hnth).
    destruct (Hrules l k Hl Hk) as [H1 H2]. unfold start_rule in H1, H2.
    rewrite Hnth in H1, H2. rewrite H1, H2. f_equal.
    - apply map_ext_in. intros i Hi. unfold completion.
      destruct (ex_edge _ _ _ Hex x i Hin Hi) as [Hiin Hlt].
      rewrite (IH i); [reflexivity | lia | exact Hiin].
    - unfold arrival. destruct (l =? 0); [reflexivity|].
      assert (Hprev : tv1 (previous schedule l k) = tv2 (previous schedule l k)).
      { destruct k as [|k']; simpl; [exact Hdepot|].
        apply IH.
        - pose proof (ex_lane _ _ _ Hex l k' (S k') Hl (Nat.lt_succ_diag_r k') Hk) as Hlt.
          rewrite Hnth in Hlt. lia.
        - apply lane_operation_scheduled; [exact Hl | lia]. }
      unfold completion. now rewrite Hprev. }
  intros x Hin. apply (Hgen (S (stamp x))); [lia | exact Hin].
Qed.

Section GreedyAgrees.
Variable problem : Problem.t.
Hypothesis instance_ok : feasible_instance problem.
Variable st : Greedy.state.
Hypothesis greedy_run : Greedy.run problem = Some st.

Lemma greedy_times_agree :
  forall i, 1 <= i <= Problem.n problem ->
            Problem.start_time problem (Greedy.schedule st) i = Fin (Greedy.t st i).
Proof.
  destruct (run_order problem instance_ok st greedy_run)
    as (Hinv & Hperm & Hsched & (stamp & Hex) & Htimed).
  pose proof (fi_well_formed _ instance_ok) as Hwf.
  intros i Hi.
  apply (start_rule_unique problem (Greedy.schedule st) stamp
           (Problem.start_time problem (Greedy.schedule st)) (greedy_times st) Hex).
  - unfold greedy_times. rewrite (gt_depot _ _ Htimed).
    apply (inv_depot _ _ _ (schedule_sim_inv problem _ Hwf Hsched)).
  - intros l k Hl Hk. split; [|apply (gt_rule _ _ Htimed l k Hl Hk)].
    apply (start_time_rule problem _ Hwf Hsched l k Hl Hk).
    apply (executable_finite problem _ stamp Hwf Hsched Hex).
    now apply lane_operation_scheduled.
  - rewrite (scheduled_operations_concat problem _ (gi_lanes _ _ Hinv)).
    apply (Permutation_in _ (Permutation_sym Hperm)). apply in_seq. lia.
Qed.

Hypothesis p_nonnegative : forall i, (0 <= Problem.p problem i)%Q.
Hypothesis s_nonnegative : forall i j l, (0 <= Problem.s problem i j l)%Q.

Lemma greedy_makespan_evaluated :
  deq (fst (evaluate problem (Greedy.schedule st)))
      (fold_left dmax
         (map (completion problem (Problem.start_time problem (Greedy.schedule st)))
            (lane (Greedy.schedule st) 0))
         (Fin (Greedy.makespan st))).
Proof.
  destruct (run_order problem instance_ok st greedy_run)
    as (Hinv & Hperm & Hsched & (stamp & Hex) & Htimed).
  pose proof (fi_well_formed _ instance_ok) as Hwf.
  pose proof (run_makespan_inv problem st greedy_run) as Hmk.
  pose proof (gi_lanes _ _ Hinv) as Hlen.
  assert (Hrange : forall l j, In j (lane (Greedy.schedule st) l) ->
                               1 <= j <= Problem.n problem).
  { intros l j Hj. apply (lane_In_concat _ l) in Hj.
    apply (Permutation_in _ Hperm) in Hj. apply in_seq in Hj. lia. }
  assert (Hfin : forall i, 1 <= i <= Problem.n problem ->
                           is_finite (Problem.start_time problem (Greedy.schedule st) i)
                           = true).
  { intros i Hi. rewrite (greedy_times_agree i Hi). reflexivity. }
  assert (Hdone : forall l j, In j (lane (Greedy.schedule st) l) ->
             completion problem (Problem.start_time problem (Greedy.schedule st)) j
             = Fin (Greedy.t st j + Problem.p problem j)).
  { intros l j Hj. unfold completion.
    now rewrite (greedy_times_agree j (Hrange l j Hj)). }
  assert (Hzero : (0 <= Greedy.makespan st)%Q).
  { destruct (mk_attained _ _ Hmk) as [-> | (l & j & Hl & Hj & ->)]; [lra|].
    pose proof (lane_member_bound _ _ _ Hj) as Hb.
    destruct (In_nth _ _ 0 Hj) as (k & Hk & Hnth).
    pose proof (completion_monotone problem (Greedy.schedule st) Hwf Hsched
                  p_nonnegative s_nonnegative Hfin l ltac:(lia) k 0 ltac:(lia)) as Hmono.
    pose proof (completion_step problem (Greedy.schedule st) Hwf Hsched
                  p_nonnegative s_nonnegative Hfin l 0 ltac:(lia) ltac:(lia)) as Hfirst.
    rewrite Nat.add_0_l, Hnth, (Hdone l j Hj) in Hmono.
    assert (Hdepot : Problem.start_time problem (Greedy.schedule st) 0 = Fin 0)
      by (apply (inv_depot _ _ _ (schedule_sim_inv problem _ Hwf Hsched))).
    simpl previous in Hfirst. unfold completion in Hfirst at 1.
    rewrite Hdepot in Hfirst.
    assert (Hin0 : In (nth 0 (lane (Greedy.schedule st) l) 0)
                      (lane (Greedy.schedule st) l)) by (apply nth_In; lia).
    rewrite (Hdone l _ Hin0) in Hfirst, Hmono.
    simpl in Hfirst, Hmono. pose proof (p_nonnegative 0). lra. }
  apply dle_antisym.
  - rewrite evaluate_fst. apply fold_dmax_le.
    + eapply dle_trans; [|apply fold_dmax_ge_init]. exact Hzero.
    + intros v Hv. unfold evaluated_completions in Hv.
      apply in_app_or in Hv. destruct Hv as [Hv | Hv].
      * apply in_flat_map in Hv. destruct Hv as (l & Hl & Hv). apply in_seq in Hl.
        destruct (length (lane (Greedy.schedule st) l) =? 0) eqn:E; simpl in Hv;
          [destruct Hv|].
        apply Nat.eqb_neq in E. destruct Hv as [<- | []].
        eapply dle_trans; [|apply fold_dmax_ge_init].
        assert (Hin : In (nth (length (lane (Greedy.schedule st) l) - 1)
                            (lane (Greedy.schedule st) l) 0)
                         (lane (Greedy.schedule st) l)) by (apply nth_In; lia).
        rewrite (Hdone l _ Hin). simpl.
        apply (mk_upper _ _ Hmk l); [lia | exact Hin].
      * now apply fold_dmax_ge.
  - apply fold_dmax_le.
    + destruct (mk_attained _ _ Hmk) as [E | (l & j & Hl & Hj & E)].
      * rewrite E, evaluate_fst. apply fold_dmax_ge_init.
      * rewrite E, <- (Hdone l j Hj).
        eapply dle_trans;
          [|apply (makespan_le_evaluate problem _ Hwf Hsched p_nonnegative
                     s_nonnegative Hfin)].
        rewrite makespan_fold. apply fold_dmax_ge. apply in_map. apply in_seq.
        pose proof (Hrange l j Hj). lia.
    + intros v Hv. rewrite evaluate_fst. apply fold_dmax_ge.
      unfold evaluated_completions. apply in_or_app. now right.
Qed.

End GreedyAgrees.

(** X22. Greedy's start times are the simulator's: on a feasible
    instance (acyclic precedence among the switches, every switch Manual
    or Remote), the start time [t[i]] that [Greedy::solve] holds for a
    switch when it returns is the start time that [Problem::start_time]
    computes for it on the schedule returned. *)
Theorem greedy_start_times_are_simulated :
  forall (problem : Problem.t) (st : Greedy.state),
    feasible_instance problem ->
    Greedy.run problem = Some st ->
    forall i, 1 <= i <= Problem.n problem ->
              Problem.start_time problem (Greedy.schedule st) i = Fin (Greedy.t st i).
Proof.
  intros problem st Hok Hrun. exact (greedy_times_agree problem Hok st Hrun).
Qed.

Lemma greedy_start_times_are_simulated_witness :
  exists st,
    Greedy.run Examples.serial = Some st
    /\ forall i, 1 <= i <= Problem.n Examples.serial ->
                 Problem.start_time Examples.serial (Greedy.schedule st) i
                 = Fin (Greedy.t st i).
Proof.
  destruct (Greedy.run Examples.serial) as [st|] eqn:Hrun.
  - exists st. split; [reflexivity|].
    exact (greedy_start_times_are_simulated Examples.serial st
             serial_feasible_instance Hrun).
  - vm_compute in Hrun. discriminate.
Defined.

(** X23. The makespan that [evaluate] gives the schedule of Greedy is
    the greatest of the makespan that [Greedy::solve] returns and the
    completion times of the remote maneuvers (feasible instance: acyclic
    precedence among the switches, every switch Manual or Remote; no
    negative processing or travel time): the two agree exactly when no
    remote maneuver completes later than the teams. *)
Theorem greedy_makespan_is_evaluated_over_teams :
  forall (problem : Problem.t) (st : Greedy.state),
    feasible_instance problem ->
    (forall i, (0 <= Problem.p problem i)%Q) ->
    (forall i j l, (0 <= Problem.s problem i j l)%Q) ->
    Greedy.run problem = Some st ->
    deq (fst (evaluate problem (Greedy.schedule st)))
        (fold_left dmax
           (map (fun i => dadd (Problem.start_time problem (Greedy.schedule st) i)
                               (Fin (Problem.p problem i)))
              (lane (Greedy.schedule st) 0))
           (Fin (Greedy.makespan st))).
Proof.
  intros problem st Hok Hp Hs Hrun.
  exact (greedy_makespan_evaluated problem Hok st Hrun Hp Hs).
Qed.

Lemma serial_s_nonnegative : forall i j l, (0 <= Problem.s Examples.serial i j l)%Q.
Proof.
  intros i j l. vm_compute. discriminate.
Qed.

Lemma greedy_makespan_is_evaluated_over_teams_witness :
  exists st,
    Greedy.run Examples.serial = Some st
    /\ deq (fst (evaluate Examples.serial (Greedy.schedule st)))
           (fold_left dmax
              (map (fun i => dadd (Problem.start_time Examples.serial
                                     (Greedy.schedule st) i)
                                  (Fin (Problem.p Examples.serial i)))
                 (lane (Greedy.schedule st) 0))
              (Fin (Greedy.makespan st))).
Proof.
  destruct (Greedy.run Examples.serial) as [st|] eqn:Hrun.
  - exists st. split; [reflexivity|].
    exact (greedy_makespan_is_evaluated_over_teams Examples.serial st
             serial_feasible_instance serial_p_nonnegative serial_s_nonnegative Hrun).
  - vm_compute in Hrun. discriminate.
Defined.

(** ** The scalar makespan of Greedy is that of the teams *)

Lemma concat_In_lane (schedule : Schedule) (x : nat) :
  In x (concat schedule) -> exists l, l < length schedule /\ In x (lane schedule l).
Proof.
  intro Hx. apply in_concat in Hx. destruct Hx as (v & Hv & Hx).
  destruct (In_nth _ _ [] Hv) as (l & Hl & Hnth).
  exists l. split; [exact Hl|]. unfold lane. now rewrite Hnth.
Qed.

Lemma greedy_makespan_of_manual (problem : Problem.t) (st : Greedy.state) :
  feasible_instance problem ->
  Greedy.run problem = Some st ->
  (forall i, 1 <= i <= Problem.n problem ->
             Problem.technology problem i = MANUAL ->
             exists l, 1 <= l <= Problem.m problem /\ In i (lane (Greedy.schedule st) l))
  /\ (forall l i, 1 <= l -> In i (lane (Greedy.schedule st) l) ->
                  Problem.technology problem i = MANUAL)
  /\ deq (Fin (Greedy.makespan st))
         (fold_left dmax
            (map (completion problem (Problem.start_time problem (Greedy.schedule st)))
               (filter (Greedy.has_technology problem MANUAL)
                  (seq 1 (Problem.n problem))))
            (Fin 0)).
Proof.
  intros Hok Hrun.
  destruct (run_order problem Hok st Hrun) as (Hinv & Hperm & Hsched & _ & _).
  pose proof (run_makespan_inv problem st Hrun) as Hmk.
  pose proof (run_makespan_nonnegative problem st Hrun) as Hzero.
  pose proof (greedy_times_agree problem Hok st Hrun) as Hagree.
  assert (Hthere : forall i, 1 <= i <= Problem.n problem ->
             Problem.technology problem i = MANUAL ->
             exists l, 1 <= l <= Problem.m problem
                       /\ In i (lane (Greedy.schedule st) l)).
  { intros i Hi Htech.
    assert (Hin : In i (concat (Greedy.schedule st)))
      by (apply (Permutation_in _ (Permutation_sym Hperm)); apply in_seq; lia).
    destruct (concat_In_lane _ _ Hin) as (l & Hl & Hil).
    rewrite (gi_lanes _ _ Hinv) in Hl.
    exists l. split; [|exact Hil].
    destruct l as [|l]; [|lia].
    pose proof (gi_lane0 _ _ Hinv i Hil). congruence. }
  assert (Hrange : forall l i, In i (lane (Greedy.schedule st) l) ->
                               1 <= i <= Problem.n problem).
  { intros l i Hi. apply (lane_In_concat _ l) in Hi.
    apply (Permutation_in _ Hperm) in Hi. apply in_seq in Hi. lia. }
  split; [exact Hthere|]. split; [exact (gi_lanes_manual _ _ Hinv)|].
  apply dle_antisym.
  - destruct (mk_attained _ _ Hmk) as [E | (l & j & Hl & Hj & E)].
    + rewrite E. apply fold_dmax_ge_init.
    + apply fold_dmax_ge. apply in_map_iff. exists j. split.
      * unfold completion. rewrite (Hagree j (Hrange l j Hj)). simpl. now rewrite E.
      * apply filter_In. split; [apply in_seq; pose proof (Hrange l j Hj); lia|].
        unfold Greedy.has_technology.
        now rewrite (gi_lanes_manual _ _ Hinv l j Hl Hj).
  - apply fold_dmax_le; [exact Hzero|].
    intros v Hv. apply in_map_iff in Hv. destruct Hv as (i & <- & Hi).
    apply filter_In in Hi. destruct Hi as [Hi Htech]. apply in_seq in Hi.
    apply Technology_eqb_eq in Htech.
    destruct (Hthere i ltac:(lia) Htech) as (l & Hl & Hil).
    unfold completion. rewrite (Hagree i ltac:(lia)). simpl.
    apply (mk_upper _ _ Hmk l i); [lia | exact Hil].
Qed.

(** C10. The scalar [Greedy::solve] returns is the greatest completion
    time [t[i] + p[i]] over the manual switches only, all of which are
    on the lanes of the teams (0 when there is none), [t] being the
    start times of the schedule returned; Greedy does return when a team
    exists for the manual switches and the times are within the range
    of double; and on the instance [remote_only] (one remote switch of
    unit time) the scalar is 0, strictly less than the [makespan] 1 of
    the schedule returned. *)
Theorem greedy_makespan_is_manual_only :
  (forall (problem : Problem.t) (schedule : Schedule) (makespan : Q),
      feasible_instance problem ->
      Greedy.solve problem = Some (schedule, makespan) ->
      (forall i, 1 <= i <= Problem.n problem ->
                 Problem.technology problem i = MANUAL ->
                 exists l, 1 <= l <= Problem.m problem /\ In i (lane schedule l))
      /\ (forall l i, 1 <= l -> In i (lane schedule l) ->
                      Problem.technology problem i = MANUAL)
      /\ deq (Fin makespan)
             (fold_left dmax
                (map (fun i => dadd (Problem.start_time problem schedule i)
                                    (Fin (Problem.p problem i)))
                   (filter (fun i => Technology_eqb (Problem.technology problem i) MANUAL)
                      (seq 1 (Problem.n problem))))
                (Fin 0)))
  /\
  (forall problem : Problem.t,
      feasible_instance problem ->
      ((exists i, 1 <= i <= Problem.n problem /\ Problem.technology problem i = MANUAL) ->
       1 <= Problem.m problem) ->
      (forall i, (0 <= Problem.p problem i)%Q) ->
      within_double_range problem ->
      exists schedule makespan, Greedy.solve problem = Some (schedule, makespan))
  /\
  (exists schedule makespan,
      (forall i, Problem.technology Examples.remote_only i = REMOTE)
      /\ Greedy.solve Examples.remote_only = Some (schedule, makespan)
      /\ dlt (Fin makespan) (Problem.makespan Examples.remote_only schedule) = true).
Proof.
  split; [|split].
  - intros problem schedule makespan Hok Hsolve.
    unfold Greedy.solve in Hsolve.
    destruct (Greedy.run problem) as [st|] eqn:Hrun; [|discriminate].
    injection Hsolve as <- <-.
    exact (greedy_makespan_of_manual problem st Hok Hrun).
  - intros problem Hok Hstaffed Hp Hrange.
    destruct (run_total problem Hok Hstaffed Hp Hrange) as (st & Hrun & _).
    exists (Greedy.schedule st), (Greedy.makespan st).
    unfold Greedy.solve. now rewrite Hrun.
  - exists [[1]; []], 0%Q. repeat split; vm_compute; reflexivity.
Qed.

Lemma greedy_makespan_is_manual_only_witness :
  exists schedule makespan,
    Greedy.solve Examples.serial = Some (schedule, makespan)
    /\ (forall i, 1 <= i <= Problem.n Examples.serial ->
                  Problem.technology Examples.serial i = MANUAL ->
                  exists l, 1 <= l <= Problem.m Examples.serial /\ In i (lane schedule l))
    /\ deq (Fin makespan)
           (fold_left dmax
              (map (fun i => dadd (Problem.start_time Examples.serial schedule i)
                                  (Fin (Problem.p Examples.serial i)))
                 (filter (fun i => Technology_eqb (Problem.technology Examples.serial i)
                                                  MANUAL)
                    (seq 1 (Problem.n Examples.serial))))
              (Fin 0)).
Proof.
  destruct (proj1 (proj2 greedy_makespan_is_manual_only) Examples.serial
              serial_feasible_instance) as (schedule & makespan & Hsolve).
  - intros _. simpl. lia.
  - exact serial_p_nonnegative.
  - exact serial_within_double_range.
  - exists schedule, makespan. split; [exact Hsolve|].
    destruct (proj1 greedy_makespan_is_manual_only Examples.serial schedule makespan
                serial_feasible_instance Hsolve) as (Hthere & _ & Hmax).
    split; assumption.
Defined.

(** ** The schedules the simulator serves in full *)

Section Served.
Variable problem : Problem.t.
Variable schedule : Schedule.
Hypothesis problem_wf : well_formed problem.
Hypothesis schedule_ok : well_scheduled problem schedule.






End Served.


(** ** Served schedules stay within the range of double *)




Section SimulatorRange.
Variable problem : Problem.t.
Variable schedule : Schedule.
Hypothesis problem_wf : well_formed problem.
Hypothesis schedule_ok : well_scheduled problem schedule.
Hypothesis p_nonnegative : forall i, (0 <= Problem.p problem i)%Q.
Hypothesis s_nonnegative : forall i j l, (0 <= Problem.s problem i j l)%Q.
Hypothesis served :
  forall j, In j (scheduled_operations problem schedule) ->
            is_finite (Problem.start_time problem schedule j) = true.


Hypothesis in_double_range : within_double_range problem.





End SimulatorRange.













(** ** What [main] reports of a heuristic solution *)




(** ** The random neighbors *)

Lemma draw_until_spec (fuel : nat) (f : nat -> nat) (ok : nat -> bool) :
  forall generator x generator',
    draw_until fuel f ok generator = Some (x, generator') ->
    ok x = true /\ exists r, x = f r.
Proof.
  induction fuel as [|fuel IH]; intros generator x generator' H; [discriminate|].
  cbn [draw_until] in H. destruct (draw generator) as [r g1].
  destruct (ok (f r)) eqn:E.
  - injection H as <- <-. split; [exact E | now exists r].
  - exact (IH _ _ _ H).
Qed.

Lemma accept_spec (problem : Problem.t) (feasible_only : bool)
      (neighbor_schedule : Schedule) (r : entry) :
  accept problem feasible_only neighbor_schedule = Some r ->
  r = (neighbor_schedule, evaluate problem neighbor_schedule)
  /\ (feasible_only = true -> is_finite (fst (snd r)) = true).
Proof.
  unfold accept. intro H.
  destruct (negb feasible_only || is_finite (fst (evaluate problem neighbor_schedule)))
    eqn:E; [|discriminate].
  injection H as <-. split; [reflexivity|].
  intros ->. simpl in E. exact E.
Qed.

(** What a random neighbor is: a member of the family, with its own
    evaluation, of finite makespan when feasibility is required. *)
Lemma neighbor_accepted (problem : Problem.t) (feasible_only : bool)
      (neighbors : list Schedule) (neighbor_schedule : Schedule) (r : entry) :
  In neighbor_schedule neighbors ->
  accept problem feasible_only neighbor_schedule = Some r ->
  In (fst r) neighbors
  /\ snd r = evaluate problem (fst r)
  /\ (feasible_only = true -> is_finite (fst (snd r)) = true).
Proof.
  intros Hin H. destruct (accept_spec problem feasible_only neighbor_schedule r H)
    as [-> Hfin].
  split; [exact Hin|]. split; [reflexivity | exact Hfin].
Qed.

Lemma Shift_any_neighbor (problem : Problem.t) (e : entry) (feasible_only : bool) :
  forall fuel generator r generator',
    Shift_any fuel problem e generator feasible_only = Some (r, generator') ->
    In (fst r) (Shift.neighbors problem (fst e))
    /\ snd r = evaluate problem (fst r)
    /\ (feasible_only = true -> is_finite (fst (snd r)) = true).
Proof.
  induction fuel as [|fuel IH]; intros generator r generator' H; [discriminate|].
  cbn [Shift_any] in H.
  destruct (draw_until (S fuel) (fun r0 => r0 mod (Problem.m problem + 1))
              (fun l => 2 <=? length (lane (fst e) l)) generator)
    as [[l g1]|] eqn:El; [|discriminate].
  destruct (draw_until_spec _ _ _ _ _ _ El) as [Hsize [r0 Hl]].
  apply Nat.leb_le in Hsize.
  destruct (draw g1) as [r1 g2].
  destruct (draw_until (S fuel) (fun r' => r' mod length (lane (fst e) l))
              (fun idx => negb (idx =? r1 mod length (lane (fst e) l))) g2)
    as [[idx_target g3]|] eqn:Et; [|discriminate].
  destruct (draw_until_spec _ _ _ _ _ _ Et) as [Hne [r2 Ht]].
  apply negb_true_iff in Hne. apply Nat.eqb_neq in Hne.
  destruct (accept problem feasible_only _) as [r'|] eqn:Ea.
  - injection H as <- <-.
    apply (neighbor_accepted problem feasible_only _ _ _) with (2 := Ea).
    apply shift_neighbors_family.
    exists l, (r1 mod length (lane (fst e) l)), idx_target.
    split; [|split; [|split; [|split; [exact Hne | reflexivity]]]].
    + subst l. pose proof (Nat.mod_upper_bound r0 (Problem.m problem + 1)). lia.
    + apply Nat.mod_upper_bound. lia.
    + subst idx_target. apply Nat.mod_upper_bound. lia.
  - exact (IH _ _ _ H).
Qed.

Lemma Exchange_any_neighbor (problem : Problem.t) (e : entry) (feasible_only : bool) :
  forall fuel generator r generator',
    Exchange_any fuel problem e generator feasible_only = Some (r, generator') ->
    In (fst r) (Exchange.neighbors problem (fst e))
    /\ snd r = evaluate problem (fst r)
    /\ (feasible_only = true -> is_finite (fst (snd r)) = true).
Proof.
  induction fuel as [|fuel IH]; intros generator r generator' H; [discriminate|].
  cbn [Exchange_any] in H.
  destruct (draw_until (S fuel) (fun r0 => r0 mod (Problem.m problem + 1))
              (fun l => 2 <=? length (lane (fst e) l)) generator)
    as [[l g1]|] eqn:El; [|discriminate].
  destruct (draw_until_spec _ _ _ _ _ _ El) as [Hsize [r0 Hl]].
  apply Nat.leb_le in Hsize.
  destruct (draw g1) as [r1 g2].
  destruct (draw_until (S fuel) (fun r' => r' mod length (lane (fst e) l))
              (fun idx => negb (idx =? r1 mod length (lane (fst e) l))) g2)
    as [[idx2 g3]|] eqn:Et; [|discriminate].
  destruct (draw_until_spec _ _ _ _ _ _ Et) as [Hne [r2 Ht]].
  apply negb_true_iff in Hne. apply Nat.eqb_neq in Hne.
  destruct (accept problem feasible_only _) as [r'|] eqn:Ea.
  - injection H as <- <-.
    apply (neighbor_accepted problem feasible_only _ _ _) with (2 := Ea).
    apply exchange_neighbors_family.
    set (idx1 := r1 mod length (lane (fst e) l)) in *.
    assert (H1 : idx1 < length (lane (fst e) l)) by (apply Nat.mod_upper_bound; lia).
    assert (H2 : idx2 < length (lane (fst e) l))
      by (subst idx2; apply Nat.mod_upper_bound; lia).
    assert (Hlm : l <= Problem.m problem).
    { subst l. pose proof (Nat.mod_upper_bound r0 (Problem.m problem + 1)). lia. }
    destruct (Nat.lt_ge_cases idx1 idx2) as [Hlt | Hge].
    + exists l, idx1, idx2. auto.
    + exists l, idx2, idx1.
      split; [exact Hlm|]. split; [lia|]. split; [exact H1|].
      f_equal. apply assign_comm. exact (not_eq_sym Hne).
  - exact (IH _ _ _ H).
Qed.

Lemma Reassignment_any_neighbor (problem : Problem.t) (e : entry) (feasible_only : bool) :
  forall fuel generator r generator',
    Reassignment_any fuel problem e generator feasible_only = Some (r, generator') ->
    (In (fst r) (Reassignment.neighbors problem (fst e))
     /\ snd r = evaluate problem (fst r)
     /\ (feasible_only = true -> is_finite (fst (snd r)) = true))
    /\ exists l_origin idx_origin l_target idx_target,
         idx_target < Nat.max 1 (length (lane (fst e) l_target))
         /\ l_target <> l_origin
         /\ fst r = inserted
                      (set_lane (fst e) l_origin
                         (erase (lane (fst e) l_origin) idx_origin))
                      l_target (nth idx_origin (lane (fst e) l_origin) 0) idx_target.
Proof.
  induction fuel as [|fuel IH]; intros generator r generator' H; [discriminate|].
  cbn [Reassignment_any] in H.
  destruct (Problem.m problem =? 0) eqn:Em; [discriminate|].
  apply Nat.eqb_neq in Em.
  destruct (draw_until (S fuel) (fun r0 => 1 + r0 mod Problem.m problem)
              (fun l => 1 <=? length (lane (fst e) l)) generator)
    as [[lo g1]|] eqn:Eo; [|discriminate].
  destruct (draw_until_spec _ _ _ _ _ _ Eo) as [Hsize [r0 Hlo]].
  apply Nat.leb_le in Hsize.
  destruct (draw_until (S fuel) (fun r0 => 1 + r0 mod Problem.m problem)
              (fun l => negb (l =? lo)) g1)
    as [[ltg g2]|] eqn:Et; [|discriminate].
  destruct (draw_until_spec _ _ _ _ _ _ Et) as [Hne [r1 Hlt]].
  apply negb_true_iff in Hne. apply Nat.eqb_neq in Hne.
  destruct (draw g2) as [r2 g3].
  set (io := r2 mod length (lane (fst e) lo)) in *.
  destruct (if 0 <? length (lane (fst e) ltg)
            then (fst (draw g3) mod length (lane (fst e) ltg), snd (draw g3))
            else (0, g3)) as [it g4] eqn:Eit.
  assert (Hit : it < Nat.max 1 (length (lane (fst e) ltg))).
  { destruct (0 <? length (lane (fst e) ltg)) eqn:E0; injection Eit as <- _.
    - apply Nat.ltb_lt in E0. apply Nat.max_lt_iff. right.
      apply Nat.mod_upper_bound. lia.
    - lia. }
  destruct (accept problem feasible_only _) as [r'|] eqn:Ea.
  - injection H as <- <-.
    destruct (accept_spec _ _ _ _ Ea) as [Hr' _].
    split.
    + apply (neighbor_accepted problem feasible_only _ _ _) with (2 := Ea).
      apply reassignment_neighbors_family.
      exists lo, io, ltg, it.
      pose proof (Nat.mod_upper_bound r0 (Problem.m problem) Em).
      pose proof (Nat.mod_upper_bound r1 (Problem.m problem) Em).
      split; [lia|].
      split; [apply Nat.mod_upper_bound; lia|].
      split; [lia|]. split; [exact Hne|]. split; [lia | reflexivity].
    + exists lo, io, ltg, it. split; [exact Hit|]. split; [exact Hne|].
      rewrite Hr'. reflexivity.
  - exact (IH _ _ _ H).
Qed.

Lemma swap_lanes_comm (schedule : Schedule) (l1 l2 : nat) (v1 v2 : list nat) :
  l1 <> l2 ->
  set_lane (set_lane schedule l1 v1) l2 v2 = set_lane (set_lane schedule l2 v2) l1 v1.
Proof.
  intro Hne. unfold set_lane. now apply assign_comm.
Qed.

Lemma DirectSwap_any_neighbor (problem : Problem.t) (e : entry) (feasible_only : bool) :
  forall fuel generator r generator',
    DirectSwap_any fuel problem e generator feasible_only = Some (r, generator') ->
    In (fst r) (DirectSwap.neighbors problem (fst e))
    /\ snd r = evaluate problem (fst r)
    /\ (feasible_only = true -> is_finite (fst (snd r)) = true).
Proof.
  induction fuel as [|fuel IH]; intros generator r generator' H; [discriminate|].
  cbn [DirectSwap_any] in H.
  destruct (Problem.m problem =? 0) eqn:Em; [discriminate|].
  apply Nat.eqb_neq in Em.
  destruct (draw_until (S fuel) (fun r0 => 1 + r0 mod Problem.m problem)
              (fun l => 1 <=? length (lane (fst e) l)) generator)
    as [[l1 g1]|] eqn:E1; [|discriminate].
  destruct (draw_until_spec _ _ _ _ _ _ E1) as [Hsize1 [r0 Hl1]].
  apply Nat.leb_le in Hsize1.
  destruct (draw_until (S fuel) (fun r0 => 1 + r0 mod Problem.m problem)
              (fun l => negb ((l =? l1) || (length (lane (fst e) l) <? 1))) g1)
    as [[l2 g2]|] eqn:E2; [|discriminate].
  destruct (draw_until_spec _ _ _ _ _ _ E2) as [Hok2 [r1 Hl2]].
  apply negb_true_iff in Hok2. apply orb_false_iff in Hok2.
  destruct Hok2 as [Hne Hsize2]. apply Nat.eqb_neq in Hne. apply Nat.ltb_ge in Hsize2.
  destruct (draw g2) as [ra g3]. destruct (draw g3) as [rb g4].
  set (idx1 := ra mod length (lane (fst e) l1)) in *.
  set (idx2 := rb mod length (lane (fst e) l2)) in *.
  destruct (accept problem feasible_only _) as [r'|] eqn:Ea.
  - injection H as <- <-.
    apply (neighbor_accepted problem feasible_only _ _ _) with (2 := Ea).
    apply direct_swap_neighbors_family.
    assert (H1 : idx1 < length (lane (fst e) l1)) by (apply Nat.mod_upper_bound; lia).
    assert (H2 : idx2 < length (lane (fst e) l2)) by (apply Nat.mod_upper_bound; lia).
    pose proof (Nat.mod_upper_bound r0 (Problem.m problem) Em).
    pose proof (Nat.mod_upper_bound r1 (Problem.m problem) Em).
    destruct (Nat.lt_ge_cases l1 l2) as [Hlt | Hge].
    + exists l1, l2, idx1, idx2.
      split; [lia|]. split; [exact Hlt|]. split; [lia|]. auto.
    + exists l2, l1, idx2, idx1.
      split; [lia|]. split; [lia|]. split; [lia|]. split; [exact H2|].
      split; [exact H1|].
      rewrite !lane_set_lane_other by congruence.
      apply swap_lanes_comm. congruence.
  - exact (IH _ _ _ H).
Qed.

(** X26. The random neighbor of Shift and of Exchange is a neighbor of
    the family that [best] scans, with its own evaluation, and, when
    feasibility is required, of finite makespan. *)
Theorem any_within_lane_is_a_neighbor :
  forall (problem : Problem.t) (e : entry) (feasible_only : bool) (fuel : nat)
         (generator : mt19937) (r : entry) (generator' : mt19937),
    (Shift_any fuel problem e generator feasible_only = Some (r, generator') ->
     In (fst r) (Shift.neighbors problem (fst e))
     /\ snd r = evaluate problem (fst r)
     /\ (feasible_only = true -> is_finite (fst (snd r)) = true))
    /\ (Exchange_any fuel problem e generator feasible_only = Some (r, generator') ->
        In (fst r) (Exchange.neighbors problem (fst e))
        /\ snd r = evaluate problem (fst r)
        /\ (feasible_only = true -> is_finite (fst (snd r)) = true)).
Proof.
  intros problem e feasible_only fuel generator r generator'. split.
  - apply Shift_any_neighbor.
  - apply Exchange_any_neighbor.
Qed.

Lemma any_within_lane_is_a_neighbor_witness :
  exists r,
    option_map fst (Shift_any 10 Examples.detour Examples.detour_entry
                      Examples.counting true) = Some r
    /\ In (fst r) (Shift.neighbors Examples.detour (fst Examples.detour_entry))
    /\ snd r = evaluate Examples.detour (fst r)
    /\ is_finite (fst (snd r)) = true.
Proof.
  destruct (Shift_any 10 Examples.detour Examples.detour_entry Examples.counting true)
    as [[r generator']|] eqn:H.
  - exists r. split; [reflexivity|].
    destruct (proj1 (any_within_lane_is_a_neighbor Examples.detour Examples.detour_entry
                       true 10 Examples.counting r generator') H) as (H1 & H2 & H3).
    split; [exact H1|]. split; [exact H2 | exact (H3 eq_refl)].
  - vm_compute in H. discriminate.
Defined.

(** X27. The random neighbor of Reassignment and of DirectSwap is a
    neighbor of the family that [best] scans, with its own evaluation,
    and, when feasibility is required, of finite makespan.  Reassignment
    draws the position of insertion among the operations of the target
    lane: it never puts the operation behind the last operation of a
    lane that is not empty, a move that [best] does try. *)
Theorem any_between_lanes_is_a_neighbor :
  forall (problem : Problem.t) (e : entry) (feasible_only : bool) (fuel : nat)
         (generator : mt19937) (r : entry) (generator' : mt19937),
    (Reassignment_any fuel problem e generator feasible_only = Some (r, generator') ->
     (In (fst r) (Reassignment.neighbors problem (fst e))
      /\ snd r = evaluate problem (fst r)
      /\ (feasible_only = true -> is_finite (fst (snd r)) = true))
     /\ exists l_origin idx_origin l_target idx_target,
          idx_target < Nat.max 1 (length (lane (fst e) l_target))
          /\ l_target <> l_origin
          /\ fst r = inserted
                       (set_lane (fst e) l_origin
                          (erase (lane (fst e) l_origin) idx_origin))
                       l_target (nth idx_origin (lane (fst e) l_origin) 0) idx_target)
    /\ (DirectSwap_any fuel problem e generator feasible_only = Some (r, generator') ->
        In (fst r) (DirectSwap.neighbors problem (fst e))
        /\ snd r = evaluate problem (fst r)
        /\ (feasible_only = true -> is_finite (fst (snd r)) = true)).
Proof.
  intros problem e feasible_only fuel generator r generator'. split.
  - apply Reassignment_any_neighbor.
  - apply DirectSwap_any_neighbor.
Qed.

Lemma any_between_lanes_is_a_neighbor_witness :
  exists r,
    option_map fst (Reassignment_any 10 Examples.serial Examples.serial_start
                      Examples.counting true) = Some r
    /\ In (fst r) (Reassignment.neighbors Examples.serial (fst Examples.serial_start))
    /\ snd r = evaluate Examples.serial (fst r)
    /\ is_finite (fst (snd r)) = true.
Proof.
  destruct (Reassignment_any 10 Examples.serial Examples.serial_start
              Examples.counting true) as [[r generator']|] eqn:H.
  - exists r. split; [reflexivity|].
    destruct (proj1 (any_between_lanes_is_a_neighbor Examples.serial
                       Examples.serial_start true 10 Examples.counting r generator') H)
      as ((H1 & H2 & H3) & _).
    split; [exact H1|]. split; [exact H2 | exact (H3 eq_refl)].
  - vm_compute in H. discriminate.
Defined.

(** ** NEH *)





Section NEHInvariant.
Variable problem : Problem.t.
Hypothesis instance_ok : feasible_instance problem.



Lemma neh_choose_spec (st : NEH.state) (j l idx : nat) :
  snd (NEH.choose problem st) = Some (j, l, idx) ->
  In j (NEH.S_manual st) /\ 1 <= l <= Problem.m problem
  /\ is_finite (NEH.objective problem (NEH.trial st j l idx)) = true.
Proof.
  set (ok := fun (acc : double * option (nat * nat * nat)) =>
               match snd acc with
               | None => True
               | Some (j0, l0, idx0) =>
                   In j0 (NEH.S_manual st) /\ 1 <= l0 <= Problem.m problem
                   /\ is_finite (NEH.objective problem (NEH.trial st j0 l0 idx0)) = true
               end).
  assert (Hidx : forall j0 l0 idxs acc,
             In j0 (NEH.S_manual st) -> 1 <= l0 <= Problem.m problem -> ok acc ->
             ok (fold_left
                   (fun (acc'' : double * option (nat * nat * nat)) idx_trial =>
                      if common.less (NEH.objective problem (NEH.trial st j0 l0 idx_trial))
                           (fst acc'')
                      then (NEH.objective problem (NEH.trial st j0 l0 idx_trial),
                            Some (j0, l0, idx_trial))
                      else acc'') idxs acc)).
  { intros j0 l0 idxs. induction idxs as [|i idxs IH]; intros acc Hj0 Hl0 Hacc;
      [exact Hacc|].
    cbn [fold_left]. apply IH; try assumption.
    destruct (common.less _ (fst acc)) eqn:E; [|exact Hacc].
    unfold ok. simpl. split; [exact Hj0|]. split; [exact Hl0|].
    destruct (less_finite_left _ _ E) as [x ->]. reflexivity. }
  assert (Hlanes : forall j0 ls acc,
             In j0 (NEH.S_manual st) ->
             (forall l0, In l0 ls -> 1 <= l0 <= Problem.m problem) -> ok acc ->
             ok (fold_left
                   (fun acc' l_trial =>
                      fold_left
                        (fun (acc'' : double * option (nat * nat * nat)) idx_trial =>
                           if common.less
                                (NEH.objective problem (NEH.trial st j0 l_trial idx_trial))
                                (fst acc'')
                           then (NEH.objective problem (NEH.trial st j0 l_trial idx_trial),
                                 Some (j0, l_trial, idx_trial))
                           else acc'')
                        (seq 0 (length (lane (NEH.schedule st) l_trial) + 1)) acc')
                   ls acc)).
  { intros j0 ls. induction ls as [|l0 ls IH]; intros acc Hj0 Hls Hacc; [exact Hacc|].
    cbn [fold_left]. apply IH; [exact Hj0 | intros; apply Hls; now right|].
    apply Hidx; [exact Hj0 | apply Hls; now left | exact Hacc]. }
  assert (Hall : forall js acc,
             (forall j0, In j0 js -> In j0 (NEH.S_manual st)) -> ok acc ->
             ok (fold_left
                   (fun acc j_trial =>
                      if (NEH.gamma st j_trial =? 0)%Z then
                        fold_left
                          (fun acc' l_trial =>
                             fold_left
                               (fun (acc'' : double * option (nat * nat * nat)) idx_trial =>
                                  if common.less
                                       (NEH.objective problem
                                          (NEH.trial st j_trial l_trial idx_trial))
                                       (fst acc'')
                                  then (NEH.objective problem
                                          (NEH.trial st j_trial l_trial idx_trial),
                                        Some (j_trial, l_trial, idx_trial))
                                  else acc'')
                               (seq 0 (length (lane (NEH.schedule st) l_trial) + 1)) acc')
                          (seq 1 (Problem.m problem)) acc
                      else acc) js acc)).
  { induction js as [|j0 js IH]; intros acc Hjs Hacc; [exact Hacc|].
    cbn [fold_left]. apply IH; [intros; apply Hjs; now right|].
    destruct (NEH.gamma st j0 =? 0)%Z; [|exact Hacc].
    apply Hlanes; [apply Hjs; now left | | exact Hacc].
    intros l0 Hl0. apply in_seq in Hl0. lia. }
  intro H.
  pose proof (Hall (NEH.S_manual st) (infinity, None) (fun j0 H0 => H0) I) as Hok.
  fold (NEH.choose problem st) in Hok. unfold ok in Hok. rewrite H in Hok. exact Hok.
Qed.









End NEHInvariant.

Section NEHTotal.
Variable problem : Problem.t.
Hypothesis instance_ok : feasible_instance problem.
Hypothesis staffed :
  (exists i, 1 <= i <= Problem.n problem /\ Problem.technology problem i = MANUAL) ->
  1 <= Problem.m problem.



End NEHTotal.


(** Without a team the search over [l_trial = 1..m] is empty. *)
Lemma neh_choose_unstaffed (problem : Problem.t) (st : NEH.state) :
  Problem.m problem = 0 ->
  NEH.choose problem st = (infinity, None).
Proof.
  intro Hm. unfold NEH.choose. rewrite Hm.
  generalize (infinity, @None (nat * nat * nat)).
  induction (NEH.S_manual st) as [|j js IH]; intro acc; [reflexivity|].
  cbn [fold_left]. destruct (NEH.gamma st j =? 0)%Z; apply IH.
Qed.

(** The loop over [S_remote] leaves [S_manual] as it is. *)
Lemma neh_drain_manual (problem : Problem.t) (fuel : nat) :
  forall st st',
    NEH.drain problem fuel st = Some st' ->
    NEH.S_manual st' = NEH.S_manual st.
Proof.
  assert (Hpass : forall js (acc : NEH.state * bool),
             NEH.S_manual
               (fst (fold_left
                       (fun (acc0 : NEH.state * bool) j =>
                          if (NEH.gamma (fst acc0) j =? 0)%Z
                          then (NEH.schedule_remote problem (fst acc0) j, false)
                          else acc0) js acc))
             = NEH.S_manual (fst acc)).
  { induction js as [|j js IH]; intro acc; [reflexivity|].
    cbn [fold_left]. rewrite IH.
    destruct (NEH.gamma (fst acc) j =? 0)%Z; reflexivity. }
  induction fuel as [|fuel IH]; intros st st' Hdrain; [discriminate|].
  simpl in Hdrain.
  pose proof (Hpass (NEH.S_remote st) (st, true)) as H1.
  fold (NEH.drain_pass problem st) in H1.
  destruct (NEH.drain_pass problem st) as [st1 stop]. simpl in H1.
  destruct stop; [injection Hdrain as <-; exact H1|].
  rewrite (IH st1 st' Hdrain). exact H1.
Qed.



(** X29. With no team and a manual switch among 1..n, [NEH::solve]
    returns nothing, however many passes its loop is given: the search
    over [l_trial = 1..m] is empty, so the loop goes on to read
    [best_j], [best_l], [best_idx], which nothing has set. *)
Theorem neh_reads_unset_choice_without_teams :
  forall (problem : Problem.t) (fuel : nat),
    Problem.m problem = 0 ->
    (exists i, 1 <= i <= Problem.n problem /\ Problem.technology problem i = MANUAL) ->
    NEH.solve problem fuel = None.
Proof.
  intros problem fuel Hm (i & Hi & Htech).
  assert (Hloop : forall fuel' st,
             NEH.S_manual st <> [] -> NEH.loop problem fuel' st = None).
  { induction fuel' as [|fuel' IH]; intros st Hne; simpl.
    - destruct (NEH.S_manual st); [now elim Hne | reflexivity].
    - destruct (length (NEH.S_manual st) + length (NEH.S_remote st) =? 0) eqn:E.
      + apply Nat.eqb_eq in E. destruct (NEH.S_manual st); [now elim Hne | simpl in E; lia].
      + destruct (NEH.drain problem (length (NEH.S_remote st) + 1) st) as [st1|] eqn:Ed;
          [|reflexivity].
        pose proof (neh_drain_manual problem _ _ _ Ed) as Hsame.
        replace (0 <? length (NEH.S_manual st1)) with true.
        * now rewrite (neh_choose_unstaffed problem st1 Hm).
        * symmetry. apply Nat.ltb_lt. rewrite Hsame.
          destruct (NEH.S_manual st); [now elim Hne | simpl; lia]. }
  unfold NEH.solve. rewrite Hloop; [reflexivity|].
  simpl. intro Hnil.
  assert (Hin : In i (filter (Greedy.has_technology problem MANUAL)
                        (seq 1 (Problem.n problem)))).
  { apply filter_In. split; [apply in_seq; lia|].
    unfold Greedy.has_technology. now rewrite Htech. }
  rewrite Hnil in Hin. destruct Hin.
Qed.

Lemma neh_reads_unset_choice_without_teams_witness :
  NEH.solve Examples.unstaffed 5 = None.
Proof.
  apply (neh_reads_unset_choice_without_teams Examples.unstaffed 5).
  - reflexivity.
  - exists 1. vm_compute. repeat split; lia.
Defined.

(** ** The insertion NEH chooses *)

Lemma less_false_below (c a a' : double) :
  common.less c a = false -> common.less a' a = true -> common.less c a' = false.
Proof.
  assert (Heps : (0 < common.THRESHOLD)%Q) by reflexivity.
  intros Hca Ha'.
  destruct (less_finite_left a' a Ha') as [y ->].
  destruct c as [x|]; [|reflexivity].
  destruct a as [z|]; [|discriminate].
  apply not_true_is_false. intro H.
  apply less_finite in H. apply less_finite in Ha'.
  assert (Hxz : common.less (Fin x) (Fin z) = true) by (apply less_finite; lra).
  congruence.
Qed.

(** A fold whose accumulator only goes down, and is, after an element,
    a bound of what the element covers, ends on a bound of all that its
    elements cover. *)
Lemma fold_left_bound {A B C : Type} (f : B -> A -> B) (good : B -> Prop)
      (below : B -> B -> Prop) (covers : A -> C -> Prop) (bound : B -> C -> Prop) :
  (forall b, below b b) ->
  (forall b1 b2 b3, below b1 b2 -> below b2 b3 -> below b1 b3) ->
  (forall b b' c, below b' b -> bound b c -> bound b' c) ->
  (forall b a, good b ->
               good (f b a) /\ below (f b a) b
               /\ forall c, covers a c -> bound (f b a) c) ->
  forall l b,
    good b ->
    good (fold_left f l b) /\ below (fold_left f l b) b
    /\ forall a c, In a l -> covers a c -> bound (fold_left f l b) c.
Proof.
  intros Hrefl Htrans Hdown Hstep. induction l as [|a l IH]; intros b Hb;
    cbn [fold_left].
  - split; [exact Hb|]. split; [apply Hrefl|]. intros a c [].
  - destruct (Hstep b a Hb) as (H1 & H2 & H3).
    destruct (IH (f b a) H1) as (G1 & G2 & G3).
    split; [exact G1|]. split; [exact (Htrans _ _ _ G2 H2)|].
    intros a' c [<- | Ha'] Hc.
    + exact (Hdown _ _ c G2 (H3 c Hc)).
    + exact (G3 a' c Ha' Hc).
Qed.

Lemma neh_choose_least (problem : Problem.t) (st : NEH.state) :
  let result := NEH.choose problem st in
  (forall best, snd result = Some best ->
                fst result
                = NEH.objective problem
                    (NEH.trial st (fst (fst best)) (snd (fst best)) (snd best)))
  /\ forall j l idx,
      In j (NEH.S_manual st) -> NEH.gamma st j = 0%Z ->
      1 <= l <= Problem.m problem ->
      idx <= length (lane (NEH.schedule st) l) ->
      common.less (NEH.objective problem (NEH.trial st j l idx)) (fst result) = false.
Proof.
  set (objective := fun c : nat * nat * nat =>
                      NEH.objective problem
                        (NEH.trial st (fst (fst c)) (snd (fst c)) (snd c))).
  set (f3 := fun j0 l0 (acc : double * option (nat * nat * nat)) idx0 =>
               if common.less (objective (j0, l0, idx0)) (fst acc)
               then (objective (j0, l0, idx0), Some (j0, l0, idx0))
               else acc).
  set (f2 := fun j0 (acc : double * option (nat * nat * nat)) l0 =>
               fold_left (f3 j0 l0)
                 (seq 0 (length (lane (NEH.schedule st) l0) + 1)) acc).
  set (f1 := fun (acc : double * option (nat * nat * nat)) j0 =>
               if (NEH.gamma st j0 =? 0)%Z
               then fold_left (f2 j0) (seq 1 (Problem.m problem)) acc
               else acc).
  set (good := fun acc : double * option (nat * nat * nat) =>
                 forall best, snd acc = Some best -> fst acc = objective best).
  set (below := fun acc' acc : double * option (nat * nat * nat) =>
                  fst acc' = fst acc \/ common.less (fst acc') (fst acc) = true).
  set (bound := fun (acc : double * option (nat * nat * nat)) (c : nat * nat * nat) =>
                  common.less (objective c) (fst acc) = false).
  assert (Hrefl : forall b, below b b) by (intro b; now left).
  assert (Htrans : forall b1 b2 b3, below b1 b2 -> below b2 b3 -> below b1 b3).
  { intros b1 b2 b3 [H12 | H12] [H23 | H23]; unfold below.
    - left. congruence.
    - right. now rewrite H12.
    - right. now rewrite <- H23.
    - right. exact (less_transitive _ _ _ H12 H23). }
  assert (Hdown : forall b b' c, below b' b -> bound b c -> bound b' c).
  { intros b b' c [Heq | Hless] Hc; unfold bound in *.
    - now rewrite Heq.
    - exact (less_false_below _ _ _ Hc Hless). }
  assert (H3 : forall j0 l0 idxs b,
             good b ->
             good (fold_left (f3 j0 l0) idxs b) /\ below (fold_left (f3 j0 l0) idxs b) b
             /\ forall idx0 c, In idx0 idxs -> c = (j0, l0, idx0) ->
                               bound (fold_left (f3 j0 l0) idxs b) c).
  { intros j0 l0.
    apply (fold_left_bound (f3 j0 l0) good below
             (fun idx0 c => c = (j0, l0, idx0)) bound Hrefl Htrans Hdown).
    intros b a Hb. unfold f3.
    destruct (common.less (objective (j0, l0, a)) (fst b)) eqn:E.
    - split; [intros best Hbest; simpl in *; congruence|].
      split; [right; exact E|].
      intros c ->. unfold bound. simpl. apply less_irreflexive.
    - split; [exact Hb|]. split; [now left|].
      intros c ->. exact E. }
  assert (H2 : forall j0 ls b,
             good b ->
             good (fold_left (f2 j0) ls b) /\ below (fold_left (f2 j0) ls b) b
             /\ forall l0 c,
                 In l0 ls ->
                 (exists idx0, In idx0 (seq 0 (length (lane (NEH.schedule st) l0) + 1))
                               /\ c = (j0, l0, idx0)) ->
                 bound (fold_left (f2 j0) ls b) c).
  { intros j0.
    apply (fold_left_bound (f2 j0) good below
             (fun l0 c => exists idx0,
                  In idx0 (seq 0 (length (lane (NEH.schedule st) l0) + 1))
                  /\ c = (j0, l0, idx0)) bound Hrefl Htrans Hdown).
    intros b a Hb. unfold f2.
    destruct (H3 j0 a (seq 0 (length (lane (NEH.schedule st) a) + 1)) b Hb)
      as (G1 & G2 & G3).
    split; [exact G1|]. split; [exact G2|].
    intros c (idx0 & Hidx & Hc). exact (G3 idx0 c Hidx Hc). }
  destruct (fold_left_bound f1 good below
              (fun j0 c => NEH.gamma st j0 = 0%Z
                           /\ exists l0, In l0 (seq 1 (Problem.m problem))
                              /\ exists idx0,
                                  In idx0 (seq 0 (length (lane (NEH.schedule st) l0) + 1))
                                  /\ c = (j0, l0, idx0))
              bound Hrefl Htrans Hdown)
    with (l := NEH.S_manual st) (b := (infinity, @None (nat * nat * nat)))
    as (Hgood & _ & Hbound).
  - intros b a Hb. unfold f1. destruct (NEH.gamma st a =? 0)%Z eqn:E.
    + destruct (H2 a (seq 1 (Problem.m problem)) b Hb) as (G1 & G2 & G3).
      split; [exact G1|]. split; [exact G2|].
      intros c (_ & l0 & Hl0 & Hc). exact (G3 l0 c Hl0 Hc).
    + split; [exact Hb|]. split; [now left|].
      intros c (Hg & _). rewrite Hg in E. discriminate.
  - intros best Hbest. discriminate.
  - cbv zeta. split; [exact Hgood|].
    intros j l idx Hj Hg Hl Hidx.
    apply (Hbound j (j, l, idx) Hj). split; [exact Hg|].
    exists l. split; [apply in_seq; lia|].
    exists idx. split; [apply in_seq; lia | reflexivity].
Qed.

(** X30. The insertion that [NEH::solve] commits is one of least
    objective, up to the threshold of the comparator: no ready manual
    switch, team and position give a schedule whose last completion
    compares less than that of the chosen insertion.  An insertion that
    deadlocks, of objective +infinity, is never chosen. *)
Theorem neh_chooses_least_insertion :
  forall (problem : Problem.t) (st : NEH.state) (best_j best_l best_idx : nat),
    snd (NEH.choose problem st) = Some (best_j, best_l, best_idx) ->
    is_finite (NEH.objective problem (NEH.trial st best_j best_l best_idx)) = true
    /\ forall j l idx,
        In j (NEH.S_manual st) -> NEH.gamma st j = 0%Z ->
        1 <= l <= Problem.m problem ->
        idx <= length (lane (NEH.schedule st) l) ->
        common.less (NEH.objective problem (NEH.trial st j l idx))
          (NEH.objective problem (NEH.trial st best_j best_l best_idx)) = false.
Proof.
  intros problem st best_j best_l best_idx Hbest.
  destruct (neh_choose_least problem st) as [Hvalue Hleast]. cbv zeta in *.
  split; [exact (proj2 (proj2 (neh_choose_spec problem st _ _ _ Hbest)))|].
  intros j l idx Hj Hg Hl Hidx.
  pose proof (Hvalue _ Hbest) as Hv. cbn [fst snd] in Hv.
  rewrite <- Hv. now apply Hleast.
Qed.

Lemma neh_chooses_least_insertion_witness :
  is_finite (NEH.objective Examples.twins
               (NEH.trial (NEH.init Examples.twins) 1 1 0)) = true
  /\ forall j l idx,
      In j (NEH.S_manual (NEH.init Examples.twins)) ->
      NEH.gamma (NEH.init Examples.twins) j = 0%Z ->
      1 <= l <= Problem.m Examples.twins ->
      idx <= length (lane (NEH.schedule (NEH.init Examples.twins)) l) ->
      common.less (NEH.objective Examples.twins
                     (NEH.trial (NEH.init Examples.twins) j l idx))
        (NEH.objective Examples.twins
           (NEH.trial (NEH.init Examples.twins) 1 1 0)) = false.
Proof.
  apply (neh_chooses_least_insertion Examples.twins (NEH.init Examples.twins) 1 1 0).
  vm_compute. reflexivity.
Defined.
